(** * Laminar execution core: prompt execution, agents and agent workflows

    A shallow embedding of [src/core/agent.ts], [src/core/prompt-instance.ts],
    [src/core/agent-workflow.ts] and [src/utils/token-aggregator.ts].

    Conventions of the embedding.
    - A JavaScript value of type [unknown] is a tree of data ([value]): what
      JSON holds, and BigInts.  Numbers are the integers; objects are
      association lists of their own properties and inherit from
      [Object.prototype], arrays from [Array.prototype], and a property
      access sees the inherited properties too.  Graphs with a cycle and
      objects with methods or accessors of their own are not data of the
      model.
    - A string is the sequence of the bytes of its UTF-8 encoding.
    - A thrown value is an [Error] object, with a name and a message
      ([JsError], [JsTypeError]); it is always truthy.
    - The number [maxRetries] is an integer, an infinity or [NaN].
    - Asynchronous code is sequential: every [await] is a plain call.
    - Code that can throw returns [Res]; code that touches the event bus, the
      model client or the id generator runs in the monad [M] over [World].
    - [Date.now()] and the [timestamp] / [duration] fields computed from it are
      left out of the records.
*)

From Stdlib Require Import ZArith List String Ascii Bool Lia Arith DecimalString.
Import ListNotations.
Local Open Scope string_scope.
Local Open Scope list_scope.

Set Implicit Arguments.
Set Warnings "-register-all".


(* ================================================================== *)
(** * Part I. The embedding *)
(* ================================================================== *)

(** ** JavaScript values *)

(** Data: what [JSON.parse] and literals build, and BigInts. *)
Inductive value : Type :=
| VUndefined
| VNull
| VBool (b : bool)
| VNum (n : Z)
| VBigInt (n : Z)
| VStr (s : string)
| VArr (items : list value)
| VObj (fields : list (string * value)).

(** A thrown [Error] object: its [name] (["Error"], ["TypeError"], ...) and
    its [message]. *)
Record error : Type := mkError {
  error_name : string;
  error_message : string;
}.

(** [new Error(message)] *)
Definition JsError (message : string) : error := mkError "Error" message.

(** [new TypeError(message)], as the engine throws it. *)
Definition JsTypeError (message : string) : error := mkError "TypeError" message.

(** Result of code that may throw. *)
Inductive Res (A : Type) : Type :=
| Ok (a : A)
| Err (e : error).
Arguments Ok {A} a.
Arguments Err {A} e.

(** One computation after another; an exception ends both. *)
Definition and_then {A B} (r : Res A) (f : A -> Res B) : Res B :=
  match r with
  | Ok a => f a
  | Err e => Err e
  end.

(** The results of computations made in order, up to the first exception. *)
Fixpoint collect {A} (rs : list (Res A)) : Res (list A) :=
  match rs with
  | [] => Ok []
  | r :: rest => and_then r (fun a => and_then (collect rest) (fun l => Ok (a :: l)))
  end.

Definition string_of_Z (n : Z) : string := NilZero.string_of_int (Z.to_int n).

(** [String(e)] for an [Error] object, that is [Error.prototype.toString]:
    the name, a colon and the message, or only one of them when the other
    is empty. *)
Definition String_error (e : error) : string :=
  match error_name e, error_message e with
  | EmptyString, message => message
  | name, EmptyString => name
  | name, message => name ++ ": " ++ message
  end.

(** [v ?? d] with [undefined]/[null] read as [None]. *)
Definition nullish {A} (o : option A) (d : option A) : option A :=
  match o with Some a => Some a | None => d end.

(** Own property lookup in an object literal. *)
Fixpoint assoc {A} (key : string) (fields : list (string * A)) : option A :=
  match fields with
  | [] => None
  | (k, v) :: rest => if String.eqb k key then Some v else assoc key rest
  end.

(** What [String(v)] throws for an object without a usable [toString]. *)
Definition not_primitive_error : error :=
  JsTypeError "Cannot convert object to primitive value".

(** [String(v)].  An array joins the strings of its elements, [null] and
    [undefined] giving the empty string.  An object answers with the
    inherited [Object.prototype.toString] unless it has a property
    [toString] of its own: that one is data, not a function, and so is the
    value the inherited [valueOf] returns, so the conversion throws. *)
Fixpoint js_String (v : value) : Res string :=
  match v with
  | VUndefined => Ok "undefined"
  | VNull => Ok "null"
  | VBool true => Ok "true"
  | VBool false => Ok "false"
  | VNum n => Ok (string_of_Z n)
  | VBigInt n => Ok (string_of_Z n)
  | VStr s => Ok s
  | VArr items =>
      and_then
        (collect (map (fun x => match x with
                                | VUndefined | VNull => Ok EmptyString
                                | _ => js_String x
                                end) items))
        (fun parts => Ok (String.concat "," parts))
  | VObj fields =>
      match assoc "toString" fields with
      | Some _ => Err not_primitive_error
      | None => Ok "[object Object]"
      end
  end.

(** An array index key: the canonical decimal spelling of a position. *)
Definition array_index (key : string) : option nat :=
  match NilEmpty.uint_of_string key with
  | Some u =>
      let i := Nat.of_uint u in
      if String.eqb (NilZero.string_of_uint (Nat.to_uint i)) key then Some i else None
  | None => None
  end.

(** *** Inherited properties

    Objects and arrays inherit from [Object.prototype] and
    [Array.prototype].  A property access can therefore reach, besides
    data, these two objects and the functions they hold (ECMAScript 2023,
    with the legacy properties every engine has). *)
Inductive Builtin : Type :=
| ObjectPrototype
| ArrayPrototype
| BuiltinFunction (name : string).

Inductive Reached : Type :=
| Data (v : value)
| Built (b : Builtin).

(** The methods of [Object.prototype]; [constructor] and the accessor
    [__proto__] are treated apart. *)
Definition Object_prototype_methods : list string :=
  ["__defineGetter__"; "__defineSetter__"; "hasOwnProperty"; "__lookupGetter__";
   "__lookupSetter__"; "isPrototypeOf"; "propertyIsEnumerable"; "toString";
   "valueOf"; "toLocaleString"].

(** The methods of [Array.prototype]. *)
Definition Array_prototype_methods : list string :=
  ["at"; "concat"; "copyWithin"; "fill"; "find"; "findIndex"; "findLast";
   "findLastIndex"; "lastIndexOf"; "pop"; "push"; "reverse"; "shift"; "unshift";
   "slice"; "sort"; "splice"; "includes"; "indexOf"; "join"; "keys"; "entries";
   "values"; "forEach"; "filter"; "flat"; "flatMap"; "map"; "every"; "some";
   "reduce"; "reduceRight"; "toLocaleString"; "toString"; "toReversed";
   "toSorted"; "toSpliced"; "with"].

Definition listed (key : string) (names : list string) : bool :=
  existsb (String.eqb key) names.

(** A property of [Object.prototype] other than [__proto__]. *)
Definition Object_prototype_get (key : string) : option Reached :=
  if String.eqb key "constructor" then Some (Built (BuiltinFunction "Object"))
  else if listed key Object_prototype_methods then Some (Built (BuiltinFunction key))
  else None.

(** A property of [Array.prototype], its own or inherited, other than
    [__proto__]. *)
Definition Array_prototype_get (key : string) : option Reached :=
  if String.eqb key "constructor" then Some (Built (BuiltinFunction "Array"))
  else if String.eqb key "length" then Some (Data (VNum 0))
  else if listed key Array_prototype_methods then Some (Built (BuiltinFunction key))
  else Object_prototype_get key.

(** [value[key]] where [key in value] holds, [None] where it does not:
    own properties first, then the prototype chain.  The accessor
    [__proto__] answers with the prototype of the object asked. *)
Definition get_property (key : string) (r : Reached) : option Reached :=
  match r with
  | Data (VObj fields) =>
      match assoc key fields with
      | Some x => Some (Data x)
      | None =>
          if String.eqb key "__proto__" then Some (Built ObjectPrototype)
          else Object_prototype_get key
      end
  | Data (VArr items) =>
      if String.eqb key "length" then Some (Data (VNum (Z.of_nat (List.length items))))
      else match array_index key with
           | Some i =>
               if Nat.ltb i (List.length items) then Some (Data (nth i items VUndefined))
               else None
           | None =>
               if String.eqb key "__proto__" then Some (Built ArrayPrototype)
               else Array_prototype_get key
           end
  | Built ObjectPrototype =>
      if String.eqb key "__proto__" then Some (Data VNull)
      else Object_prototype_get key
  | Built ArrayPrototype =>
      if String.eqb key "__proto__" then Some (Built ObjectPrototype)
      else Array_prototype_get key
  | _ => None
  end.

(** [value && typeof value === 'object'] *)
Definition is_object (r : Reached) : bool :=
  match r with
  | Data (VObj _) | Data (VArr _) | Built ObjectPrototype | Built ArrayPrototype => true
  | _ => false
  end.

(** [key in value], for an object. *)
Definition key_in (key : string) (r : Reached) : bool :=
  match get_property key r with
  | Some _ => true
  | None => false
  end.

(** [value[key]] *)
Definition get_key (key : string) (r : Reached) : Reached :=
  match get_property key r with
  | Some x => x
  | None => Data VUndefined
  end.

(** [String(value)] for what a property access can reach; the text of a
    built-in function is the engine's. *)
Definition String_reached (r : Reached) : Res string :=
  match r with
  | Data v => js_String v
  | Built ObjectPrototype => Ok "[object Object]"
  | Built ArrayPrototype => Ok EmptyString
  | Built (BuiltinFunction name) => Ok ("function " ++ name ++ "() { [native code] }")%string
  end.

(** ** Strings: [trim], [split('.')] and the placeholder pattern

    A string is the sequence of the bytes of its UTF-8 encoding. *)

Definition byte_is (c : ascii) (n : N) : bool := N.eqb (N_of_ascii c) n.

Definition byte_in (c : ascii) (lo hi : N) : bool :=
  N.leb lo (N_of_ascii c) && N.leb (N_of_ascii c) hi.

(** White space at the head of [s], as [trim] understands it (the
    [WhiteSpace] and [LineTerminator] code points: U+0009 to U+000D, U+0020,
    U+00A0, U+1680, U+2000 to U+200A, U+2028, U+2029, U+202F, U+205F, U+3000,
    U+FEFF): the text after it. *)
Definition strip_space (s : string) : option string :=
  match s with
  | String c s1 =>
      if byte_is c 32 || byte_in c 9 13 then Some s1
      else
        match s1 with
        | String d s2 =>
            if byte_is c 194 && byte_is d 160 then Some s2
            else
              match s2 with
              | String e s3 =>
                  if (byte_is c 225 && byte_is d 154 && byte_is e 128)
                     || (byte_is c 226 && byte_is d 128
                         && (byte_in e 128 138 || byte_is e 168 || byte_is e 169
                             || byte_is e 175))
                     || (byte_is c 226 && byte_is d 129 && byte_is e 159)
                     || (byte_is c 227 && byte_is d 128 && byte_is e 128)
                     || (byte_is c 239 && byte_is d 187 && byte_is e 191)
                  then Some s3
                  else None
              | EmptyString => None
              end
        | EmptyString => None
        end
  | EmptyString => None
  end.

(** [fuel] bounds the scan by the length of the text. *)
Fixpoint trim_start_from (fuel : nat) (s : string) : string :=
  match fuel with
  | O => s
  | S fuel' =>
      match strip_space s with
      | Some rest => trim_start_from fuel' rest
      | None => s
      end
  end.

Definition trim_start (s : string) : string := trim_start_from (String.length s) s.

(** [s] is white space throughout. *)
Definition all_space (s : string) : bool :=
  match trim_start s with
  | EmptyString => true
  | _ => false
  end.

Fixpoint trim_end (s : string) : string :=
  match s with
  | String c s' => if all_space s then EmptyString else String c (trim_end s')
  | EmptyString => EmptyString
  end.

Definition trim (s : string) : string := trim_end (trim_start s).

(** [s.split(sep)] for a one-character separator. *)
Fixpoint split (sep : ascii) (s : string) : list string :=
  match s with
  | EmptyString => [EmptyString]
  | String c s' =>
      if Ascii.eqb c sep then EmptyString :: split sep s'
      else match split sep s' with
           | seg :: segs => String c seg :: segs
           | [] => [String c EmptyString]
           end
  end.

(** The longest run of characters other than [}] at the head of [s], and the
    rest: the group [([^}]+)] of the pattern. *)
Fixpoint take_path (s : string) : string * string :=
  match s with
  | String c s' =>
      if Ascii.eqb c "}" then (EmptyString, s)
      else let (p, r) := take_path s' in (String c p, r)
  | EmptyString => (EmptyString, EmptyString)
  end.

(** A match of [/\{\{([^}]+)\}\}/] at the head of [s]: the captured path and
    the text after the match. *)
Definition match_placeholder (s : string) : option (string * string) :=
  match s with
  | String a (String b s1) =>
      if Ascii.eqb a "{" && Ascii.eqb b "{" then
        match take_path s1 with
        | (String c p, String x (String y r)) =>
            if Ascii.eqb x "}" && Ascii.eqb y "}" then Some (String c p, r) else None
        | _ => None
        end
      else None
  | _ => None
  end.

Definition placeholder (path : string) : string := "{{" ++ path ++ "}}".

(** [s.replace(/\{\{([^}]+)\}\}/g, f)]: leftmost matches, not overlapping,
    the replacement is not scanned again; an exception of the callback ends
    the scan.  [fuel] bounds the scan by the length of the text. *)
Fixpoint replace_placeholders (fuel : nat) (f : string -> string -> Res string)
         (s : string) : Res string :=
  match fuel with
  | O => Ok s
  | S fuel' =>
      match s with
      | EmptyString => Ok EmptyString
      | String c s' =>
          match match_placeholder s with
          | Some (path, rest) =>
              and_then (f (placeholder path) path)
                (fun text =>
                   and_then (replace_placeholders fuel' f rest)
                     (fun done => Ok (text ++ done)%string))
          | None =>
              and_then (replace_placeholders fuel' f s') (fun done => Ok (String c done))
          end
      end
  end.

(** ** PromptInstance.interpolate *)

(** The [for (const key of keys)] loop: [None] is the early [return match]. *)
Fixpoint walk (keys : list string) (r : Reached) : option Reached :=
  match keys with
  | [] => Some r
  | key :: keys' =>
      if is_object r && key_in key r then walk keys' (get_key key r) else None
  end.

(** The callback given to [replace]; its last line is
    [String(value ?? match)]. *)
Definition replacer (context : value) (match_ path : string) : Res string :=
  let keys := split "." (trim path) in
  match walk keys (Data context) with
  | None => Ok match_
  | Some (Data VUndefined) | Some (Data VNull) => Ok match_
  | Some r => String_reached r
  end.

Definition interpolate (template : string) (context : value) : Res string :=
  replace_placeholders (String.length template) (replacer context) template.

(** ** Token usage ([utils/token-aggregator.ts]) *)

Record TokenUsage : Type := mkTokenUsage {
  inputTokens : Z;
  outputTokens : Z;
  cacheCreationInputTokens : option Z;
  cacheReadInputTokens : option Z;
}.

(** Truthiness of an optional number: present and not [0]. *)
Definition truthy_num (o : option Z) : bool :=
  match o with
  | Some n => negb (n =? 0)%Z
  | None => false
  end.

(** [(acc ?? 0) + n] when [n] is truthy, else [acc] untouched. *)
Definition add_cache (acc n : option Z) : option Z :=
  if truthy_num n
  then Some (match acc with Some a => a | None => 0 end
             + match n with Some x => x | None => 0 end)%Z
  else acc.

Definition emptyTokenUsage : TokenUsage :=
  {| inputTokens := 0; outputTokens := 0;
     cacheCreationInputTokens := None; cacheReadInputTokens := None |}.

(** One turn of the [for (const usage of usages)] loop. *)
Definition aggregate_step (result usage : TokenUsage) : TokenUsage :=
  {| inputTokens := inputTokens result + inputTokens usage;
     outputTokens := outputTokens result + outputTokens usage;
     cacheCreationInputTokens :=
       add_cache (cacheCreationInputTokens result) (cacheCreationInputTokens usage);
     cacheReadInputTokens :=
       add_cache (cacheReadInputTokens result) (cacheReadInputTokens usage) |}.

Definition aggregateTokenUsage (usages : list TokenUsage) : TokenUsage :=
  fold_left aggregate_step usages emptyTokenUsage.

(** ** Identifiers *)

(** Modelled from the spec: [utils/id.js] is absent; [generateId()] yields a
    fresh identifier on every call, here the next value of a counter.  An id
    given in a configuration is kept as it is ([config.id ?? generateId()]). *)
Inductive Id : Type :=
| IdGiven (s : string)
| IdGen (n : nat).

(** ** Model client ([integrations/anthropic-client.ts]) *)

Inductive ContentBlock : Type :=
| TextBlock (text : string)
| ToolUseBlock (id name : string) (input : value)
| OtherBlock (type_ : string).

(** The text of a tool result: [String(toolError)], or
    [JSON.stringify(toolOutput)] for an output that can be serialized, the
    JSON text being kept as the value it spells. *)
Inductive ToolResultText : Type :=
| ErrorText (s : string)
| JsonText (v : value).

(** [JSON.stringify] serializes everything but a BigInt, wherever it sits. *)
Fixpoint serializable (v : value) : bool :=
  match v with
  | VBigInt _ => false
  | VArr items => forallb serializable items
  | VObj fields => forallb (fun kv : string * value => serializable (snd kv)) fields
  | _ => true
  end.

Definition not_serializable_error : error :=
  JsTypeError "Do not know how to serialize a BigInt".

(** [JSON.stringify(v)] *)
Definition JSON_stringify (v : value) : Res ToolResultText :=
  if serializable v then Ok (JsonText v) else Err not_serializable_error.

Record ToolResult : Type := mkToolResult {
  tool_use_id : string;
  tr_content : ToolResultText;
}.

Inductive Role : Type := user | assistant.

Inductive MessageContent : Type :=
| TextContent (s : string)
| BlocksContent (blocks : list ContentBlock)
| ToolResultsContent (results : list ToolResult).

Record MessageParam : Type := mkMessage {
  role : Role;
  msg_content : MessageContent;
}.

Record Tool : Type := mkTool {
  tool_name : string;
  tool_description : string;
  tool_input_schema : value;
}.

Record MessageParams : Type := mkParams {
  mp_model : string;
  max_tokens : Z;
  mp_system : option string;
  messages : list MessageParam;
  mp_tools : option (list Tool);
}.

Record Response : Type := mkResponse {
  content : list ContentBlock;
  stopReason : option string;
  usage : TokenUsage;
  response_id : string;
}.

Inductive Delta : Type :=
| TextDelta (text : string)
| OtherDelta.

Inductive StreamEvent : Type :=
| ContentBlockDelta (delta : Delta)
| OtherStreamEvent (type_ : string).

(** A message stream: the events it delivers, the error it ends with (if
    any), and what [finalMessage()] gives: [input_tokens], [output_tokens]. *)
Record MessageStream : Type := mkStream {
  stream_events : list StreamEvent;
  stream_failure : option error;
  finalMessage : Res (Z * Z);
}.

(** The client is the external collaborator.  [createMessage n params] is
    the outcome of the call made after [n] earlier calls: a response, or a
    rejection. *)
Record AnthropicClient : Type := mkClient {
  createMessage : nat -> MessageParams -> Res Response;
  createMessageStream : MessageParams -> Res MessageStream;
}.

(** ** Types of [types/tool.ts], [types/mcp.ts], [types/prompt-config.ts] *)

Record ToolDefinition : Type := mkToolDefinition {
  td_name : string;
  td_description : string;
  td_input_schema : value;
}.

Record ToolCallEvent : Type := mkToolCall {
  tc_id : Id;
  toolName : string;
  tc_input : value;
  tc_output : value;
  tc_error : option error;
  parentPromptId : Id;
}.

Record MCPEvent : Type := mkMCPEvent {
  mcp_id : string;
  mcp_type : string;
  mcp_payload : value;
  mcp_parentPromptId : string;
}.

Record PromptResult : Type := mkPromptResult {
  pr_content : string;
  pr_tokenUsage : TokenUsage;
  pr_toolCalls : list ToolCallEvent;
  pr_mcpEvents : list MCPEvent;
  pr_error : option error;
  cacheHit : option bool;
}.

Record PromptHooks : Type := mkPromptHooks {
  beforeCall : option (value -> Res value);
  afterCall : option (PromptResult -> Res PromptResult);
  onTool : option (ToolCallEvent -> Res unit);
  onMCP : option (MCPEvent -> Res unit);
  onValidationError : option (error -> PromptResult -> Res unit);
}.

Record PromptConfig : Type := mkPromptConfig {
  pc_id : option string;
  pc_name : string;
  pc_system : option string;
  pc_user : string;
  pc_model : option string;
  cacheable : option bool;
  jsonSchema : option value;
  pc_hooks : option PromptHooks;
}.

(** ** Types of [types/agent-config.ts], [types/workflow-config.ts] *)

(** The number [maxRetries] holds: an integer, an infinity or [NaN].  The
    code compares it with counts only ([attempts <= maxRetries],
    [retryCount > maxRetries]), so that a number with a fraction behaves as
    the integer below it, for which [Finite] stands as well. *)
Inductive JsNumber : Type :=
| Finite (z : Z)
| PosInfinity
| NegInfinity
| NaN.

(** [n <= x] for a count [n] *)
Definition count_le (n : nat) (x : JsNumber) : bool :=
  match x with
  | Finite z => (Z.of_nat n <=? z)%Z
  | PosInfinity => true
  | NegInfinity | NaN => false
  end.

(** [n > x] for a count [n] *)
Definition count_gt (n : nat) (x : JsNumber) : bool :=
  match x with
  | Finite z => (z <? Z.of_nat n)%Z
  | NegInfinity => true
  | PosInfinity | NaN => false
  end.

Record ReflectionMetadata : Type := mkReflectionMetadata {
  originalError : error;
  reflectionPromptId : Id;
  reflectionResult : PromptResult;
}.

Record AgentRunResult : Type := mkAgentRunResult {
  promptResults : list PromptResult;
  ar_tokenUsage : TokenUsage;
  retryCount : nat;
  ar_error : option error;
  reflectionMetadata : option ReflectionMetadata;
}.

Record AgentHooks : Type := mkAgentHooks {
  beforeRun : option (value -> Res value);
  afterRun : option (AgentRunResult -> Res AgentRunResult);
  beforePrompt : option (PromptConfig -> value -> Res value);
  afterPrompt : option (PromptConfig -> PromptResult -> Res PromptResult);
  onError : option (error -> Res unit);
  onReflection : option (PromptResult -> PromptResult -> Res unit);
}.

Record AgentConfig : Type := mkAgentConfig {
  ac_id : option string;
  ac_name : string;
  ac_model : option string;
  prompts : list PromptConfig;
  tools : option (list ToolDefinition);
  enableReflection : option bool;
  maxRetries : option JsNumber;
  ac_enableCache : option bool;
  ac_hooks : option AgentHooks;
}.

Record WorkflowStepConfig : Type := mkStepConfig {
  step_id : option string;
  step_name : option string;
  agents : list AgentConfig;
}.

Record AgentWorkflowConfig : Type := mkWorkflowConfig {
  wc_id : option string;
  wc_name : option string;
  steps : list WorkflowStepConfig;
  defaultModel : option string;
  wc_enableCache : option bool;
}.

Record StepRunResult : Type := mkStepRunResult {
  stepName : string;
  agentResults : list AgentRunResult;
}.

Record WorkflowRunResult : Type := mkWorkflowRunResult {
  stepResults : list StepRunResult;
  wr_tokenUsage : TokenUsage;
  wr_error : option error;
}.

(** ** Events ([types/events.ts]) and workflow status ([types/workflow.ts]) *)

(** The variants the execution core emits.  The [node] field of the step
    events (the tree node of the absent [Workflow] base class) is left out. *)
Inductive WorkflowEvent : Type :=
| stepStart (step : string)
| stepEnd (step : string)
| agentRunStart (agentId : Id) (agentName : string) (input : value)
| agentRunEnd (agentId : Id) (agentName : string) (result : AgentRunResult)
              (tokenUsage : TokenUsage)
| promptInstanceStart (promptId : Id) (promptName : string) (input : value)
| promptInstanceEnd (promptId : Id) (promptName : string) (result : PromptResult)
                    (tokenUsage : TokenUsage)
| promptTokenReceived (promptId : Id) (token : string)
| toolCallStart (toolId : Id) (toolName : string) (input : value) (parentPromptId : Id)
| toolCallEnd (toolId : Id) (toolName : string) (output : value)
              (error : option error) (parentPromptId : Id)
| reflectionStart (agentId : Id) (originalError : option error)
| reflectionEnd (agentId : Id) (result : PromptResult).

Inductive WorkflowStatus : Type := idle | running | completed | failed | cancelled.

(** ** The world and the execution monad *)

(** What the code acts on besides its arguments: the events published so far
    (oldest first), the requests the model client has received, the id
    counter, and the status of the workflow object. *)
Record World : Type := mkWorld {
  events : list WorkflowEvent;
  calls : list MessageParams;
  nextId : nat;
  status : WorkflowStatus;
}.

(** State [S], exceptions ([Err]) and divergence ([None]: a loop that has not
    ended within its fuel). *)
Definition M (S A : Type) : Type := S -> option (Res A * S).

Definition ret {S A} (a : A) : M S A := fun s => Some (Ok a, s).

Definition throw {S A} (e : error) : M S A := fun s => Some (Err e, s).

Definition diverge {S A} : M S A := fun _ => None.

Definition bind {S A B} (m : M S A) (f : A -> M S B) : M S B :=
  fun s =>
    match m s with
    | Some (Ok a, s') => f a s'
    | Some (Err e, s') => Some (Err e, s')
    | None => None
    end.

(** [try { m } catch (e) { h e }] *)
Definition try_catch {S A} (m : M S A) (h : error -> M S A) : M S A :=
  fun s =>
    match m s with
    | Some (Err e, s') => h e s'
    | r => r
    end.

(** A pure call that may throw. *)
Definition call {S A} (r : Res A) : M S A := fun s => Some (r, s).

Definition get {S} : M S S := fun s => Some (Ok s, s).

Definition modify {S} (f : S -> S) : M S unit := fun s => Some (Ok tt, f s).

(** Run [m] with fresh local variables [l0] next to the world. *)
Definition with_locals {L A} (l0 : L) (m : M (L * World) A) : M World A :=
  fun w =>
    match m (l0, w) with
    | Some (r, (_, w')) => Some (r, w')
    | None => None
    end.

(** Run a world action where local variables are in scope. *)
Definition on_world {L A} (m : M World A) : M (L * World) A :=
  fun s =>
    match m (snd s) with
    | Some (r, w') => Some (r, (fst s, w'))
    | None => None
    end.

Definition locals {L} : M (L * World) L := fun s => Some (Ok (fst s), s).

Definition set_locals {L} (f : L -> L) : M (L * World) unit :=
  fun s => Some (Ok tt, (f (fst s), snd s)).

Declare Scope monad_scope.
Delimit Scope monad_scope with monad.
Notation "x <- m ;; k" := (bind m (fun x => k))
  (at level 61, m at next level, right associativity) : monad_scope.
Notation "m ;;; k" := (bind m (fun _ => k))
  (at level 61, right associativity) : monad_scope.
Local Open Scope monad_scope.

(** An optional hook [h] applied as [if (h) x = await h(x)]. *)
Definition apply_hook {S A} (h : option (A -> Res A)) (x : A) : M S A :=
  match h with
  | Some f => call (f x)
  | None => ret x
  end.

(** An optional hook called for its effect only. *)
Definition notify_hook {S A} (h : option (A -> Res unit)) (x : A) : M S unit :=
  match h with
  | Some f => call (f x)
  | None => ret tt
  end.

(** Modelled from the spec: [utils/observable.ts] and the [Workflow] base
    class are absent; publishing is synchronous and unbuffered, so an
    observer subscribed from the start sees the events in publication
    order.  [emit] appends to that sequence. *)
Definition emit (e : WorkflowEvent) : M World unit :=
  modify (fun w => mkWorld (events w ++ [e]) (calls w) (nextId w) (status w)).

(** Modelled from the spec: [setStatus] of the absent [Workflow] base class
    moves the status state machine. *)
Definition setStatus (st : WorkflowStatus) : M World unit :=
  modify (fun w => mkWorld (events w) (calls w) (nextId w) st).

Definition generateId : M World Id :=
  fun w => Some (Ok (IdGen (nextId w)),
                 mkWorld (events w) (calls w) (S (nextId w)) (status w)).

(** [config.id ?? generateId()] *)
Definition id_or_fresh (given : option string) : M World Id :=
  match given with
  | Some s => ret (IdGiven s)
  | None => generateId
  end.

(** [await client.createMessage(params)]: the request is recorded. *)
Definition client_createMessage (client : AnthropicClient) (params : MessageParams)
  : M World Response :=
  fun w => Some (createMessage client (List.length (calls w)) params,
                 mkWorld (events w) (calls w ++ [params]) (nextId w) (status w)).

(** ** PromptInstance ([core/prompt-instance.ts]) *)

(** A tool handler: [async (input) => output], may throw. *)
Definition Handler : Type := value -> Res value.

(** A [Map<string, Handler>]: keys in insertion order, each once. *)
Definition HandlerMap : Type := list (string * Handler).

(** [map.set(name, handler)] *)
Fixpoint Map_set (name : string) (h : Handler) (m : HandlerMap) : HandlerMap :=
  match m with
  | [] => [(name, h)]
  | (k, h') :: rest =>
      if String.eqb k name then (k, h) :: rest else (k, h') :: Map_set name h rest
  end.

Record PromptInstance : Type := mkPromptInstance {
  pi_id : Id;
  pi_config : PromptConfig;
  resolvedModel : string;
  pi_input : value;
  (** [eventObservable !== null] *)
  pi_eventObservable : bool;
  pi_toolHandlers : HandlerMap;
}.

(** The constructor; [observable] and [handlers] are the optional [options]. *)
Definition new_PromptInstance (config : PromptConfig) (model : string) (input : value)
           (observable : bool) (handlers : option HandlerMap) : M World PromptInstance :=
  id <- id_or_fresh (pc_id config) ;;
  ret (mkPromptInstance id config model input observable
         (match handlers with Some m => m | None => [] end)).

(** [this.config.hooks?.h] *)
Definition prompt_hook {A} (self : PromptInstance) (h : PromptHooks -> option A) : option A :=
  match pc_hooks (pi_config self) with
  | Some hooks => h hooks
  | None => None
  end.

(** [PromptInstance.emit] *)
Definition pi_emit (self : PromptInstance) (e : WorkflowEvent) : M World unit :=
  if pi_eventObservable self then emit e else ret tt.

Definition isTextBlock (b : ContentBlock) : bool :=
  match b with TextBlock _ => true | _ => false end.

Definition isToolUseBlock (b : ContentBlock) : bool :=
  match b with ToolUseBlock _ _ _ => true | _ => false end.

(** Local variables of [run] that its [catch] block reads. *)
Record RunLocals : Type := mkRunLocals {
  totalUsage : TokenUsage;
  toolCalls : list ToolCallEvent;
}.

(** The inner [try { ... } catch (err) { toolError = err }] of the tool loop:
    the pair [(toolOutput, toolError)] it leaves. *)
Definition call_tool (self : PromptInstance) (toolId : Id) (name : string) (input : value)
  : value * option error :=
  match assoc name (pi_toolHandlers self) with
  | Some handler =>
      let toolCallEvent := mkToolCall toolId name input VUndefined None (pi_id self) in
      match match prompt_hook self onTool with
            | Some hook => hook toolCallEvent
            | None => Ok tt
            end with
      | Err err => (VUndefined, Some err)
      | Ok _ =>
          match handler input with
          | Ok out => (out, None)
          | Err err => (VUndefined, Some err)
          end
      end
  | None => (VUndefined, Some (JsError ("Unknown tool: " ++ name)))
  end.

(** [toolError ? String(toolError) : JSON.stringify(toolOutput)] *)
Definition tool_result_text (toolOutput : value) (toolError : option error)
  : Res ToolResultText :=
  match toolError with
  | Some err => Ok (ErrorText (String_error err))
  | None => JSON_stringify toolOutput
  end.

(** [for (const block of response.content)]; building the text of a tool
    result is outside the inner [try] and can throw. *)
Fixpoint process_blocks (self : PromptInstance) (blocks : list ContentBlock)
         (toolResults : list ToolResult) : M (RunLocals * World) (list ToolResult) :=
  match blocks with
  | [] => ret toolResults
  | ToolUseBlock block_id name input :: rest =>
      toolId <- on_world generateId ;;
      on_world (pi_emit self (toolCallStart toolId name input (pi_id self))) ;;;
      let (toolOutput, toolError) := call_tool self toolId name input in
      on_world (pi_emit self (toolCallEnd toolId name toolOutput toolError (pi_id self))) ;;;
      set_locals (fun l => mkRunLocals (totalUsage l)
        (toolCalls l ++ [mkToolCall toolId name input toolOutput toolError (pi_id self)])) ;;;
      text <- call (tool_result_text toolOutput toolError) ;;
      process_blocks self rest (toolResults ++ [mkToolResult block_id text])
  | _ :: rest => process_blocks self rest toolResults
  end.

Definition is_tool_use (r : Response) : bool :=
  match stopReason r with
  | Some s => String.eqb s "tool_use"
  | None => false
  end.

(** [totalUsage = aggregateTokenUsage([totalUsage, response.usage])] *)
Definition add_usage (u : TokenUsage) : M (RunLocals * World) unit :=
  set_locals (fun l => mkRunLocals (aggregateTokenUsage [totalUsage l; u]) (toolCalls l)).

(** [while (response.stopReason === 'tool_use')]; one unit of [fuel] per turn. *)
Fixpoint tool_loop (fuel : nat) (client : AnthropicClient) (self : PromptInstance)
         (systemContent : option string) (tools_ : option (list Tool))
         (msgs : list MessageParam) (response : Response)
  : M (RunLocals * World) Response :=
  if is_tool_use response then
    match fuel with
    | O => diverge
    | S fuel' =>
        let msgs1 := msgs ++ [mkMessage assistant (BlocksContent (content response))] in
        toolResults <- process_blocks self (content response) [] ;;
        let msgs2 := msgs1 ++ [mkMessage user (ToolResultsContent toolResults)] in
        response' <- on_world (client_createMessage client
                       (mkParams (resolvedModel self) 4096 systemContent msgs2 tools_)) ;;
        add_usage (usage response') ;;;
        tool_loop fuel' client self systemContent tools_ msgs2 response'
    end
  else ret response.

(** The interpolation context built from the input. *)
Definition build_context (processedInput : value) : value :=
  match processedInput with
  | VObj _ | VArr _ => processedInput
  | _ => VObj [("input", processedInput)]
  end.

(** [this.config.system ? this.interpolate(this.config.system, context) : undefined] *)
Definition system_content (self : PromptInstance) (context : value) : Res (option string) :=
  match pc_system (pi_config self) with
  | Some EmptyString => Ok None
  | Some s => and_then (interpolate s context) (fun text => Ok (Some text))
  | None => Ok None
  end.

(** The user text and the system text interpolated from the input, in
    this order: what the [try] blocks of [run] and [runStreaming] start
    with. *)
Definition run_texts (self : PromptInstance) (processedInput : value)
  : Res (string * option string) :=
  and_then (interpolate (pc_user (pi_config self)) (build_context processedInput))
    (fun userContent =>
       and_then (system_content self (build_context processedInput))
         (fun systemContent => Ok (userContent, systemContent))).

(** The tool definitions sent to the model. *)
Definition build_tools (self : PromptInstance) : option (list Tool) :=
  match pi_toolHandlers self with
  | [] => None
  | handlers =>
      Some (map (fun name => mkTool name ("Tool: " ++ name) (VObj [("type", VStr "object"); ("properties", VObj [])]))
                (map fst handlers))
  end.

Definition text_of (b : ContentBlock) : string :=
  match b with TextBlock t => t | _ => EmptyString end.

Definition newline : string := String (ascii_of_nat 10) EmptyString.

(** The [try] block of [run], from the first model call on. *)
Definition run_calls (fuel : nat) (client : AnthropicClient) (self : PromptInstance)
           (userContent : string) (systemContent : option string)
  : M (RunLocals * World) PromptResult :=
  let msgs := [mkMessage user (TextContent userContent)] in
  let tools_ := build_tools self in
  response <- on_world (client_createMessage client
                (mkParams (resolvedModel self) 4096 systemContent msgs tools_)) ;;
  add_usage (usage response) ;;;
  response <- tool_loop fuel client self systemContent tools_ msgs response ;;
  let textContent := String.concat newline (map text_of (filter isTextBlock (content response))) in
  l <- locals ;;
  result <- apply_hook (prompt_hook self afterCall)
              (mkPromptResult textContent (totalUsage l) (toolCalls l) [] None None) ;;
  on_world (pi_emit self (promptInstanceEnd (pi_id self) (pc_name (pi_config self)) result
                            (pr_tokenUsage result))) ;;;
  ret result.

(** The [try] block of [run]: the templates are interpolated first. *)
Definition run_try (fuel : nat) (client : AnthropicClient) (self : PromptInstance)
           (processedInput : value) : M (RunLocals * World) PromptResult :=
  let context := build_context processedInput in
  userContent <- call (interpolate (pc_user (pi_config self)) context) ;;
  systemContent <- call (system_content self context) ;;
  run_calls fuel client self userContent systemContent.

(** The [catch (error)] block of [run]. *)
Definition run_catch (self : PromptInstance) (err : error) : M (RunLocals * World) PromptResult :=
  l <- locals ;;
  let result := mkPromptResult EmptyString (totalUsage l) (toolCalls l) [] (Some err) None in
  on_world (pi_emit self (promptInstanceEnd (pi_id self) (pc_name (pi_config self)) result
                            (pr_tokenUsage result))) ;;;
  ret result.

(** [PromptInstance.run] *)
Definition PromptInstance_run (fuel : nat) (client : AnthropicClient) (self : PromptInstance)
  : M World PromptResult :=
  processedInput <- apply_hook (prompt_hook self beforeCall) (pi_input self) ;;
  pi_emit self (promptInstanceStart (pi_id self) (pc_name (pi_config self)) processedInput) ;;;
  with_locals (mkRunLocals emptyTokenUsage [])
    (try_catch (run_try fuel client self processedInput) (run_catch self)).

(** *** Streaming *)

(** What the async generator yields. *)
Inductive Yielded : Type :=
| YToken (token : string)
| YResult (result : PromptResult).

(** Local variables of [runStreaming], and the items yielded so far. *)
Record StreamLocals : Type := mkStreamLocals {
  s_totalUsage : TokenUsage;
  fullContent : string;
  yielded : list Yielded;
}.

Definition yield (y : Yielded) : M (StreamLocals * World) unit :=
  set_locals (fun l => mkStreamLocals (s_totalUsage l) (fullContent l) (yielded l ++ [y])).

(** [for await (const event of stream)] over the events the stream delivers. *)
Fixpoint stream_loop (self : PromptInstance) (evs : list StreamEvent)
  : M (StreamLocals * World) unit :=
  match evs with
  | [] => ret tt
  | ContentBlockDelta (TextDelta token) :: rest =>
      set_locals (fun l => mkStreamLocals (s_totalUsage l) (fullContent l ++ token) (yielded l)) ;;;
      on_world (pi_emit self (promptTokenReceived (pi_id self) token)) ;;;
      yield (YToken token) ;;;
      stream_loop self rest
  | _ :: rest => stream_loop self rest
  end.

(** The [try] block of [runStreaming], from the streaming request on. *)
Definition stream_calls (client : AnthropicClient) (self : PromptInstance)
           (userContent : string) (systemContent : option string)
  : M (StreamLocals * World) unit :=
  stream <- call (createMessageStream client
              (mkParams (resolvedModel self) 4096 systemContent
                        [mkMessage user (TextContent userContent)] None)) ;;
  stream_loop self (stream_events stream) ;;;
  match stream_failure stream with Some err => throw err | None => ret tt end ;;;
  final <- call (finalMessage stream) ;;
  set_locals (fun l => mkStreamLocals (mkTokenUsage (fst final) (snd final) None None)
                                      (fullContent l) (yielded l)) ;;;
  l <- locals ;;
  finalResult <- apply_hook (prompt_hook self afterCall)
                   (mkPromptResult (fullContent l) (s_totalUsage l) [] [] None None) ;;
  on_world (pi_emit self (promptInstanceEnd (pi_id self) (pc_name (pi_config self)) finalResult
                            (pr_tokenUsage finalResult))) ;;;
  yield (YResult finalResult).

(** The [try] block of [runStreaming]: the templates are interpolated
    first. *)
Definition stream_try (client : AnthropicClient) (self : PromptInstance)
           (processedInput : value) : M (StreamLocals * World) unit :=
  let context := build_context processedInput in
  userContent <- call (interpolate (pc_user (pi_config self)) context) ;;
  systemContent <- call (system_content self context) ;;
  stream_calls client self userContent systemContent.

(** The [catch (error)] block of [runStreaming]. *)
Definition stream_catch (self : PromptInstance) (err : error) : M (StreamLocals * World) unit :=
  l <- locals ;;
  let result := mkPromptResult (fullContent l) (s_totalUsage l) [] [] (Some err) None in
  on_world (pi_emit self (promptInstanceEnd (pi_id self) (pc_name (pi_config self)) result
                            (pr_tokenUsage result))) ;;;
  yield (YResult result).

(** [PromptInstance.runStreaming], drained by its consumer: the items yielded,
    in order. *)
Definition PromptInstance_runStreaming (client : AnthropicClient) (self : PromptInstance)
  : M World (list Yielded) :=
  processedInput <- apply_hook (prompt_hook self beforeCall) (pi_input self) ;;
  pi_emit self (promptInstanceStart (pi_id self) (pc_name (pi_config self)) processedInput) ;;;
  with_locals (mkStreamLocals emptyTokenUsage EmptyString [])
    (try_catch (stream_try client self processedInput) (stream_catch self) ;;;
     l <- locals ;;
     ret (yielded l)).

(** ** Agent ([core/agent.ts]) *)

Definition DEFAULT_REFLECTION_PROMPT : PromptConfig :=
  mkPromptConfig None "reflection"
    (Some "You are a helpful assistant tasked with analyzing a failed response and providing a corrected version.
Analyze the error and the original output, then provide a corrected response.")
    "Original prompt: {{originalPrompt}}

Original response: {{originalResult}}

Error: {{error}}

Please provide a corrected response that addresses the error."
    None None None None.

Record Agent : Type := mkAgent {
  agent_id : Id;
  config : AgentConfig;
  parentModel : option string;
  toolHandlers : HandlerMap;
}.

(** The constructor; [parent] and [handlers] are the optional [options]
    ([handlers] lists the entries of the record in [Object.entries] order). *)
Definition new_Agent (cfg : AgentConfig) (parent : option string)
           (handlers : option (list (string * Handler))) : M World Agent :=
  id <- id_or_fresh (ac_id cfg) ;;
  ret (mkAgent id cfg parent
         (match handlers with
          | Some entries => fold_left (fun m e => Map_set (fst e) (snd e) m) entries []
          | None => []
          end)).

Definition no_model_error : error :=
  JsError "No model configured. Specify model on prompt, agent, or workflow.".

(** [Agent.resolveModel]: [!model] holds for an absent model and for [""]. *)
Definition resolveModel (self : Agent) (promptModel : option string) : Res string :=
  match nullish promptModel (nullish (ac_model (config self)) (parentModel self)) with
  | Some EmptyString => Err no_model_error
  | Some model => Ok model
  | None => Err no_model_error
  end.

(** [this.config.hooks?.h] *)
Definition agent_hook {A} (self : Agent) (h : AgentHooks -> option A) : option A :=
  match ac_hooks (config self) with
  | Some hooks => h hooks
  | None => None
  end.

(** [String(failedResult.error)] *)
Definition String_opt_error (e : option error) : string :=
  match e with
  | Some err => String_error err
  | None => "undefined"
  end.

(** [Agent.reflect] *)
Definition reflect (fuel : nat) (client : AnthropicClient) (self : Agent)
           (originalPromptConfig : PromptConfig) (failedResult : PromptResult)
           (overrideModel : option string) : M World PromptResult :=
  emit (reflectionStart (agent_id self) (pr_error failedResult)) ;;;
  model <- call (resolveModel self overrideModel) ;;
  reflectionInstance <-
    new_PromptInstance DEFAULT_REFLECTION_PROMPT model
      (VObj [("originalPrompt", VStr (pc_user originalPromptConfig));
             ("originalResult", VStr (pr_content failedResult));
             ("error", VStr (String_opt_error (pr_error failedResult)))])
      true None ;;
  result <- PromptInstance_run fuel client reflectionInstance ;;
  emit (reflectionEnd (agent_id self) result) ;;;
  match agent_hook self onReflection with
  | Some hook => call (hook failedResult result)
  | None => ret tt
  end ;;;
  ret result.

(** Local variables of [Agent.run] that outlive one prompt. *)
Record AgentLocals : Type := mkAgentLocals {
  l_promptResults : list PromptResult;
  l_retryCount : nat;
  l_reflectionMetadata : option ReflectionMetadata;
}.

(** [this.config.maxRetries ?? 0] *)
Definition max_retries (self : Agent) : JsNumber :=
  match maxRetries (config self) with Some x => x | None => Finite 0 end.

(** The counts [0], [1], ... that are [<= x]: [x + 1] of them for a count
    [x], none for a negative number or [NaN], and no end of them for
    [Infinity]. *)
Definition turns_within (x : JsNumber) : option nat :=
  match x with
  | Finite z => Some (Z.to_nat (z + 1))
  | PosInfinity => None
  | NegInfinity | NaN => Some 0
  end.

(** The turns the retry loop can take before [attempts <= maxRetries]
    fails.  With [Infinity] the loop has no bound of its own: it takes a
    first turn, and [fuel] more. *)
Definition retry_turns (fuel : nat) (x : JsNumber) : nat :=
  match turns_within x with
  | Some turns => turns
  | None => S fuel
  end.

(** The turns that can follow the attempt counted [n] when [budget] turns
    are left after it: one for each of the counts [n + 1], [n + 2], ... that is
    [<= x]. *)
Fixpoint retries_ahead (x : JsNumber) (n budget : nat) : nat :=
  match budget with
  | 0 => 0
  | S budget' => if count_le (S n) x then S (retries_ahead x (S n) budget') else 0
  end.

(** [this.config.enableReflection], as a condition. *)
Definition reflection_enabled (self : Agent) : bool :=
  match enableReflection (config self) with Some b => b | None => false end.

(** [while (attempts <= maxRetries)] for one prompt.  Every turn that
    continues has raised [attempts]; [budget] counts the turns left. *)
Fixpoint retry_loop (budget fuel : nat) (client : AnthropicClient) (self : Agent)
         (promptConfig : PromptConfig) (promptInput : value)
         (attempts : nat) (result : option PromptResult)
  : M (AgentLocals * World) (option PromptResult) :=
  if count_le attempts (max_retries self) then
    match budget with
    | O => diverge
    | S budget' =>
        model <- call (resolveModel self (pc_model promptConfig)) ;;
        instance <- on_world (new_PromptInstance promptConfig model promptInput true
                                (Some (toolHandlers self))) ;;
        result <- on_world (PromptInstance_run fuel client instance) ;;
        match pr_error result with
        | Some err =>
            let attempts := S attempts in
            set_locals (fun l => mkAgentLocals (l_promptResults l) (S (l_retryCount l))
                                               (l_reflectionMetadata l)) ;;;
            notify_hook (agent_hook self onError) err ;;;
            reflected <-
              (if reflection_enabled self && count_le attempts (max_retries self) then
                 reflectionResult <- on_world (reflect fuel client self promptConfig result None) ;;
                 match pr_error reflectionResult with
                 | None =>
                     set_locals (fun l => mkAgentLocals (l_promptResults l) (l_retryCount l)
                       (Some (mkReflectionMetadata err (pi_id instance) reflectionResult))) ;;;
                     ret (Some reflectionResult)
                 | Some _ => ret None
                 end
               else ret None) ;;
            match reflected with
            | Some reflectionResult => ret (Some reflectionResult)
            | None =>
                if count_le attempts (max_retries self)
                then retry_loop budget' fuel client self promptConfig promptInput
                                attempts (Some result)
                else ret (Some result)
            end
        | None => ret (Some result)
        end
    end
  else ret result.

Definition has_error (r : PromptResult) : bool :=
  match pr_error r with Some _ => true | None => false end.

(** [for (const promptConfig of this.config.prompts)] *)
Fixpoint prompts_loop (fuel : nat) (client : AnthropicClient) (self : Agent)
         (processedInput : value) (ps : list PromptConfig)
  : M (AgentLocals * World) unit :=
  match ps with
  | [] => ret tt
  | promptConfig :: rest =>
      promptInput <- match agent_hook self beforePrompt with
                     | Some hook => call (hook promptConfig processedInput)
                     | None => ret processedInput
                     end ;;
      result <- retry_loop (retry_turns fuel (max_retries self)) fuel client self
                           promptConfig promptInput 0 None ;;
      result <- match result, agent_hook self afterPrompt with
                | Some r, Some hook => r' <- call (hook promptConfig r) ;; ret (Some r')
                | _, _ => ret result
                end ;;
      match result with
      | Some r => set_locals (fun l => mkAgentLocals (l_promptResults l ++ [r])
                                         (l_retryCount l) (l_reflectionMetadata l))
      | None => ret tt
      end ;;;
      l <- locals ;;
      if match result with Some r => has_error r | None => false end
         && count_gt (l_retryCount l) (max_retries self)
      then ret tt
      else prompts_loop fuel client self processedInput rest
  end.

(** [promptResults.some(r => r.error) ? promptResults.find(r => r.error)?.error : undefined] *)
Definition first_error (rs : list PromptResult) : option error :=
  match find has_error rs with
  | Some r => pr_error r
  | None => None
  end.

(** The [try] block of [Agent.run]. *)
Definition agent_try (fuel : nat) (client : AnthropicClient) (self : Agent)
           (processedInput : value) : M (AgentLocals * World) AgentRunResult :=
  prompts_loop fuel client self processedInput (prompts (config self)) ;;;
  l <- locals ;;
  let tokenUsage := aggregateTokenUsage (map pr_tokenUsage (l_promptResults l)) in
  agentResult <- apply_hook (agent_hook self afterRun)
                   (mkAgentRunResult (l_promptResults l) tokenUsage (l_retryCount l)
                      (first_error (l_promptResults l)) (l_reflectionMetadata l)) ;;
  on_world (emit (agentRunEnd (agent_id self) (ac_name (config self)) agentResult
                              (ar_tokenUsage agentResult))) ;;;
  ret agentResult.

(** The [catch (error)] block of [Agent.run]. *)
Definition agent_catch (self : Agent) (err : error) : M (AgentLocals * World) AgentRunResult :=
  notify_hook (agent_hook self onError) err ;;;
  l <- locals ;;
  let agentResult :=
    mkAgentRunResult (l_promptResults l)
      (aggregateTokenUsage (map pr_tokenUsage (l_promptResults l)))
      (l_retryCount l) (Some err) None in
  on_world (emit (agentRunEnd (agent_id self) (ac_name (config self)) agentResult
                              (ar_tokenUsage agentResult))) ;;;
  ret agentResult.

(** [Agent.run] *)
Definition Agent_run (fuel : nat) (client : AnthropicClient) (self : Agent) (input : value)
  : M World AgentRunResult :=
  processedInput <- apply_hook (agent_hook self beforeRun) input ;;
  emit (agentRunStart (agent_id self) (ac_name (config self)) processedInput) ;;;
  with_locals (mkAgentLocals [] 0 None)
    (try_catch (agent_try fuel client self processedInput) (agent_catch self)).

(** ** AgentWorkflow ([core/agent-workflow.ts]) *)

(** The handler record of a workflow, a [Record<string, Handler>]: an
    ordinary extensible object with data properties, created with the
    prototype [Object.prototype], as an object literal is ([{}] is the
    default).  It is given by its own entries in [Object.entries] order
    (array-index keys first, in numeric order, then the other keys in
    insertion order), and by whether an assignment to [__proto__] has put a
    handler in the place of its prototype. *)
Record HandlerRecord : Type := mkHandlerRecord {
  record_entries : list (string * Handler);
  prototype_replaced : bool;
}.

(** [{}] *)
Definition empty_record : HandlerRecord := mkHandlerRecord [] false.

Record AgentWorkflow : Type := mkAgentWorkflow {
  workflowConfig : AgentWorkflowConfig;
  wf_client : AnthropicClient;
  wf_toolHandlers : HandlerRecord;
}.

(** [step.name ?? `step-${step.id ?? 'unknown'}`] *)
Definition step_label (step : WorkflowStepConfig) : string :=
  match step_name step with
  | Some n => n
  | None => "step-" ++ match step_id step with Some i => i | None => "unknown" end
  end.

Definition agent_failed (r : AgentRunResult) : bool :=
  match ar_error r with Some _ => true | None => false end.

(** [for (const agentConfig of step.agents)] *)
Fixpoint agents_loop (fuel : nat) (self : AgentWorkflow) (input : value)
         (cfgs : list AgentConfig) (results : list AgentRunResult)
  : M World (list AgentRunResult) :=
  match cfgs with
  | [] => ret results
  | agentConfig :: rest =>
      agent <- new_Agent agentConfig (defaultModel (workflowConfig self))
                 (Some (record_entries (wf_toolHandlers self))) ;;
      result <- Agent_run fuel (wf_client self) agent input ;;
      let results := results ++ [result] in
      if agent_failed result then ret results
      else agents_loop fuel self input rest results
  end.

(** [AgentWorkflow.executeStep] *)
Definition executeStep (fuel : nat) (self : AgentWorkflow) (step : WorkflowStepConfig)
           (input : value) : M World StepRunResult :=
  let stepName := step_label step in
  emit (stepStart stepName) ;;;
  agentResults <- agents_loop fuel self input (agents step) [] ;;
  emit (stepEnd stepName) ;;;
  ret (mkStepRunResult stepName agentResults).

(** Local variables of [AgentWorkflow.run] that its [catch] block reads. *)
Record WorkflowLocals : Type := mkWorkflowLocals {
  l_stepResults : list StepRunResult;
  l_totalUsage : TokenUsage;
}.

(** [stepResult.agentResults.find(r => r.error)?.error] *)
Definition step_error (rs : list AgentRunResult) : option error :=
  match find agent_failed rs with
  | Some r => ar_error r
  | None => None
  end.

(** [for (const step of this.workflowConfig.steps)] and what follows it in
    the [try] block of [run]. *)
Fixpoint steps_loop (fuel : nat) (self : AgentWorkflow) (input : value)
         (sts : list WorkflowStepConfig) : M (WorkflowLocals * World) WorkflowRunResult :=
  match sts with
  | [] =>
      on_world (setStatus completed) ;;;
      l <- locals ;;
      ret (mkWorkflowRunResult (l_stepResults l) (l_totalUsage l) None)
  | step :: rest =>
      stepResult <- on_world (executeStep fuel self step input) ;;
      set_locals (fun l => mkWorkflowLocals (l_stepResults l ++ [stepResult]) (l_totalUsage l)) ;;;
      set_locals (fun l => mkWorkflowLocals (l_stepResults l)
        (fold_left (fun total agentResult => aggregateTokenUsage [total; ar_tokenUsage agentResult])
                   (agentResults stepResult) (l_totalUsage l))) ;;;
      match step_error (agentResults stepResult) with
      | Some stepError =>
          on_world (setStatus failed) ;;;
          l <- locals ;;
          ret (mkWorkflowRunResult (l_stepResults l) (l_totalUsage l) (Some stepError))
      | None => steps_loop fuel self input rest
      end
  end.

(** [AgentWorkflow.run] *)
Definition Workflow_run (fuel : nat) (self : AgentWorkflow) (input : value)
  : M World WorkflowRunResult :=
  setStatus running ;;;
  with_locals (mkWorkflowLocals [] emptyTokenUsage)
    (try_catch (steps_loop fuel self input (steps (workflowConfig self)))
       (fun err =>
          on_world (setStatus failed) ;;;
          l <- locals ;;
          ret (mkWorkflowRunResult (l_stepResults l) (l_totalUsage l) (Some err)))).

Definition initial_world : World := mkWorld [] [] 0 idle.

(** ** The specification's wording, for comparison with the code *)

(** Walking a context segment by segment: [reaches context keys r] when
    every segment of [keys], taken in order, is a property, own or
    inherited, of the object reached so far, and [r] is what the last one
    holds. *)
Inductive reaches (context : value) : list string -> Reached -> Prop :=
| reaches_start : reaches context [] (Data context)
| reaches_step keys key r :
    reaches context keys r ->
    is_object r = true ->
    key_in key r = true ->
    reaches context (keys ++ [key]) (get_key key r).

(** "A segment is missing or the current value is not an indexable object":
    the walk reaches [r] and cannot take the next segment [key]. *)
Definition stuck (context : value) (keys : list string) : Prop :=
  exists done key rest r,
    keys = done ++ key :: rest /\
    reaches context done r /\
    (is_object r = false \/ key_in key r = false).

(** The specification's reading of the same walk, through the properties
    the data itself holds: [own_key key v] is the property [key] of [v]. *)
Definition own_key (key : string) (v : value) : option value :=
  match v with
  | VObj fields => assoc key fields
  | VArr items =>
      if String.eqb key "length" then Some (VNum (Z.of_nat (List.length items)))
      else match array_index key with
           | Some i => nth_error items i
           | None => None
           end
  | _ => None
  end.

Inductive holds (context : value) : list string -> value -> Prop :=
| holds_start : holds context [] context
| holds_step keys key v x :
    holds context keys v ->
    own_key key v = Some x ->
    holds context (keys ++ [key]) x.

(** A segment of [keys] is missing from the data. *)
Definition missing (context : value) (keys : list string) : Prop :=
  exists done key rest v,
    keys = done ++ key :: rest /\
    holds context done v /\
    own_key key v = None.

(** The sum of a list of counts. *)
Definition Zsum (l : list Z) : Z := fold_right Z.add 0%Z l.

(** An optional count, absent read as [0]. *)
Definition count_or_zero (o : option Z) : Z :=
  match o with Some n => n | None => 0%Z end.

(** A token-usage record as the client produces it: no negative count. *)
Definition usage_nonneg (u : TokenUsage) : Prop :=
  (0 <= inputTokens u)%Z /\ (0 <= outputTokens u)%Z /\
  (0 <= count_or_zero (cacheCreationInputTokens u))%Z /\
  (0 <= count_or_zero (cacheReadInputTokens u))%Z.

(** [c] occurs in [s]. *)
Fixpoint occurs (c : ascii) (s : string) : bool :=
  match s with
  | EmptyString => false
  | String a s' => Ascii.eqb a c || occurs c s'
  end.

(** The text between the braces of a placeholder: one character at least,
    none of them a closing brace. *)
Definition valid_path (path : string) : Prop :=
  path <> EmptyString /\ occurs "}" path = false.

(** No placeholder starts within [pre] in the text [pre ++ rest]. *)
Definition no_placeholder_in (pre rest : string) : Prop :=
  forall a b,
    pre = (a ++ b)%string -> b <> EmptyString -> match_placeholder (b ++ rest) = None.

(** The specification as worded, at one placeholder: the path is split on
    ['.'] as it stands, and a placeholder with a segment missing from the
    context stays unchanged. *)
Definition unchanged_when_missing (path : string) (context : value) : Prop :=
  missing context (split "." path) ->
  interpolate (placeholder path) context = Ok (placeholder path).

(** *** What one pass over the content blocks leaves behind

    The tool-use blocks of a response, taken in order with tool ids
    generated from [n] on: the records pushed on [toolCalls], the entries of
    [toolResults], and the events published.  The pass ends early, with an
    exception, at a tool-use block whose output cannot be serialized. *)

(** The text of the result of the tool-use block [name], [input], run under
    the tool id [n]. *)
Definition block_text (self : PromptInstance) (n : nat) (name : string) (input : value)
  : Res ToolResultText :=
  tool_result_text (fst (call_tool self (IdGen n) name input))
                   (snd (call_tool self (IdGen n) name input)).

(** The blocks the pass works through: all of them, or those up to the
    first tool-use block whose result text cannot be built. *)
Fixpoint handled (self : PromptInstance) (n : nat) (blocks : list ContentBlock)
  : list ContentBlock :=
  match blocks with
  | [] => []
  | ToolUseBlock block_id name input :: rest =>
      match block_text self n name input with
      | Ok _ => ToolUseBlock block_id name input :: handled self (S n) rest
      | Err _ => [ToolUseBlock block_id name input]
      end
  | b :: rest => b :: handled self n rest
  end.

Fixpoint tool_uses (blocks : list ContentBlock) : nat :=
  match blocks with
  | [] => 0
  | ToolUseBlock _ _ _ :: rest => S (tool_uses rest)
  | _ :: rest => tool_uses rest
  end.

Fixpoint tool_records (self : PromptInstance) (n : nat) (blocks : list ContentBlock)
  : list ToolCallEvent :=
  match blocks with
  | [] => []
  | ToolUseBlock _ name input :: rest =>
      mkToolCall (IdGen n) name input
                 (fst (call_tool self (IdGen n) name input))
                 (snd (call_tool self (IdGen n) name input)) (pi_id self)
      :: tool_records self (S n) rest
  | _ :: rest => tool_records self n rest
  end.

Fixpoint tool_results (self : PromptInstance) (n : nat) (blocks : list ContentBlock)
  : Res (list ToolResult) :=
  match blocks with
  | [] => Ok []
  | ToolUseBlock block_id name input :: rest =>
      and_then (block_text self n name input)
        (fun text =>
           and_then (tool_results self (S n) rest)
             (fun more => Ok (mkToolResult block_id text :: more)))
  | _ :: rest => tool_results self n rest
  end.

Fixpoint tool_events (self : PromptInstance) (n : nat) (blocks : list ContentBlock)
  : list WorkflowEvent :=
  match blocks with
  | [] => []
  | ToolUseBlock _ name input :: rest =>
      toolCallStart (IdGen n) name input (pi_id self)
      :: toolCallEnd (IdGen n) name
           (fst (call_tool self (IdGen n) name input))
           (snd (call_tool self (IdGen n) name input)) (pi_id self)
      :: tool_events self (S n) rest
  | _ :: rest => tool_events self n rest
  end.

(** The events a prompt instance publishes: none without an observable. *)
Definition published (self : PromptInstance) (evs : list WorkflowEvent) : list WorkflowEvent :=
  if pi_eventObservable self then evs else [].

(** Pairs of tool events of the prompt [pid]: a start, then its end. *)
Inductive tool_pairs (pid : Id) : list WorkflowEvent -> Prop :=
| tool_pairs_nil : tool_pairs pid []
| tool_pairs_cons tid name input out err rest :
    tool_pairs pid rest ->
    tool_pairs pid (toolCallStart tid name input pid :: toolCallEnd tid name out err pid :: rest).

(** The events of one prompt execution that returned [res]: its start, the
    tool pairs, its end carrying [res]. *)
Definition prompt_events (self : PromptInstance) (res : PromptResult)
           (evs : list WorkflowEvent) : Prop :=
  exists processedInput tools_,
    evs = promptInstanceStart (pi_id self) (pc_name (pi_config self)) processedInput
          :: tools_ ++
          [promptInstanceEnd (pi_id self) (pc_name (pi_config self)) res (pr_tokenUsage res)] /\
    tool_pairs (pi_id self) tools_.

(** The text deltas among the events of a stream, in order. *)
Fixpoint text_deltas (evs : list StreamEvent) : list string :=
  match evs with
  | [] => []
  | ContentBlockDelta (TextDelta token) :: rest => token :: text_deltas rest
  | _ :: rest => text_deltas rest
  end.

(** The concatenation of the tokens, in order. *)
Definition join_tokens (tokens : list string) : string := String.concat EmptyString tokens.

(** An optional hook applied to [x]: what [apply_hook] calls. *)
Definition hooked {A} (h : option (A -> Res A)) (x : A) : Res A :=
  match h with
  | Some f => f x
  | None => Ok x
  end.

(** What a drained stream of [self] has yielded: the tokens in order, then
    one result.  The content of the result is the concatenation of the
    tokens unless an [afterCall] hook has rewritten it; when the stream
    (requested once the templates are interpolated) breaks off with an
    error after some events, the tokens are the text deltas delivered until
    then and the result carries the error and their concatenation. *)
Definition streamed (self : PromptInstance) (client : AnthropicClient)
           (ys : list Yielded) : Prop :=
  exists tokens res,
    ys = map YToken tokens ++ [YResult res] /\
    (prompt_hook self afterCall = None -> pr_content res = join_tokens tokens) /\
    (forall processedInput texts stream err,
        hooked (prompt_hook self beforeCall) (pi_input self) = Ok processedInput ->
        run_texts self processedInput = Ok texts ->
        (forall params, createMessageStream client params = Ok stream) ->
        stream_failure stream = Some err ->
        tokens = text_deltas (stream_events stream) /\
        pr_error res = Some err /\
        pr_content res = join_tokens tokens).

(** The tools return only outputs that [JSON.stringify] accepts. *)
Definition serializable_tools (handlers : HandlerMap) : Prop :=
  forall name handler input out,
    assoc name handlers = Some handler -> handler input = Ok out -> serializable out = true.

(** The requests of one prompt execution, the first one made after [n]
    earlier calls, the tool ids being generated from [nid] on: every request
    but the last was answered with stop reason ['tool_use'] and the results
    of the tools asked for were put together; the last one was rejected, or
    answered with another stop reason, or answered with stop reason
    ['tool_use'] by an answer whose tool results could not be put
    together. *)
Inductive call_chain (client : AnthropicClient) (self : PromptInstance)
  : nat -> nat -> list MessageParams -> Prop :=
| chain_end n nid params :
    (forall response,
        createMessage client n params = Ok response -> is_tool_use response = true ->
        exists e, tool_results self nid (content response) = Err e) ->
    call_chain client self n nid [params]
| chain_next n nid params response results rest :
    createMessage client n params = Ok response ->
    is_tool_use response = true ->
    tool_results self nid (content response) = Ok results ->
    call_chain client self (S n) (nid + tool_uses (content response)) rest ->
    call_chain client self n nid (params :: rest).

(** The same, request by request: a further call follows the [i]-th one
    exactly when the [i]-th answer has stop reason ['tool_use']. *)
Definition further_call_iff_tool_use (client : AnthropicClient) (n : nat)
           (requests : list MessageParams) : Prop :=
  forall i params,
    nth_error requests i = Some params ->
    (S i < List.length requests <->
     exists response,
       createMessage client (n + i) params = Ok response /\ is_tool_use response = true).

(** One direction of it: a further call follows only an answer with stop
    reason ['tool_use']. *)
Definition further_call_only_after_tool_use (client : AnthropicClient) (n : nat)
           (requests : list MessageParams) : Prop :=
  forall i params,
    nth_error requests i = Some params ->
    S i < List.length requests ->
    exists response,
      createMessage client (n + i) params = Ok response /\ is_tool_use response = true.

(** The model stops asking for tools within [fuel] turns of the loop: one
    of the calls numbered [n] to [n + fuel] is not answered with stop reason
    ['tool_use']. *)
Definition settles (client : AnthropicClient) (n fuel : nat) : Prop :=
  exists k, k <= fuel /\
            forall params response,
              createMessage client (n + k) params = Ok response ->
              is_tool_use response = false.

(** An optional hook called for its effect: what [notify_hook] calls. *)
Definition notified {A} (h : option (A -> Res unit)) (x : A) : Res unit :=
  match h with
  | Some f => f x
  | None => Ok tt
  end.

(** The [beforePrompt] hook of an agent applied to a prompt and its input. *)
Definition before_prompt (self : Agent) (promptConfig : PromptConfig) (x : value) : Res value :=
  match agent_hook self beforePrompt with
  | Some hook => hook promptConfig x
  | None => Ok x
  end.

(** The first model present in the order prompt, agent, workflow default. *)
Definition first_present (promptModel agentModel inherited : option string) : option string :=
  match promptModel, agentModel, inherited with
  | Some m, _, _ => Some m
  | None, Some m, _ => Some m
  | None, None, o => o
  end.

(** The specification as worded, at one combination of models: whichever model is
    the first present is the resolved model. *)
Definition resolves_first_present (self : Agent) (promptModel : option string) : Prop :=
  forall model,
    first_present promptModel (ac_model (config self)) (parentModel self) = Some model ->
    resolveModel self promptModel = Ok model.

(** The same step with other agents, the same workflow with other steps. *)
Definition with_agents (step : WorkflowStepConfig) (cfgs : list AgentConfig)
  : WorkflowStepConfig :=
  mkStepConfig (step_id step) (step_name step) cfgs.

Definition with_steps (self : AgentWorkflow) (sts : list WorkflowStepConfig) : AgentWorkflow :=
  mkAgentWorkflow
    (mkWorkflowConfig (wc_id (workflowConfig self)) (wc_name (workflowConfig self)) sts
                      (defaultModel (workflowConfig self))
                      (wc_enableCache (workflowConfig self)))
    (wf_client self) (wf_toolHandlers self).

(** No agent result of the list carries an error. *)
Definition error_free (rs : list AgentRunResult) : Prop :=
  Forall (fun r => agent_failed r = false) rs.

(** Some agent result of the list carries an error. *)
Definition some_failed (rs : list AgentRunResult) : Prop :=
  Exists (fun r => agent_failed r = true) rs.

(** No step result of the list holds an agent result with an error. *)
Definition steps_error_free (srs : list StepRunResult) : Prop :=
  Forall (fun sr => error_free (agentResults sr)) srs.

(** The status a workflow run ends in, by the error of its result. *)
Definition final_status (res : WorkflowRunResult) : WorkflowStatus :=
  match wr_error res with
  | Some _ => failed
  | None => completed
  end.

(** The agent results in the payload of an event. *)
Definition event_agent_results (e : WorkflowEvent) : option (list AgentRunResult) :=
  match e with
  | agentRunEnd _ _ result _ => Some [result]
  | _ => None
  end.

(** The specification as worded, at one step execution: the last event published
    is the step-end event, and it carries the agent results collected. *)
Definition step_end_carries_results (sr : StepRunResult) (w' : World) : Prop :=
  exists evs e,
    events w' = evs ++ [e] /\
    e = stepEnd (stepName sr) /\
    event_agent_results e = Some (agentResults sr).

(** The same agent configuration with another [tools] field. *)
Definition with_tools (cfg : AgentConfig) (t : option (list ToolDefinition)) : AgentConfig :=
  mkAgentConfig (ac_id cfg) (ac_name cfg) (ac_model cfg) (prompts cfg) t
                (enableReflection cfg) (maxRetries cfg) (ac_enableCache cfg) (ac_hooks cfg).

(** [new Agent(cfg, options).run(client, input)] *)
Definition run_agent (fuel : nat) (client : AnthropicClient) (cfg : AgentConfig)
           (parent : option string) (handlers : option (list (string * Handler)))
           (input : value) : M World AgentRunResult :=
  agent <- new_Agent cfg parent handlers ;;
  Agent_run fuel client agent input.

(** The names under which an agent is given handlers. *)
Definition handler_names (handlers : option (list (string * Handler))) : list string :=
  match handlers with
  | Some entries => map fst entries
  | None => []
  end.

(** The requests made after those of [base]: all of them satisfy [P]. *)
Definition made_since (P : MessageParams -> Prop) (base : list MessageParams) (w : World)
  : Prop :=
  exists made, calls w = base ++ made /\ Forall P made.

(** The tool definitions synthesized from the names of a handler map. *)
Definition synthesized_tools (names : list string) : option (list Tool) :=
  match names with
  | [] => None
  | _ => Some (map (fun name =>
                      mkTool name ("Tool: " ++ name)
                             (VObj [("type", VStr "object"); ("properties", VObj [])]))
                   names)
  end.

(** What a request of an agent with the handler names [names] carries as
    tools: the definitions synthesized from the names; or, in a request of
    a reflection, which goes out under the system prompt of reflections,
    none. *)
Definition agent_tools (names : list string) (p : MessageParams) : Prop :=
  mp_tools p = synthesized_tools names \/
  (mp_tools p = None /\ mp_system p = pc_system DEFAULT_REFLECTION_PROMPT).

(** *** Reading the events of an agent run

    A reading of a sequence of events: whether a reflection is in progress,
    how many prompt executions started outside a reflection (the attempts of
    the retry loop), how many of those ended with an error (the failed
    attempts), how many reflections started, and whether one started while
    another was in progress. *)
Record Tally : Type := mkTally {
  in_reflection : bool;
  attempts : nat;
  failures : nat;
  reflections : nat;
  nested : bool;
}.

Definition tally_step (t : Tally) (e : WorkflowEvent) : Tally :=
  match e with
  | reflectionStart _ _ =>
      mkTally true (attempts t) (failures t) (S (reflections t))
              (nested t || in_reflection t)
  | reflectionEnd _ _ =>
      mkTally false (attempts t) (failures t) (reflections t) (nested t)
  | promptInstanceStart _ _ _ =>
      if in_reflection t then t
      else mkTally false (S (attempts t)) (failures t) (reflections t) (nested t)
  | promptInstanceEnd _ _ res _ =>
      if in_reflection t then t
      else if has_error res
           then mkTally false (attempts t) (S (failures t)) (reflections t) (nested t)
           else t
  | _ => t
  end.

Definition tally_from (t : Tally) (evs : list WorkflowEvent) : Tally :=
  fold_left tally_step evs t.

Definition tally (evs : list WorkflowEvent) : Tally :=
  tally_from (mkTally false 0 0 0 false) evs.

(** The retry count a run reports agrees with [n]: it is the count of the
    returned result, or of the result handed to the [afterRun] hook. *)
Definition reports_retries (self : Agent) (res : AgentRunResult) (n : nat) : Prop :=
  retryCount res = n \/
  exists hook res0,
    agent_hook self afterRun = Some hook /\
    hook res0 = Ok res /\
    retryCount res0 = n.

(** Every model call is rejected. *)
Definition always_rejects (client : AnthropicClient) : Prop :=
  forall n params, exists e, createMessage client n params = Err e.

(** From any call on, the model stops asking for tools within [fuel] turns. *)
Definition always_settles (client : AnthropicClient) (fuel : nat) : Prop :=
  forall n, settles client n fuel.

(** How a reading advances over some events of an agent run: at most
    [max_attempts] more attempts, exactly [retries] more failed attempts, at
    most [max_reflections] and at most [retries] more reflections, no
    reflection inside a reflection, and none in progress at the end when the
    code that published the events has [returned]. *)
Definition progress (t t' : Tally) (max_attempts max_reflections retries : nat)
           (returned : bool) : Prop :=
  attempts t' <= attempts t + max_attempts /\
  failures t' = failures t + retries /\
  reflections t' <= reflections t + max_reflections /\
  reflections t' <= reflections t + retries /\
  nested t' = nested t /\
  (returned = true -> in_reflection t' = false).

(** Whether code has returned, as opposed to thrown. *)
Definition is_Ok {A} (r : Res A) : bool :=
  match r with Ok _ => true | Err _ => false end.

(** *** Scopes of events

    Start and end events delimit scopes: a step, an agent run, a
    reflection, a prompt execution, a tool call. *)
Inductive Scope : Type :=
| StepScope (step : string)
| AgentScope (agentId : Id)
| ReflectionScope (agentId : Id)
| PromptScope (promptId : Id)
| ToolScope (toolId parentPromptId : Id).

Definition Id_eqb (a b : Id) : bool :=
  match a, b with
  | IdGiven s, IdGiven t => String.eqb s t
  | IdGen n, IdGen m => Nat.eqb n m
  | _, _ => false
  end.

Definition Scope_eqb (a b : Scope) : bool :=
  match a, b with
  | StepScope s, StepScope t => String.eqb s t
  | AgentScope i, AgentScope j => Id_eqb i j
  | ReflectionScope i, ReflectionScope j => Id_eqb i j
  | PromptScope i, PromptScope j => Id_eqb i j
  | ToolScope i p, ToolScope j q => Id_eqb i j && Id_eqb p q
  | _, _ => false
  end.

(** The hierarchy: a step opens outside every scope; an agent run in a step
    (or on its own); a reflection in a run of the same agent; a prompt
    execution in an agent run or a reflection (or on its own); a tool call
    in the prompt execution it names as its parent. *)
Definition may_open (parent : option Scope) (child : Scope) : bool :=
  match child, parent with
  | StepScope _, None => true
  | AgentScope _, None => true
  | AgentScope _, Some (StepScope _) => true
  | ReflectionScope i, Some (AgentScope j) => Id_eqb i j
  | PromptScope _, None => true
  | PromptScope _, Some (AgentScope _) => true
  | PromptScope _, Some (ReflectionScope _) => true
  | ToolScope _ p, Some (PromptScope q) => Id_eqb p q
  | _, _ => false
  end.

(** What an event does to the scopes: it opens one, closes one, or happens
    inside one. *)
Inductive Bracket : Type :=
| Opens (s : Scope)
| Closes (s : Scope)
| Inside (s : Scope).

Definition bracket (e : WorkflowEvent) : Bracket :=
  match e with
  | stepStart step => Opens (StepScope step)
  | stepEnd step => Closes (StepScope step)
  | agentRunStart agentId _ _ => Opens (AgentScope agentId)
  | agentRunEnd agentId _ _ _ => Closes (AgentScope agentId)
  | promptInstanceStart promptId _ _ => Opens (PromptScope promptId)
  | promptInstanceEnd promptId _ _ _ => Closes (PromptScope promptId)
  | promptTokenReceived promptId _ => Inside (PromptScope promptId)
  | toolCallStart toolId _ _ parent => Opens (ToolScope toolId parent)
  | toolCallEnd toolId _ _ _ parent => Closes (ToolScope toolId parent)
  | reflectionStart agentId _ => Opens (ReflectionScope agentId)
  | reflectionEnd agentId _ => Closes (ReflectionScope agentId)
  end.

(** One event against the open scopes, innermost first: a start pushes its
    scope if the hierarchy allows it there, an end pops its own scope and
    no other. *)
Definition nest_step (open : list Scope) (e : WorkflowEvent) : option (list Scope) :=
  match bracket e with
  | Opens s => if may_open (hd_error open) s then Some (s :: open) else None
  | Closes s =>
      match open with
      | top :: rest => if Scope_eqb top s then Some rest else None
      | [] => None
      end
  | Inside s =>
      match open with
      | top :: _ => if Scope_eqb top s then Some open else None
      | [] => None
      end
  end.

Fixpoint nest (open : list Scope) (evs : list WorkflowEvent) : option (list Scope) :=
  match evs with
  | [] => Some open
  | e :: rest =>
      match nest_step open e with
      | Some open' => nest open' rest
      | None => None
      end
  end.

(** Start and end events pair up and bracket their children: read in
    order from outside every scope, each end closes the innermost open
    scope, and nothing is left open. *)
Definition well_bracketed (evs : list WorkflowEvent) : Prop :=
  nest [] evs = Some [].

(** The events published below an agent run: those of prompts, tools and
    reflections. *)
Definition is_inner (e : WorkflowEvent) : bool :=
  match e with
  | stepStart _ | stepEnd _ | agentRunStart _ _ _ | agentRunEnd _ _ _ _ => false
  | _ => true
  end.

(** What happens between the start and the end of a run of agent [id]:
    inner events only, bracketed among themselves. *)
Definition agent_inner (id : Id) (evs : list WorkflowEvent) : Prop :=
  forallb is_inner evs = true /\
  forall open, nest (AgentScope id :: open) evs = Some (AgentScope id :: open).

(** The events of one agent run that returned [res]:
    [agentStart, ..., agentEnd]. *)
Definition agent_events (name : string) (res : AgentRunResult)
           (evs : list WorkflowEvent) : Prop :=
  exists id input inner,
    evs = agentRunStart id name input :: inner
          ++ [agentRunEnd id name res (ar_tokenUsage res)] /\
    agent_inner id inner.

(** The events of the agents of a step, run in order up to the first one
    whose result carries an error, with the results they returned. *)
Fixpoint agents_run (cfgs : list AgentConfig) (rs : list AgentRunResult)
         (evs : list WorkflowEvent) : Prop :=
  match cfgs with
  | [] => rs = [] /\ evs = []
  | cfg :: rest =>
      exists r rs' d1 d2,
        rs = r :: rs' /\ evs = d1 ++ d2 /\
        agent_events (ac_name cfg) r d1 /\
        if agent_failed r then rs' = [] /\ d2 = [] else agents_run rest rs' d2
  end.

(** The events of one step: [stepStart, <its agents>, stepEnd]. *)
Definition step_events (step : WorkflowStepConfig) (sr : StepRunResult)
           (evs : list WorkflowEvent) : Prop :=
  exists inner,
    evs = stepStart (step_label step) :: inner ++ [stepEnd (step_label step)] /\
    agents_run (agents step) (agentResults sr) inner.

(** The events of the steps of a workflow, run in order up to the first
    one that holds a failed agent. *)
Fixpoint steps_run (sts : list WorkflowStepConfig) (srs : list StepRunResult)
         (evs : list WorkflowEvent) : Prop :=
  match sts with
  | [] => srs = [] /\ evs = []
  | step :: rest =>
      exists sr srs' d1 d2,
        srs = sr :: srs' /\ evs = d1 ++ d2 /\
        step_events step sr d1 /\
        if existsb agent_failed (agentResults sr) then srs' = [] /\ d2 = []
        else steps_run rest srs' d2
  end.

(** The specification as worded for two steps [n1] and [n2] of one agent each:
    [stepStart1, agentStart, ..., agentEnd, stepEnd1, stepStart2, ..., stepEnd2]. *)
Definition two_step_shape (n1 n2 : string) (evs : list WorkflowEvent) : Prop :=
  exists id name input inner res usage rest,
    evs = [stepStart n1; agentRunStart id name input] ++ inner
          ++ [agentRunEnd id name res usage; stepEnd n1; stepStart n2] ++ rest
          ++ [stepEnd n2].

(** An agent whose [beforeRun] and [onError] hooks do not throw, and which,
    if it reflects, finds a model for the reflection prompt in its own
    configuration or the inherited one. *)
Definition steady (self : Agent) : Prop :=
  (forall x, is_Ok (hooked (agent_hook self beforeRun) x) = true) /\
  (forall e, is_Ok (notified (agent_hook self onError) e) = true) /\
  (reflection_enabled self = true ->
   exists model,
     first_present None (ac_model (config self)) (parentModel self) = Some model /\
     model <> EmptyString).

(** Every agent of the workflow is steady under its default model. *)
Definition steady_workflow (self : AgentWorkflow) : Prop :=
  forall step cfg id handlers,
    In step (steps (workflowConfig self)) -> In cfg (agents step) ->
    steady (mkAgent id cfg (defaultModel (workflowConfig self)) handlers).

(** ** MemoryCache ([cache/memory-cache.ts])

    The methods read the clock; [now] is the reading of [Date.now()] at the
    call, in milliseconds.  Times and time-to-live values are integers. *)

(** [CacheEntry<T>]: the value, and the instant after which it is stale. *)
Record CacheEntry : Type := mkCacheEntry {
  ce_value : value;
  expires : option Z;
}.

(** The [Map<string, CacheEntry>] of the cache: keys in insertion order,
    each once. *)
Definition Store : Type := list (string * CacheEntry).

(** [store.set(key, entry)]: an existing key keeps its place. *)
Fixpoint Store_set (key : string) (entry : CacheEntry) (store : Store) : Store :=
  match store with
  | [] => [(key, entry)]
  | (k, e) :: rest =>
      if String.eqb k key then (k, entry) :: rest else (k, e) :: Store_set key entry rest
  end.

(** What is left of the store after [store.delete(key)]. *)
Fixpoint Store_delete (key : string) (store : Store) : Store :=
  match store with
  | [] => []
  | (k, e) :: rest => if String.eqb k key then rest else (k, e) :: Store_delete key rest
  end.

(** [entry.expires && Date.now() > entry.expires] *)
Definition stale (entry : CacheEntry) (now : Z) : bool :=
  match expires entry with
  | Some t => negb (t =? 0)%Z && (now >? t)%Z
  | None => false
  end.

(** [get(key)]: the value returned ([undefined] for none) and the store
    left behind. *)
Definition MemoryCache_get (key : string) (now : Z) (store : Store) : value * Store :=
  match assoc key store with
  | None => (VUndefined, store)
  | Some entry =>
      if stale entry now then (VUndefined, Store_delete key store)
      else (ce_value entry, store)
  end.

(** [const entry = { value, expires: ttl ? Date.now() + ttl : undefined }] *)
Definition entry_of (v : value) (ttl : option Z) (now : Z) : CacheEntry :=
  mkCacheEntry v (match ttl with
                  | Some t => if (t =? 0)%Z then None else Some (now + t)%Z
                  | None => None
                  end).

(** [set(key, value, ttl)] *)
Definition MemoryCache_set (key : string) (v : value) (ttl : option Z) (now : Z)
           (store : Store) : Store :=
  Store_set key (entry_of v ttl now) store.

(** [delete(key)]: what [store.delete(key)] returns, and the store left. *)
Definition MemoryCache_delete (key : string) (store : Store) : bool * Store :=
  (match assoc key store with Some _ => true | None => false end,
   Store_delete key store).

(** [clear()] *)
Definition MemoryCache_clear (store : Store) : Store := [].

(** [has(key)] *)
Definition MemoryCache_has (key : string) (now : Z) (store : Store) : bool * Store :=
  match assoc key store with
  | None => (false, store)
  | Some entry =>
      if stale entry now then (false, Store_delete key store) else (true, store)
  end.

(** [get size()] *)
Definition MemoryCache_size (store : Store) : nat := List.length store.

(** The keys of a store are distinct, as those of a [Map] are. *)
Definition Store_ok (store : Store) : Prop := NoDup (map fst store).

(** An operation of the cache, with the clock reading at the call. *)
Inductive CacheOp : Type :=
| OpGet (key : string) (now : Z)
| OpSet (key : string) (v : value) (ttl : option Z) (now : Z)
| OpDelete (key : string)
| OpClear
| OpHas (key : string) (now : Z).

Definition apply_op (store : Store) (op : CacheOp) : Store :=
  match op with
  | OpGet key now => snd (MemoryCache_get key now store)
  | OpSet key v ttl now => MemoryCache_set key v ttl now store
  | OpDelete key => snd (MemoryCache_delete key store)
  | OpClear => MemoryCache_clear store
  | OpHas key now => snd (MemoryCache_has key now store)
  end.

(** The store of a fresh cache after a sequence of operations. *)
Definition after_ops (ops : list CacheOp) : Store := fold_left apply_op ops [].

(** ** AnthropicClient ([integrations/anthropic-client.ts])

    The class wraps the SDK, which is external: [messages.create] is the
    outcome of the call made after [n] earlier calls. *)

(** What [createMessage] reads of the SDK's answer. *)
Record SdkMessage : Type := mkSdkMessage {
  sdk_content : list ContentBlock;
  stop_reason : option string;
  input_tokens : Z;
  output_tokens : Z;
  sdk_id : string;
}.

Record Sdk : Type := mkSdk {
  messages_create : nat -> MessageParams -> Res SdkMessage;
  messages_stream : MessageParams -> Res MessageStream;
}.

(** [AnthropicClient.createMessage] *)
Definition AnthropicClient_createMessage (sdk : Sdk) (n : nat) (params : MessageParams)
  : Res Response :=
  match messages_create sdk n params with
  | Ok response =>
      Ok (mkResponse (sdk_content response) (stop_reason response)
                     (mkTokenUsage (input_tokens response) (output_tokens response) None None)
                     (sdk_id response))
  | Err e => Err e
  end.

(** The client over an SDK; [createMessageStream] hands the SDK's stream on. *)
Definition new_AnthropicClient (sdk : Sdk) : AnthropicClient :=
  mkClient (AnthropicClient_createMessage sdk) (messages_stream sdk).

(** *** The conversation of a prompt execution *)

(** The first request of [run], with these texts. *)
Definition first_request (self : PromptInstance) (texts : string * option string)
  : MessageParams :=
  mkParams (resolvedModel self) 4096 (snd texts)
           [mkMessage user (TextContent (fst texts))]
           (build_tools self).

(** The request that follows request [p] answered by [r], the tools of the
    answer having given [results]: [p] with two more messages, the answer
    and the results. *)
Definition next_request (p : MessageParams) (r : Response) (results : list ToolResult)
  : MessageParams :=
  mkParams (mp_model p) 4096 (mp_system p)
           (messages p ++
            [mkMessage assistant (BlocksContent (content r));
             mkMessage user (ToolResultsContent results)])
           (mp_tools p).

(** The requests [more] that follow request [p], itself call number [n],
    the tool ids being generated from [nid] on: each one follows an answer
    that asks for tools, and carries their results.  The last request was
    rejected, or answered without a request for tools, or answered with a
    request for tools whose results could not be put together. *)
Fixpoint follow_ups (client : AnthropicClient) (self : PromptInstance) (n nid : nat)
         (p : MessageParams) (more : list MessageParams) : Prop :=
  match more with
  | [] =>
      forall r,
        createMessage client n p = Ok r -> is_tool_use r = true ->
        exists e, tool_results self nid (content r) = Err e
  | p' :: more' =>
      exists r results,
        createMessage client n p = Ok r /\ is_tool_use r = true /\
        tool_results self nid (content r) = Ok results /\
        p' = next_request p r results /\
        follow_ups client self (S n) (nid + tool_uses (content r)) p' more'
  end.

(** The requests of a prompt execution whose [beforeCall] hook returned
    [processedInput], the first of them being call number [n]: none when a
    template cannot be interpolated; otherwise the first request, and those
    that follow it. *)
Definition conversation (client : AnthropicClient) (self : PromptInstance) (n nid : nat)
           (processedInput : value) (requests : list MessageParams) : Prop :=
  match run_texts self processedInput with
  | Ok texts =>
      exists more,
        requests = first_request self texts :: more /\
        follow_ups client self n nid (first_request self texts) more
  | Err _ => requests = []
  end.

(** The answers the client gave to [requests], the first of them being call
    number [n]; a rejected call gives none. *)
Fixpoint answers (client : AnthropicClient) (n : nat) (requests : list MessageParams)
  : list Response :=
  match requests with
  | [] => []
  | params :: rest =>
      match createMessage client n params with
      | Ok r => r :: answers client (S n) rest
      | Err _ => answers client (S n) rest
      end
  end.

(** [totalUsage = aggregateTokenUsage([totalUsage, usage])], usage after
    usage. *)
Definition accumulated (total : TokenUsage) (us : list TokenUsage) : TokenUsage :=
  fold_left (fun t u => aggregateTokenUsage [t; u]) us total.

(** The roles of a conversation the model accepts: the user speaks first
    and last, and the two take turns. *)
Fixpoint takes_turns (roles : list Role) : bool :=
  match roles with
  | [user] => true
  | user :: assistant :: rest => takes_turns rest
  | _ => false
  end.

(** The ids of the tool-use blocks of an answer, in order. *)
Fixpoint tool_use_ids (blocks : list ContentBlock) : list string :=
  match blocks with
  | [] => []
  | ToolUseBlock id _ _ :: rest => id :: tool_use_ids rest
  | _ :: rest => tool_use_ids rest
  end.

(** What the result of a prompt execution reports, [recorded] being the
    result before the [afterCall] hook saw it: what the hook made of it, or,
    when the hook threw, the same usage and tool calls with an error. *)
Definition reported (self : PromptInstance) (recorded res : PromptResult) : Prop :=
  hooked (prompt_hook self afterCall) recorded = Ok res \/
  (pr_tokenUsage res = pr_tokenUsage recorded /\
   pr_toolCalls res = pr_toolCalls recorded /\ pr_error res <> None).

(** What every request of one prompt execution has in common. *)
Definition well_formed_request (self : PromptInstance) (system : option string)
           (p : MessageParams) : Prop :=
  mp_model p = resolvedModel self /\ max_tokens p = 4096%Z /\ mp_system p = system /\
  takes_turns (map role (messages p)) = true.

(** ** Token utilities, continued ([utils/token-aggregator.ts]) *)

(** [formatTokenUsage]; [`in: ${n}`] is ["in: " + String(n)]. *)
Definition formatTokenUsage (usage : TokenUsage) : string :=
  let parts := [("in: " ++ string_of_Z (inputTokens usage))%string;
                ("out: " ++ string_of_Z (outputTokens usage))%string] in
  let parts :=
    if truthy_num (cacheCreationInputTokens usage)
    then (parts ++ [("cache-create: "
                     ++ string_of_Z (match cacheCreationInputTokens usage with
                                     | Some n => n
                                     | None => 0
                                     end))%string])%list
    else parts in
  let parts :=
    if truthy_num (cacheReadInputTokens usage)
    then (parts ++ [("cache-read: "
                     ++ string_of_Z (match cacheReadInputTokens usage with
                                     | Some n => n
                                     | None => 0
                                     end))%string])%list
    else parts in
  String.concat ", " parts.

(** What a drained stream of [self] has published from [processedInput] on,
    having yielded [ys]: the start, one token event per token yielded, the
    end carrying the result yielded last. *)
Definition stream_published (self : PromptInstance) (processedInput : value)
           (ys : list Yielded) (evs : list WorkflowEvent) : Prop :=
  exists tokens res,
    ys = map YToken tokens ++ [YResult res] /\
    evs = published self
            (promptInstanceStart (pi_id self) (pc_name (pi_config self)) processedInput
             :: map (promptTokenReceived (pi_id self)) tokens
             ++ [promptInstanceEnd (pi_id self) (pc_name (pi_config self)) res
                   (pr_tokenUsage res)]).

(** The input and output counts of [u] are the sums over the agent results
    of the step results [srs]. *)
Definition accounted (srs : list StepRunResult) (u : TokenUsage) : Prop :=
  inputTokens u
  = Zsum (map (fun a => inputTokens (ar_tokenUsage a)) (flat_map agentResults srs)) /\
  outputTokens u
  = Zsum (map (fun a => outputTokens (ar_tokenUsage a)) (flat_map agentResults srs)).

(** No agent of the workflow is configured with [maxRetries: Infinity]. *)
Definition bounded_retries (self : AgentWorkflow) : Prop :=
  forall step cfg,
    In step (steps (workflowConfig self)) -> In cfg (agents step) ->
    maxRetries cfg <> Some PosInfinity.

(** ** Registering tools ([AgentWorkflow.registerTool]) *)

(** An array index among property keys: a canonical decimal below [2^32 - 1]. *)
Definition property_index (key : string) : option nat :=
  match array_index key with
  | Some i => if (N.of_nat i <? 4294967295)%N then Some i else None
  | None => None
  end.

(** A new array-index key [name], of index [i], takes its place among the
    entries. *)
Fixpoint Object_insert (name : string) (i : nat) (h : Handler)
         (entries : list (string * Handler)) : list (string * Handler) :=
  match entries with
  | [] => [(name, h)]
  | (k, h') :: rest =>
      match property_index k with
      | Some j =>
          if Nat.ltb i j then (name, h) :: (k, h') :: rest
          else (k, h') :: Object_insert name i h rest
      | None => (name, h) :: (k, h') :: rest
      end
  end.

(** A new own property [name] among the entries. *)
Definition Object_define (name : string) (h : Handler) (entries : list (string * Handler))
  : list (string * Handler) :=
  match property_index name with
  | Some i => Object_insert name i h entries
  | None => entries ++ [(name, h)]
  end.

(** The properties every function has or inherits that cannot be assigned
    to: an object that inherits from a function cannot be given them by
    assignment. *)
Definition function_read_only : list string := ["length"; "name"; "arguments"; "caller"].

(** [record[name] = handler] in strict code; [None] when the assignment
    throws a [TypeError].  An own property is overwritten.  Otherwise the
    name [__proto__] meets the setter inherited from [Object.prototype]:
    the handler becomes the prototype of the record and no property is
    created.  Any other name becomes a new own property, unless the record
    inherits it read-only from a handler that replaced its prototype. *)
Definition Object_set (name : string) (h : Handler) (record : HandlerRecord)
  : option HandlerRecord :=
  match assoc name (record_entries record) with
  | Some _ =>
      Some (mkHandlerRecord (Map_set name h (record_entries record))
                            (prototype_replaced record))
  | None =>
      if String.eqb name "__proto__" then Some (mkHandlerRecord (record_entries record) true)
      else if prototype_replaced record && listed name function_read_only then None
      else Some (mkHandlerRecord (Object_define name h (record_entries record))
                                 (prototype_replaced record))
  end.

(** [AgentWorkflow.registerTool]; [None] when it throws. *)
Definition registerTool (name : string) (handler : Handler) (self : AgentWorkflow)
  : option AgentWorkflow :=
  match Object_set name handler (wf_toolHandlers self) with
  | Some record => Some (mkAgentWorkflow (workflowConfig self) (wf_client self) record)
  | None => None
  end.

(** The user text of a reflection request, for a failed prompt with user
    template [originalPrompt], content [originalResult] and error text
    [error_]. *)
Definition reflection_text (originalPrompt originalResult error_ : string) : string :=
  ("Original prompt: " ++ originalPrompt ++ "

Original response: " ++ originalResult ++ "

Error: " ++ error_ ++ "

Please provide a corrected response that addresses the error.")%string.

(** The request a reflection opens with. *)
Definition reflection_request (model : string) (promptConfig : PromptConfig)
           (failedResult : PromptResult) : MessageParams :=
  mkParams model 4096 (pc_system DEFAULT_REFLECTION_PROMPT)
           [mkMessage user
              (TextContent (reflection_text (pc_user promptConfig) (pr_content failedResult)
                                            (String_opt_error (pr_error failedResult))))]
           None.

(** The two events of a recorded tool call. *)
Definition tool_call_events (c : ToolCallEvent) : list WorkflowEvent :=
  [toolCallStart (tc_id c) (toolName c) (tc_input c) (parentPromptId c);
   toolCallEnd (tc_id c) (toolName c) (tc_output c) (tc_error c) (parentPromptId c)].

(** *** The requests of a workflow run *)

(** A request that names one of [models], not the empty string, asks for
    at most 4096 tokens and carries a conversation that takes turns. *)
Definition ok_request (models : list (option string)) (p : MessageParams) : Prop :=
  In (Some (mp_model p)) models /\ mp_model p <> EmptyString /\
  max_tokens p = 4096%Z /\ takes_turns (map role (messages p)) = true.

(** The models an agent can resolve: the inherited one, its own, those of
    its prompts. *)
Definition agent_models (parent : option string) (cfg : AgentConfig) : list (option string) :=
  parent :: ac_model cfg :: map pc_model (prompts cfg).

(** The models a workflow configures: its default, and those of its agents
    and prompts. *)
Definition workflow_models (self : AgentWorkflow) : list (option string) :=
  defaultModel (workflowConfig self)
  :: flat_map (fun step =>
                 flat_map (fun cfg => ac_model cfg :: map pc_model (prompts cfg)) (agents step))
              (steps (workflowConfig self)).

(** ** Sample inputs

    The mocks of the test suite, and a few configurations built on them. *)

Definition sample_usage : TokenUsage := mkTokenUsage 10 20 None None.

(** The no-break space U+00A0, in UTF-8. *)
Definition nbsp : string :=
  String (ascii_of_N 194) (String (ascii_of_N 160) EmptyString).

Definition text_response (text : string) : Response :=
  mkResponse [TextBlock text] (Some "end_turn") sample_usage "msg_123".

Definition tool_response (name : string) : Response :=
  mkResponse [TextBlock "calling"; ToolUseBlock ("toolu_" ++ name) name (VObj [])]
             (Some "tool_use") sample_usage "msg_123".

Definition no_stream (_ : MessageParams) : Res MessageStream :=
  Err (JsError "no stream").

(** [createMessage: vi.fn().mockResolvedValue(...)] *)
Definition mock_client : AnthropicClient :=
  mkClient (fun _ _ => Ok (text_response "Test response")) no_stream.

(** [createMessage: vi.fn().mockRejectedValue(new Error('API Error'))] *)
Definition error_client : AnthropicClient :=
  mkClient (fun _ _ => Err (JsError "API Error")) no_stream.

(** Tool use requested twice, then done. *)
Definition scripted_client : AnthropicClient :=
  mkClient (fun n _ => match n with
                       | 0 => Ok (tool_response "lookup")
                       | 1 => Ok (tool_response "unknown")
                       | _ => Ok (text_response "done")
                       end) no_stream.

(** A stream that delivers two text deltas and then breaks. *)
Definition broken_stream_client : AnthropicClient :=
  mkClient (fun _ _ => Err (JsError "API Error"))
           (fun _ => Ok (mkStream [ContentBlockDelta (TextDelta "Hel");
                                   OtherStreamEvent "ping";
                                   ContentBlockDelta (TextDelta "lo")]
                                  (Some (JsError "connection lost"))
                                  (Err (JsError "no final message")))).

Definition plain_prompt (name user_ : string) : PromptConfig :=
  mkPromptConfig None name None user_ None None None None.

Definition sample_handlers : HandlerMap := [("lookup", fun _ => Ok (VStr "found"))].

(** A tool whose output is a BigInt. *)
Definition bigint_handlers : HandlerMap := [("lookup", fun _ => Ok (VBigInt 42))].

Definition bigint_instance : PromptInstance :=
  mkPromptInstance (IdGiven "p1") (plain_prompt "test" "Hello")
                   "claude-sonnet-4-5-20250929" (VObj []) true bigint_handlers.

Definition sample_instance : PromptInstance :=
  mkPromptInstance (IdGiven "p1") (plain_prompt "test" "Hello {{name}}!")
                   "claude-sonnet-4-5-20250929" (VObj [("name", VStr "World")])
                   true sample_handlers.

(** Hooks that throw. *)
Definition failing_beforeCall : PromptHooks :=
  mkPromptHooks (Some (fun _ => Err (JsError "beforeCall failed"))) None None None None.

Definition failing_afterCall : PromptHooks :=
  mkPromptHooks None (Some (fun _ => Err (JsError "afterCall failed"))) None None None.

Definition hooked_prompt (hooks : PromptHooks) : PromptConfig :=
  mkPromptConfig None "test" None "Hello" None None None (Some hooks).

Definition hooked_instance (hooks : PromptHooks) : PromptInstance :=
  mkPromptInstance (IdGiven "p1") (hooked_prompt hooks) "claude-sonnet-4-5-20250929"
                   (VObj []) true [].

Definition failing_beforeRun : AgentHooks :=
  mkAgentHooks (Some (fun _ => Err (JsError "beforeRun failed"))) None None None None None.

Definition failing_onError : AgentHooks :=
  mkAgentHooks None None None None (Some (fun _ => Err (JsError "onError failed"))) None.

Definition failing_afterRun : AgentHooks :=
  mkAgentHooks None (Some (fun _ => Err (JsError "afterRun failed"))) None None None None.

(** An agent with one model, given prompts and hooks, no retries. *)
Definition sample_agent_config (model : option string) (ps : list PromptConfig)
           (hooks : option AgentHooks) : AgentConfig :=
  mkAgentConfig (Some "a1") "TestAgent" model ps None None None None hooks.

Definition sample_agent (model : option string) (ps : list PromptConfig)
           (hooks : option AgentHooks) : Agent :=
  mkAgent (IdGiven "a1") (sample_agent_config model ps hooks) None [].

Definition sample_model : option string := Some "claude-sonnet-4-5-20250929".

Definition sample_step (name : string) (cfgs : list AgentConfig) : WorkflowStepConfig :=
  mkStepConfig None (Some name) cfgs.

Definition sample_workflow (client : AnthropicClient) (sts : list WorkflowStepConfig)
  : AgentWorkflow :=
  mkAgentWorkflow (mkWorkflowConfig None (Some "TestWorkflow") sts sample_model None)
                  client empty_record.

(** A workflow of one step holding the given agents. *)
Definition one_step_workflow (client : AnthropicClient) (cfgs : list AgentConfig)
  : AgentWorkflow :=
  sample_workflow client [sample_step "step1" cfgs].

(** An agent with one plain prompt, under the workflow's default model. *)
Definition plain_agent (name : string) : AgentConfig :=
  mkAgentConfig None name None [plain_prompt "prompt1" "Hello"] None None None None None.

(** An agent that reflects on a failure and retries once. *)
Definition reflecting_agent (ps : list PromptConfig) : Agent :=
  mkAgent (IdGiven "a1")
          (mkAgentConfig (Some "a1") "TestAgent" sample_model ps None (Some true) (Some (Finite 1))
                         None None)
          None [].

(** Two steps of one agent each. *)
Definition two_step_workflow (client : AnthropicClient) (model : option string)
           (a1 a2 : AgentConfig) : AgentWorkflow :=
  mkAgentWorkflow
    (mkWorkflowConfig None (Some "TestWorkflow")
                      [sample_step "step1" [a1]; sample_step "step2" [a2]] model None)
    client empty_record.

(** An agent that reflects and retries once; only its prompt names a model. *)
Definition reflecting_config (name : string) : AgentConfig :=
  mkAgentConfig None name None
                [mkPromptConfig None "prompt1" None "Hello" sample_model None None None]
                None (Some true) (Some (Finite 1)) None None.

(** An SDK that answers every call with the same text. *)
Definition sample_sdk : Sdk :=
  mkSdk (fun _ _ => Ok (mkSdkMessage [TextBlock "Hello!"] (Some "end_turn") 10 20 "msg_123"))
        no_stream.

(* ================================================================== *)
(** * Part II. Properties *)
(* ================================================================== *)

(** ** Token aggregation *)

Section Aggregation.

Lemma add_cache_spec acc n :
  add_cache acc n =
  if truthy_num n then Some (count_or_zero acc + count_or_zero n)%Z else acc.
Proof. reflexivity. Qed.

Lemma truthy_num_false_zero n : truthy_num n = false -> count_or_zero n = 0%Z.
Proof.
  destruct n as [z|]; cbn; [|reflexivity].
  destruct (Z.eqb_spec z 0); [auto | discriminate].
Qed.

Lemma Zsum_silent (f : TokenUsage -> option Z) us :
  existsb (fun u => truthy_num (f u)) us = false ->
  Zsum (map (fun u => count_or_zero (f u)) us) = 0%Z.
Proof.
  induction us as [|u us IH]; cbn [existsb map Zsum fold_right]; [reflexivity|].
  intros H. apply orb_false_iff in H as [Hu Hus].
  fold (Zsum (map (fun u0 => count_or_zero (f u0)) us)).
  rewrite (truthy_num_false_zero _ Hu), (IH Hus). reflexivity.
Qed.

(** The cache counter after folding [add_cache] over the contributions. *)
Lemma fold_add_cache (f : TokenUsage -> option Z) us :
  forall acc,
    fold_left (fun a u => add_cache a (f u)) us acc =
    if existsb (fun u => truthy_num (f u)) us
    then Some (count_or_zero acc + Zsum (map (fun u => count_or_zero (f u)) us))%Z
    else acc.
Proof.
  induction us as [|u us IH]; intros acc; cbn [fold_left existsb map Zsum fold_right].
  - reflexivity.
  - rewrite IH, add_cache_spec. fold (Zsum (map (fun u0 => count_or_zero (f u0)) us)).
    destruct (truthy_num (f u)) eqn:Hu; cbn [orb count_or_zero].
    + destruct (existsb _ us) eqn:Hus; f_equal; [lia|].
      rewrite (Zsum_silent _ _ Hus). lia.
    + rewrite (truthy_num_false_zero _ Hu).
      destruct (existsb _ us); [f_equal; lia | reflexivity].
Qed.

Lemma fold_aggregate_step us :
  forall acc,
    fold_left aggregate_step us acc =
    {| inputTokens := inputTokens acc + Zsum (map inputTokens us);
       outputTokens := outputTokens acc + Zsum (map outputTokens us);
       cacheCreationInputTokens :=
         fold_left (fun a u => add_cache a (cacheCreationInputTokens u)) us
                   (cacheCreationInputTokens acc);
       cacheReadInputTokens :=
         fold_left (fun a u => add_cache a (cacheReadInputTokens u)) us
                   (cacheReadInputTokens acc) |}.
Proof.
  induction us as [|u us IH]; intros acc; cbn [fold_left map Zsum fold_right].
  - destruct acc; cbn; f_equal; lia.
  - rewrite IH. unfold aggregate_step at 1 2 3 4; cbn [inputTokens outputTokens
      cacheCreationInputTokens cacheReadInputTokens].
    fold (Zsum (map inputTokens us)). fold (Zsum (map outputTokens us)).
    f_equal; lia.
Qed.

Lemma Zsum_nonneg l : Forall (fun z => 0 <= z)%Z l -> (0 <= Zsum l)%Z.
Proof. unfold Zsum. induction 1; cbn [fold_right]; lia. Qed.

Lemma existsb_reports (f : TokenUsage -> option Z) us :
  existsb (fun u => truthy_num (f u)) us = true ->
  Exists (fun u => f u <> None) us.
Proof.
  intros H. apply existsb_exists in H as (u & Hin & Hu).
  apply Exists_exists. exists u. split; [assumption|].
  destruct (f u); [discriminate | discriminate Hu].
Qed.

End Aggregation.

(** [C7] [aggregateTokenUsage] returns, field by field, the sum of the
    contributions: the input and output counts are the sums of the children's
    counts; a cache counter is present exactly when a contributor reports a
    non-zero value for it, in which case it is the sum of the reported values
    (so it is present only when at least one contributor reports it); with
    no negative count among the contributions none of the sums is negative.
    In particular [{in:100,out:50}] and [{in:200,out:100,cacheRead:5}] give
    [{in:300,out:150,cacheRead:5}], and the empty list gives [{in:0,out:0}]. *)
Theorem aggregateTokenUsage_sums (usages : list TokenUsage) :
  Forall usage_nonneg usages ->
  let r := aggregateTokenUsage usages in
  inputTokens r = Zsum (map inputTokens usages) /\
  outputTokens r = Zsum (map outputTokens usages) /\
  cacheCreationInputTokens r =
    (if existsb (fun u => truthy_num (cacheCreationInputTokens u)) usages
     then Some (Zsum (map (fun u => count_or_zero (cacheCreationInputTokens u)) usages))
     else None) /\
  cacheReadInputTokens r =
    (if existsb (fun u => truthy_num (cacheReadInputTokens u)) usages
     then Some (Zsum (map (fun u => count_or_zero (cacheReadInputTokens u)) usages))
     else None) /\
  (cacheCreationInputTokens r <> None ->
   Exists (fun u => cacheCreationInputTokens u <> None) usages) /\
  (cacheReadInputTokens r <> None ->
   Exists (fun u => cacheReadInputTokens u <> None) usages) /\
  usage_nonneg r /\
  aggregateTokenUsage [mkTokenUsage 100 50 None None; mkTokenUsage 200 100 None (Some 5%Z)]
    = mkTokenUsage 300 150 None (Some 5%Z) /\
  aggregateTokenUsage [] = mkTokenUsage 0 0 None None.
Proof.
  intros Hwf r. subst r. unfold aggregateTokenUsage.
  rewrite fold_aggregate_step, !fold_add_cache.
  cbn [inputTokens outputTokens cacheCreationInputTokens cacheReadInputTokens
       emptyTokenUsage count_or_zero].
  assert (Hin : Forall (fun z => 0 <= z)%Z (map inputTokens usages)).
  { apply Forall_map. eapply Forall_impl; [|exact Hwf]. intros u Hu; apply Hu. }
  assert (Hout : Forall (fun z => 0 <= z)%Z (map outputTokens usages)).
  { apply Forall_map. eapply Forall_impl; [|exact Hwf]. intros u Hu; apply Hu. }
  assert (Hcc : Forall (fun z => 0 <= z)%Z
                  (map (fun u => count_or_zero (cacheCreationInputTokens u)) usages)).
  { apply Forall_map. eapply Forall_impl; [|exact Hwf]. intros u Hu; apply Hu. }
  assert (Hcr : Forall (fun z => 0 <= z)%Z
                  (map (fun u => count_or_zero (cacheReadInputTokens u)) usages)).
  { apply Forall_map. eapply Forall_impl; [|exact Hwf]. intros u Hu; apply Hu. }
  apply Zsum_nonneg in Hin, Hout, Hcc, Hcr.
  repeat split; try reflexivity.
  - intros H. apply existsb_reports.
    destruct (existsb _ usages); [reflexivity | contradiction H; reflexivity].
  - intros H. apply existsb_reports.
    destruct (existsb (fun u => truthy_num (cacheReadInputTokens u)) usages);
      [reflexivity | contradiction H; reflexivity].
  - cbn; lia.
  - cbn; lia.
  - cbn [cacheCreationInputTokens]. destruct (existsb _ usages); cbn; lia.
  - cbn [cacheReadInputTokens].
    destruct (existsb (fun u => truthy_num (cacheReadInputTokens u)) usages); cbn; lia.
Qed.

Lemma aggregateTokenUsage_sums_witness :
  inputTokens (aggregateTokenUsage
                 [mkTokenUsage 100 50 (Some 10%Z) None; mkTokenUsage 200 100 None (Some 5%Z)])
  = 300%Z.
Proof.
  assert (Hwf : Forall usage_nonneg
                  [mkTokenUsage 100 50 (Some 10%Z) None; mkTokenUsage 200 100 None (Some 5%Z)]).
  { repeat constructor; cbn; lia. }
  exact (proj1 (aggregateTokenUsage_sums Hwf)).
Defined.

(** ** Interpolation *)

Section Interpolation.

Local Open Scope string_scope.

Lemma length_app_string s t :
  String.length (s ++ t) = String.length s + String.length t.
Proof. induction s as [|c s IH]; cbn; [reflexivity | now rewrite IH]. Qed.

Lemma app_string_assoc (s t u : string) : (s ++ t) ++ u = s ++ (t ++ u).
Proof. induction s as [|c s IH]; cbn; [reflexivity | now rewrite IH]. Qed.

Lemma app_string_empty (s : string) : s ++ "" = s.
Proof. induction s as [|c s IH]; cbn; [reflexivity | now rewrite IH]. Qed.

(** [take_path] cuts its argument in two. *)
Lemma take_path_cut s : forall p r, take_path s = (p, r) -> s = p ++ r.
Proof.
  induction s as [|c s IH]; cbn; intros p r H.
  - now inversion H.
  - destruct (Ascii.eqb c "}").
    + now inversion H.
    + destruct (take_path s) as [p' r'] eqn:E. inversion H; subst.
      cbn. f_equal. now apply IH.
Qed.

(** What it takes holds no closing brace. *)
Lemma take_path_clean s : forall p r, take_path s = (p, r) -> occurs "}" p = false.
Proof.
  induction s as [|c s IH]; cbn; intros p r H.
  - now inversion H.
  - destruct (Ascii.eqb c "}") eqn:Hc.
    + now inversion H.
    + destruct (take_path s) as [p' r'] eqn:E. inversion H; subst.
      cbn. rewrite Hc. now apply IH with r.
Qed.

(** A path without closing brace is taken whole when a closing brace
    follows it. *)
Lemma take_path_until p post :
  occurs "}" p = false ->
  take_path (p ++ String "}" post) = (p, String "}" post).
Proof.
  induction p as [|c p IH]; cbn; intros H.
  - reflexivity.
  - apply orb_false_iff in H as [Hc Hp]. rewrite Hc, (IH Hp). reflexivity.
Qed.

Lemma match_placeholder_here p post :
  valid_path p -> match_placeholder (placeholder p ++ post) = Some (p, post).
Proof.
  intros [Hne Hp]. unfold placeholder. cbn.
  rewrite app_string_assoc. cbn.
  rewrite take_path_until by assumption.
  destruct p as [|c p]; [contradiction|]. reflexivity.
Qed.

(** The pattern matches at the head of [s] exactly when [s] opens with a
    placeholder. *)
Lemma match_placeholder_iff s p r :
  match_placeholder s = Some (p, r) <-> s = placeholder p ++ r /\ valid_path p.
Proof.
  split; [|intros [-> Hp]; now apply match_placeholder_here].
  unfold match_placeholder.
  destruct s as [|a [|b s1]]; try discriminate.
  destruct (Ascii.eqb_spec a "{"); [|discriminate].
  destruct (Ascii.eqb_spec b "{"); [|discriminate]. cbn [andb].
  destruct (take_path s1) as [q t] eqn:E.
  destruct q as [|c q]; [discriminate|].
  destruct t as [|x [|y t]]; try discriminate.
  destruct (Ascii.eqb_spec x "}"); [|discriminate].
  destruct (Ascii.eqb_spec y "}"); [|discriminate]. cbn [andb].
  intros H; inversion H; subst.
  pose proof (take_path_cut _ E) as Hcut. pose proof (take_path_clean _ E) as Hclean.
  subst s1. split; [|split; [discriminate | exact Hclean]].
  unfold placeholder. cbn [append]. now rewrite app_string_assoc.
Qed.

Lemma match_placeholder_shorter s p r :
  match_placeholder s = Some (p, r) -> String.length r < String.length s.
Proof.
  intros H. apply match_placeholder_iff in H as [-> _].
  unfold placeholder. cbn [append String.length].
  rewrite app_string_assoc, !length_app_string. cbn. lia.
Qed.

Lemma and_then_assoc {A B C} (r : Res A) (f : A -> Res B) (g : B -> Res C) :
  and_then (and_then r f) g = and_then r (fun a => and_then (f a) g).
Proof. now destruct r. Qed.

Lemma and_then_ext {A B} (r : Res A) (f g : A -> Res B) :
  (forall a, f a = g a) -> and_then r f = and_then r g.
Proof. intros H. destruct r; [apply H | reflexivity]. Qed.

(** Fuel beyond the length of the text changes nothing. *)
Lemma replace_placeholders_fuel (f : string -> string -> Res string) n :
  forall m s,
    String.length s <= n -> String.length s <= m ->
    replace_placeholders n f s = replace_placeholders m f s.
Proof.
  induction n as [|n IH]; intros m s Hn Hm.
  - destruct s; [|cbn in Hn; lia]. destruct m; reflexivity.
  - destruct m as [|m]; [destruct s; [reflexivity | cbn in Hm; lia]|].
    destruct s as [|c s]; [reflexivity|].
    cbn [replace_placeholders].
    destruct (match_placeholder (String c s)) as [[p r]|] eqn:E.
    + apply match_placeholder_shorter in E. cbn in E, Hn, Hm.
      apply and_then_ext. intros text. f_equal. apply IH; lia.
    + cbn in Hn, Hm. f_equal. apply IH; lia.
Qed.

Lemma no_placeholder_tail c pre rest :
  no_placeholder_in (String c pre) rest -> no_placeholder_in pre rest.
Proof.
  intros H a b Hab Hb. apply (H (String c a) b); [cbn; now rewrite Hab | exact Hb].
Qed.

(** Text in which no placeholder starts is copied. *)
Lemma replace_placeholders_text (f : string -> string -> Res string) pre :
  forall n t,
    no_placeholder_in pre t ->
    String.length pre + String.length t <= n ->
    replace_placeholders n f (pre ++ t) =
    and_then (replace_placeholders (n - String.length pre) f t)
             (fun done => Ok (pre ++ done)).
Proof.
  induction pre as [|c pre IH]; intros n t Hpre Hn.
  - cbn. rewrite Nat.sub_0_r. now destruct (replace_placeholders n f t).
  - cbn in Hn. destruct n as [|n]; [lia|].
    cbn [append replace_placeholders String.length Nat.sub].
    pose proof (Hpre "" (String c pre) eq_refl ltac:(discriminate)) as Hm.
    cbn [append] in Hm. rewrite Hm.
    rewrite IH; [|now apply no_placeholder_tail with c | lia].
    now destruct (replace_placeholders (n - String.length pre) f t).
Qed.

(** A placeholder at the head is handed to the callback; the scan resumes
    after it. *)
Lemma replace_placeholders_here (f : string -> string -> Res string) p post n :
  valid_path p ->
  replace_placeholders (S n) f (placeholder p ++ post) =
  and_then (f (placeholder p) p)
    (fun text => and_then (replace_placeholders n f post) (fun done => Ok (text ++ done))).
Proof.
  intros Hp. cbn [replace_placeholders].
  rewrite match_placeholder_here by assumption.
  unfold placeholder at 1. cbn [append]. reflexivity.
Qed.

(** Every text is free of placeholders or has a first one. *)
Lemma first_placeholder template :
  no_placeholder_in template "" \/
  exists pre path post,
    template = pre ++ placeholder path ++ post /\
    valid_path path /\
    no_placeholder_in pre (placeholder path ++ post).
Proof.
  induction template as [|c s IH].
  - left. intros a b Hab Hb. destruct a; destruct b; try discriminate. contradiction.
  - destruct (match_placeholder (String c s)) as [[path rest]|] eqn:E.
    + right. apply match_placeholder_iff in E as [Hs Hp].
      exists "", path, rest. split; [exact Hs|]. split; [exact Hp|].
      intros a b Hab Hb. destruct a; destruct b; try discriminate. contradiction.
    + destruct IH as [Hnone | (pre & path & post & -> & Hp & Hpre)].
      * left. intros a b Hab Hb. destruct a as [|c' a].
        -- cbn in Hab. subst b. now rewrite app_string_empty.
        -- cbn in Hab. inversion Hab; subst. now apply (Hnone a b).
      * right. exists (String c pre), path, post. split; [reflexivity|].
        split; [exact Hp|]. intros a b Hab Hb. destruct a as [|c' a].
        -- cbn in Hab. subst b. exact E.
        -- cbn in Hab. inversion Hab; subst. now apply (Hpre a b).
Qed.

(** *** The walk and the specification's wording of it *)

Lemma walk_app ks : forall ks' r,
  walk (ks ++ ks')%list r =
  match walk ks r with Some r' => walk ks' r' | None => None end.
Proof.
  induction ks as [|k ks IH]; intros ks' r; cbn [walk app]; [reflexivity|].
  destruct (is_object r && key_in k r); [apply IH | reflexivity].
Qed.

Lemma reaches_walk context keys r :
  reaches context keys r -> walk keys (Data context) = Some r.
Proof.
  induction 1 as [|keys key r Hr IH Hobj Hkey]; [reflexivity|].
  rewrite walk_app, IH. cbn [walk]. now rewrite Hobj, Hkey.
Qed.

Lemma stuck_walk context keys : stuck context keys -> walk keys (Data context) = None.
Proof.
  intros (done & key & rest & r & -> & Hr & Hno).
  rewrite walk_app, (reaches_walk Hr). cbn [walk].
  destruct Hno as [-> | ->]; [reflexivity | now rewrite andb_false_r].
Qed.

(** The two outcomes of the specification cover every walk. *)
Lemma walk_reaches_or_stuck context keys :
  forall done r,
    reaches context done r ->
    match walk keys r with
    | Some r' => reaches context (done ++ keys)%list r'
    | None => stuck context (done ++ keys)%list
    end.
Proof.
  induction keys as [|k keys IH]; intros done r Hr; cbn [walk].
  - now rewrite app_nil_r.
  - destruct (is_object r) eqn:Hobj; cbn [andb].
    + destruct (key_in k r) eqn:Hkey.
      * specialize (IH (done ++ [k])%list _ (@reaches_step _ _ k _ Hr Hobj Hkey)).
        now rewrite <- app_assoc in IH.
      * exists done, k, keys, r. auto.
    + exists done, k, keys, r. auto.
Qed.

Lemma replacer_stuck context m path :
  stuck context (split "." (trim path)) -> replacer context m path = Ok m.
Proof. intros H. unfold replacer. now rewrite (stuck_walk H). Qed.

Lemma replacer_nullish context m path r :
  reaches context (split "." (trim path)) r ->
  r = Data VNull \/ r = Data VUndefined ->
  replacer context m path = Ok m.
Proof.
  intros H Hr. unfold replacer. rewrite (reaches_walk H).
  now destruct Hr as [-> | ->].
Qed.

Lemma replacer_value context m path r :
  reaches context (split "." (trim path)) r ->
  r <> Data VNull -> r <> Data VUndefined ->
  replacer context m path = String_reached r.
Proof.
  intros H Hnull Hundef. unfold replacer. rewrite (reaches_walk H).
  destruct r as [[]|]; try reflexivity; contradiction.
Qed.

Lemma interpolate_text context text :
  no_placeholder_in text "" -> interpolate text context = Ok text.
Proof.
  intros H. unfold interpolate.
  rewrite <- (app_string_empty text) at 2.
  rewrite replace_placeholders_text; cbn [String.length]; [|assumption|lia].
  rewrite Nat.sub_diag. cbn. now rewrite !app_string_empty.
Qed.

Lemma interpolate_at_placeholder context pre path post :
  valid_path path ->
  no_placeholder_in pre (placeholder path ++ post) ->
  interpolate (pre ++ placeholder path ++ post) context =
  and_then (replacer context (placeholder path) path)
    (fun text =>
       and_then (interpolate post context) (fun done => Ok (pre ++ text ++ done))).
Proof.
  intros Hpath Hpre. unfold interpolate.
  rewrite replace_placeholders_text; [|assumption|now rewrite !length_app_string].
  rewrite !length_app_string.
  replace (String.length pre + (String.length (placeholder path) + String.length post)
           - String.length pre)
    with (S (String.length path + 3 + String.length post)).
  2:{ unfold placeholder. cbn [append String.length].
      rewrite length_app_string. cbn [String.length]. lia. }
  rewrite replace_placeholders_here by assumption.
  rewrite and_then_assoc. apply and_then_ext. intros text.
  rewrite and_then_assoc.
  rewrite (@replace_placeholders_fuel (replacer context) _ (String.length post) post);
    [|lia|lia].
  apply and_then_ext. intros done. reflexivity.
Qed.

(** Text without an opening brace holds no placeholder. *)
Lemma no_brace_no_placeholder text rest :
  occurs "{" text = false -> no_placeholder_in text rest.
Proof.
  intros H a b -> Hb. destruct b as [|c b]; [contradiction|].
  assert (Hc : Ascii.eqb c "{" = false).
  { clear Hb. induction a as [|x a IH]; cbn in H.
    - now apply orb_false_iff in H as [H _].
    - apply orb_false_iff in H as [_ H]. now apply IH. }
  cbn [append]. unfold match_placeholder.
  destruct (b ++ rest); [reflexivity|]. now rewrite Hc.
Qed.

End Interpolation.

(** [C5] (amended) Interpolation works placeholder by placeholder, from
    the left.  (1) A placeholder is [{{path}}] with a path of one character
    at least and no closing brace.  (2) A template in which no placeholder
    starts is returned as it is.  (3) Otherwise the text before the first
    placeholder is kept, the placeholder is handed to the callback, and the
    text after it is interpolated in the same way; an exception of the
    callback is the outcome of the interpolation.  (4) Every template falls
    under (2) or (3).  The callback trims the path of surrounding white
    space, splits it on ['.'] and walks the context segment by segment,
    through own and inherited properties.  (5) If a segment is missing or
    the value reached is not an indexable object, the whole placeholder
    stays; (6) if the walk ends on [null] or [undefined], the placeholder
    stays too; (7) otherwise [String] of what the walk reached is
    substituted, or its exception thrown.  (8) Every walk falls under one
    of these cases.  (9) The three examples of the specification evaluate
    as stated; white space is trimmed, U+00A0 included; an inherited
    property counts as present; an object with a [toString] entry cannot be
    substituted. *)
Theorem interpolate_placeholders :
  (forall s path rest,
     match_placeholder s = Some (path, rest) <->
     s = (placeholder path ++ rest)%string /\ valid_path path) /\
  (forall context text,
     no_placeholder_in text "" -> interpolate text context = Ok text) /\
  (forall context pre path post,
     valid_path path -> no_placeholder_in pre (placeholder path ++ post) ->
     interpolate (pre ++ placeholder path ++ post) context =
     and_then (replacer context (placeholder path) path)
       (fun text =>
          and_then (interpolate post context)
            (fun done => Ok (pre ++ text ++ done)%string))) /\
  (forall template,
     no_placeholder_in template "" \/
     exists pre path post,
       template = (pre ++ placeholder path ++ post)%string /\
       valid_path path /\
       no_placeholder_in pre (placeholder path ++ post)) /\
  (forall context path,
     stuck context (split "." (trim path)) ->
     replacer context (placeholder path) path = Ok (placeholder path)) /\
  (forall context path r,
     reaches context (split "." (trim path)) r ->
     r = Data VNull \/ r = Data VUndefined ->
     replacer context (placeholder path) path = Ok (placeholder path)) /\
  (forall context path r,
     reaches context (split "." (trim path)) r ->
     r <> Data VNull -> r <> Data VUndefined ->
     replacer context (placeholder path) path = String_reached r) /\
  (forall context path,
     stuck context (split "." (trim path)) \/
     exists r, reaches context (split "." (trim path)) r) /\
  interpolate "Hello {{name}}!" (VObj [("name", VStr "World")]) = Ok "Hello World!" /\
  interpolate "{{user.name}}" (VObj [("user", VObj [("name", VStr "Alice")])]) = Ok "Alice" /\
  interpolate "{{missing}}" (VObj []) = Ok "{{missing}}" /\
  interpolate (placeholder (nbsp ++ "name ")) (VObj [("name", VStr "World")]) = Ok "World" /\
  interpolate "{{toString}}" (VObj []) = Ok "function toString() { [native code] }" /\
  interpolate "{{a}} and {{b}}" (VObj [("a", VObj [("toString", VNum 1)]); ("b", VNum 2)])
  = Err not_primitive_error.
Proof.
  split; [exact match_placeholder_iff|].
  split; [exact interpolate_text|].
  split; [exact interpolate_at_placeholder|].
  split; [exact first_placeholder|].
  split; [intros; now apply replacer_stuck|].
  split; [intros; now apply replacer_nullish with r|].
  split; [intros; now apply replacer_value|].
  split; [|repeat split].
  intros context path.
  pose proof (walk_reaches_or_stuck (split "." (trim path)) (reaches_start context)) as H.
  cbn [app] in H.
  destruct (walk (split "." (trim path)) (Data context)) as [r|];
    [right; now exists r | now left].
Qed.

Lemma interpolate_placeholders_witness :
  interpolate ("Hello " ++ placeholder " name " ++ "!") (VObj [("name", VStr "World")])
  = and_then (replacer (VObj [("name", VStr "World")]) (placeholder " name ") " name ")
      (fun text =>
         and_then (interpolate "!" (VObj [("name", VStr "World")]))
           (fun done => Ok ("Hello " ++ text ++ done)%string)).
Proof.
  apply (proj1 (proj2 (proj2 interpolate_placeholders))).
  - split; [discriminate | reflexivity].
  - apply no_brace_no_placeholder. reflexivity.
Defined.

(** [C5] (as worded) With the path split as it stands and the context
    walked through the properties it holds, the placeholder [{{ name }}]
    should stay when the context has no property [" name "], and
    [{{toString}}] should stay for the empty context.  The code trims the
    path and substitutes the property [name]; and it finds [toString]
    among the inherited properties and substitutes the text of that
    function. *)
Lemma interpolate_as_worded_counterexample :
  ~ unchanged_when_missing " name " (VObj [("name", VStr "World")]) /\
  ~ unchanged_when_missing "toString" (VObj []).
Proof.
  split; unfold unchanged_when_missing; intros H.
  - assert (Hmissing : missing (VObj [("name", VStr "World")]) (split "." " name ")).
    { exists [], " name ", [], (VObj [("name", VStr "World")]).
      split; [reflexivity|]. split; [constructor | reflexivity]. }
    specialize (H Hmissing). vm_compute in H. discriminate H.
  - assert (Hmissing : missing (VObj []) (split "." "toString")).
    { exists [], "toString", [], (VObj []).
      split; [reflexivity|]. split; [constructor | reflexivity]. }
    specialize (H Hmissing). vm_compute in H. discriminate H.
Qed.

(** ** Reasoning about the execution monad *)

Section Logic.

Context {S A : Type}.

(** Partial correctness: whatever [m] returns from [s] satisfies [Q]. *)
Definition post (m : M S A) (s : S) (Q : Res A -> S -> Prop) : Prop :=
  forall r s', m s = Some (r, s') -> Q r s'.

(** Total correctness: [m] returns from [s], and what it returns
    satisfies [Q]. *)
Definition returns (m : M S A) (s : S) (Q : Res A -> S -> Prop) : Prop :=
  exists r s', m s = Some (r, s') /\ Q r s'.

Lemma post_conseq (m : M S A) s (Q Q' : Res A -> S -> Prop) :
  post m s Q -> (forall r s', Q r s' -> Q' r s') -> post m s Q'.
Proof. intros H HQ r s' E. apply HQ, H, E. Qed.

Lemma post_and (m : M S A) s (Q Q' : Res A -> S -> Prop) :
  post m s Q -> post m s Q' -> post m s (fun r s' => Q r s' /\ Q' r s').
Proof. intros H H' r s' E. split; [apply H | apply H']; exact E. Qed.

Lemma returns_conseq (m : M S A) s (Q Q' : Res A -> S -> Prop) :
  returns m s Q -> (forall r s', Q r s' -> Q' r s') -> returns m s Q'.
Proof. intros (r & s' & E & H) HQ. exists r, s'. auto. Qed.

Lemma returns_post (m : M S A) s (Q Q' : Res A -> S -> Prop) :
  returns m s Q -> post m s Q' -> returns m s (fun r s' => Q r s' /\ Q' r s').
Proof. intros (r & s' & E & H) H'. exists r, s'. auto. Qed.

Lemma returns_run (m : M S A) s (Q : Res A -> S -> Prop) r s' :
  returns m s Q -> m s = Some (r, s') -> Q r s'.
Proof. intros (r0 & s0 & E & H) E'. rewrite E in E'. now inversion E'; subst. Qed.

Lemma post_ret (a : A) s (Q : Res A -> S -> Prop) : Q (Ok a) s -> post (ret a) s Q.
Proof. intros H r s' E. now inversion E; subst. Qed.

Lemma post_call (x : Res A) s (Q : Res A -> S -> Prop) : Q x s -> post (call x) s Q.
Proof. intros H r s' E. now inversion E; subst. Qed.

Lemma post_throw e s (Q : Res A -> S -> Prop) : Q (Err e) s -> post (throw e) s Q.
Proof. intros H r s' E. now inversion E; subst. Qed.

Lemma post_diverge s (Q : Res A -> S -> Prop) : post diverge s Q.
Proof. intros r s' E. discriminate E. Qed.

Lemma post_try_catch (m : M S A) h s (Q : Res A -> S -> Prop) :
  post m s (fun r s1 => match r with
                        | Ok a => Q (Ok a) s1
                        | Err e => post (h e) s1 Q
                        end) ->
  post (try_catch m h) s Q.
Proof.
  intros H r s' E. unfold try_catch in E.
  destruct (m s) as [[[a|e] s1]|] eqn:Em; [| |discriminate].
  - inversion E; subst. exact (H _ _ Em).
  - exact (H _ _ Em _ _ E).
Qed.

Lemma returns_ret (a : A) s (Q : Res A -> S -> Prop) : Q (Ok a) s -> returns (ret a) s Q.
Proof. intros H. now exists (Ok a), s. Qed.

Lemma returns_call (x : Res A) s (Q : Res A -> S -> Prop) : Q x s -> returns (call x) s Q.
Proof. intros H. now exists x, s. Qed.

Lemma returns_throw e s (Q : Res A -> S -> Prop) : Q (Err e) s -> returns (throw e) s Q.
Proof. intros H. now exists (Err e), s. Qed.

Lemma returns_try_catch (m : M S A) h s (Q : Res A -> S -> Prop) :
  returns m s (fun r s1 => match r with
                           | Ok a => Q (Ok a) s1
                           | Err e => returns (h e) s1 Q
                           end) ->
  returns (try_catch m h) s Q.
Proof.
  intros ([a|e] & s1 & Em & H); unfold returns, try_catch; rewrite Em.
  - now exists (Ok a), s1.
  - exact H.
Qed.

End Logic.

Section LogicBind.

Context {S A B : Type}.

Lemma post_bind (m : M S A) (f : A -> M S B) s (Q : Res B -> S -> Prop) :
  post m s (fun r s1 => match r with
                        | Ok a => post (f a) s1 Q
                        | Err e => Q (Err e) s1
                        end) ->
  post (bind m f) s Q.
Proof.
  intros H r s' E. unfold bind in E.
  destruct (m s) as [[[a|e] s1]|] eqn:Em; [| |discriminate].
  - exact (H _ _ Em _ _ E).
  - inversion E; subst. exact (H _ _ Em).
Qed.

Lemma returns_bind (m : M S A) (f : A -> M S B) s (Q : Res B -> S -> Prop) :
  returns m s (fun r s1 => match r with
                           | Ok a => returns (f a) s1 Q
                           | Err e => Q (Err e) s1
                           end) ->
  returns (bind m f) s Q.
Proof.
  intros ([a|e] & s1 & Em & H); unfold returns, bind; rewrite Em.
  - exact H.
  - now exists (Err e), s1.
Qed.

End LogicBind.

Section LogicState.

Context {L A : Type}.

Lemma post_on_world (m : M World A) (s : L * World) (Q : Res A -> L * World -> Prop) :
  post m (snd s) (fun r w' => Q r (fst s, w')) -> post (on_world m) s Q.
Proof.
  intros H r s' E. unfold on_world in E.
  destruct (m (snd s)) as [[r0 w']|] eqn:Em; [|discriminate].
  inversion E; subst. exact (H _ _ Em).
Qed.

Lemma post_with_locals (l0 : L) (m : M (L * World) A) w (Q : Res A -> World -> Prop) :
  post m (l0, w) (fun r s' => Q r (snd s')) -> post (with_locals l0 m) w Q.
Proof.
  intros H r w' E. unfold with_locals in E.
  destruct (m (l0, w)) as [[r0 [l' w1]]|] eqn:Em; [|discriminate].
  inversion E; subst. exact (H _ _ Em).
Qed.

Lemma returns_on_world (m : M World A) (s : L * World) (Q : Res A -> L * World -> Prop) :
  returns m (snd s) (fun r w' => Q r (fst s, w')) -> returns (on_world m) s Q.
Proof.
  intros (r & w' & Em & H). exists r, (fst s, w'). unfold on_world. now rewrite Em.
Qed.

Lemma returns_with_locals (l0 : L) (m : M (L * World) A) w (Q : Res A -> World -> Prop) :
  returns m (l0, w) (fun r s' => Q r (snd s')) -> returns (with_locals l0 m) w Q.
Proof.
  intros (r & [l' w'] & Em & H). exists r, w'. unfold with_locals. now rewrite Em.
Qed.

End LogicState.

(** Congruence, state by state (no extensionality is assumed). *)
Lemma bind_ext {S A B} (m1 m2 : M S A) (f1 f2 : A -> M S B) :
  (forall s, m1 s = m2 s) ->
  (forall a s, f1 a s = f2 a s) ->
  forall s, bind m1 f1 s = bind m2 f2 s.
Proof.
  intros Hm Hf s. unfold bind. rewrite Hm.
  destruct (m2 s) as [[[a|e] s1]|]; [apply Hf | reflexivity | reflexivity].
Qed.

Lemma try_catch_ext {S A} (m1 m2 : M S A) (h1 h2 : error -> M S A) :
  (forall s, m1 s = m2 s) ->
  (forall e s, h1 e s = h2 e s) ->
  forall s, try_catch m1 h1 s = try_catch m2 h2 s.
Proof.
  intros Hm Hh s. unfold try_catch. rewrite Hm.
  destruct (m2 s) as [[[a|e] s1]|]; [reflexivity | apply Hh | reflexivity].
Qed.

Lemma on_world_ext {L A} (m1 m2 : M World A) :
  (forall w, m1 w = m2 w) -> forall s : L * World, on_world m1 s = on_world m2 s.
Proof. intros Hm s. unfold on_world. now rewrite Hm. Qed.

Lemma with_locals_ext {L A} (l0 : L) (m1 m2 : M (L * World) A) :
  (forall s, m1 s = m2 s) -> forall w, with_locals l0 m1 w = with_locals l0 m2 w.
Proof. intros Hm w. unfold with_locals. now rewrite Hm. Qed.

Lemma post_locals {L} (s : L * World) (Q : Res L -> L * World -> Prop) :
  Q (Ok (fst s)) s -> post locals s Q.
Proof. intros H r s' E. now inversion E; subst. Qed.

Lemma post_set_locals {L} (f : L -> L) (s : L * World) (Q : Res unit -> L * World -> Prop) :
  Q (Ok tt) (f (fst s), snd s) -> post (set_locals f) s Q.
Proof. intros H r s' E. now inversion E; subst. Qed.

Lemma post_modify {S} (f : S -> S) s (Q : Res unit -> S -> Prop) :
  Q (Ok tt) (f s) -> post (modify f) s Q.
Proof. intros H r s' E. now inversion E; subst. Qed.

Lemma post_generateId w (Q : Res Id -> World -> Prop) :
  Q (Ok (IdGen (nextId w))) (mkWorld (events w) (calls w) (S (nextId w)) (status w)) ->
  post generateId w Q.
Proof. intros H r s' E. now inversion E; subst. Qed.

Lemma post_client_createMessage client params w (Q : Res Response -> World -> Prop) :
  Q (createMessage client (List.length (calls w)) params)
    (mkWorld (events w) (calls w ++ [params]) (nextId w) (status w)) ->
  post (client_createMessage client params) w Q.
Proof. intros H r s' E. now inversion E; subst. Qed.

Lemma returns_locals {L} (s : L * World) (Q : Res L -> L * World -> Prop) :
  Q (Ok (fst s)) s -> returns locals s Q.
Proof. intros H. now exists (Ok (fst s)), s. Qed.

Lemma returns_set_locals {L} (f : L -> L) (s : L * World) (Q : Res unit -> L * World -> Prop) :
  Q (Ok tt) (f (fst s), snd s) -> returns (set_locals f) s Q.
Proof. intros H. now exists (Ok tt), (f (fst s), snd s). Qed.

Lemma returns_modify {S} (f : S -> S) s (Q : Res unit -> S -> Prop) :
  Q (Ok tt) (f s) -> returns (modify f) s Q.
Proof. intros H. now exists (Ok tt), (f s). Qed.

Lemma returns_generateId w (Q : Res Id -> World -> Prop) :
  Q (Ok (IdGen (nextId w))) (mkWorld (events w) (calls w) (S (nextId w)) (status w)) ->
  returns generateId w Q.
Proof. intros H. eexists _, _. split; [reflexivity | exact H]. Qed.

Lemma returns_client_createMessage client params w (Q : Res Response -> World -> Prop) :
  Q (createMessage client (List.length (calls w)) params)
    (mkWorld (events w) (calls w ++ [params]) (nextId w) (status w)) ->
  returns (client_createMessage client params) w Q.
Proof. intros H. eexists _, _. split; [reflexivity | exact H]. Qed.

(** One step of symbolic execution of a [post] or [returns] goal. *)
Ltac exec_step :=
  lazymatch goal with
  | |- post (bind _ _) _ _ => apply post_bind
  | |- post (ret _) _ _ => apply post_ret
  | |- post (call _) _ _ => apply post_call
  | |- post (throw _) _ _ => apply post_throw
  | |- post diverge _ _ => apply post_diverge
  | |- post (try_catch _ _) _ _ => apply post_try_catch
  | |- post (on_world _) _ _ => apply post_on_world
  | |- post (with_locals _ _) _ _ => apply post_with_locals
  | |- post locals _ _ => apply post_locals
  | |- post (set_locals _) _ _ => apply post_set_locals
  | |- post (modify _) _ _ => apply post_modify
  | |- post (emit _) _ _ => apply post_modify
  | |- post (setStatus _) _ _ => apply post_modify
  | |- post generateId _ _ => apply post_generateId
  | |- post (client_createMessage _ _) _ _ => apply post_client_createMessage
  | |- post (add_usage _) _ _ => unfold add_usage
  | |- returns (bind _ _) _ _ => apply returns_bind
  | |- returns (ret _) _ _ => apply returns_ret
  | |- returns (call _) _ _ => apply returns_call
  | |- returns (throw _) _ _ => apply returns_throw
  | |- returns (try_catch _ _) _ _ => apply returns_try_catch
  | |- returns (on_world _) _ _ => apply returns_on_world
  | |- returns (with_locals _ _) _ _ => apply returns_with_locals
  | |- returns locals _ _ => apply returns_locals
  | |- returns (set_locals _) _ _ => apply returns_set_locals
  | |- returns (modify _) _ _ => apply returns_modify
  | |- returns (emit _) _ _ => apply returns_modify
  | |- returns (setStatus _) _ _ => apply returns_modify
  | |- returns generateId _ _ => apply returns_generateId
  | |- returns (client_createMessage _ _) _ _ => apply returns_client_createMessage
  | |- returns (add_usage _) _ _ => unfold add_usage
  end.

Ltac exec := cbv beta match; repeat (exec_step; cbv beta match; cbn [fst snd]).

(** Split a conjunction into its parts, and nothing else. *)
Ltac splits := repeat match goal with |- _ /\ _ => split end.

(** Case analysis on the results of the tools of an answer. *)
Ltac case_results :=
  match goal with
  | |- context [tool_results ?self ?n ?blocks] =>
      let results := fresh "results" in
      let e := fresh "e" in
      let Hresults := fresh "Hresults" in
      destruct (tool_results self n blocks) as [results|e] eqn:Hresults;
      cbn [and_then]; cbv beta match
  end.

(** Case analysis on the outcome of the model call at the head of the goal. *)
Ltac case_call :=
  match goal with
  | |- context [createMessage ?c ?n ?p] =>
      let response := fresh "response" in
      let e := fresh "e" in
      let Hcall := fresh "Hcall" in
      destruct (createMessage c n p) as [response|e] eqn:Hcall
  end.

(** ** Prompt execution: the tool loop *)

Section ToolLoop.

Variable self : PromptInstance.

Lemma pi_emit_run e w :
  pi_emit self e w =
  Some (Ok tt, mkWorld (events w ++ published self [e]) (calls w) (nextId w) (status w)).
Proof.
  unfold pi_emit, published. destruct (pi_eventObservable self); cbn.
  - reflexivity.
  - rewrite app_nil_r. now destruct w.
Qed.

Lemma published_app evs evs' :
  published self (evs ++ evs') = published self evs ++ published self evs'.
Proof. unfold published. now destruct (pi_eventObservable self). Qed.

(** One pass over the blocks of a response: it makes no model call, and
    throws only where the text of a tool result cannot be built. *)
Lemma process_blocks_run blocks :
  forall toolResults l w,
    process_blocks self blocks toolResults (l, w) =
    Some (and_then (tool_results self (nextId w) blocks)
                   (fun results => Ok (toolResults ++ results)),
          (mkRunLocals (totalUsage l)
                       (toolCalls l
                        ++ tool_records self (nextId w) (handled self (nextId w) blocks)),
           mkWorld (events w
                    ++ published self
                         (tool_events self (nextId w) (handled self (nextId w) blocks)))
                   (calls w) (nextId w + tool_uses (handled self (nextId w) blocks))
                   (status w))).
Proof.
  induction blocks as [|b blocks IH]; intros toolResults l w.
  - cbn. unfold published. destruct (pi_eventObservable self);
      rewrite !app_nil_r, Nat.add_0_r; destruct l, w; reflexivity.
  - destruct b as [t|bid name input|ty]; cbn [process_blocks tool_results handled
      tool_records tool_events tool_uses]; try apply IH.
    unfold bind at 1. unfold on_world at 1. cbn [snd fst generateId].
    unfold bind at 1. unfold on_world at 1. cbn [snd fst]. rewrite pi_emit_run.
    unfold block_text.
    destruct (call_tool self (IdGen (nextId w)) name input) as [out err] eqn:E.
    unfold bind at 1. unfold on_world at 1. cbn [snd fst]. rewrite pi_emit_run.
    unfold bind at 1. cbn [set_locals fst snd].
    unfold bind at 1. cbn [call].
    destruct (tool_result_text out err) as [text|e]; cbn [and_then].
    + rewrite IH. cbn [events calls nextId status totalUsage toolCalls fst snd
        tool_records tool_events tool_uses].
      rewrite E. cbn [fst snd].
      rewrite <- !app_assoc, <- !published_app. cbn [app].
      rewrite Nat.add_succ_r.
      destruct (tool_results self (S (nextId w)) blocks); cbn [and_then];
        [rewrite <- app_assoc|]; reflexivity.
    + cbn [events calls nextId status totalUsage toolCalls fst snd
        tool_records tool_events tool_uses].
      rewrite E. cbn [fst snd].
      rewrite <- !app_assoc, <- !published_app. cbn [app].
      rewrite Nat.add_1_r. reflexivity.
Qed.

(** Tools with serializable outputs: every block is worked through and
    gives its result. *)
Lemma block_text_ok n name input :
  serializable_tools (pi_toolHandlers self) ->
  exists text, block_text self n name input = Ok text.
Proof.
  intros Hser. unfold block_text, call_tool.
  destruct (assoc name (pi_toolHandlers self)) as [handler|] eqn:Hh;
    [|eexists; reflexivity].
  destruct (match prompt_hook self onTool with Some hook => hook _ | None => Ok tt end);
    [|eexists; reflexivity].
  destruct (handler input) as [out|e] eqn:Hout; [|eexists; reflexivity].
  cbn [fst snd tool_result_text]. unfold JSON_stringify.
  rewrite (Hser _ _ _ _ Hh Hout). eexists; reflexivity.
Qed.

Lemma handled_all blocks :
  serializable_tools (pi_toolHandlers self) ->
  forall n, handled self n blocks = blocks.
Proof.
  intros Hser. induction blocks as [|[t|bid name input|ty] blocks IH]; intros n;
    cbn [handled]; [reflexivity | now rewrite IH | | now rewrite IH].
  destruct (block_text_ok n name input Hser) as [text ->]. now rewrite IH.
Qed.

Lemma tool_results_ok blocks :
  serializable_tools (pi_toolHandlers self) ->
  forall n, exists results, tool_results self n blocks = Ok results.
Proof.
  intros Hser. induction blocks as [|[t|bid name input|ty] blocks IH]; intros n;
    cbn [tool_results]; [eexists; reflexivity | apply IH | | apply IH].
  destruct (block_text_ok n name input Hser) as [text ->].
  destruct (IH (S n)) as [more ->]. eexists; reflexivity.
Qed.

(** Where the results cannot be put together, fewer blocks are worked
    through than there are; where they can, all of them. *)
Lemma handled_results blocks :
  forall n results, tool_results self n blocks = Ok results -> handled self n blocks = blocks.
Proof.
  induction blocks as [|[t|bid name input|ty] blocks IH]; intros n results H;
    cbn [handled tool_results] in *; [reflexivity | now rewrite (IH _ _ H) | |
                                      now rewrite (IH _ _ H)].
  destruct (block_text self n name input) as [text|e]; [|discriminate H].
  cbn [and_then] in H.
  destruct (tool_results self (S n) blocks) as [more|e] eqn:Hmore; [|discriminate H].
  now rewrite (IH _ _ Hmore).
Qed.

Lemma tool_pairs_app pid evs evs' :
  tool_pairs pid evs -> tool_pairs pid evs' -> tool_pairs pid (evs ++ evs').
Proof. induction 1; cbn; [auto | intros; constructor; auto]. Qed.

Lemma tool_events_pairs blocks : forall n, tool_pairs (pi_id self) (tool_events self n blocks).
Proof.
  induction blocks as [|[t|bid name input|ty] blocks IH]; intros n; cbn;
    try constructor; auto.
Qed.

Lemma post_run {S A} (m : M S A) s r s' (Q : Res A -> S -> Prop) :
  m s = Some (r, s') -> Q r s' -> post m s Q.
Proof. intros E H r0 s0 E0. rewrite E in E0. now inversion E0; subst. Qed.

Lemma returns_run_eq {S A} (m : M S A) s r s' (Q : Res A -> S -> Prop) :
  m s = Some (r, s') -> Q r s' -> returns m s Q.
Proof. intros E H. now exists r, s'. Qed.

(** The tool loop publishes tool pairs only, and leaves the status alone;
    this holds also when a model call is rejected. *)
Lemma tool_loop_events client systemContent tools_ fuel :
  forall msgs response l w,
    post (tool_loop fuel client self systemContent tools_ msgs response) (l, w)
      (fun _ s' =>
         exists evs, events (snd s') = events w ++ published self evs /\
                     tool_pairs (pi_id self) evs /\
                     status (snd s') = status w).
Proof.
  induction fuel as [|fuel IH]; intros msgs response l w; cbn [tool_loop];
    destruct (is_tool_use response).
  - apply post_diverge.
  - exec. exists []. unfold published. destruct (pi_eventObservable self);
      rewrite ?app_nil_r; repeat split; constructor.
  - exec. eapply post_run; [apply process_blocks_run|]. case_results.
    + exec. cbn [events calls nextId status].
      case_call.
      * exec. unfold add_usage. exec.
        eapply post_conseq; [apply IH|].
        cbn [fst snd events status]. intros _ s' (evs & Hev & Hp & Hst).
        exists (tool_events self (nextId w) (handled self (nextId w) (content response))
                ++ evs).
        rewrite Hev, published_app, app_assoc.
        repeat split; [|assumption].
        apply tool_pairs_app; [apply tool_events_pairs | assumption].
      * exists (tool_events self (nextId w) (handled self (nextId w) (content response))).
        repeat split. apply tool_events_pairs.
    + cbn [snd events status].
      exists (tool_events self (nextId w) (handled self (nextId w) (content response))).
      repeat split. apply tool_events_pairs.
  - exec. exists []. unfold published. destruct (pi_eventObservable self);
      rewrite ?app_nil_r; repeat split; constructor.
Qed.

(** The [try] block interpolates the two templates and goes on to the
    model calls, or throws what the interpolation throws. *)
Lemma run_try_texts fuel client processedInput s :
  run_try fuel client self processedInput s =
  match run_texts self processedInput with
  | Ok texts => run_calls fuel client self (fst texts) (snd texts) s
  | Err e => Some (Err e, s)
  end.
Proof.
  unfold run_try, run_texts, bind, call.
  destruct (interpolate _ _); cbn [and_then]; [|reflexivity].
  destruct (system_content _ _); reflexivity.
Qed.

Lemma post_run_try fuel client processedInput s (Q : Res PromptResult -> _ -> Prop) :
  (forall userContent systemContent,
      run_texts self processedInput = Ok (userContent, systemContent) ->
      post (run_calls fuel client self userContent systemContent) s Q) ->
  (forall e, run_texts self processedInput = Err e -> Q (Err e) s) ->
  post (run_try fuel client self processedInput) s Q.
Proof.
  intros Hok Herr r s' E. rewrite run_try_texts in E.
  destruct (run_texts self processedInput) as [[u sys]|e] eqn:Htexts.
  - exact (Hok u sys eq_refl _ _ E).
  - inversion E; subst. now apply Herr.
Qed.

Lemma returns_run_try fuel client processedInput s (Q : Res PromptResult -> _ -> Prop) :
  (forall userContent systemContent,
      run_texts self processedInput = Ok (userContent, systemContent) ->
      returns (run_calls fuel client self userContent systemContent) s Q) ->
  (forall e, run_texts self processedInput = Err e -> Q (Err e) s) ->
  returns (run_try fuel client self processedInput) s Q.
Proof.
  intros Hok Herr. unfold returns. rewrite run_try_texts.
  destruct (run_texts self processedInput) as [[u sys]|e] eqn:Htexts.
  - exact (Hok u sys eq_refl).
  - eexists _, _. split; [reflexivity | now apply Herr].
Qed.

(** The [catch] block never throws. *)
Lemma run_catch_run err l w :
  run_catch self err (l, w) =
  let res := mkPromptResult EmptyString (totalUsage l) (toolCalls l) [] (Some err) None in
  Some (Ok res,
        (l, mkWorld (events w ++ published self
                       [promptInstanceEnd (pi_id self) (pc_name (pi_config self)) res
                          (pr_tokenUsage res)])
                    (calls w) (nextId w) (status w))).
Proof.
  unfold run_catch. unfold bind at 1. cbn [locals fst snd].
  unfold bind at 1. unfold on_world. cbn [fst snd]. rewrite pi_emit_run. reflexivity.
Qed.

(** [PromptInstance.run] throws only what its [beforeCall] hook throws, and
    then nothing has happened; otherwise it returns a result, having
    published the events of one prompt execution. *)
Lemma PromptInstance_run_events fuel client w :
  post (PromptInstance_run fuel client self) w
    (fun r w' =>
       match r with
       | Err e =>
           w' = w /\
           exists hook, prompt_hook self beforeCall = Some hook /\
                        hook (pi_input self) = Err e
       | Ok res =>
           status w' = status w /\
           exists evs, events w' = events w ++ published self evs /\
                       prompt_events self res evs
       end).
Proof.
  assert (Hcatch : forall err l w1 evs,
             events w1 = events w ++ published self evs ->
             status w1 = status w ->
             (exists processedInput tools_,
                 evs = promptInstanceStart (pi_id self) (pc_name (pi_config self))
                         processedInput :: tools_ /\
                 tool_pairs (pi_id self) tools_) ->
             post (run_catch self err) (l, w1)
               (fun r s' =>
                  match r with
                  | Err e => snd s' = w /\
                      exists hook, prompt_hook self beforeCall = Some hook /\
                                   hook (pi_input self) = Err e
                  | Ok res => status (snd s') = status w /\
                      exists evs, events (snd s') = events w ++ published self evs /\
                                  prompt_events self res evs
                  end)).
  { intros err l w1 evs Hev Hst (pin & tls & -> & Hp).
    eapply post_run; [apply run_catch_run|]. cbn [snd events status].
    split; [assumption|]. eexists. rewrite Hev, <- app_assoc, <- published_app.
    split; [reflexivity|]. exists pin, tls. split; [reflexivity | assumption]. }
  assert (Hbody : forall processedInput,
             post (pi_emit self (promptInstanceStart (pi_id self) (pc_name (pi_config self))
                                   processedInput) ;;;
                   with_locals (mkRunLocals emptyTokenUsage [])
                     (try_catch (run_try fuel client self processedInput) (run_catch self))) w
               (fun r w' =>
                  match r with
                  | Err e => w' = w /\
                      exists hook, prompt_hook self beforeCall = Some hook /\
                                   hook (pi_input self) = Err e
                  | Ok res => status w' = status w /\
                      exists evs, events w' = events w ++ published self evs /\
                                  prompt_events self res evs
                  end)).
  { intros pin. exec. eapply post_run; [apply pi_emit_run|]. exec.
    apply post_run_try; [intros userContent systemContent Htexts | intros e Htexts].
    2:{ cbv beta match. eapply (Hcatch _ _ _ [_]).
        - reflexivity.
        - reflexivity.
        - exists pin, []. split; [reflexivity | constructor]. }
    unfold run_calls. exec. cbn [events calls nextId status]. case_call.
    - unfold add_usage. exec. eapply post_conseq; [apply tool_loop_events|].
      cbn [snd events status]. intros [response'|e] [l1 w1] (evs & Hev & Hp & Hst);
        cbn [fst snd] in *.
      + exec. unfold apply_hook. destruct (prompt_hook self afterCall) as [hook|].
        * exec. destruct (hook _) as [result|e].
          -- exec. eapply post_run; [apply pi_emit_run|]. exec.
             cbn [events status]. split; [assumption|].
             eexists. rewrite Hev, <- !app_assoc, <- !published_app.
             split; [reflexivity|]. exists pin, evs. split; [reflexivity | assumption].
          -- eapply (Hcatch _ _ _ (_ :: evs)).
             ++ rewrite Hev, <- app_assoc, <- published_app. reflexivity.
             ++ assumption.
             ++ exists pin, evs. split; [reflexivity | assumption].
        * exec. eapply post_run; [apply pi_emit_run|]. exec.
          cbn [events status]. split; [assumption|].
          eexists. rewrite Hev, <- !app_assoc, <- !published_app.
          split; [reflexivity|]. exists pin, evs. split; [reflexivity | assumption].
      + eapply (Hcatch _ _ _ (_ :: evs)).
        * rewrite Hev, <- app_assoc, <- published_app. reflexivity.
        * assumption.
        * exists pin, evs. split; [reflexivity | assumption].
    - eapply (Hcatch _ _ _ [_]).
      + reflexivity.
      + reflexivity.
      + exists pin, []. split; [reflexivity | constructor]. }
  unfold PromptInstance_run. unfold apply_hook.
  destruct (prompt_hook self beforeCall) as [hook|] eqn:Hhook.
  - apply post_bind, post_call.
    destruct (hook (pi_input self)) as [processedInput|e] eqn:Hcall.
    + apply Hbody.
    + split; [reflexivity|]. exists hook. auto.
  - apply post_bind, post_ret, Hbody.
Qed.

(** *** Model calls of the tool loop *)

Lemma call_chain_only_if client n nid requests :
  call_chain client self n nid requests ->
  further_call_only_after_tool_use client n requests.
Proof.
  induction 1 as [n nid params Hlast
                 | n nid params response results rest Hcall Htool Hres Hrest IH];
    intros i p Hi Hlt.
  - cbn in Hlt. lia.
  - destruct i as [|i]; cbn in Hi.
    + inversion Hi; subst p. rewrite Nat.add_0_r. now exists response.
    + rewrite Nat.add_succ_r. apply (IH _ _ Hi). cbn in Hlt. lia.
Qed.

Lemma call_chain_iff client n nid requests :
  serializable_tools (pi_toolHandlers self) ->
  call_chain client self n nid requests ->
  further_call_iff_tool_use client n requests.
Proof.
  intros Hser.
  induction 1 as [n nid params Hlast
                 | n nid params response results rest Hcall Htool Hres Hrest IH];
    intros i p Hi.
  - destruct i as [|i]; [|destruct i; discriminate Hi].
    cbn in Hi. inversion Hi; subst p. rewrite Nat.add_0_r. cbn. split.
    + lia.
    + intros (response & Hcall & Htool). destruct (Hlast _ Hcall Htool) as [e He].
      destruct (tool_results_ok (content response) Hser nid) as [results Hres].
      congruence.
  - destruct i as [|i]; cbn in Hi.
    + inversion Hi; subst p. rewrite Nat.add_0_r. split.
      * intros _. now exists response.
      * intros _. cbn. inversion Hrest; cbn; lia.
    + specialize (IH _ _ Hi). rewrite Nat.add_succ_r. cbn [List.length].
      cbn [Nat.add] in IH. rewrite <- IH. lia.
Qed.

Lemma tool_loop_calls client systemContent tools_ fuel :
  forall msgs response l w,
    post (tool_loop fuel client self systemContent tools_ msgs response) (l, w)
      (fun _ s' =>
         exists more,
           calls (snd s') = calls w ++ more /\
           if is_tool_use response
           then (more = [] /\
                 exists e, tool_results self (nextId w) (content response) = Err e) \/
                (exists results,
                    tool_results self (nextId w) (content response) = Ok results /\
                    call_chain client self (List.length (calls w))
                               (nextId w + tool_uses (content response)) more)
           else more = []).
Proof.
  induction fuel as [|fuel IH]; intros msgs response l w; cbn [tool_loop];
    destruct (is_tool_use response) eqn:Htool.
  - apply post_diverge.
  - exec. exists []. now rewrite app_nil_r.
  - exec. eapply post_run; [apply process_blocks_run|]. case_results.
    2:{ cbn [snd calls]. exists []. rewrite app_nil_r. split; [reflexivity|].
        left. split; [reflexivity | now exists e]. }
    rewrite (handled_results _ _ Hresults).
    exec. cbn [events calls nextId status]. case_call.
    + unfold add_usage. exec.
      eapply post_conseq; [apply IH|].
      cbn [fst snd calls nextId]. intros _ s' (more & Hcalls & Hmore).
      eexists (_ :: more). rewrite Hcalls, <- app_assoc. split; [reflexivity|].
      right. exists results. split; [reflexivity|].
      destruct (is_tool_use response0) eqn:Htool'.
      * destruct Hmore as [[-> [e He]] | (results' & Hres' & Hchain)].
        -- apply chain_end. intros r Hr _. rewrite Hcall in Hr. inversion Hr; subst r.
           now exists e.
        -- eapply chain_next; [exact Hcall | exact Htool' | exact Hres' |].
           rewrite length_app, Nat.add_1_r in Hchain. exact Hchain.
      * subst more. apply chain_end. intros r Hr Hr'. rewrite Hcall in Hr.
        inversion Hr; subst r. congruence.
    + cbn [snd calls]. eexists [_]. split; [reflexivity|].
      right. exists results. split; [reflexivity|].
      apply chain_end. intros r Hr. rewrite Hcall in Hr. discriminate Hr.
  - exec. exists []. now rewrite app_nil_r.
Qed.

(** A prompt execution that gets past its [beforeCall] hook and its
    interpolation makes one chain of model calls. *)
Lemma PromptInstance_run_calls fuel client w :
  post (PromptInstance_run fuel client self) w
    (fun r w' =>
       forall res, r = Ok res ->
         exists processedInput requests,
           hooked (prompt_hook self beforeCall) (pi_input self) = Ok processedInput /\
           calls w' = calls w ++ requests /\
           ((requests = [] /\ exists e, run_texts self processedInput = Err e) \/
            call_chain client self (List.length (calls w)) (nextId w) requests)).
Proof.
  assert (Hcatch : forall err l w1 (Q : list MessageParams -> Prop) requests,
             calls w1 = calls w ++ requests -> Q requests ->
             post (run_catch self err) (l, w1)
               (fun r s' => forall res, r = Ok res ->
                  exists requests, calls (snd s') = calls w ++ requests /\ Q requests)).
  { intros err l w1 Q requests Hcalls HQ.
    eapply post_run; [apply run_catch_run|]. cbv zeta. cbn [snd calls].
    intros res _. now exists requests. }
  assert (Hbody : forall processedInput,
             post (pi_emit self (promptInstanceStart (pi_id self) (pc_name (pi_config self))
                                   processedInput) ;;;
                   with_locals (mkRunLocals emptyTokenUsage [])
                     (try_catch (run_try fuel client self processedInput) (run_catch self))) w
               (fun r w' => forall res, r = Ok res ->
                  exists requests,
                    calls w' = calls w ++ requests /\
                    ((requests = [] /\ exists e, run_texts self processedInput = Err e) \/
                     call_chain client self (List.length (calls w)) (nextId w) requests))).
  { intros pin. exec. eapply post_run; [apply pi_emit_run|]. exec.
    apply post_run_try; [intros userContent systemContent Htexts | intros e Htexts].
    2:{ cbv beta match. eapply Hcatch; [cbn [calls]; now rewrite app_nil_r|].
        left. split; [reflexivity | now exists e]. }
    unfold run_calls. exec. cbn [events calls nextId status]. case_call.
    - unfold add_usage. exec. eapply post_conseq; [apply tool_loop_calls|].
      cbn [snd calls nextId]. intros r [l1 w1] (more & Hcalls & Hmore); cbn [fst snd] in *.
      rewrite <- app_assoc in Hcalls. cbn [app] in Hcalls.
      match type of Hcalls with
      | _ = _ ++ ?requests =>
          assert (Hchain : call_chain client self (List.length (calls w)) (nextId w)
                                      requests)
      end.
      { destruct (is_tool_use response) eqn:Htool.
        - destruct Hmore as [[-> [e He]] | (results & Hres & Hchain)].
          + apply chain_end. intros r' Hr' _. rewrite Hcall in Hr'.
            inversion Hr'; subst r'. now exists e.
          + eapply chain_next; [exact Hcall | exact Htool | exact Hres |].
            rewrite length_app, Nat.add_1_r in Hchain. exact Hchain.
        - subst more. apply chain_end. intros r' Hr' Ht'. rewrite Hcall in Hr'.
          inversion Hr'; subst r'. congruence. }
      destruct r as [response'|e].
      + exec. unfold apply_hook. destruct (prompt_hook self afterCall) as [hook|].
        * exec. destruct (hook _) as [result|e].
          -- exec. eapply post_run; [apply pi_emit_run|]. exec.
             cbn [calls]. intros res _. eexists. split; [exact Hcalls | right; exact Hchain].
          -- eapply Hcatch; [exact Hcalls | right; exact Hchain].
        * exec. eapply post_run; [apply pi_emit_run|]. exec.
          cbn [calls]. intros res _. eexists. split; [exact Hcalls | right; exact Hchain].
      + eapply Hcatch; [exact Hcalls | right; exact Hchain].
    - eapply Hcatch; [reflexivity|]. right.
      apply chain_end. intros r Hr. rewrite Hcall in Hr. discriminate Hr. }
  unfold PromptInstance_run, apply_hook.
  destruct (prompt_hook self beforeCall) as [hook|] eqn:Hhook.
  - apply post_bind, post_call. destruct (hook (pi_input self)) as [pin|e] eqn:Hpin.
    + eapply post_conseq; [apply Hbody|]. intros r w' H res Hr.
      destruct (H res Hr) as (requests & Hcalls & Hchain).
      exists pin, requests. cbn [hooked]. auto.
    + discriminate.
  - apply post_bind, post_ret. eapply post_conseq; [apply Hbody|]. intros r w' H res Hr.
    destruct (H res Hr) as (requests & Hcalls & Hchain).
    exists (pi_input self), requests. cbn [hooked]. auto.
Qed.

Lemma apply_hook_call {S A} (h : option (A -> Res A)) (x : A) :
  @apply_hook S A h x = call (hooked h x).
Proof. now destruct h. Qed.

Lemma tool_loop_done fuel client systemContent tools_ msgs response s :
  is_tool_use response = false ->
  tool_loop fuel client self systemContent tools_ msgs response s = Some (Ok response, s).
Proof. intros H. destruct fuel; cbn [tool_loop]; now rewrite H. Qed.

(** With enough fuel the tool loop ends. *)
Lemma tool_loop_returns client systemContent tools_ fuel :
  forall msgs response l w,
    (is_tool_use response = true ->
     exists k, k < fuel /\
               forall params r, createMessage client (List.length (calls w) + k) params = Ok r ->
                                is_tool_use r = false) ->
    returns (tool_loop fuel client self systemContent tools_ msgs response) (l, w)
            (fun _ _ => True).
Proof.
  induction fuel as [|fuel IH]; intros msgs response l w Hk; cbn [tool_loop];
    destruct (is_tool_use response) eqn:Htool.
  - destruct (Hk eq_refl) as (k & Hlt & _). lia.
  - now exec.
  - destruct (Hk eq_refl) as (k & Hlt & Hsettle).
    exec. eapply returns_run_eq; [apply process_blocks_run|]. case_results; [|exact I].
    exec. cbn [events calls nextId status]. case_call; [|exact I].
    unfold add_usage. exec. apply IH. cbn [calls]. intros Htool'.
    destruct k as [|k].
    + rewrite Nat.add_0_r in Hsettle. rewrite (Hsettle _ _ Hcall) in Htool'. discriminate.
    + exists k. split; [lia|]. intros params r.
      rewrite length_app, Nat.add_1_r. cbn [Nat.add].
      rewrite <- Nat.add_succ_r. apply Hsettle.
  - now exec.
Qed.

(** With enough fuel a prompt execution ends. *)
Lemma PromptInstance_run_returns fuel client w :
  settles client (List.length (calls w)) fuel ->
  returns (PromptInstance_run fuel client self) w (fun _ _ => True).
Proof.
  intros (k & Hle & Hsettle).
  assert (Hbody : forall processedInput,
             returns (pi_emit self (promptInstanceStart (pi_id self)
                                      (pc_name (pi_config self)) processedInput) ;;;
                      with_locals (mkRunLocals emptyTokenUsage [])
                        (try_catch (run_try fuel client self processedInput)
                                   (run_catch self))) w
                     (fun _ _ => True)).
  { intros pin. exec. eapply returns_run_eq; [apply pi_emit_run|]. exec.
    apply returns_run_try; [intros userContent systemContent Htexts | intros e Htexts].
    2:{ cbv beta match. eapply returns_run_eq; [apply run_catch_run|]. exact I. }
    unfold run_calls. exec. cbn [events calls nextId status]. case_call.
    - unfold add_usage. exec.
      eapply returns_conseq; [apply tool_loop_returns|].
      + cbn [calls]. intros Htool. destruct k as [|k].
        * rewrite Nat.add_0_r in Hsettle. rewrite (Hsettle _ _ Hcall) in Htool.
          discriminate.
        * exists k. split; [lia|]. intros params r.
          rewrite length_app, Nat.add_1_r. cbn [Nat.add].
          rewrite <- Nat.add_succ_r. apply Hsettle.
      + intros [response'|e] [l1 w1] _.
        * exec. rewrite apply_hook_call. exec.
          destruct (hooked _ _) as [result|e].
          -- exec. eapply returns_run_eq; [apply pi_emit_run|]. now exec.
          -- eapply returns_run_eq; [apply run_catch_run|]. exact I.
        * eapply returns_run_eq; [apply run_catch_run|]. exact I.
    - eapply returns_run_eq; [apply run_catch_run|]. exact I. }
  unfold PromptInstance_run. rewrite apply_hook_call.
  apply returns_bind, returns_call. destruct (hooked _ _); [apply Hbody | exact I].
Qed.

(** Two answers asking for tools, then one that does not: three calls, and
    the records of the tool-use blocks of the first two answers. *)
Lemma PromptInstance_run_three_calls fuel client w processedInput texts r1 r2 r3 :
  hooked (prompt_hook self beforeCall) (pi_input self) = Ok processedInput ->
  run_texts self processedInput = Ok texts ->
  serializable_tools (pi_toolHandlers self) ->
  (forall params, createMessage client (List.length (calls w)) params = Ok r1) ->
  (forall params, createMessage client (S (List.length (calls w))) params = Ok r2) ->
  (forall params, createMessage client (S (S (List.length (calls w)))) params = Ok r3) ->
  is_tool_use r1 = true -> is_tool_use r2 = true -> is_tool_use r3 = false ->
  returns (PromptInstance_run (S (S fuel)) client self) w
    (fun r w' =>
       exists res recorded,
         r = Ok res /\
         List.length (calls w') = List.length (calls w) + 3 /\
         pr_toolCalls recorded =
           tool_records self (nextId w) (content r1) ++
           tool_records self (nextId w + tool_uses (content r1)) (content r2) /\
         (hooked (prompt_hook self afterCall) recorded = Ok res \/
          (exists e, hooked (prompt_hook self afterCall) recorded = Err e) /\
          pr_toolCalls res = pr_toolCalls recorded)).
Proof.
  intros Hbefore Htexts Hser H1 H2 H3 Ht1 Ht2 Ht3.
  unfold PromptInstance_run. rewrite apply_hook_call, Hbefore. exec.
  eapply returns_run_eq; [apply pi_emit_run|]. exec.
  apply returns_run_try; [intros userContent systemContent _ | congruence].
  unfold run_calls. exec. cbn [events calls nextId status]. rewrite H1.
  unfold add_usage. exec. cbn [tool_loop]. rewrite Ht1. exec.
  eapply returns_run_eq; [apply process_blocks_run|].
  cbn [events calls nextId status]. rewrite (handled_all (content r1) Hser).
  destruct (tool_results_ok (content r1) Hser (nextId w)) as [results1 ->].
  cbn [and_then]. exec.
  cbn [events calls nextId status totalUsage toolCalls].
  rewrite length_app, Nat.add_1_r, H2. exec. cbn [tool_loop]. rewrite Ht2. exec.
  eapply returns_run_eq; [apply process_blocks_run|].
  cbn [events calls nextId status]. rewrite (handled_all (content r2) Hser).
  destruct (tool_results_ok (content r2) Hser (nextId w + tool_uses (content r1)))
    as [results2 ->].
  cbn [and_then]. exec.
  cbn [events calls nextId status totalUsage toolCalls].
  rewrite !length_app, !Nat.add_1_r, H3. exec.
  eapply returns_run_eq; [apply tool_loop_done; exact Ht3|]. exec.
  cbn [totalUsage toolCalls app]. rewrite apply_hook_call. exec.
  destruct (hooked (prompt_hook self afterCall) _) as [result|e] eqn:Hafter.
  - exec. eapply returns_run_eq; [apply pi_emit_run|]. exec. cbn [calls].
    eexists _, _. split; [reflexivity|]. split; [rewrite !length_app; cbn; lia|].
    split; [|left; exact Hafter]. reflexivity.
  - eapply returns_run_eq; [apply run_catch_run|]. cbv zeta. cbn [snd calls toolCalls].
    eexists _, _. split; [reflexivity|]. split; [rewrite !length_app; cbn; lia|].
    split; [|right; split; [exists e; exact Hafter|]]; reflexivity.
Qed.

End ToolLoop.

(** [C2] (amended) In every prompt execution that returns a result, the
    model calls made form one chain.  (1) A further call follows a call
    exactly when the answer to that call has stop reason ['tool_use'] and
    the results of the tools it asks for can be put together; the chain is
    empty only when interpolating the templates threw.  So a further call
    always follows an answer with stop reason ['tool_use'] only, and when
    the outputs of the tools can be serialized it follows every such answer.
    (2) The execution returns whenever some answer within [fuel] turns does
    not ask for tools.  (3) In particular, when the first two answers ask
    for tools and the third does not, exactly three calls are made, and the
    tool-call records of the execution (those on the result handed to the
    [afterCall] hook, which is the returned result when there is no such
    hook) are the records of the tool-use blocks of the first two answers,
    in order. *)
Theorem tool_loop_calls_follow_tool_use
        (fuel : nat) (client : AnthropicClient) (self : PromptInstance) (w : World) :
  (forall res w',
      PromptInstance_run fuel client self w = Some (Ok res, w') ->
      exists processedInput requests,
        hooked (prompt_hook self beforeCall) (pi_input self) = Ok processedInput /\
        calls w' = calls w ++ requests /\
        ((requests = [] /\ exists e, run_texts self processedInput = Err e) \/
         call_chain client self (List.length (calls w)) (nextId w) requests) /\
        further_call_only_after_tool_use client (List.length (calls w)) requests /\
        (serializable_tools (pi_toolHandlers self) ->
         further_call_iff_tool_use client (List.length (calls w)) requests)) /\
  (settles client (List.length (calls w)) fuel ->
   exists r w', PromptInstance_run fuel client self w = Some (r, w')) /\
  (forall processedInput texts r1 r2 r3,
      hooked (prompt_hook self beforeCall) (pi_input self) = Ok processedInput ->
      run_texts self processedInput = Ok texts ->
      serializable_tools (pi_toolHandlers self) ->
      (forall params, createMessage client (List.length (calls w)) params = Ok r1) ->
      (forall params, createMessage client (S (List.length (calls w))) params = Ok r2) ->
      (forall params, createMessage client (S (S (List.length (calls w)))) params = Ok r3) ->
      is_tool_use r1 = true -> is_tool_use r2 = true -> is_tool_use r3 = false ->
      2 <= fuel ->
      exists res w' recorded,
        PromptInstance_run fuel client self w = Some (Ok res, w') /\
        List.length (calls w') = List.length (calls w) + 3 /\
        pr_toolCalls recorded =
          tool_records self (nextId w) (content r1) ++
          tool_records self (nextId w + tool_uses (content r1)) (content r2) /\
        (hooked (prompt_hook self afterCall) recorded = Ok res \/
         (exists e, hooked (prompt_hook self afterCall) recorded = Err e) /\
         pr_toolCalls res = pr_toolCalls recorded)).
Proof.
  split; [|split].
  - intros res w' Hrun.
    destruct (@PromptInstance_run_calls self fuel client w _ _ Hrun res eq_refl)
      as (pin & requests & Hpin & Hcalls & Hchain).
    exists pin, requests. split; [assumption|]. split; [assumption|].
    split; [assumption|].
    destruct Hchain as [[-> _] | Hchain].
    + split; [|intros _]; intros i p Hi; destruct i; discriminate Hi.
    + split; [eapply call_chain_only_if; eassumption|].
      intros Hser. eapply call_chain_iff; eassumption.
  - intros Hsettle.
    destruct (@PromptInstance_run_returns self fuel client w Hsettle) as (r & w' & Hrun & _).
    now exists r, w'.
  - intros pin texts r1 r2 r3 Hbefore Htexts Hser H1 H2 H3 Ht1 Ht2 Ht3 Hfuel.
    destruct fuel as [|[|fuel]]; [lia | lia |].
    destruct (@PromptInstance_run_three_calls self fuel client w pin texts r1 r2 r3
                Hbefore Htexts Hser H1 H2 H3 Ht1 Ht2 Ht3)
      as (r & w' & Hrun & res & recorded & -> & Hlen & Hrec & Hres).
    now exists res, w', recorded.
Qed.

Lemma tool_loop_calls_follow_tool_use_witness :
  exists res w' recorded,
    PromptInstance_run 2 scripted_client sample_instance initial_world = Some (Ok res, w') /\
    List.length (calls w') = 3 /\
    pr_toolCalls recorded =
      [mkToolCall (IdGen 0) "lookup" (VObj []) (VStr "found") None (IdGiven "p1");
       mkToolCall (IdGen 1) "unknown" (VObj []) VUndefined
                  (Some (JsError "Unknown tool: unknown")) (IdGiven "p1")] /\
    (hooked (prompt_hook sample_instance afterCall) recorded = Ok res \/
     (exists e, hooked (prompt_hook sample_instance afterCall) recorded = Err e) /\
     pr_toolCalls res = pr_toolCalls recorded).
Proof.
  apply (proj2 (proj2 (tool_loop_calls_follow_tool_use 2 scripted_client sample_instance
                         initial_world))
           (VObj [("name", VStr "World")]) ("Hello World!", None)
           (tool_response "lookup") (tool_response "unknown") (text_response "done"));
    try reflexivity.
  intros name handler input out Hh Hout.
  unfold sample_instance, sample_handlers in Hh. cbn [pi_toolHandlers assoc] in Hh.
  destruct (String.eqb "lookup" name); [|discriminate Hh].
  inversion Hh; subst handler. inversion Hout. reflexivity.
Defined.

(** [C2] (as worded) A tool that returns a BigInt: the first answer asks
    for it, its output cannot be serialized, and the execution ends with
    that error after one call.  The answer had stop reason ['tool_use'], and
    no further call followed. *)
Lemma tool_use_without_call_counterexample :
  exists res w',
    PromptInstance_run 2 scripted_client bigint_instance initial_world
    = Some (Ok res, w') /\
    pr_error res = Some not_serializable_error /\
    ~ further_call_iff_tool_use scripted_client (List.length (calls initial_world))
        (calls w').
Proof.
  assert (Hrun : exists res w' p,
             PromptInstance_run 2 scripted_client bigint_instance initial_world
             = Some (Ok res, w') /\
             pr_error res = Some not_serializable_error /\
             calls w' = [p])
    by (eexists _, _, _; split; [vm_compute; reflexivity | split; reflexivity]).
  destruct Hrun as (res & w' & p & E & Herr & Hcalls).
  exists res, w'. split; [exact E|]. split; [exact Herr|].
  rewrite Hcalls. intros H. specialize (H 0 p eq_refl). cbn in H.
  assert (Hlt : 1 < 1); [|lia].
  apply H. exists (tool_response "lookup"). split; reflexivity.
Qed.

(** ** Streaming *)

Section Streaming.

Variable self : PromptInstance.

Local Open Scope string_scope.

Lemma join_tokens_cons token tokens :
  join_tokens (token :: tokens) = token ++ join_tokens tokens.
Proof.
  unfold join_tokens. destruct tokens as [|t ts]; cbn [String.concat].
  - now rewrite app_string_empty.
  - reflexivity.
Qed.

(** The loop over the stream events never throws: it appends each text
    delta to the buffer, publishes it and yields it. *)
Lemma stream_loop_run evs :
  forall l w,
    stream_loop self evs (l, w) =
    Some (Ok tt,
          (mkStreamLocals (s_totalUsage l)
                          (fullContent l ++ join_tokens (text_deltas evs))
                          (yielded l ++ map YToken (text_deltas evs))%list,
           mkWorld (events w ++ published self
                      (map (promptTokenReceived (pi_id self)) (text_deltas evs)))%list
                   (calls w) (nextId w) (status w))).
Proof.
  induction evs as [|ev evs IH]; intros l w.
  - cbn. unfold published. destruct (pi_eventObservable self);
      rewrite !app_nil_r, app_string_empty; destruct l, w; reflexivity.
  - destruct ev as [[token|]|ty]; cbn [stream_loop text_deltas]; try apply IH.
    unfold bind at 1. cbn [set_locals fst snd].
    unfold bind at 1. unfold on_world at 1. cbn [fst snd]. rewrite pi_emit_run.
    unfold bind at 1. unfold yield. cbn [set_locals fst snd s_totalUsage fullContent yielded].
    rewrite IH. cbn [s_totalUsage fullContent yielded events calls nextId status map].
    rewrite join_tokens_cons, app_string_assoc, <- !app_assoc.
    change (promptTokenReceived (pi_id self) token
            :: map (promptTokenReceived (pi_id self)) (text_deltas evs))
      with ([promptTokenReceived (pi_id self) token]
            ++ map (promptTokenReceived (pi_id self)) (text_deltas evs))%list.
    rewrite published_app. reflexivity.
Qed.

Lemma stream_catch_run err l w :
  stream_catch self err (l, w) =
  let res := mkPromptResult (fullContent l) (s_totalUsage l) [] [] (Some err) None in
  Some (Ok tt,
        (mkStreamLocals (s_totalUsage l) (fullContent l) (yielded l ++ [YResult res])%list,
         mkWorld (events w ++ published self
                    [promptInstanceEnd (pi_id self) (pc_name (pi_config self)) res
                       (pr_tokenUsage res)])%list
                 (calls w) (nextId w) (status w))).
Proof.
  unfold stream_catch. unfold bind at 1. cbn [locals fst snd].
  unfold bind at 1. unfold on_world. cbn [fst snd]. rewrite pi_emit_run. reflexivity.
Qed.

Lemma stream_try_texts client processedInput s :
  stream_try client self processedInput s =
  match run_texts self processedInput with
  | Ok texts => stream_calls client self (fst texts) (snd texts) s
  | Err e => Some (Err e, s)
  end.
Proof.
  unfold stream_try, run_texts, bind, call.
  destruct (interpolate _ _); cbn [and_then]; [|reflexivity].
  destruct (system_content _ _); reflexivity.
Qed.

Lemma post_stream_try client processedInput s (Q : Res unit -> _ -> Prop) :
  (forall userContent systemContent,
      run_texts self processedInput = Ok (userContent, systemContent) ->
      post (stream_calls client self userContent systemContent) s Q) ->
  (forall e, run_texts self processedInput = Err e -> Q (Err e) s) ->
  post (stream_try client self processedInput) s Q.
Proof.
  intros Hok Herr r s' E. rewrite stream_try_texts in E.
  destruct (run_texts self processedInput) as [[u sys]|e] eqn:Htexts.
  - exact (Hok u sys eq_refl _ _ E).
  - inversion E; subst. now apply Herr.
Qed.

Lemma returns_stream_try client processedInput s (Q : Res unit -> _ -> Prop) :
  (forall userContent systemContent,
      run_texts self processedInput = Ok (userContent, systemContent) ->
      returns (stream_calls client self userContent systemContent) s Q) ->
  (forall e, run_texts self processedInput = Err e -> Q (Err e) s) ->
  returns (stream_try client self processedInput) s Q.
Proof.
  intros Hok Herr. unfold returns. rewrite stream_try_texts.
  destruct (run_texts self processedInput) as [[u sys]|e] eqn:Htexts.
  - exact (Hok u sys eq_refl).
  - eexists _, _. split; [reflexivity | now apply Herr].
Qed.

Lemma stream_body_returns client processedInput w :
  hooked (prompt_hook self beforeCall) (pi_input self) = Ok processedInput ->
  returns (with_locals (mkStreamLocals emptyTokenUsage EmptyString [])
             (try_catch (stream_try client self processedInput) (stream_catch self) ;;;
              l <- locals ;;
              ret (yielded l))) w
    (fun r _ => exists ys, r = Ok ys /\ streamed self client ys).
Proof.
  intros Hpin. exec.
  apply returns_stream_try; [intros userContent systemContent Htexts | intros e Htexts].
  2:{ cbv beta match. eapply returns_run_eq; [apply stream_catch_run|]. exec.
      cbn [yielded s_totalUsage fullContent app].
      eexists. split; [reflexivity|].
      exists []. eexists.
      split; [reflexivity|]. split; [reflexivity|].
      intros pin' texts' stream' err' Hpin' Htexts'. congruence. }
  unfold stream_calls. exec.
  destruct (createMessageStream client _) as [stream|e] eqn:Hstream.
  - exec. eapply returns_run_eq; [apply stream_loop_run|]. exec.
    cbn [s_totalUsage fullContent yielded app].
    destruct (stream_failure stream) as [err|] eqn:Hfail.
    + exec. eapply returns_run_eq; [apply stream_catch_run|]. exec.
      cbn [yielded s_totalUsage fullContent app].
      eexists. split; [reflexivity|].
      exists (text_deltas (stream_events stream)). eexists.
      split; [reflexivity|]. split; [reflexivity|].
      intros pin' texts' stream' err' _ _ Hall Hfail'. rewrite Hall in Hstream.
      inversion Hstream; subst stream'. rewrite Hfail in Hfail'.
      inversion Hfail'; subst err'. auto.
    + exec. destruct (finalMessage stream) as [final|e].
      * exec. cbn [s_totalUsage fullContent yielded]. unfold apply_hook.
        destruct (prompt_hook self afterCall) as [hook|] eqn:Hhook.
        -- exec. destruct (hook _) as [finalResult|e].
           ++ exec. eapply returns_run_eq; [apply pi_emit_run|]. exec.
              unfold yield. exec. cbn [yielded app].
              eexists. split; [reflexivity|].
              exists (text_deltas (stream_events stream)), finalResult.
              split; [reflexivity|]. split; [congruence|].
              intros pin' texts' stream' err' _ _ Hall Hfail'. rewrite Hall in Hstream.
              inversion Hstream; subst stream'. congruence.
           ++ eapply returns_run_eq; [apply stream_catch_run|]. exec.
              cbn [yielded s_totalUsage fullContent app].
              eexists. split; [reflexivity|].
              exists (text_deltas (stream_events stream)). eexists.
              split; [reflexivity|]. split; [reflexivity|].
              intros pin' texts' stream' err' _ _ Hall Hfail'. rewrite Hall in Hstream.
              inversion Hstream; subst stream'. congruence.
        -- exec. eapply returns_run_eq; [apply pi_emit_run|]. exec.
           unfold yield. exec. cbn [yielded app].
           eexists. split; [reflexivity|].
           exists (text_deltas (stream_events stream)). eexists.
           split; [reflexivity|]. split; [reflexivity|].
           intros pin' texts' stream' err' _ _ Hall Hfail'. rewrite Hall in Hstream.
           inversion Hstream; subst stream'. congruence.
      * eapply returns_run_eq; [apply stream_catch_run|]. exec.
        cbn [yielded s_totalUsage fullContent app].
        eexists. split; [reflexivity|].
        exists (text_deltas (stream_events stream)). eexists.
        split; [reflexivity|]. split; [reflexivity|].
        intros pin' texts' stream' err' _ _ Hall Hfail'. rewrite Hall in Hstream.
        inversion Hstream; subst stream'. congruence.
  - eapply returns_run_eq; [apply stream_catch_run|]. exec.
    cbn [yielded s_totalUsage fullContent app].
    eexists. split; [reflexivity|].
    exists []. eexists.
    split; [reflexivity|]. split; [reflexivity|].
    intros pin' texts' stream' err' _ _ Hall Hfail'. rewrite Hall in Hstream. discriminate Hstream.
Qed.

(** The generator always ends; it throws only what [beforeCall] throws. *)
Lemma runStreaming_returns client w :
  returns (PromptInstance_runStreaming client self) w
    (fun r _ =>
       match r with
       | Ok ys => streamed self client ys
       | Err e => exists hook, prompt_hook self beforeCall = Some hook /\
                               hook (pi_input self) = Err e
       end).
Proof.
  unfold PromptInstance_runStreaming, apply_hook.
  destruct (prompt_hook self beforeCall) as [hook|] eqn:Hhook.
  - apply returns_bind, returns_call.
    destruct (hook (pi_input self)) as [processedInput|e] eqn:Hcall.
    + apply returns_bind. eapply returns_run_eq; [apply pi_emit_run|].
      eapply returns_conseq;
        [apply stream_body_returns; cbn [hooked]; now rewrite Hhook|].
      intros r s' (ys & -> & H). exact H.
    + exists hook. auto.
  - apply returns_bind, returns_ret, returns_bind.
    eapply returns_run_eq; [apply pi_emit_run|].
    eapply returns_conseq; [apply stream_body_returns; cbn [hooked]; now rewrite Hhook|].
    intros r s' (ys & -> & H). exact H.
Qed.

(** Without [afterCall] hook, a result of [run] that carries an error comes
    from the [catch] block: its content is empty. *)
Lemma run_failure_content fuel client w :
  prompt_hook self afterCall = None ->
  post (PromptInstance_run fuel client self) w
    (fun r _ => forall res, r = Ok res -> pr_error res <> None ->
                            pr_content res = EmptyString).
Proof.
  intros Hhook.
  assert (Hbody : forall processedInput w1,
             post (with_locals (mkRunLocals emptyTokenUsage [])
                     (try_catch (run_try fuel client self processedInput)
                                (run_catch self))) w1
               (fun r _ => forall res, r = Ok res -> pr_error res <> None ->
                                       pr_content res = EmptyString)).
  { intros pin w1. exec.
    apply post_run_try; [intros userContent systemContent Htexts | intros e Htexts].
    2:{ cbv beta match. eapply post_run; [apply run_catch_run|]. cbv zeta.
        intros res Hres _. now inversion Hres; subst res. }
    unfold run_calls. exec. case_call.
    - unfold add_usage. exec. eapply post_conseq; [apply tool_loop_events|].
      intros [response'|e] [l1 w2] _.
      + exec. rewrite Hhook. unfold apply_hook. exec.
        eapply post_run; [apply pi_emit_run|]. exec.
        intros res Hres Herr. inversion Hres; subst res. now contradiction Herr.
      + eapply post_run; [apply run_catch_run|]. cbv zeta.
        intros res Hres _. now inversion Hres; subst res.
    - eapply post_run; [apply run_catch_run|]. cbv zeta.
      intros res Hres _. now inversion Hres; subst res. }
  unfold PromptInstance_run, apply_hook.
  destruct (prompt_hook self beforeCall) as [hook|].
  - apply post_bind, post_call. destruct (hook (pi_input self)) as [pin|e].
    + apply post_bind. eapply post_run; [apply pi_emit_run|]. apply Hbody.
    + discriminate.
  - apply post_bind, post_ret, post_bind.
    eapply post_run; [apply pi_emit_run|]. apply Hbody.
Qed.

End Streaming.

(** [C10] A drained stream of a prompt always ends.  Unless the [beforeCall]
    hook throws, it has yielded the tokens in order and then one final
    result; the content of that result is the concatenation of the tokens
    yielded before it whenever no [afterCall] hook is configured; when the
    stream breaks off with an error, the final result carries that error and
    the concatenation of the tokens streamed until then.  The failure result
    of the non-streaming [run] (no [afterCall] hook) has empty content. *)
Theorem streamed_content_is_token_concatenation
        (fuel : nat) (client : AnthropicClient) (self : PromptInstance) (w : World) :
  (exists r w',
      PromptInstance_runStreaming client self w = Some (r, w') /\
      match r with
      | Ok ys => streamed self client ys
      | Err e => exists hook, prompt_hook self beforeCall = Some hook /\
                              hook (pi_input self) = Err e
      end) /\
  (prompt_hook self afterCall = None ->
   forall res w',
     PromptInstance_run fuel client self w = Some (Ok res, w') ->
     pr_error res <> None ->
     pr_content res = EmptyString).
Proof.
  split.
  - apply runStreaming_returns.
  - intros Hhook res w' Hrun Herr.
    pose proof (@run_failure_content self fuel client w Hhook) as H.
    exact (H _ _ Hrun _ eq_refl Herr).
Qed.

Lemma streamed_content_is_token_concatenation_witness :
  pr_content (mkPromptResult EmptyString emptyTokenUsage [] []
                             (Some (JsError "API Error")) None) = EmptyString.
Proof.
  eapply (proj2 (streamed_content_is_token_concatenation 0 error_client sample_instance
                   initial_world)).
  - reflexivity.
  - vm_compute. reflexivity.
  - discriminate.
Defined.

(** ** Exceptions that leave [run] *)

(** [C1] The exception of a [beforeCall] hook leaves [PromptInstance.run],
    and those of a [beforeRun] or an [onError] hook leave [Agent.run]: the
    caller gets no result object.  The sibling hooks [afterCall] and
    [afterRun], called inside the [try] blocks, have their exceptions turned
    into the [error] field of a returned result, and [AgentWorkflow.run]
    turns the exception of an agent run into a failed result. *)
Theorem throwing_hooks_escape_run :
  PromptInstance_run 0 mock_client (hooked_instance failing_beforeCall) initial_world
  = Some (Err (JsError "beforeCall failed"), initial_world) /\
  Agent_run 0 mock_client
            (sample_agent sample_model [plain_prompt "test" "Hello"] (Some failing_beforeRun))
            (VObj []) initial_world
  = Some (Err (JsError "beforeRun failed"), initial_world) /\
  (exists w',
      Agent_run 0 error_client
                (sample_agent sample_model [plain_prompt "test" "Hello"] (Some failing_onError))
                (VObj []) initial_world
      = Some (Err (JsError "onError failed"), w')) /\
  (exists res w',
      PromptInstance_run 0 mock_client (hooked_instance failing_afterCall) initial_world
      = Some (Ok res, w') /\
      pr_error res = Some (JsError "afterCall failed")) /\
  (exists res w',
      Agent_run 0 mock_client
                (sample_agent sample_model [plain_prompt "test" "Hello"] (Some failing_afterRun))
                (VObj []) initial_world
      = Some (Ok res, w') /\
      ar_error res = Some (JsError "afterRun failed")) /\
  (exists res w',
      Workflow_run 0
        (one_step_workflow mock_client
           [sample_agent_config None [plain_prompt "test" "Hello"] (Some failing_beforeRun)])
        (VObj []) initial_world
      = Some (Ok res, w') /\
      wr_error res = Some (JsError "beforeRun failed") /\
      status w' = failed).
Proof.
  split; [vm_compute; reflexivity|]. split; [vm_compute; reflexivity|].
  split; [eexists; vm_compute; reflexivity|].
  split; [eexists _, _; split; [vm_compute; reflexivity | reflexivity]|].
  split; [eexists _, _; split; [vm_compute; reflexivity | reflexivity]|].
  eexists _, _. split; [vm_compute; reflexivity|]. split; reflexivity.
Qed.

(** ** Model resolution *)

Section ModelResolution.

Variable self : Agent.

Lemma notify_hook_call {S A} (h : option (A -> Res unit)) (x : A) :
  @notify_hook S A h x = call (notified h x).
Proof. now destruct h. Qed.

Lemma resolveModel_first_present promptModel model :
  first_present promptModel (ac_model (config self)) (parentModel self) = Some model ->
  model <> EmptyString ->
  resolveModel self promptModel = Ok model.
Proof.
  unfold resolveModel, first_present, nullish.
  destruct promptModel as [m|]; [|destruct (ac_model (config self)) as [m|]];
    intros H Hne; try (inversion H; subst m); try rewrite H;
    destruct model; try reflexivity; contradiction.
Qed.

Lemma resolveModel_none_present promptModel :
  first_present promptModel (ac_model (config self)) (parentModel self) = None \/
  first_present promptModel (ac_model (config self)) (parentModel self) = Some EmptyString ->
  resolveModel self promptModel = Err no_model_error.
Proof.
  unfold resolveModel, first_present, nullish.
  destruct promptModel as [m|]; [|destruct (ac_model (config self)) as [m|]];
    intros [H|H]; try discriminate H; try (inversion H; subst m); try rewrite H;
    reflexivity.
Qed.

(** A retry loop that is entered has a turn to take. *)
Lemma retry_turns_first fuel x :
  count_le 0 x = true -> exists budget, retry_turns fuel x = S budget.
Proof.
  unfold retry_turns. destruct x as [z| | |]; cbn [count_le turns_within]; try discriminate.
  - intros H. apply Z.leb_le in H. exists (Z.to_nat z).
    rewrite Z2Nat.inj_add by lia. cbn. lia.
  - intros _. now exists fuel.
Qed.

(** Resolution failing at the first prompt: nothing is executed, and the
    [catch] block builds the result. *)
Lemma Agent_run_no_model fuel client input w promptConfig rest processedInput promptInput :
  prompts (config self) = promptConfig :: rest ->
  count_le 0 (max_retries self) = true ->
  resolveModel self (pc_model promptConfig) = Err no_model_error ->
  hooked (agent_hook self beforeRun) input = Ok processedInput ->
  before_prompt self promptConfig processedInput = Ok promptInput ->
  notified (agent_hook self onError) no_model_error = Ok tt ->
  returns (Agent_run fuel client self input) w
    (fun r w' =>
       exists res, r = Ok res /\
                   ar_error res = Some no_model_error /\
                   promptResults res = [] /\
                   calls w' = calls w).
Proof.
  intros Hprompts Hretries Hresolve HbeforeRun HbeforePrompt HonError.
  unfold Agent_run. rewrite apply_hook_call, HbeforeRun. exec.
  unfold agent_try. rewrite Hprompts. cbn [prompts_loop]. exec.
  unfold before_prompt in HbeforePrompt.
  eapply returns_run_eq with (r := Ok promptInput) (s' := (_, _)).
  { destruct (agent_hook self beforePrompt); cbn; [rewrite HbeforePrompt|];
      [reflexivity|]. inversion HbeforePrompt. reflexivity. }
  exec. destruct (retry_turns_first fuel _ Hretries) as [budget ->].
  cbn [retry_loop]. rewrite Hretries. exec. rewrite Hresolve.
  unfold agent_catch. rewrite notify_hook_call, HonError. exec.
  cbn [l_promptResults calls]. eexists. repeat split.
Qed.

(** With a [maxRetries] that [0] does not fit under (a negative number or
    [NaN]), the retry loop is never entered: no prompt is executed, nothing
    is resolved and nothing fails. *)
Lemma prompts_loop_skipped fuel client processedInput ps :
  count_le 0 (max_retries self) = false ->
  ac_hooks (config self) = None ->
  forall s, prompts_loop fuel client self processedInput ps s = Some (Ok tt, s).
Proof.
  intros Hretries Hhooks.
  assert (Hhook : forall A (h : AgentHooks -> option A), agent_hook self h = None)
    by (intros; unfold agent_hook; now rewrite Hhooks).
  induction ps as [|promptConfig ps IH]; intros s; [reflexivity|].
  cbn [prompts_loop]. rewrite !Hhook.
  assert (Hloop : forall budget promptInput,
             retry_loop budget fuel client self promptConfig promptInput 0 None s
             = Some (Ok None, s)).
  { intros budget promptInput. destruct budget; cbn [retry_loop]; now rewrite Hretries. }
  unfold bind at 1. cbn [ret]. unfold bind at 1. rewrite Hloop.
  unfold bind at 1. cbn [ret]. unfold bind at 1. cbn [ret].
  unfold bind at 1. cbn [locals andb]. apply IH.
Qed.

Lemma Agent_run_skipped fuel client input w :
  count_le 0 (max_retries self) = false ->
  ac_hooks (config self) = None ->
  exists res w',
    Agent_run fuel client self input w = Some (Ok res, w') /\
    ar_error res = None /\ promptResults res = [] /\ calls w' = calls w.
Proof.
  intros Hretries Hhooks.
  unfold Agent_run, apply_hook, agent_hook. rewrite Hhooks.
  unfold bind at 1. cbn [ret]. unfold bind at 1. cbn [emit modify].
  unfold with_locals, try_catch, agent_try. unfold bind at 1.
  rewrite (prompts_loop_skipped fuel client input (prompts (config self)) Hretries Hhooks).
  unfold bind at 1. cbn [locals fst]. unfold apply_hook, agent_hook. rewrite Hhooks.
  unfold bind at 1. cbn [ret]. unfold bind at 1. unfold on_world. cbn [snd fst emit modify].
  eexists _, _. split; [reflexivity|]. repeat split.
Qed.

End ModelResolution.




(** ** Fail-fast in steps and workflows *)

Section FailFast.

Variable fuel : nat.
Variable self : AgentWorkflow.
Variable input : value.

Lemma bind_Ok_inv {S A B} (m : M S A) (f : A -> M S B) s b s' :
  bind m f s = Some (Ok b, s') ->
  exists a s1, m s = Some (Ok a, s1) /\ f a s1 = Some (Ok b, s').
Proof.
  unfold bind. destruct (m s) as [[[a|e] s1]|]; [|discriminate|discriminate].
  intros H. now exists a, s1.
Qed.

Lemma bind_Ok_run {S A B} (m : M S A) (f : A -> M S B) s a s1 :
  m s = Some (Ok a, s1) -> bind m f s = f a s1.
Proof. unfold bind. now intros ->. Qed.

Lemma removelast_cons_cons {A} (x y : A) l :
  removelast (x :: y :: l) = x :: removelast (y :: l).
Proof. reflexivity. Qed.

(** The loop over the agents of a step stops at the first result that
    carries an error: the agents after it have no part in the outcome. *)
Lemma agents_loop_fail_fast cfgs :
  forall acc w rs w',
    agents_loop fuel self input cfgs acc w = Some (Ok rs, w') ->
    exists new,
      rs = acc ++ new /\
      List.length new <= List.length cfgs /\
      error_free (removelast new) /\
      (error_free new -> List.length new = List.length cfgs) /\
      (some_failed new ->
       forall later,
         agents_loop fuel self input (cfgs ++ later) acc w = Some (Ok rs, w')).
Proof.
  induction cfgs as [|cfg cfgs IH]; intros acc w rs w' Hrun.
  - cbn in Hrun. inversion Hrun; subst. exists []. rewrite app_nil_r.
    splits; [reflexivity | cbn; lia | constructor | reflexivity | intros H; inversion H].
  - cbn [agents_loop] in Hrun.
    apply bind_Ok_inv in Hrun as (agent & w1 & Hnew & Hrun).
    apply bind_Ok_inv in Hrun as (result & w2 & Hagent & Hrun).
    destruct (agent_failed result) eqn:Hfailed.
    + inversion Hrun; subst. exists [result].
      splits; [reflexivity | cbn; lia | constructor | |].
      * intros H. inversion H; subst. congruence.
      * intros _ later. cbn [app agents_loop].
        erewrite bind_Ok_run by exact Hnew. erewrite bind_Ok_run by exact Hagent.
        rewrite Hfailed. reflexivity.
    + destruct (IH _ _ _ _ Hrun) as (new & -> & Hlen & Hfree & Hall & Hcut).
      exists (result :: new).
      splits; [now rewrite <- app_assoc | cbn; lia | | |].
      * destruct new as [|r new]; [constructor|].
        rewrite removelast_cons_cons. constructor; assumption.
      * intros H. inversion H; subst. cbn. now rewrite Hall.
      * intros H later. cbn [app agents_loop].
        erewrite bind_Ok_run by exact Hnew. erewrite bind_Ok_run by exact Hagent.
        rewrite Hfailed.
        apply Hcut. inversion H; subst; [congruence | assumption].
Qed.

(** A step that returns has published its step-end event last, whether or
    not an agent failed. *)
Lemma executeStep_fail_fast step w sr w' :
  executeStep fuel self step input w = Some (Ok sr, w') ->
  (exists evs, events w' = evs ++ [stepEnd (step_label step)]) /\
  stepName sr = step_label step /\
  List.length (agentResults sr) <= List.length (agents step) /\
  error_free (removelast (agentResults sr)) /\
  (error_free (agentResults sr) ->
   List.length (agentResults sr) = List.length (agents step)) /\
  (some_failed (agentResults sr) ->
   forall later,
     executeStep fuel self (with_agents step (agents step ++ later)) input w
     = Some (Ok sr, w')).
Proof.
  unfold executeStep. intros Hrun.
  apply bind_Ok_inv in Hrun as ([] & w1 & Hstart & Hrun).
  apply bind_Ok_inv in Hrun as (rs & w2 & Hloop & Hrun).
  apply bind_Ok_inv in Hrun as ([] & w3 & Hend & Hrun).
  inversion Hrun; subst sr w3. inversion Hend; subst w'. cbn [events stepName agentResults].
  destruct (agents_loop_fail_fast _ _ _ Hloop) as (new & -> & Hlen & Hfree & Hall & Hcut).
  cbn [app] in *.
  splits; try assumption; [now eexists | reflexivity |].
  intros Hfailed later.
  change (step_label (with_agents step (agents step ++ later))) with (step_label step).
  cbn [agents with_agents].
  erewrite bind_Ok_run by exact Hstart.
  erewrite bind_Ok_run by exact (Hcut Hfailed later).
  reflexivity.
Qed.

Lemma bind_inv {S A B} (m : M S A) (f : A -> M S B) s x s' :
  bind m f s = Some (x, s') ->
  (exists a s1, m s = Some (Ok a, s1) /\ f a s1 = Some (x, s')) \/
  (exists e, m s = Some (Err e, s') /\ x = Err e).
Proof.
  unfold bind. destruct (m s) as [[[a|e] s1]|]; [| |discriminate]; intros H.
  - left. now exists a, s1.
  - right. inversion H; subst. now exists e.
Qed.

Lemma on_world_inv {L A} (m : M World A) (s : L * World) x s' :
  on_world m s = Some (x, s') ->
  exists w', m (snd s) = Some (x, w') /\ s' = (fst s, w').
Proof.
  unfold on_world. destruct (m (snd s)) as [[r w']|]; [|discriminate].
  intros H. inversion H; subst. now exists w'.
Qed.

Lemma step_error_none rs : step_error rs = None <-> error_free rs.
Proof.
  unfold step_error, error_free. induction rs as [|r rs IH]; cbn [find].
  - split; [constructor | reflexivity].
  - destruct (agent_failed r) eqn:Hr.
    + unfold agent_failed in Hr. destruct (ar_error r) as [e|] eqn:He; [|discriminate].
      split; [discriminate|]. intros H. inversion H; subst.
      unfold agent_failed in *. rewrite He in *. discriminate.
    + rewrite IH. split; [now constructor | intros H; now inversion H].
Qed.

Lemma not_error_free_some_failed rs : ~ error_free rs -> some_failed rs.
Proof.
  unfold error_free, some_failed. induction rs as [|r rs IH]; intros H.
  - contradiction H. constructor.
  - destruct (agent_failed r) eqn:Hr; [now left|].
    right. apply IH. intros Hrs. apply H. now constructor.
Qed.

Lemma error_free_not_failed rs : error_free rs -> some_failed rs -> False.
Proof.
  unfold error_free, some_failed. intros Hfree Hfailed.
  apply Exists_exists in Hfailed as (r & Hin & Hr).
  rewrite Forall_forall in Hfree. rewrite (Hfree _ Hin) in Hr. discriminate.
Qed.

(** The loop over the steps stops at the first step with a failed agent and
    sets the status to [failed]; having run all steps it sets it to
    [completed].  When it throws, the step results gathered are error-free. *)
Lemma steps_loop_fail_fast sts :
  forall l w x l' w',
    steps_loop fuel self input sts (l, w) = Some (x, (l', w')) ->
    match x with
    | Ok res =>
        exists new,
          stepResults res = l_stepResults l ++ new /\
          steps_error_free (removelast new) /\
          status w' = final_status res /\
          (wr_error res = None ->
           List.length new = List.length sts /\ steps_error_free new) /\
          (~ steps_error_free new ->
           wr_error res <> None /\
           forall later,
             steps_loop fuel self input (sts ++ later) (l, w) = Some (Ok res, (l', w'))) /\
          (steps_error_free new -> wr_error res = None)
    | Err _ =>
        exists new,
          l_stepResults l' = l_stepResults l ++ new /\ steps_error_free new /\
          List.length new < List.length sts
    end.
Proof.
  induction sts as [|step sts IH]; intros l w x l' w' Hrun.
  - cbn in Hrun. inversion Hrun; subst. exists []. cbn [stepResults wr_error].
    rewrite app_nil_r. splits.
    + reflexivity.
    + constructor.
    + reflexivity.
    + intros _. split; [reflexivity | constructor].
    + intros H. contradiction H. constructor.
    + reflexivity.
  - cbn [steps_loop] in Hrun.
    apply bind_inv in Hrun as [(stepResult & [l1 w1] & Hstep & Hrun) | (e & Hstep & ->)].
    + apply on_world_inv in Hstep as (w1' & Hstep & Heq). cbn [fst snd] in *.
      inversion Heq; subst l1 w1'. clear Heq.
      unfold bind at 1 in Hrun. cbn [set_locals fst snd] in Hrun.
      unfold bind at 1 in Hrun. cbn [set_locals fst snd l_stepResults l_totalUsage] in Hrun.
      destruct (step_error (agentResults stepResult)) as [stepError|] eqn:Herr.
      * inversion Hrun; subst. exists [stepResult].
        cbn [stepResults wr_error status final_status removelast].
        splits.
        -- reflexivity.
        -- constructor.
        -- reflexivity.
        -- discriminate.
        -- intros _. split; [discriminate|].
           intros later. cbn [app steps_loop].
           erewrite bind_Ok_run
             by (unfold on_world; cbn [fst snd]; rewrite Hstep; reflexivity).
           unfold bind at 1. cbn [set_locals fst snd].
           unfold bind at 1. cbn [set_locals fst snd l_stepResults l_totalUsage].
           rewrite Herr. reflexivity.
        -- intros Hfree. inversion Hfree as [|? ? Hsr _]; subst.
           apply step_error_none in Hsr. congruence.
      * apply step_error_none in Herr.
        specialize (IH _ _ _ _ _ Hrun). cbn [l_stepResults] in IH.
        destruct x as [res|e].
        -- destruct IH as (new & Hres & Hfree & Hst & Hnone & Hcut & Hclean).
           exists (stepResult :: new). rewrite <- app_assoc in Hres.
           splits; [exact Hres | | exact Hst | | |].
           ++ destruct new as [|sr new]; [constructor|].
              rewrite removelast_cons_cons. now constructor.
           ++ intros Hn. destruct (Hnone Hn) as [Hlen Hall].
              split; [cbn; lia | now constructor].
           ++ intros Hnot.
              assert (Hnew : ~ steps_error_free new).
              { intros Hall. apply Hnot. now constructor. }
              destruct (Hcut Hnew) as [He Hlater]. split; [exact He|].
              intros later. cbn [app steps_loop].
              erewrite bind_Ok_run
                by (unfold on_world; cbn [fst snd]; rewrite Hstep; reflexivity).
              unfold bind at 1. cbn [set_locals fst snd].
              unfold bind at 1. cbn [set_locals fst snd l_stepResults l_totalUsage].
              apply step_error_none in Herr. rewrite Herr. apply Hlater.
           ++ intros Hall. inversion Hall; subst. now apply Hclean.
        -- destruct IH as (new & Hres & Hfree & Hshort).
           exists (stepResult :: new). rewrite <- app_assoc in Hres.
           split; [exact Hres|]. split; [now constructor | cbn [List.length]; lia].
    + apply on_world_inv in Hstep as (w1' & Hstep & Heq). cbn [fst snd] in *.
      inversion Heq; subst. exists []. rewrite app_nil_r.
      split; [reflexivity|]. split; [constructor | cbn [List.length]; lia].
Qed.

(** The steps listed in the configuration play no part in executing a step. *)
Lemma agents_loop_with_steps sts cfgs :
  forall acc w,
    agents_loop fuel (with_steps self sts) input cfgs acc w =
    agents_loop fuel self input cfgs acc w.
Proof.
  induction cfgs as [|cfg cfgs IH]; intros acc w; [reflexivity|].
  cbn [agents_loop]. unfold with_steps at 1 2 3.
  cbn [workflowConfig defaultModel wf_toolHandlers wf_client]. unfold bind.
  destruct (new_Agent cfg _ _ w) as [[[agent|e] w1]|]; try reflexivity.
  destruct (Agent_run fuel (wf_client self) agent input w1) as [[[result|e] w2]|];
    try reflexivity.
  destruct (agent_failed result); [reflexivity | apply IH].
Qed.

Lemma executeStep_with_steps sts step w :
  executeStep fuel (with_steps self sts) step input w = executeStep fuel self step input w.
Proof.
  unfold executeStep. apply bind_ext; [reflexivity|]. intros _ w1.
  apply bind_ext; [apply agents_loop_with_steps | reflexivity].
Qed.

Lemma steps_loop_with_steps sts' sts :
  forall s,
    steps_loop fuel (with_steps self sts') input sts s =
    steps_loop fuel self input sts s.
Proof.
  induction sts as [|step sts IH]; intros s; [reflexivity|].
  cbn [steps_loop]. apply bind_ext.
  - apply on_world_ext. intros w. apply executeStep_with_steps.
  - intros stepResult s1. apply bind_ext; [reflexivity|]. intros _ s2.
    apply bind_ext; [reflexivity|]. intros _ s3.
    destruct (step_error (agentResults stepResult)); [reflexivity | apply IH].
Qed.

(** [AgentWorkflow.run] never throws: it ends [completed] without error, or
    [failed] with one; after a step with a failed agent result no further
    step has any part in the outcome. *)
Lemma Workflow_run_fail_fast w x w' :
  Workflow_run fuel self input w = Some (x, w') ->
  exists res,
    x = Ok res /\
    status w' = final_status res /\
    steps_error_free (removelast (stepResults res)) /\
    (wr_error res = None ->
     List.length (stepResults res) = List.length (steps (workflowConfig self)) /\
     steps_error_free (stepResults res)) /\
    (~ steps_error_free (stepResults res) ->
     wr_error res <> None /\
     forall later,
       Workflow_run fuel (with_steps self (steps (workflowConfig self) ++ later)) input w
       = Some (Ok res, w')) /\
    (List.length (stepResults res) = List.length (steps (workflowConfig self)) ->
     steps_error_free (stepResults res) ->
     wr_error res = None /\ status w' = completed).
Proof.
  unfold Workflow_run. intros Hrun.
  unfold bind at 1 in Hrun. cbn [setStatus modify] in Hrun.
  unfold with_locals, try_catch in Hrun.
  destruct (steps_loop fuel self input (steps (workflowConfig self)) _)
    as [[[res|e] [l1 w1]]|] eqn:Hloop; [| |discriminate].
  - inversion Hrun; subst x w1. clear Hrun.
    destruct (steps_loop_fail_fast _ _ _ Hloop)
      as (new & Hres & Hfree & Hst & Hnone & Hcut & Hclean).
    cbn [l_stepResults app] in Hres. subst new.
    exists res. splits; try assumption; [reflexivity | |].
    + intros Hnot. destruct (Hcut Hnot) as [He Hlater]. split; [exact He|].
      intros later. unfold bind at 1. cbn [setStatus modify].
      unfold with_locals, try_catch. cbn [with_steps workflowConfig steps].
      rewrite steps_loop_with_steps, Hlater. reflexivity.
    + intros _ Hall. pose proof (Hclean Hall) as Hnone'. split; [exact Hnone'|].
      rewrite Hst. unfold final_status. now rewrite Hnone'.
  - destruct (steps_loop_fail_fast _ _ _ Hloop) as (new & Hres & Hfree & Hshort).
    cbn [l_stepResults app] in Hres. subst new.
    unfold bind at 1 in Hrun. unfold on_world in Hrun. cbn [setStatus modify fst snd] in Hrun.
    unfold bind at 1 in Hrun. cbn [locals fst snd] in Hrun.
    inversion Hrun; subst x w'. clear Hrun.
    eexists. split; [reflexivity|]. cbn [stepResults wr_error status final_status].
    splits.
    + reflexivity.
    + clear Hloop Hshort. induction Hfree as [|sr srs Hsr Hsrs IHf]; [constructor|].
      destruct srs as [|sr' srs]; [constructor|].
      rewrite removelast_cons_cons. constructor; [exact Hsr | exact IHf].
    + discriminate.
    + intros Hnot. contradiction.
    + intros Hlen. rewrite Hlen in Hshort. lia.
Qed.

End FailFast.




(** ** The [tools] field of an agent configuration *)

Section ToolsIgnored.

Variable fuel : nat.
Variable client : AnthropicClient.
Variable cfg : AgentConfig.
Variable t : option (list ToolDefinition).
Variable id : Id.
Variable parent : option string.
Variable handlers : HandlerMap.

Let a1 : Agent := mkAgent id (with_tools cfg t) parent handlers.
Let a2 : Agent := mkAgent id cfg parent handlers.

Lemma retry_loop_tools promptConfig promptInput budget :
  forall attempts result s,
    retry_loop budget fuel client a1 promptConfig promptInput attempts result s =
    retry_loop budget fuel client a2 promptConfig promptInput attempts result s.
Proof.
  induction budget as [|budget IH]; intros attempts result s; [reflexivity|].
  cbn [retry_loop]. change (max_retries a1) with (max_retries a2).
  destruct (count_le attempts (max_retries a2)); [|reflexivity].
  apply bind_ext; [reflexivity|]. intros model s1.
  apply bind_ext; [reflexivity|]. intros instance s2.
  apply bind_ext; [reflexivity|]. intros res s3.
  destruct (pr_error res) as [err|]; [|reflexivity].
  apply bind_ext; [reflexivity|]. intros _ s4.
  apply bind_ext; [reflexivity|]. intros _ s5.
  apply bind_ext; [reflexivity|]. intros reflected s6.
  destruct reflected; [reflexivity|].
  change (max_retries a1) with (max_retries a2).
  destruct (count_le (S attempts) (max_retries a2)); [apply IH | reflexivity].
Qed.

Lemma prompts_loop_tools processedInput ps :
  forall s,
    prompts_loop fuel client a1 processedInput ps s =
    prompts_loop fuel client a2 processedInput ps s.
Proof.
  induction ps as [|promptConfig ps IH]; intros s; [reflexivity|].
  cbn [prompts_loop].
  apply bind_ext; [reflexivity|]. intros promptInput s1.
  apply bind_ext; [apply retry_loop_tools|]. intros result s2.
  apply bind_ext; [reflexivity|]. intros result' s3.
  apply bind_ext; [reflexivity|]. intros _ s4.
  apply bind_ext; [reflexivity|]. intros l s5.
  change (max_retries a1) with (max_retries a2).
  destruct (_ && _); [reflexivity | apply IH].
Qed.

Lemma Agent_run_tools input w :
  Agent_run fuel client a1 input w = Agent_run fuel client a2 input w.
Proof.
  unfold Agent_run.
  apply bind_ext; [reflexivity|]. intros processedInput w1.
  apply bind_ext; [reflexivity|]. intros _ w2.
  apply with_locals_ext. intros s.
  apply try_catch_ext; [|reflexivity]. intros s1.
  unfold agent_try. apply bind_ext; [apply prompts_loop_tools | reflexivity].
Qed.

End ToolsIgnored.

Section HandlerMaps.

Lemma Map_set_fresh name h (m : HandlerMap) :
  ~ In name (map fst m) -> Map_set name h m = m ++ [(name, h)].
Proof.
  induction m as [|[k h'] rest IH]; cbn [Map_set map fst In app]; [reflexivity|].
  intros Hnot. destruct (String.eqb k name) eqn:E.
  - apply String.eqb_eq in E. elim Hnot. now left.
  - rewrite IH; [reflexivity | tauto].
Qed.

(** The constructor copies a record entry by entry. *)
Lemma fold_Map_set entries :
  forall acc,
    NoDup (map fst (acc ++ entries)) ->
    fold_left (fun m e => Map_set (fst e) (snd e) m) entries acc = acc ++ entries.
Proof.
  induction entries as [|[k h] entries IH]; intros acc Hnd; cbn [fold_left fst snd].
  - now rewrite app_nil_r.
  - rewrite Map_set_fresh.
    + rewrite IH; rewrite <- app_assoc; [reflexivity | exact Hnd].
    + rewrite map_app in Hnd. cbn [map fst] in Hnd.
      apply NoDup_remove_2 in Hnd. intros Hin. apply Hnd, in_or_app. now left.
Qed.

Lemma new_Agent_handlers cfg parent handlers w agent w' :
  NoDup (handler_names handlers) ->
  new_Agent cfg parent handlers w = Some (Ok agent, w') ->
  map fst (toolHandlers agent) = handler_names handlers /\ calls w' = calls w.
Proof.
  intros Hnd E. unfold new_Agent, bind in E.
  destruct (id_or_fresh (ac_id cfg) w) as [[[id|e] w1]|] eqn:Eid; try discriminate E.
  cbn [ret] in E. inversion E; subst agent w'; clear E. cbn [toolHandlers]. split.
  - destruct handlers as [entries|]; [|reflexivity].
    cbn [handler_names] in *. now rewrite fold_Map_set.
  - unfold id_or_fresh in Eid. destruct (ac_id cfg); cbn in Eid; inversion Eid; reflexivity.
Qed.

Lemma reflection_system_text self context :
  pi_config self = DEFAULT_REFLECTION_PROMPT ->
  system_content self context = Ok (pc_system DEFAULT_REFLECTION_PROMPT).
Proof.
  intros Hcfg. unfold system_content. rewrite Hcfg.
  cbn [pc_system DEFAULT_REFLECTION_PROMPT].
  rewrite interpolate_text; [reflexivity|].
  apply no_brace_no_placeholder. vm_compute. reflexivity.
Qed.

End HandlerMaps.

Section ToolsSent.

Variable self : PromptInstance.

Lemma build_tools_synthesized :
  build_tools self = synthesized_tools (map fst (pi_toolHandlers self)).
Proof.
  unfold build_tools, synthesized_tools. now destruct (pi_toolHandlers self).
Qed.

(** Every request of the tool loop carries the same tool definitions and
    the same system prompt. *)
Lemma tool_loop_tools client systemContent tools_ fuel :
  forall msgs response l w,
    post (tool_loop fuel client self systemContent tools_ msgs response) (l, w)
      (fun _ s' =>
         made_since (fun params => mp_tools params = tools_ /\ mp_system params = systemContent)
                    (calls w) (snd s')).
Proof.
  induction fuel as [|fuel IH]; intros msgs response l w; cbn [tool_loop];
    destruct (is_tool_use response).
  - apply post_diverge.
  - exec. exists []. now rewrite app_nil_r.
  - exec. eapply post_run; [apply process_blocks_run|]. case_results.
    2:{ exists []. cbn [snd calls]. now rewrite app_nil_r. }
    exec. cbn [events calls nextId status]. case_call.
    + exec. eapply post_conseq; [apply IH|].
      cbn [fst snd calls]. intros _ s' (requests & Hcalls & Hall).
      eexists (_ :: requests). rewrite Hcalls, <- app_assoc. split; [reflexivity|].
      constructor; [split; reflexivity | assumption].
    + cbn [snd calls]. eexists [_]. split; [reflexivity|]. now repeat constructor.
  - exec. exists []. now rewrite app_nil_r.
Qed.

(** Every request of a prompt execution carries the tool definitions
    synthesized from the names of the handler map, and the interpolated
    system prompt.  Once the [beforeCall] hook has returned and the
    templates are interpolated, a first request is made. *)
Lemma PromptInstance_run_tools fuel client w :
  post (PromptInstance_run fuel client self) w
    (fun _ w' =>
       exists requests,
         calls w' = calls w ++ requests /\
         Forall (fun params =>
                   mp_tools params = synthesized_tools (map fst (pi_toolHandlers self)) /\
                   exists processedInput,
                     system_content self (build_context processedInput)
                     = Ok (mp_system params))
                requests /\
         forall processedInput texts,
           hooked (prompt_hook self beforeCall) (pi_input self) = Ok processedInput ->
           run_texts self processedInput = Ok texts ->
           exists more, requests = first_request self texts :: more).
Proof.
  rewrite <- build_tools_synthesized.
  set (P := fun params : MessageParams =>
              mp_tools params = build_tools self /\
              exists processedInput,
                system_content self (build_context processedInput) = Ok (mp_system params)).
  assert (Hcatch : forall err l w1 (Q : list MessageParams -> Prop) requests,
             calls w1 = calls w ++ requests ->
             Forall P requests -> Q requests ->
             post (run_catch self err) (l, w1)
               (fun _ s' =>
                  exists requests, calls (snd s') = calls w ++ requests /\
                    Forall P requests /\ Q requests)).
  { intros err l w1 Q requests Hcalls Hall HQ.
    eapply post_run; [apply run_catch_run|]. cbv zeta. cbn [snd calls].
    now exists requests. }
  assert (Hbody : forall processedInput,
             post (pi_emit self (promptInstanceStart (pi_id self) (pc_name (pi_config self))
                                   processedInput) ;;;
                   with_locals (mkRunLocals emptyTokenUsage [])
                     (try_catch (run_try fuel client self processedInput) (run_catch self))) w
               (fun _ w' =>
                  exists requests, calls w' = calls w ++ requests /\
                    Forall P requests /\
                    forall texts, run_texts self processedInput = Ok texts ->
                                  exists more, requests = first_request self texts :: more)).
  { intros pin. exec. eapply post_run; [apply pi_emit_run|]. exec.
    apply post_run_try; [intros userContent systemContent Htexts | intros e Htexts].
    2:{ cbv beta match. eapply Hcatch; [cbn [calls]; now rewrite app_nil_r | constructor |].
        intros texts Ht. congruence. }
    assert (Hsys : system_content self (build_context pin) = Ok systemContent).
    { unfold run_texts in Htexts. destruct (interpolate _ _); [|discriminate Htexts].
      cbn [and_then] in Htexts. destruct (system_content _ _); [|discriminate Htexts].
      now inversion Htexts. }
    unfold run_calls. exec. cbn [events calls nextId status]. case_call.
    - exec. eapply post_conseq; [apply tool_loop_tools|].
      cbn [snd calls]. intros r [l1 w1] (more & Hcalls & Hmore); cbn [fst snd] in *.
      rewrite <- app_assoc in Hcalls. cbn [app] in Hcalls.
      match type of Hcalls with
      | _ = _ ++ ?requests =>
          assert (Hall : Forall P requests);
          [|assert (Hfirst : forall texts, run_texts self pin = Ok texts ->
                                           exists more, requests = first_request self texts
                                                                   :: more)]
      end.
      { constructor; [split; [reflexivity | now exists pin]|].
        eapply Forall_impl; [|exact Hmore]. intros p [Ht Hs]. split; [exact Ht|].
        exists pin. now rewrite Hs. }
      { intros texts Ht. rewrite Htexts in Ht. inversion Ht; subst texts.
        eexists. reflexivity. }
      destruct r as [response'|e].
      + exec. rewrite apply_hook_call. exec. destruct (hooked _ _) as [result|e].
        * exec. eapply post_run; [apply pi_emit_run|]. exec.
          cbn [calls]. eexists. split; [exact Hcalls | split; [exact Hall | exact Hfirst]].
        * eapply Hcatch; [exact Hcalls | exact Hall | exact Hfirst].
      + eapply Hcatch; [exact Hcalls | exact Hall | exact Hfirst].
    - eapply Hcatch; [reflexivity | |].
      + constructor; [split; [reflexivity | now exists pin] | constructor].
      + intros texts Ht. rewrite Htexts in Ht. inversion Ht; subst texts.
        eexists. reflexivity. }
  unfold PromptInstance_run. rewrite apply_hook_call.
  apply post_bind, post_call. destruct (hooked _ _) as [pin|e] eqn:Hpin.
  - eapply post_conseq; [apply Hbody|]. intros r w' (requests & Hcalls & Hall & Hfirst).
    exists requests. split; [exact Hcalls|]. split; [exact Hall|].
    intros pin' texts Hpin' Ht. inversion Hpin'; subst pin'. now apply Hfirst.
  - exists []. rewrite app_nil_r. split; [reflexivity|]. split; [constructor|].
    intros pin' texts Hpin'. discriminate Hpin'.
Qed.

End ToolsSent.

(** *** The requests of an agent run

    What holds of the requests of every prompt execution an agent starts
    holds of the requests of its run. *)
Section RequestsMade.

Variable fuel : nat.
Variable client : AnthropicClient.
Variable self : Agent.
Variable P : MessageParams -> Prop.
Variable base : list MessageParams.

Hypothesis prompt_requests :
  forall promptConfig id model input w,
    In promptConfig (prompts (config self)) ->
    resolveModel self (pc_model promptConfig) = Ok model ->
    post (PromptInstance_run fuel client
            (mkPromptInstance id promptConfig model input true (toolHandlers self))) w
         (fun _ w' => made_since P (calls w) w').

Hypothesis reflection_requests :
  forall id model input w,
    resolveModel self None = Ok model ->
    post (PromptInstance_run fuel client
            (mkPromptInstance id DEFAULT_REFLECTION_PROMPT model input true [])) w
         (fun _ w' => made_since P (calls w) w').

Lemma new_PromptInstance_is cfg model input observable handlers w
      (Q : Res PromptInstance -> World -> Prop) :
  (forall id w',
      events w' = events w -> calls w' = calls w ->
      Q (Ok (mkPromptInstance id cfg model input observable
                              (match handlers with Some m => m | None => [] end))) w') ->
  post (new_PromptInstance cfg model input observable handlers) w Q.
Proof.
  intros H. unfold new_PromptInstance, id_or_fresh.
  destruct (pc_id cfg); exec; apply H; reflexivity.
Qed.

Lemma made_since_more w w' :
  made_since P base w -> made_since P (calls w) w' -> made_since P base w'.
Proof.
  intros (made & Hmade & Hok) (d & Hcalls & Hd). exists (made ++ d).
  rewrite Hcalls, Hmade, app_assoc. split; [reflexivity|]. apply Forall_app. now split.
Qed.

Lemma made_since_same w w' :
  made_since P base w -> calls w' = calls w -> made_since P base w'.
Proof. intros (made & Hmade & Hok) Hcalls. exists made. now rewrite Hcalls. Qed.

Lemma reflect_made promptConfig failedResult w :
  made_since P base w ->
  post (reflect fuel client self promptConfig failedResult None) w
       (fun _ w' => made_since P base w').
Proof.
  intros Hok. unfold reflect. exec. cbn [events calls nextId status].
  destruct (resolveModel self None) as [model|e] eqn:Hmodel in |- *; cbv beta match;
    [|exact Hok].
  exec. apply new_PromptInstance_is. intros id w1 _ Hcalls. exec.
  eapply post_conseq; [apply reflection_requests; exact Hmodel|].
  intros r w2 Hmade. cbv beta.
  assert (Hok2 : made_since P base w2).
  { eapply made_since_more; [|exact Hmade]. eapply made_since_same; [exact Hok | exact Hcalls]. }
  destruct r as [res|e]; cbv beta match; [|exact Hok2].
  exec. destruct (agent_hook self onReflection) as [hook|]; exec;
    [destruct (hook failedResult res); [exec|]|]; exact Hok2.
Qed.

Lemma retry_loop_made promptConfig promptInput budget :
  In promptConfig (prompts (config self)) ->
  forall attempts_ result s,
    made_since P base (snd s) ->
    post (retry_loop budget fuel client self promptConfig promptInput attempts_ result) s
         (fun _ s' => made_since P base (snd s')).
Proof.
  intros Hprompt.
  induction budget as [|budget IH]; intros attempts_ result s Hok; cbn [retry_loop];
    destruct (count_le attempts_ (max_retries self)).
  - apply post_diverge.
  - exec. exact Hok.
  - exec. destruct (resolveModel self (pc_model promptConfig)) as [model|e] eqn:Hmodel in |- *;
      cbv beta match; [|exact Hok].
    exec. apply new_PromptInstance_is. intros id w1 _ Hcalls. exec.
    eapply post_conseq; [apply prompt_requests; [exact Hprompt | exact Hmodel]|].
    intros r w2 Hmade. cbv beta.
    assert (Hok2 : made_since P base w2).
    { eapply made_since_more; [|exact Hmade].
      eapply made_since_same; [exact Hok | exact Hcalls]. }
    destruct r as [res|e]; cbv beta match; [|exact Hok2].
    destruct (pr_error res) as [err|]; [|exec; exact Hok2].
    exec. rewrite notify_hook_call. exec.
    destruct (notified (agent_hook self onError) err) as [[]|e]; cbv beta match;
      [|exact Hok2].
    assert (Hnext : forall l3 w3,
               made_since P base w3 ->
               post (if count_le (S attempts_) (max_retries self)
                     then retry_loop budget fuel client self promptConfig promptInput
                                     (S attempts_) (Some res)
                     else ret (Some res)) (l3, w3)
                    (fun _ s' => made_since P base (snd s'))).
    { intros l3 w3 Hok3. destruct (count_le (S attempts_) (max_retries self));
        [apply IH; exact Hok3 | exec; exact Hok3]. }
    exec. destruct (reflection_enabled self && count_le (S attempts_) (max_retries self)).
    + exec. eapply post_conseq; [apply reflect_made; exact Hok2|].
      intros [rres|e] w3 Hok3; cbv beta match; [|exact Hok3].
      destruct (pr_error rres); exec; [apply Hnext; exact Hok3 | exact Hok3].
    + exec. apply Hnext. exact Hok2.
  - exec. exact Hok.
Qed.

Lemma prompts_loop_made processedInput ps :
  incl ps (prompts (config self)) ->
  forall s,
    made_since P base (snd s) ->
    post (prompts_loop fuel client self processedInput ps) s
         (fun _ s' => made_since P base (snd s')).
Proof.
  induction ps as [|promptConfig ps IH]; intros Hincl s Hok; cbn [prompts_loop];
    [exec; exact Hok|].
  assert (Hrest : forall promptInput,
             post (result <- retry_loop (retry_turns fuel (max_retries self)) fuel client
                                        self promptConfig promptInput 0 None ;;
                   result <- match result, agent_hook self afterPrompt with
                             | Some r, Some hook =>
                                 r' <- call (hook promptConfig r) ;; ret (Some r')
                             | _, _ => ret result
                             end ;;
                   match result with
                   | Some r => set_locals (fun l => mkAgentLocals (l_promptResults l ++ [r])
                                                      (l_retryCount l) (l_reflectionMetadata l))
                   | None => ret tt
                   end ;;;
                   l <- locals ;;
                   if match result with Some r => has_error r | None => false end
                      && count_gt (l_retryCount l) (max_retries self)
                   then ret tt
                   else prompts_loop fuel client self processedInput ps) s
                  (fun _ s' => made_since P base (snd s'))).
  { intros promptInput. exec.
    eapply post_conseq; [apply retry_loop_made; [apply Hincl; now left | exact Hok]|].
    intros [o|e] s1 Hok1; cbv beta match; [|exact Hok1].
    assert (Hgo : forall (o' : option PromptResult),
               post (match o' with
                     | Some r => set_locals (fun l => mkAgentLocals (l_promptResults l ++ [r])
                                                        (l_retryCount l) (l_reflectionMetadata l))
                     | None => ret tt
                     end ;;;
                     l <- locals ;;
                     if match o' with Some r => has_error r | None => false end
                        && count_gt (l_retryCount l) (max_retries self)
                     then ret tt
                     else prompts_loop fuel client self processedInput ps) s1
                    (fun _ s' => made_since P base (snd s'))).
    { intros o'. assert (Hincl' : incl ps (prompts (config self)))
        by (intros x Hx; apply Hincl; now right).
      destruct o' as [r0|]; exec.
      - destruct (has_error r0 && _); [exec; exact Hok1 | apply IH; [exact Hincl' | exact Hok1]].
      - apply IH; [exact Hincl' | exact Hok1]. }
    destruct o as [r0|]; [destruct (agent_hook self afterPrompt) as [after|]|].
    - exec. destruct (after promptConfig r0) as [r1|e]; cbv beta match; [|exact Hok1].
      exec. apply (Hgo (Some r1)).
    - exec. apply (Hgo (Some r0)).
    - exec. apply (Hgo None). }
  apply post_bind. destruct (agent_hook self beforePrompt) as [hook|].
  - apply post_call. destruct (hook promptConfig processedInput); [apply Hrest | exact Hok].
  - apply post_ret, Hrest.
Qed.

Lemma Agent_run_made input w :
  made_since P base w ->
  post (Agent_run fuel client self input) w (fun _ w' => made_since P base w').
Proof.
  intros Hok. unfold Agent_run. rewrite apply_hook_call. exec.
  destruct (hooked (agent_hook self beforeRun) input) as [processedInput|e];
    cbv beta match; [|exact Hok].
  assert (Hcatch : forall err s1,
             made_since P base (snd s1) ->
             post (agent_catch self err) s1 (fun _ s' => made_since P base (snd s'))).
  { intros err s1 Hok1. unfold agent_catch. rewrite notify_hook_call. exec.
    destruct (notified (agent_hook self onError) err) as [[]|e]; cbv beta match;
      [exec; exact Hok1 | exact Hok1]. }
  exec. unfold agent_try. exec.
  eapply post_conseq; [apply prompts_loop_made; [apply incl_refl | exact Hok]|].
  intros [[]|e] s1 Hok1; cbv beta match; [|now apply Hcatch].
  exec. rewrite apply_hook_call. exec.
  destruct (hooked (agent_hook self afterRun) _) as [agentResult|e]; cbv beta match;
    [exec; exact Hok1 | now apply Hcatch].
Qed.

End RequestsMade.

(** [C9] The [tools] field of an agent configuration has no effect: an
    agent built from a configuration and one built from the same
    configuration with another [tools] field run to the same outcome, with
    the same result and the same world (events published, requests made).
    Every request of a prompt execution carries the tool definitions
    synthesized from the names of the handler map of the instance: one
    definition per name, with description ['Tool: <name>'] and an empty
    object schema, or none when the map is empty.  Such a request is made:
    once the [beforeCall] hook has returned and the templates are
    interpolated, the first request goes out with these definitions.  The
    handler map is the one the agent was constructed with: every request
    of a run of an agent built with handlers carries the definitions
    synthesized from their names, the requests of a reflection apart,
    which go out under the reflection system prompt and carry none. *)
Theorem tools_field_has_no_effect :
  (forall fuel client cfg t parent handlers input w,
      run_agent fuel client (with_tools cfg t) parent handlers input w =
      run_agent fuel client cfg parent handlers input w) /\
  (forall fuel client self w r w',
      PromptInstance_run fuel client self w = Some (r, w') ->
      exists requests,
        calls w' = calls w ++ requests /\
        Forall (fun params =>
                  mp_tools params = synthesized_tools (map fst (pi_toolHandlers self)))
               requests) /\
  (forall name names,
      synthesized_tools (name :: names) =
      Some (map (fun n => mkTool n ("Tool: " ++ n)
                                 (VObj [("type", VStr "object"); ("properties", VObj [])]))
                (name :: names))) /\
  synthesized_tools [] = None /\
  (forall fuel client self w r w' processedInput texts,
      PromptInstance_run fuel client self w = Some (r, w') ->
      hooked (prompt_hook self beforeCall) (pi_input self) = Ok processedInput ->
      run_texts self processedInput = Ok texts ->
      exists more,
        calls w' =
        calls w ++
        mkParams (resolvedModel self) 4096 (snd texts)
                 [mkMessage user (TextContent (fst texts))]
                 (synthesized_tools (map fst (pi_toolHandlers self))) :: more) /\
  (forall fuel client cfg parent handlers input w r w',
      NoDup (handler_names handlers) ->
      run_agent fuel client cfg parent handlers input w = Some (r, w') ->
      exists made,
        calls w' = calls w ++ made /\
        Forall (agent_tools (handler_names handlers)) made).
Proof.
  split; [|split; [|split; [|split; [|split]]]]; try reflexivity.
  - intros fuel client cfg t parent handlers input w.
    unfold run_agent, new_Agent. cbn [with_tools ac_id].
    unfold bind at 1 3. unfold bind at 1 2.
    destruct (id_or_fresh (ac_id cfg) w) as [[[id|e] w1]|]; try reflexivity.
    cbn [ret]. apply Agent_run_tools.
  - intros fuel client self w r w' Hrun.
    destruct (@PromptInstance_run_tools self fuel client w r w' Hrun)
      as (requests & Hcalls & Hall & _).
    exists requests. split; [exact Hcalls|].
    eapply Forall_impl; [|exact Hall]. now intros p [Ht _].
  - intros fuel client self w r w' pin texts Hrun Hpin Htexts.
    destruct (@PromptInstance_run_tools self fuel client w r w' Hrun)
      as (requests & Hcalls & _ & Hfirst).
    destruct (Hfirst pin texts Hpin Htexts) as (more & ->).
    exists more. rewrite Hcalls. unfold first_request.
    now rewrite build_tools_synthesized.
  - intros fuel client cfg parent handlers input w r w' Hnd Hrun.
    unfold run_agent in Hrun. unfold bind at 1 in Hrun.
    destruct (new_Agent cfg parent handlers w) as [[[agent|e] w1]|] eqn:Enew;
      [| |discriminate Hrun].
    2:{ unfold new_Agent, bind in Enew.
        destruct (id_or_fresh (ac_id cfg) w) as [[[id|e'] w2]|] eqn:Eid;
          try discriminate Enew.
        unfold id_or_fresh in Eid. destruct (ac_id cfg); cbn in Eid; discriminate Eid. }
    destruct (@new_Agent_handlers _ _ _ _ _ _ Hnd Enew) as [Hnames Hcalls].
    rewrite <- Hcalls.
    refine (@Agent_run_made fuel client agent (agent_tools (handler_names handlers))
                            (calls w1) _ _ input w1 _ r w' Hrun).
    + intros promptConfig id model pin w2 _ _ r2 w2' Hrun2.
      destruct (@PromptInstance_run_tools _ fuel client w2 r2 w2' Hrun2)
        as (requests & Hc & Hall & _).
      exists requests. split; [exact Hc|]. eapply Forall_impl; [|exact Hall].
      cbn [pi_toolHandlers]. intros p [Ht _]. left. now rewrite Ht, Hnames.
    + intros id model pin w2 _ r2 w2' Hrun2.
      destruct (@PromptInstance_run_tools _ fuel client w2 r2 w2' Hrun2)
        as (requests & Hc & Hall & _).
      exists requests. split; [exact Hc|]. eapply Forall_impl; [|exact Hall].
      cbn [pi_toolHandlers map]. intros p [Ht (pin' & Hs)]. right. split; [exact Ht|].
      rewrite reflection_system_text in Hs by reflexivity. now inversion Hs.
    + exists []. now rewrite app_nil_r.
Qed.

(** An agent built with the sample handlers, its prompt run against the
    scripted client: the first request goes out with the one tool
    synthesized from the handler name, and so does every request. *)
Lemma tools_field_has_no_effect_witness :
  exists r w' first more,
    run_agent 3 scripted_client
              (sample_agent_config sample_model [plain_prompt "test" "Hello"] None)
              None (Some sample_handlers) (VObj []) initial_world = Some (r, w') /\
    calls w' = first :: more /\
    mp_tools first =
    Some [mkTool "lookup" "Tool: lookup"
                 (VObj [("type", VStr "object"); ("properties", VObj [])])] /\
    Forall (agent_tools ["lookup"]) (first :: more).
Proof.
  assert (Hrun : exists r w' first more,
             run_agent 3 scripted_client
                       (sample_agent_config sample_model [plain_prompt "test" "Hello"] None)
                       None (Some sample_handlers) (VObj []) initial_world = Some (r, w') /\
             calls w' = first :: more /\
             mp_tools first =
             Some [mkTool "lookup" "Tool: lookup"
                          (VObj [("type", VStr "object"); ("properties", VObj [])])])
    by (eexists _, _, _, _; split; [vm_compute; reflexivity|];
        split; vm_compute; reflexivity).
  destruct Hrun as (r & w' & first & more & E & Hcalls & Htools).
  assert (Hnd : NoDup (handler_names (Some sample_handlers)))
    by (repeat constructor; cbn; tauto).
  destruct (proj2 (proj2 (proj2 (proj2 (proj2 tools_field_has_no_effect))))
              3 scripted_client _ None (Some sample_handlers) (VObj []) initial_world r w'
              Hnd E) as (made & Hmade & Hall).
  exists r, w', first, more. split; [exact E|]. split; [exact Hcalls|].
  split; [exact Htools|].
  rewrite Hcalls in Hmade. cbn [calls initial_world app] in Hmade. rewrite Hmade.
  exact Hall.
Defined.

(** ** Retries and reflection *)

Section TallyLists.

Lemma tally_from_app t d1 d2 :
  tally_from t (d1 ++ d2) = tally_from (tally_from t d1) d2.
Proof. apply fold_left_app. Qed.

Lemma tally_tool_pairs pid d : tool_pairs pid d -> forall t, tally_from t d = t.
Proof. induction 1 as [|tid name input out err rest Hrest IH]; intros t; [reflexivity|]. exact (IH t). Qed.

Lemma tally_prompt_events self res evs t :
  prompt_events self res evs ->
  in_reflection t = false ->
  tally_from t evs =
  mkTally false (S (attempts t)) (failures t + if has_error res then 1 else 0)
          (reflections t) (nested t).
Proof.
  intros (pin & tls & -> & Hp) Ht. cbn [tally_from fold_left tally_step]. rewrite Ht.
  fold (tally_from (mkTally false (S (attempts t)) (failures t) (reflections t) (nested t))
                   (tls ++ [promptInstanceEnd (pi_id self) (pc_name (pi_config self)) res
                              (pr_tokenUsage res)])).
  rewrite tally_from_app, (tally_tool_pairs Hp). cbn.
  destruct (has_error res); cbn; f_equal; lia.
Qed.

Lemma tally_prompt_events_reflecting self res evs t :
  prompt_events self res evs ->
  in_reflection t = true ->
  tally_from t evs = t.
Proof.
  intros (pin & tls & -> & Hp) Ht. cbn [tally_from fold_left tally_step]. rewrite Ht.
  fold (tally_from t (tls ++ [promptInstanceEnd (pi_id self) (pc_name (pi_config self)) res
                                (pr_tokenUsage res)])).
  rewrite tally_from_app, (tally_tool_pairs Hp). cbn. now rewrite Ht.
Qed.

End TallyLists.

Section Retries.

Variable fuel : nat.
Variable client : AnthropicClient.
Variable self : Agent.

Lemma new_PromptInstance_post cfg model input observable handlers w
      (Q : Res PromptInstance -> World -> Prop) :
  (forall inst w',
      pi_config inst = cfg -> pi_eventObservable inst = observable ->
      events w' = events w -> calls w' = calls w -> status w' = status w ->
      Q (Ok inst) w') ->
  post (new_PromptInstance cfg model input observable handlers) w Q.
Proof.
  intros H. unfold new_PromptInstance, id_or_fresh.
  destruct (pc_id cfg); exec; apply H; reflexivity.
Qed.

Lemma published_observable inst evs :
  pi_eventObservable inst = true -> published inst evs = evs.
Proof. unfold published. now intros ->. Qed.

(** A reflection is one more reflection and no attempt; when it returns, no
    reflection is in progress. *)
Lemma reflect_tally promptConfig failedResult overrideModel w :
  post (reflect fuel client self promptConfig failedResult overrideModel) w
    (fun r w' =>
       exists d,
         events w' = events w ++ d /\
         forall t, in_reflection t = false ->
           attempts (tally_from t d) = attempts t /\
           failures (tally_from t d) = failures t /\
           reflections (tally_from t d) = S (reflections t) /\
           nested (tally_from t d) = nested t /\
           (forall res, r = Ok res -> in_reflection (tally_from t d) = false)).
Proof.
  unfold reflect. exec. cbn [events calls nextId status].
  destruct (resolveModel self overrideModel) as [model|e].
  - exec. apply new_PromptInstance_post. intros inst w1 Hcfg Hobs Hev Hcalls Hst.
    exec. eapply post_conseq; [apply PromptInstance_run_events|].
    intros [res|e] w2.
    + intros (_ & evs & Hev2 & Hprompt). rewrite published_observable in Hev2 by exact Hobs.
      cbn [events] in Hev. rewrite Hev in Hev2.
      assert (Hd : exists d,
                 events w2 ++ [reflectionEnd (agent_id self) res] = events w ++ d /\
                 forall t, in_reflection t = false ->
                   attempts (tally_from t d) = attempts t /\
                   failures (tally_from t d) = failures t /\
                   reflections (tally_from t d) = S (reflections t) /\
                   nested (tally_from t d) = nested t /\
                   in_reflection (tally_from t d) = false).
      { rewrite Hev2, <- !app_assoc. eexists. split; [reflexivity|].
        intros t Ht. cbn [app]. cbn [tally_from fold_left tally_step].
        fold (tally_from (mkTally true (attempts t) (failures t) (S (reflections t))
                                  (nested t || in_reflection t))
                         (evs ++ [reflectionEnd (agent_id self) res])).
        rewrite tally_from_app, (tally_prompt_events_reflecting _ Hprompt) by reflexivity.
        cbn. rewrite Ht, orb_false_r. auto. }
      destruct Hd as (d & Hevd & Ht).
      exec. destruct (agent_hook self onReflection) as [hook|].
      * exec. destruct (hook failedResult res); cbv beta match.
        -- exec. cbn [events]. exists d. split; [exact Hevd|].
           intros t Hin. destruct (Ht t Hin) as (? & ? & ? & ? & ?). auto 6.
        -- cbn [events]. exists d. split; [exact Hevd|].
           intros t Hin. destruct (Ht t Hin) as (? & ? & ? & ? & ?). splits; auto; discriminate.
      * exec. cbn [events]. exists d. split; [exact Hevd|].
        intros t Hin. destruct (Ht t Hin) as (? & ? & ? & ? & ?). auto 6.
    + intros (_ & hook & Hhook & _). unfold prompt_hook in Hhook. rewrite Hcfg in Hhook.
      discriminate Hhook.
  - eexists. split; [reflexivity|]. intros t Ht. cbn. rewrite Ht, orb_false_r.
    splits; auto; discriminate.
Qed.

Lemma progress_refl t b : in_reflection t = false -> progress t t 0 0 0 b.
Proof. intros H. unfold progress. splits; auto; lia. Qed.

Lemma progress_trans t t1 t2 a1 a2 k1 k2 r1 r2 b :
  progress t t1 a1 k1 r1 true ->
  progress t1 t2 a2 k2 r2 b ->
  progress t t2 (a1 + a2) (k1 + k2) (r1 + r2) b.
Proof.
  unfold progress. intros (? & ? & ? & ? & ? & ?) (? & ? & ? & ? & ? & ?).
  splits; try lia; try congruence. assumption.
Qed.

Lemma progress_weaken t t' a a' k k' r b :
  progress t t' a k r b -> a <= a' -> k <= k' -> progress t t' a' k' r b.
Proof. unfold progress. intros (? & ? & ? & ? & ? & ?) ? ?. splits; auto; lia. Qed.

Lemma progress_thrown t t' a k r b :
  progress t t' a k r b -> progress t t' a k r false.
Proof. unfold progress. intros (? & ? & ? & ? & ? & ?). splits; auto. discriminate. Qed.

(** One prompt execution outside a reflection: one attempt, failed or not. *)
Lemma progress_attempt inst res evs t :
  prompt_events inst res evs ->
  in_reflection t = false ->
  progress t (tally_from t evs) 1 0 (if has_error res then 1 else 0) true.
Proof.
  intros Hp Ht. rewrite (tally_prompt_events _ Hp) by exact Ht. unfold progress. cbn.
  splits; auto; lia.
Qed.

Lemma progress_reflected t t1 t2 b :
  progress t t1 1 0 1 true ->
  attempts t2 = attempts t1 ->
  failures t2 = failures t1 ->
  reflections t2 = S (reflections t1) ->
  nested t2 = nested t1 ->
  (b = true -> in_reflection t2 = false) ->
  progress t t2 1 1 1 b.
Proof.
  unfold progress. intros (? & ? & ? & ? & ? & ?) ? ? ? ? ?.
  splits; try lia; try congruence. assumption.
Qed.

Ltac idle :=
  split; [reflexivity|]; exists 0, []; rewrite ?Nat.add_0_r, ?app_nil_r;
  splits; auto; intros t Ht; cbn [tally_from fold_left];
  eapply progress_weaken; [now apply progress_refl | lia | lia].

Ltac bound :=
  cbn [retries_ahead];
  repeat match goal with H : count_le _ _ = _ |- _ => rewrite H end;
  lia.

(** The retry loop for one prompt. *)
Lemma retry_loop_tally promptConfig promptInput budget :
  forall attempts_ result l w,
    post (retry_loop budget fuel client self promptConfig promptInput attempts_ result) (l, w)
      (fun r s' =>
         l_promptResults (fst s') = l_promptResults l /\
         exists retries d,
           l_retryCount (fst s') = l_retryCount l + retries /\
           events (snd s') = events w ++ d /\
           forall t, in_reflection t = false ->
             progress t (tally_from t d) budget
                      (retries_ahead (max_retries self) attempts_ budget) retries
                      (is_Ok r)).
Proof.
  induction budget as [|budget IH]; intros attempts_ result l w; cbn [retry_loop];
    destruct (count_le attempts_ (max_retries self)) eqn:Hle.
  - apply post_diverge.
  - exec. idle.
  - exec.
    destruct (resolveModel self (pc_model promptConfig)) as [model|e].
    + exec. apply new_PromptInstance_post. intros inst w1 Hcfg Hobs Hev Hcalls Hst.
      exec. eapply post_conseq; [apply PromptInstance_run_events|].
      intros [res|e] w2.
      * intros (_ & evs & Hev2 & Hprompt). rewrite published_observable in Hev2 by exact Hobs.
        rewrite Hev in Hev2. cbv beta match.
        destruct (pr_error res) as [err|] eqn:Herr.
        -- assert (Hfail : forall t, in_reflection t = false ->
                                     progress t (tally_from t evs) 1 0 1 true).
           { intros t Ht. pose proof (progress_attempt t Hprompt Ht) as H.
             unfold has_error in H. now rewrite Herr in H. }
           exec. rewrite notify_hook_call. exec.
           destruct (notified (agent_hook self onError) err) as [[]|e]; cbv beta match.
           ++ exec.
              destruct (reflection_enabled self && count_le (S attempts_) (max_retries self))
                eqn:Hrefl.
              ** apply andb_true_iff in Hrefl as [_ Hle2]. rewrite Hle2.
                 exec. eapply post_conseq; [apply reflect_tally|].
                 intros [rres|e] w3 (d_r & Hev3 & Htr); cbv beta match; cbn [fst snd].
                 --- assert (Hboth : forall t, in_reflection t = false ->
                               progress t (tally_from t (evs ++ d_r)) 1 1 1 true).
                     { intros t Ht. rewrite tally_from_app.
                       destruct (Htr _ (proj2 (proj2 (proj2 (proj2 (proj2 (Hfail t Ht))))) eq_refl))
                         as (Ha & Hf & Hr & Hn & Hin).
                       eapply progress_reflected; [exact (Hfail t Ht) | | | | |]; auto.
                       intros _. now apply (Hin rres). }
                     destruct (pr_error rres) as [rerr|] eqn:Hrerr.
                     +++ exec. eapply post_conseq; [apply IH|].
                         cbn [fst snd l_promptResults l_retryCount events].
                         intros r s' (Hres & retries & d & Hrc & Hev4 & Hprog).
                         split; [exact Hres|]. exists (S retries), (evs ++ d_r ++ d).
                         splits.
                         *** rewrite Hrc. lia.
                         *** rewrite Hev4, Hev3. cbn [events]. rewrite Hev2, <- !app_assoc.
                             reflexivity.
                         *** intros t Ht. rewrite app_assoc, tally_from_app.
                             pose proof (Hboth t Ht) as H1.
                             pose proof (Hprog _ (proj2 (proj2 (proj2 (proj2 (proj2 H1)))) eq_refl))
                               as H2.
                             eapply progress_weaken;
                               [exact (progress_trans H1 H2) | lia | bound].
                     +++ exec. cbn [fst snd l_promptResults l_retryCount events].
                         split; [reflexivity|]. exists 1, (evs ++ d_r). splits.
                         *** lia.
                         *** rewrite Hev3. cbn [events]. rewrite Hev2, <- !app_assoc.
                             reflexivity.
                         *** intros t Ht. eapply progress_weaken; [exact (Hboth t Ht) | lia | bound].
                 --- cbn [l_promptResults l_retryCount events].
                     split; [reflexivity|]. exists 1, (evs ++ d_r). splits.
                     +++ lia.
                     +++ rewrite Hev3. cbn [events]. rewrite Hev2, <- !app_assoc. reflexivity.
                     +++ intros t Ht. rewrite tally_from_app.
                         destruct (Htr _ (proj2 (proj2 (proj2 (proj2 (proj2 (Hfail t Ht))))) eq_refl))
                           as (Ha & Hf & Hr & Hn & Hin).
                         eapply progress_weaken;
                           [eapply progress_reflected; [exact (Hfail t Ht) | | | | |]; auto;
                            discriminate | lia | bound].
              ** exec. destruct (count_le (S attempts_) (max_retries self)) eqn:Hle2.
                 --- eapply post_conseq; [apply IH|].
                     cbn [fst snd l_promptResults l_retryCount events].
                     intros r s' (Hres & retries & d & Hrc & Hev4 & Hprog).
                     split; [exact Hres|]. exists (S retries), (evs ++ d).
                     splits.
                     +++ rewrite Hrc. lia.
                     +++ rewrite Hev4. cbn [events]. rewrite Hev2, <- !app_assoc. reflexivity.
                     +++ intros t Ht. rewrite tally_from_app.
                         pose proof (Hfail t Ht) as H1.
                         pose proof (Hprog _ (proj2 (proj2 (proj2 (proj2 (proj2 H1)))) eq_refl))
                           as H2.
                         eapply progress_weaken; [exact (progress_trans H1 H2) | lia | bound].
                 --- exec. cbn [fst snd l_promptResults l_retryCount events].
                     split; [reflexivity|]. exists 1, evs. splits.
                     +++ lia.
                     +++ exact Hev2.
                     +++ intros t Ht. eapply progress_weaken; [exact (Hfail t Ht) | lia | bound].
           ++ cbn [fst snd l_promptResults l_retryCount events].
              split; [reflexivity|]. exists 1, evs. splits.
              ** lia.
              ** exact Hev2.
              ** intros t Ht. eapply progress_weaken;
                   [exact (progress_thrown (Hfail t Ht)) | lia | bound].
        -- exec. split; [reflexivity|]. exists 0, evs. rewrite Nat.add_0_r.
           splits; auto. intros t Ht.
           pose proof (progress_attempt t Hprompt Ht) as H.
           unfold has_error in H. rewrite Herr in H.
           eapply progress_weaken; [exact H | lia | bound].
      * intros (-> & _). cbv beta match. cbn [fst snd]. rewrite Hev. idle.
    + idle.
  - exec. idle.
Qed.

(** The loop over the prompts of an agent. *)
Lemma prompts_loop_tally processedInput ps :
  forall l w,
    post (prompts_loop fuel client self processedInput ps) (l, w)
      (fun r s' =>
         exists retries d,
           l_retryCount (fst s') = l_retryCount l + retries /\
           events (snd s') = events w ++ d /\
           forall t, in_reflection t = false ->
             progress t (tally_from t d)
                      (retry_turns fuel (max_retries self) * List.length ps)
                      (retries_ahead (max_retries self) 0 (retry_turns fuel (max_retries self))
                              * List.length ps) retries (is_Ok r)).
Proof.
  induction ps as [|promptConfig ps IH]; intros l w; cbn [prompts_loop].
  - exec. exists 0, []. rewrite Nat.add_0_r, app_nil_r. splits; auto.
    intros t Ht. cbn [tally_from fold_left].
    eapply progress_weaken; [now apply progress_refl | lia | lia].
  - assert (Hstop : forall (r : Res unit) l1 w1 retries d,
               l_retryCount l1 = l_retryCount l + retries ->
               events w1 = events w ++ d ->
               (forall t, in_reflection t = false ->
                          progress t (tally_from t d) (retry_turns fuel (max_retries self))
                                   (retries_ahead (max_retries self) 0
                                                  (retry_turns fuel (max_retries self))) retries (is_Ok r)) ->
               exists retries d,
                 l_retryCount l1 = l_retryCount l + retries /\
                 events w1 = events w ++ d /\
                 forall t, in_reflection t = false ->
                   progress t (tally_from t d)
                            (retry_turns fuel (max_retries self) * List.length (promptConfig :: ps))
                            (retries_ahead (max_retries self) 0 (retry_turns fuel (max_retries self))
                              * List.length (promptConfig :: ps))
                            retries (is_Ok r)).
    { intros r l1 w1 retries d Hrc Hev Hprog. exists retries, d. splits; auto.
      intros t Ht. eapply progress_weaken; [exact (Hprog t Ht) | cbn; lia | cbn; lia]. }
    assert (Hrest : forall (o : option PromptResult) l1 w1 retries d,
               l_retryCount l1 = l_retryCount l + retries ->
               events w1 = events w ++ d ->
               (forall t, in_reflection t = false ->
                          progress t (tally_from t d) (retry_turns fuel (max_retries self))
                                   (retries_ahead (max_retries self) 0
                                                  (retry_turns fuel (max_retries self))) retries true) ->
               post (match o with
                     | Some r => set_locals (fun l => mkAgentLocals (l_promptResults l ++ [r])
                                                        (l_retryCount l) (l_reflectionMetadata l))
                     | None => ret tt
                     end ;;;
                     l <- locals ;;
                     if match o with Some r => has_error r | None => false end
                        && count_gt (l_retryCount l) (max_retries self)
                     then ret tt
                     else prompts_loop fuel client self processedInput ps) (l1, w1)
                 (fun r s' =>
                    exists retries d,
                      l_retryCount (fst s') = l_retryCount l + retries /\
                      events (snd s') = events w ++ d /\
                      forall t, in_reflection t = false ->
                        progress t (tally_from t d)
                                 (retry_turns fuel (max_retries self) * List.length (promptConfig :: ps))
                                 (retries_ahead (max_retries self) 0 (retry_turns fuel (max_retries self))
                              * List.length (promptConfig :: ps))
                                 retries (is_Ok r))).
    { intros o l1 w1 retries d Hrc Hev Hprog.
      assert (Hgo : forall l2,
                 l_retryCount l2 = l_retryCount l1 ->
                 post (prompts_loop fuel client self processedInput ps) (l2, w1)
                   (fun r s' =>
                      exists retries d,
                        l_retryCount (fst s') = l_retryCount l + retries /\
                        events (snd s') = events w ++ d /\
                        forall t, in_reflection t = false ->
                          progress t (tally_from t d)
                                   (retry_turns fuel (max_retries self) * List.length (promptConfig :: ps))
                                   (retries_ahead (max_retries self) 0 (retry_turns fuel (max_retries self))
                              * List.length (promptConfig :: ps))
                                   retries (is_Ok r))).
      { intros l2 Hl2. eapply post_conseq; [apply IH|]. cbn [fst snd].
        intros r s' (retries' & d' & Hrc' & Hev' & Hprog').
        exists (retries + retries'), (d ++ d'). splits.
        - rewrite Hrc', Hl2, Hrc. lia.
        - rewrite Hev', Hev, <- app_assoc. reflexivity.
        - intros t Ht. rewrite tally_from_app.
          pose proof (Hprog t Ht) as H1.
          pose proof (Hprog' _ (proj2 (proj2 (proj2 (proj2 (proj2 H1)))) eq_refl)) as H2.
          eapply progress_weaken; [exact (progress_trans H1 H2) | cbn; lia | cbn; lia]. }
      destruct o as [r0|]; exec; cbn [l_retryCount].
      - destruct (has_error r0 && count_gt (l_retryCount l1) (max_retries self)).
        + exec. cbn [l_retryCount]. eapply (Hstop (Ok tt)); eauto.
        + apply Hgo. reflexivity.
      - apply Hgo. reflexivity. }
    exec. 
    destruct (agent_hook self beforePrompt) as [hook|]; exec.
    + destruct (hook promptConfig processedInput) as [promptInput|e]; cbv beta match.
      * exec. eapply post_conseq; [apply retry_loop_tally|]. cbn [fst snd].
        intros [o|e] [l1 w1] (_ & retries & d & Hrc & Hev & Hprog); cbn [fst snd] in *;
          cbv beta match.
        -- destruct o as [r0|]; [destruct (agent_hook self afterPrompt) as [after|]|]; exec.
           ++ destruct (after promptConfig r0) as [r1|e]; cbv beta match.
              ** exec. apply (Hrest (Some r1)) with (retries := retries) (d := d); auto.
              ** eapply (Hstop (Err e)); eauto.
                 intros t Ht. exact (progress_thrown (Hprog t Ht)).
           ++ apply (Hrest (Some r0)) with (retries := retries) (d := d); auto.
           ++ apply (Hrest None) with (retries := retries) (d := d); auto.
        -- eapply (Hstop (Err e)); eauto.
      * exists 0, []. rewrite Nat.add_0_r, app_nil_r. splits; auto.
        intros t Ht. cbn [tally_from fold_left].
        eapply progress_weaken; [now apply progress_refl | lia | lia].
    + eapply post_conseq; [apply retry_loop_tally|]. cbn [fst snd].
      intros [o|e] [l1 w1] (_ & retries & d & Hrc & Hev & Hprog); cbn [fst snd] in *;
        cbv beta match.
      * destruct o as [r0|]; [destruct (agent_hook self afterPrompt) as [after|]|]; exec.
        -- destruct (after promptConfig r0) as [r1|e]; cbv beta match.
           ++ exec. apply (Hrest (Some r1)) with (retries := retries) (d := d); auto.
           ++ eapply (Hstop (Err e)); eauto.
              intros t Ht. exact (progress_thrown (Hprog t Ht)).
        -- apply (Hrest (Some r0)) with (retries := retries) (d := d); auto.
        -- apply (Hrest None) with (retries := retries) (d := d); auto.
      * eapply (Hstop (Err e)); eauto.
Qed.

Lemma tally_agent_events t agentId agentName input d res usage_ :
  tally_from t (agentRunStart agentId agentName input
                  :: d ++ [agentRunEnd agentId agentName res usage_]) =
  tally_from t d.
Proof.
  cbn [tally_from fold_left tally_step]. fold (tally_from t (d ++ [agentRunEnd agentId agentName res usage_])).
  now rewrite tally_from_app.
Qed.

(** A whole agent run. *)
Lemma Agent_run_tally input w :
  post (Agent_run fuel client self input) w
    (fun r w' =>
       exists retries d,
         events w' = events w ++ d /\
         (forall t, in_reflection t = false ->
            progress t (tally_from t d)
                     (retry_turns fuel (max_retries self) * List.length (prompts (config self)))
                     (retries_ahead (max_retries self) 0 (retry_turns fuel (max_retries self))
                              * List.length (prompts (config self)))
                     retries false) /\
         (forall res, r = Ok res -> reports_retries self res retries)).
Proof.
  unfold Agent_run. rewrite apply_hook_call. apply post_bind, post_call.
  destruct (hooked (agent_hook self beforeRun) input) as [processedInput|e0].
  2:{ exists 0, []. rewrite app_nil_r. splits; auto; [|discriminate].
      intros t Ht. cbn [tally_from fold_left].
      eapply progress_weaken; [now apply progress_refl | lia | lia]. }
  assert (Hcatch : forall err l1 w2 retries d,
             l_retryCount l1 = retries ->
             events w2 = (events w ++ [agentRunStart (agent_id self) (ac_name (config self))
                                         processedInput]) ++ d ->
             (forall t, in_reflection t = false ->
                progress t (tally_from t d)
                         (retry_turns fuel (max_retries self) * List.length (prompts (config self)))
                         (retries_ahead (max_retries self) 0 (retry_turns fuel (max_retries self))
                              * List.length (prompts (config self)))
                         retries false) ->
             post (agent_catch self err) (l1, w2)
               (fun r s' =>
                  exists retries d,
                    events (snd s') = events w ++ d /\
                    (forall t, in_reflection t = false ->
                       progress t (tally_from t d)
                                (retry_turns fuel (max_retries self) * List.length (prompts (config self)))
                                (retries_ahead (max_retries self) 0 (retry_turns fuel (max_retries self))
                              * List.length (prompts (config self)))
                                retries false) /\
                    (forall res, r = Ok res -> reports_retries self res retries))).
  { intros err l1 w2 retries d Hrc Hev Hprog. unfold agent_catch.
    rewrite notify_hook_call. exec.
    destruct (notified (agent_hook self onError) err) as [[]|e]; cbv beta match.
    - exec. cbn [events]. exists retries. eexists. splits.
      + rewrite Hev, <- !app_assoc. reflexivity.
      + intros t Ht. cbn [app]. rewrite tally_agent_events. now apply Hprog.
      + intros res Hres. inversion Hres; subst res. left. exact Hrc.
    - cbn [snd]. exists retries. eexists. splits.
      + rewrite Hev, <- !app_assoc. reflexivity.
      + intros t Ht. cbn [app tally_from fold_left tally_step]. now apply Hprog.
      + discriminate. }
  exec. unfold agent_try. exec. cbn [events].
  eapply post_conseq; [apply prompts_loop_tally|]. cbn [fst snd l_retryCount].
  intros [[]|e] [l1 w2] (retries & d & Hrc & Hev & Hprog); cbn [fst snd] in *;
    cbv beta match; cbn [events] in Hev; cbn [Nat.add] in Hrc.
  - assert (Hprog' : forall t, in_reflection t = false ->
                progress t (tally_from t d)
                         (retry_turns fuel (max_retries self) * List.length (prompts (config self)))
                         (retries_ahead (max_retries self) 0 (retry_turns fuel (max_retries self))
                              * List.length (prompts (config self)))
                         retries false).
    { intros t Ht. exact (progress_thrown (Hprog t Ht)). }
    exec. rewrite apply_hook_call. exec.
    destruct (hooked (agent_hook self afterRun) _) as [agentResult|e] eqn:Hafter;
      cbv beta match.
    + exec. cbn [events]. exists retries. eexists. splits.
      * rewrite Hev, <- !app_assoc. reflexivity.
      * intros t Ht. cbn [app]. rewrite tally_agent_events. now apply Hprog'.
      * intros res Hres. inversion Hres; subst res. unfold hooked in Hafter.
        destruct (agent_hook self afterRun) as [hook|] eqn:Hhook.
        -- right. exists hook. eexists. splits; [exact Hhook | exact Hafter | exact Hrc].
        -- inversion Hafter; subst agentResult. left. exact Hrc.
    + eapply Hcatch; eauto.
  - eapply Hcatch; eauto.
Qed.

(** *** Termination *)

Lemma returns_new_PromptInstance cfg model input observable handlers w
      (Q : Res PromptInstance -> World -> Prop) :
  (forall inst w',
      pi_config inst = cfg -> calls w' = calls w -> Q (Ok inst) w') ->
  returns (new_PromptInstance cfg model input observable handlers) w Q.
Proof.
  intros H. unfold new_PromptInstance, id_or_fresh.
  destruct (pc_id cfg); exec; apply H; reflexivity.
Qed.

Lemma returns_any {S A} (m : M S A) s (Q : Res A -> S -> Prop) :
  returns m s (fun _ _ => True) -> (forall r s', Q r s') -> returns m s Q.
Proof. intros H HQ. eapply returns_conseq; [exact H | auto]. Qed.

Hypothesis Hsettles : always_settles client fuel.
Hypothesis Hbounded : max_retries self <> PosInfinity.

Lemma count_le_retry_turns : count_le (retry_turns fuel (max_retries self)) (max_retries self) = false.
Proof.
  unfold retry_turns. destruct (max_retries self) as [z| | |]; cbn [turns_within count_le];
    try reflexivity; [|contradiction].
  apply Z.leb_gt. lia.
Qed.

Lemma reflect_returns promptConfig failedResult overrideModel w :
  returns (reflect fuel client self promptConfig failedResult overrideModel) w
          (fun _ _ => True).
Proof.
  unfold reflect. exec. destruct (resolveModel self overrideModel) as [model|e]; [|exact I].
  exec. apply returns_new_PromptInstance. intros inst w1 _ _. exec.
  apply returns_any; [apply PromptInstance_run_returns, Hsettles|].
  intros [res|e] w2; [|exact I]. exec.
  destruct (agent_hook self onReflection) as [hook|]; exec; [|exact I].
  destruct (hook failedResult res); [exec|]; exact I.
Qed.

Lemma retry_loop_returns promptConfig promptInput budget :
  forall attempts_ result s,
    count_le (budget + attempts_) (max_retries self) = false ->
    returns (retry_loop budget fuel client self promptConfig promptInput attempts_ result) s
            (fun _ _ => True).
Proof.
  induction budget as [|budget IH]; intros attempts_ result s Hbudget; cbn [retry_loop];
    destruct (count_le attempts_ (max_retries self)) eqn:Hle.
  - cbn [Nat.add] in Hbudget. congruence.
  - now exec.
  - rewrite Nat.add_succ_comm in Hbudget.
    exec. destruct (resolveModel self (pc_model promptConfig)) as [model|e]; [|exact I].
    exec. apply returns_new_PromptInstance. intros inst w1 _ _. exec.
    apply returns_any; [apply PromptInstance_run_returns, Hsettles|].
    intros [res|e] w2; [|exact I]. cbv beta match.
    destruct (pr_error res) as [err|]; [|now exec].
    exec. rewrite notify_hook_call. exec.
    destruct (notified (agent_hook self onError) err) as [[]|e]; [|exact I].
    exec. destruct (reflection_enabled self && count_le (S attempts_) (max_retries self)).
    + exec. apply returns_any; [apply reflect_returns|].
      intros [rres|e] w3; [|exact I]. cbv beta match.
      destruct (pr_error rres); exec; [|exact I].
      destruct (count_le (S attempts_) (max_retries self));
        [apply IH; exact Hbudget | now exec].
    + exec. destruct (count_le (S attempts_) (max_retries self));
        [apply IH; exact Hbudget | now exec].
  - now exec.
Qed.

Lemma prompts_loop_returns processedInput ps :
  forall s,
    returns (prompts_loop fuel client self processedInput ps) s (fun _ _ => True).
Proof.
  induction ps as [|promptConfig ps IH]; intros s; cbn [prompts_loop]; [now exec|].
  assert (Hrest : forall (o : option PromptResult) s1,
             returns (match o with
                      | Some r => set_locals (fun l => mkAgentLocals (l_promptResults l ++ [r])
                                                         (l_retryCount l) (l_reflectionMetadata l))
                      | None => ret tt
                      end ;;;
                      l <- locals ;;
                      if match o with Some r => has_error r | None => false end
                         && count_gt (l_retryCount l) (max_retries self)
                      then ret tt
                      else prompts_loop fuel client self processedInput ps) s1
                     (fun _ _ => True)).
  { intros o s1. destruct o as [r0|]; exec.
    - destruct (has_error r0 && _); [now exec | apply IH].
    - apply IH. }
  assert (Hloop : forall promptInput s1,
             returns (result <- retry_loop (retry_turns fuel (max_retries self)) fuel client self promptConfig
                                           promptInput 0 None ;;
                      result <- match result, agent_hook self afterPrompt with
                                | Some r, Some hook =>
                                    r' <- call (hook promptConfig r) ;; ret (Some r')
                                | _, _ => ret result
                                end ;;
                      match result with
                      | Some r => set_locals (fun l => mkAgentLocals (l_promptResults l ++ [r])
                                                         (l_retryCount l) (l_reflectionMetadata l))
                      | None => ret tt
                      end ;;;
                      l <- locals ;;
                      if match result with Some r => has_error r | None => false end
                         && count_gt (l_retryCount l) (max_retries self)
                      then ret tt
                      else prompts_loop fuel client self processedInput ps) s1
                     (fun _ _ => True)).
  { intros promptInput s1. exec.
    apply returns_any;
      [apply retry_loop_returns; rewrite Nat.add_0_r; apply count_le_retry_turns|].
    intros [o|e] s2; [|exact I]. cbv beta match.
    destruct o as [r0|]; [destruct (agent_hook self afterPrompt) as [after|]|].
    - exec. destruct (after promptConfig r0) as [r1|e]; [|exact I].
      exec. apply (Hrest (Some r1)).
    - exec. apply (Hrest (Some r0)).
    - exec. apply (Hrest None). }
  apply returns_bind.
  destruct (agent_hook self beforePrompt) as [hook|]; exec_step; cbv beta match.
  - destruct (hook promptConfig processedInput) as [promptInput|e]; [apply Hloop | exact I].
  - apply Hloop.
Qed.

(** With enough fuel for the tool loops an agent run ends; without agent
    hooks it ends with a result. *)
Lemma Agent_run_returns input w :
  returns (Agent_run fuel client self input) w
    (fun r _ => ac_hooks (config self) = None -> is_Ok r = true).
Proof.
  assert (Hcatch : forall err s,
             returns (agent_catch self err) s
                     (fun r _ => ac_hooks (config self) = None -> is_Ok r = true)).
  { intros err s. unfold agent_catch. rewrite notify_hook_call. exec.
    destruct (notified (agent_hook self onError) err) as [[]|e] eqn:Hhook; cbv beta match.
    - now exec.
    - intros Hnone. unfold agent_hook in Hhook. rewrite Hnone in Hhook. discriminate Hhook. }
  unfold Agent_run. rewrite apply_hook_call. apply returns_bind, returns_call.
  destruct (hooked (agent_hook self beforeRun) input) as [processedInput|e] eqn:Hbefore.
  - exec. unfold agent_try. exec.
    apply returns_any; [apply prompts_loop_returns|].
    intros [[]|e] s1; cbv beta match; [|apply Hcatch].
    exec. rewrite apply_hook_call. exec.
    destruct (hooked (agent_hook self afterRun) _) as [agentResult|e]; cbv beta match;
      [now exec | apply Hcatch].
  - intros Hnone. unfold agent_hook in Hbefore. rewrite Hnone in Hbefore. discriminate Hbefore.
Qed.

End Retries.

(** *** A model that rejects every call *)

Section Rejected.

Variable fuel : nat.
Variable client : AnthropicClient.
Variable self : Agent.

Hypothesis Hrejects : always_rejects client.
Hypothesis Hhooks : ac_hooks (config self) = None.
Hypothesis Hentered : count_le 0 (max_retries self) = true.

Lemma agent_hook_none {A} (h : AgentHooks -> option A) : agent_hook self h = None.
Proof. unfold agent_hook. now rewrite Hhooks. Qed.

Lemma PromptInstance_run_rejected inst w :
  post (PromptInstance_run fuel client inst) w
       (fun r _ => forall res, r = Ok res -> pr_error res <> None).
Proof.
  unfold PromptInstance_run. rewrite apply_hook_call. exec.
  destruct (hooked (prompt_hook inst beforeCall) (pi_input inst)) as [processedInput|e];
    cbv beta match; [|discriminate].
  exec. eapply post_run; [apply pi_emit_run|]. exec.
  apply post_run_try; [intros userContent systemContent Htexts | intros e Htexts].
  - unfold run_calls. exec.
    match goal with
    | |- context [createMessage client ?n ?p] => destruct (Hrejects n p) as [e He]; rewrite He
    end.
    eapply post_run; [apply run_catch_run|].
    cbv zeta. intros res [= <-]. discriminate.
  - cbv beta match. eapply post_run; [apply run_catch_run|].
    cbv zeta. intros res [= <-]. discriminate.
Qed.

Lemma reflect_rejected promptConfig failedResult overrideModel w :
  post (reflect fuel client self promptConfig failedResult overrideModel) w
       (fun r _ => forall res, r = Ok res -> pr_error res <> None).
Proof.
  unfold reflect. exec.
  destruct (resolveModel self overrideModel) as [model|e]; cbv beta match; [|discriminate].
  exec. apply new_PromptInstance_post. intros inst w1 _ _ _ _ _. exec.
  eapply post_conseq; [apply PromptInstance_run_rejected|].
  intros [res|e] w2 Herr; [|discriminate]. exec. rewrite agent_hook_none. exec.
  intros res' [= <-]. now apply Herr.
Qed.

Lemma retry_loop_rejected promptConfig promptInput budget :
  forall attempts_ result s,
    post (retry_loop budget fuel client self promptConfig promptInput attempts_ result) s
         (fun r _ => forall o, r = Ok o -> count_le attempts_ (max_retries self) = true ->
                     exists res, o = Some res /\ pr_error res <> None).
Proof.
  induction budget as [|budget IH]; intros attempts_ result s; cbn [retry_loop];
    destruct (count_le attempts_ (max_retries self)) eqn:Hle.
  - apply post_diverge.
  - exec. intros o _ Hlt. congruence.
  - exec. destruct (resolveModel self (pc_model promptConfig)) as [model|e];
      cbv beta match; [|discriminate].
    exec. apply new_PromptInstance_post. intros inst w1 _ _ _ _ _. exec.
    eapply post_conseq; [apply PromptInstance_run_rejected|].
    intros [res|e] w2 Herr; [|discriminate]. cbv beta match.
    specialize (Herr res eq_refl).
    destruct (pr_error res) as [err|] eqn:Hres; [|congruence].
    exec. rewrite agent_hook_none. cbn [notify_hook]. exec.
    destruct (reflection_enabled self && count_le (S attempts_) (max_retries self)).
    + exec. eapply post_conseq; [apply reflect_rejected|].
      intros [rres|e] w3 Hrerr; [|discriminate]. cbv beta match.
      specialize (Hrerr rres eq_refl).
      destruct (pr_error rres); [|congruence]. exec.
      destruct (count_le (S attempts_) (max_retries self)) eqn:Hnext.
      * eapply post_conseq; [apply IH|]. intros r s' H o Ho _.
        apply (H o Ho). exact Hnext.
      * exec. intros o [= <-] _. exists res. split; [reflexivity | congruence].
    + exec. destruct (count_le (S attempts_) (max_retries self)) eqn:Hnext.
      * eapply post_conseq; [apply IH|]. intros r s' H o Ho _.
        apply (H o Ho). exact Hnext.
      * exec. intros o [= <-] _. exists res. split; [reflexivity | congruence].
  - exec. intros o _ Hlt. congruence.
Qed.

Lemma prompts_loop_rejected processedInput ps :
  forall s,
    post (prompts_loop fuel client self processedInput ps) s
         (fun r s' => r = Ok tt ->
                      existsb has_error (l_promptResults (fst s)) = true \/ ps <> [] ->
                      existsb has_error (l_promptResults (fst s')) = true).
Proof.
  induction ps as [|promptConfig ps IH]; intros s; cbn [prompts_loop].
  - exec. intros _ [H|H]; [exact H | now elim H].
  - rewrite !agent_hook_none. exec.
    eapply post_conseq; [apply retry_loop_rejected|].
    intros [o|e] s1 Hres; [|discriminate]. cbv beta match.
    destruct (Hres o eq_refl Hentered) as (res & -> & Herr).
    exec. cbn [fst snd].
    assert (Hhas : has_error res = true).
    { unfold has_error. destruct (pr_error res); congruence. }
    rewrite Hhas. cbn [andb l_retryCount].
    assert (Hnow : existsb has_error (l_promptResults (fst s1) ++ [res]) = true).
    { rewrite existsb_app. cbn. rewrite Hhas. now rewrite orb_true_r. }
    destruct (count_gt (l_retryCount (fst s1)) (max_retries self)).
    + exec. intros _ _. exact Hnow.
    + eapply post_conseq; [apply IH|]. cbn [fst].
      intros r s' H Hr _. apply (H Hr). now left.
Qed.

Lemma first_error_some rs : existsb has_error rs = true -> first_error rs <> None.
Proof.
  unfold first_error. induction rs as [|r rs IH]; cbn [existsb find]; [discriminate|].
  destruct (has_error r) eqn:Hr.
  - intros _. unfold has_error in Hr. destruct (pr_error r); [discriminate | discriminate Hr].
  - exact IH.
Qed.

Lemma Agent_run_rejected input w :
  prompts (config self) <> [] ->
  post (Agent_run fuel client self input) w
       (fun r _ => forall res, r = Ok res -> ar_error res <> None).
Proof.
  intros Hps. unfold Agent_run. rewrite !agent_hook_none. cbn [apply_hook]. exec.
  unfold agent_try. exec.
  eapply post_conseq; [apply prompts_loop_rejected|].
  intros [[]|e] s1 Hres; cbv beta match.
  - specialize (Hres eq_refl (or_intror Hps)). rewrite agent_hook_none. cbn [apply_hook].
    exec. intros res [= <-]. cbn [ar_error]. now apply first_error_some.
  - unfold agent_catch. rewrite agent_hook_none. cbn [notify_hook]. exec.
    intros res [= <-]. discriminate.
Qed.

End Rejected.

Lemma rejects_settles client fuel : always_rejects client -> always_settles client fuel.
Proof.
  intros Hrej n. exists 0. split; [lia|]. intros params response E.
  destruct (Hrej (n + 0) params) as [e He]. congruence.
Qed.



(** ** Event order *)

Section Brackets.

Lemma Id_eqb_refl i : Id_eqb i i = true.
Proof. destruct i; cbn; [apply String.eqb_refl | apply Nat.eqb_refl]. Qed.

Lemma Scope_eqb_refl s : Scope_eqb s s = true.
Proof. destruct s; cbn; rewrite ?Id_eqb_refl; auto using String.eqb_refl. Qed.

Lemma nest_app open d1 d2 :
  nest open (d1 ++ d2) = match nest open d1 with
                         | Some open' => nest open' d2
                         | None => None
                         end.
Proof.
  revert open. induction d1 as [|e d1 IH]; intros open; cbn [app nest]; [reflexivity|].
  destruct (nest_step open e); [apply IH | reflexivity].
Qed.

Lemma nest_tool_pairs pid d :
  tool_pairs pid d ->
  forall open, nest (PromptScope pid :: open) d = Some (PromptScope pid :: open).
Proof.
  induction 1 as [|tid name input out err rest Hrest IH]; intros open; [reflexivity|].
  cbn [nest nest_step bracket hd_error may_open]. rewrite Id_eqb_refl.
  cbn [Scope_eqb]. rewrite !Id_eqb_refl. cbn [andb]. apply IH.
Qed.

Lemma inner_tool_pairs pid d : tool_pairs pid d -> forallb is_inner d = true.
Proof. induction 1; [reflexivity | exact IHtool_pairs]. Qed.

(** A prompt execution is bracketed by its start and its end wherever a
    prompt may open. *)
Lemma nest_prompt_events self res evs open :
  prompt_events self res evs ->
  may_open (hd_error open) (PromptScope (pi_id self)) = true ->
  nest open evs = Some open.
Proof.
  intros (pin & tls & -> & Hp) Hopen. cbn [nest nest_step bracket]. rewrite Hopen.
  rewrite nest_app, (nest_tool_pairs Hp). cbn [nest nest_step bracket Scope_eqb].
  now rewrite Id_eqb_refl.
Qed.

Lemma inner_prompt_events self res evs :
  prompt_events self res evs -> forallb is_inner evs = true.
Proof.
  intros (pin & tls & -> & Hp). cbn [forallb is_inner andb].
  rewrite forallb_app, (inner_tool_pairs Hp). reflexivity.
Qed.

Lemma agent_inner_nil id : agent_inner id [].
Proof. split; [reflexivity | intros open; reflexivity]. Qed.

Lemma agent_inner_app id d1 d2 :
  agent_inner id d1 -> agent_inner id d2 -> agent_inner id (d1 ++ d2).
Proof.
  intros [Hi1 Hn1] [Hi2 Hn2]. split.
  - now rewrite forallb_app, Hi1, Hi2.
  - intros open. now rewrite nest_app, Hn1, Hn2.
Qed.

Lemma agent_inner_prompt id self res evs :
  prompt_events self res evs -> agent_inner id (published self evs).
Proof.
  intros Hp. unfold published. destruct (pi_eventObservable self); [|apply agent_inner_nil].
  split; [exact (inner_prompt_events Hp)|].
  intros open. now apply (nest_prompt_events (AgentScope id :: open) Hp).
Qed.

Lemma agent_inner_reflection id self err res evs :
  prompt_events self res evs ->
  agent_inner id (reflectionStart id err :: published self evs ++ [reflectionEnd id res]).
Proof.
  intros Hp. split.
  - cbn [forallb is_inner andb]. rewrite forallb_app. cbn [forallb is_inner andb].
    rewrite andb_true_r. unfold published.
    destruct (pi_eventObservable self); [exact (inner_prompt_events Hp) | reflexivity].
  - intros open. cbn [nest nest_step bracket hd_error may_open]. rewrite Id_eqb_refl.
    rewrite nest_app.
    assert (Hin : nest (ReflectionScope id :: AgentScope id :: open) (published self evs)
                  = Some (ReflectionScope id :: AgentScope id :: open)).
    { unfold published. destruct (pi_eventObservable self); [|reflexivity].
      now apply (nest_prompt_events (ReflectionScope id :: AgentScope id :: open) Hp). }
    rewrite Hin. cbn [nest nest_step bracket Scope_eqb]. now rewrite Id_eqb_refl.
Qed.

(** An agent run is bracketed wherever an agent may open. *)
Lemma nest_agent_events name res evs open :
  agent_events name res evs ->
  match hd_error open with None | Some (StepScope _) => True | _ => False end ->
  nest open evs = Some open.
Proof.
  intros (id & input & inner & -> & _ & Hn) Hopen.
  cbn [nest nest_step bracket].
  assert (Hmay : may_open (hd_error open) (AgentScope id) = true).
  { destruct (hd_error open) as [[]|]; cbn; (reflexivity || contradiction). }
  rewrite Hmay, nest_app, Hn. cbn [nest nest_step bracket Scope_eqb].
  now rewrite Id_eqb_refl.
Qed.

Lemma nest_agents_run cfgs :
  forall rs evs n,
    agents_run cfgs rs evs -> nest [StepScope n] evs = Some [StepScope n].
Proof.
  induction cfgs as [|cfg cfgs IH]; intros rs evs n; cbn [agents_run].
  - now intros [_ ->].
  - intros (r & rs' & d1 & d2 & _ & -> & Hagent & Hrest).
    rewrite nest_app, (nest_agent_events [StepScope n] Hagent) by exact I.
    destruct (agent_failed r); [now destruct Hrest as [_ ->] | exact (IH _ _ _ Hrest)].
Qed.

Lemma nest_step_events step sr evs : step_events step sr evs -> well_bracketed evs.
Proof.
  intros (inner & -> & Hagents). unfold well_bracketed.
  cbn [nest nest_step bracket hd_error may_open].
  rewrite nest_app, (nest_agents_run _ _ _ (step_label step) Hagents).
  cbn [nest nest_step bracket Scope_eqb]. now rewrite String.eqb_refl.
Qed.

Lemma nest_steps_run sts :
  forall srs evs, steps_run sts srs evs -> well_bracketed evs.
Proof.
  induction sts as [|step sts IH]; intros srs evs; cbn [steps_run].
  - now intros [_ ->].
  - intros (sr & srs' & d1 & d2 & _ & -> & Hstep & Hrest). unfold well_bracketed.
    rewrite nest_app, (nest_step_events Hstep).
    destruct (existsb agent_failed (agentResults sr));
      [now destruct Hrest as [_ ->] | exact (IH _ _ Hrest)].
Qed.

End Brackets.

(** A calculus for what code publishes: [emits ev P m s] when the events
    [m] adds from [s] satisfy [P], however [m] ends.  [P] holds of no
    events and of two sequences one after the other. *)
Section Emits.

Variable P : list WorkflowEvent -> Prop.
Hypothesis P_nil : P [].
Hypothesis P_app : forall d1 d2, P d1 -> P d2 -> P (d1 ++ d2).

Definition emits {S A} (ev : S -> list WorkflowEvent) (m : M S A) (s : S) : Prop :=
  post m s (fun _ s' => exists d, ev s' = ev s ++ d /\ P d).

Lemma emits_quiet {S A} (ev : S -> list WorkflowEvent) (m : M S A) s :
  post m s (fun _ s' => ev s' = ev s) -> emits ev m s.
Proof.
  intros H. eapply post_conseq; [exact H|]. intros r s' E. exists [].
  now rewrite app_nil_r.
Qed.

Lemma emits_bind {S A B} (ev : S -> list WorkflowEvent) (m : M S A) (f : A -> M S B) s :
  emits ev m s -> (forall a s1, emits ev (f a) s1) -> emits ev (bind m f) s.
Proof.
  intros Hm Hf. apply post_bind. eapply post_conseq; [exact Hm|].
  intros [a|e] s1 (d1 & E1 & H1); [|now exists d1].
  eapply post_conseq; [apply Hf|]. intros r s2 (d2 & E2 & H2).
  exists (d1 ++ d2). rewrite E2, E1, app_assoc. auto.
Qed.

Lemma emits_try_catch {S A} (ev : S -> list WorkflowEvent) (m : M S A) h s :
  emits ev m s -> (forall e s1, emits ev (h e) s1) -> emits ev (try_catch m h) s.
Proof.
  intros Hm Hh. apply post_try_catch. eapply post_conseq; [exact Hm|].
  intros [a|e] s1 (d1 & E1 & H1); [now exists d1|].
  eapply post_conseq; [apply Hh|]. intros r s2 (d2 & E2 & H2).
  exists (d1 ++ d2). rewrite E2, E1, app_assoc. auto.
Qed.

Lemma emits_ret {S A} (ev : S -> list WorkflowEvent) (a : A) (s : S) : emits ev (ret a) s.
Proof. apply emits_quiet. now exec. Qed.

Lemma emits_call {S A} (ev : S -> list WorkflowEvent) (x : Res A) (s : S) :
  emits ev (call x) s.
Proof. apply emits_quiet. now exec. Qed.

Lemma emits_diverge {S A} (ev : S -> list WorkflowEvent) (s : S) :
  emits ev (@diverge S A) s.
Proof. apply emits_quiet, post_diverge. Qed.

Lemma emits_locals {L} (s : L * World) :
  emits (fun s => events (snd s)) (@locals L) s.
Proof. apply emits_quiet. now exec. Qed.

Lemma emits_set_locals {L} (f : L -> L) (s : L * World) :
  emits (fun s => events (snd s)) (set_locals f) s.
Proof. apply emits_quiet. now exec. Qed.

Lemma emits_on_world {L A} (m : M World A) (s : L * World) :
  emits events m (snd s) -> emits (fun s => events (snd s)) (on_world m) s.
Proof. intros H. apply post_on_world. exact H. Qed.

Lemma emits_with_locals {L A} (l0 : L) (m : M (L * World) A) w :
  emits (fun s => events (snd s)) m (l0, w) -> emits events (with_locals l0 m) w.
Proof. intros H. apply post_with_locals. exact H. Qed.

Lemma emits_new_PromptInstance cfg model input observable handlers w :
  emits events (new_PromptInstance cfg model input observable handlers) w.
Proof.
  apply emits_quiet, new_PromptInstance_post. intros inst w' _ _ Hev _ _. exact Hev.
Qed.

End Emits.

Ltac emits_step :=
  lazymatch goal with
  | |- emits _ _ (bind _ _) _ => apply emits_bind; [assumption | | intros ? ?]
  | |- emits _ _ (ret _) _ => apply emits_ret; assumption
  | |- emits _ _ (call _) _ => apply emits_call; assumption
  | |- emits _ _ diverge _ => apply emits_diverge; assumption
  | |- emits _ _ locals _ => apply emits_locals; assumption
  | |- emits _ _ (set_locals _) _ => apply emits_set_locals; assumption
  | |- emits _ _ (on_world _) _ => apply emits_on_world
  | |- emits _ _ (notify_hook _ _) _ => rewrite notify_hook_call; apply emits_call; assumption
  | |- emits _ _ (apply_hook _ _) _ => rewrite apply_hook_call; apply emits_call; assumption
  | |- emits _ _ (new_PromptInstance _ _ _ _ _) _ =>
      apply emits_new_PromptInstance; assumption
  | |- emits _ _ (match ?x with _ => _ end) _ => destruct x
  | |- emits _ _ (if ?x then _ else _) _ => destruct x
  end.

(** What a steady agent publishes between the start and the end of its
    run. *)
Section AgentEvents.

Variable fuel : nat.
Variable client : AnthropicClient.
Variable self : Agent.

Hypothesis Hsteady : steady self.

Let inner := agent_inner (agent_id self).

Lemma inner_nil : inner [].
Proof. apply agent_inner_nil. Qed.

Lemma inner_app d1 d2 : inner d1 -> inner d2 -> inner (d1 ++ d2).
Proof. apply agent_inner_app. Qed.

Lemma PromptInstance_run_inner inst w :
  emits inner events (PromptInstance_run fuel client inst) w.
Proof.
  eapply post_conseq; [apply PromptInstance_run_events|].
  intros [res|e] w'.
  - intros (_ & evs & Hev & Hp). eexists. split; [exact Hev|].
    now apply agent_inner_prompt with (res := res).
  - intros (-> & _). exists []. rewrite app_nil_r. split; [reflexivity | apply inner_nil].
Qed.

Lemma reflect_inner promptConfig failedResult w :
  reflection_enabled self = true ->
  emits inner events (reflect fuel client self promptConfig failedResult None) w.
Proof.
  intros Hrefl. destruct Hsteady as (_ & _ & Hmodel).
  destruct (Hmodel Hrefl) as (model & Hfirst & Hne).
  unfold reflect, emits. exec. cbn [events calls nextId status].
  rewrite (@resolveModel_first_present self None model Hfirst Hne). exec.
  apply new_PromptInstance_post. intros inst w1 Hcfg Hobs Hev Hcalls Hst.
  exec. eapply post_conseq; [apply PromptInstance_run_events|].
  intros [res|e] w2.
  - intros (_ & evs & Hev2 & Hprompt). cbn [events] in Hev. rewrite Hev in Hev2.
    assert (Hd : exists d,
               events w2 ++ [reflectionEnd (agent_id self) res] = events w ++ d /\ inner d).
    { rewrite Hev2, <- !app_assoc. eexists. split; [reflexivity|]. cbn [app].
      now apply agent_inner_reflection. }
    exec. destruct (agent_hook self onReflection) as [hook|].
    + exec. destruct (hook failedResult res); cbv beta match; [exec|]; exact Hd.
    + exec. exact Hd.
  - intros (_ & hook & Hhook & _). unfold prompt_hook in Hhook. rewrite Hcfg in Hhook.
    discriminate Hhook.
Qed.

Lemma retry_loop_inner promptConfig promptInput budget :
  forall attempts_ result s,
    emits inner (fun s => events (snd s))
          (retry_loop budget fuel client self promptConfig promptInput attempts_ result) s.
Proof.
  pose proof inner_nil as Hnil. pose proof inner_app as Happ.
  induction budget as [|budget IH]; intros attempts_ result s; cbn [retry_loop];
    destruct (count_le attempts_ (max_retries self)).
  - emits_step.
  - emits_step.
  - emits_step; [emits_step|]. emits_step; [emits_step; emits_step|].
    emits_step; [emits_step; apply PromptInstance_run_inner|].
    emits_step; [|emits_step].
    emits_step; [emits_step|]. emits_step; [emits_step|].
    emits_step.
    + destruct (reflection_enabled self) eqn:Hrefl; cbn [andb]; [|emits_step].
      emits_step; [|emits_step].
      emits_step; [emits_step; now apply reflect_inner|].
      emits_step; [emits_step|]. emits_step; [emits_step | emits_step].
    + emits_step; [emits_step|]. emits_step; [apply IH | emits_step].
  - emits_step.
Qed.

Lemma prompts_loop_inner processedInput ps :
  forall s,
    emits inner (fun s => events (snd s)) (prompts_loop fuel client self processedInput ps) s.
Proof.
  pose proof inner_nil as Hnil. pose proof inner_app as Happ.
  induction ps as [|promptConfig ps IH]; intros s; cbn [prompts_loop]; [emits_step|].
  emits_step; [emits_step; emits_step|].
  emits_step; [apply retry_loop_inner|].
  emits_step.
  { emits_step; [|emits_step]. emits_step; [|emits_step].
    emits_step; [emits_step | emits_step]. }
  emits_step; [emits_step; emits_step|].
  emits_step; [emits_step|]. emits_step; [emits_step | apply IH].
Qed.

(** A steady agent always returns, and its events are
    [agentStart, ..., agentEnd], the end carrying the returned result. *)
Lemma Agent_run_events input w :
  post (Agent_run fuel client self input) w
    (fun r w' =>
       exists res d,
         r = Ok res /\ events w' = events w ++ d /\
         agent_events (ac_name (config self)) res d).
Proof.
  destruct Hsteady as (Hbefore & HonError & _).
  unfold Agent_run. rewrite apply_hook_call. exec.
  specialize (Hbefore input).
  destruct (hooked (agent_hook self beforeRun) input) as [processedInput|e];
    [|discriminate Hbefore].
  exec. cbn [events calls nextId status].
  assert (Hend : forall res d w1,
             events w1 = (events w ++ [agentRunStart (agent_id self) (ac_name (config self))
                                         processedInput]) ++ d ->
             inner d ->
             exists res0 d0,
               Ok res = Ok res0 /\
               events w1 ++ [agentRunEnd (agent_id self) (ac_name (config self)) res
                               (ar_tokenUsage res)] = events w ++ d0 /\
               agent_events (ac_name (config self)) res0 d0).
  { intros res d w1 Hev Hin. exists res. eexists. split; [reflexivity|].
    rewrite Hev, <- !app_assoc. split; [reflexivity|]. cbn [app].
    exists (agent_id self), processedInput, d. split; [reflexivity | exact Hin]. }
  assert (Hcatch : forall err s1 d,
             events (snd s1) = (events w ++ [agentRunStart (agent_id self)
                                               (ac_name (config self)) processedInput]) ++ d ->
             inner d ->
             post (agent_catch self err) s1
               (fun r s' =>
                  exists res d,
                    r = Ok res /\ events (snd s') = events w ++ d /\
                    agent_events (ac_name (config self)) res d)).
  { intros err s1 d Hev Hin. unfold agent_catch. rewrite notify_hook_call. exec.
    specialize (HonError err).
    destruct (notified (agent_hook self onError) err) as [[]|e]; [|discriminate HonError].
    exec. cbn [events]. now apply Hend with (d := d). }
  unfold agent_try. exec.
  eapply post_conseq; [apply prompts_loop_inner; exact Hsteady|].
  intros [[]|e] s1 (d & Hev & Hin); cbn [snd events] in Hev; cbv beta match.
  - exec. rewrite apply_hook_call. exec.
    destruct (hooked (agent_hook self afterRun) _) as [agentResult|e]; cbv beta match.
    + exec. cbn [events]. now apply Hend with (d := d).
    + now apply Hcatch with (d := d).
  - now apply Hcatch with (d := d).
Qed.

End AgentEvents.

(** From the agents to the workflow. *)
Section WorkflowEvents.

Variable fuel : nat.
Variable self : AgentWorkflow.

Lemma new_Agent_post cfg parent handlers w (Q : Res Agent -> World -> Prop) :
  (forall id hs w', events w' = events w -> Q (Ok (mkAgent id cfg parent hs)) w') ->
  post (new_Agent cfg parent handlers) w Q.
Proof.
  intros H. unfold new_Agent, id_or_fresh. destruct (ac_id cfg); exec; apply H; reflexivity.
Qed.

Lemma agents_loop_events input cfgs :
  forall results w,
    (forall cfg id hs, In cfg cfgs ->
                       steady (mkAgent id cfg (defaultModel (workflowConfig self)) hs)) ->
    post (agents_loop fuel self input cfgs results) w
      (fun r w' =>
         exists rs d,
           r = Ok (results ++ rs) /\ events w' = events w ++ d /\ agents_run cfgs rs d).
Proof.
  induction cfgs as [|cfg cfgs IH]; intros results w Hsteady; cbn [agents_loop].
  - exec. exists [], []. now rewrite !app_nil_r.
  - exec. apply new_Agent_post. intros id hs w1 Hev1. exec.
    eapply post_conseq; [apply Agent_run_events, Hsteady; now left|].
    intros r w2 (res & d1 & -> & Hev2 & Hagent). cbn [config ac_name] in Hagent.
    rewrite Hev1 in Hev2. cbv beta match.
    destruct (agent_failed res) eqn:Hfailed.
    + exec. exists [res], d1. splits; auto. cbn [agents_run].
      exists res, [], d1, []. rewrite app_nil_r, Hfailed. splits; auto.
    + eapply post_conseq; [apply IH; intros; apply Hsteady; now right|].
      intros r w3 (rs & d2 & -> & Hev3 & Hrest).
      exists (res :: rs), (d1 ++ d2). rewrite <- app_assoc. split; [reflexivity|].
      rewrite Hev3, Hev2, <- app_assoc. split; [reflexivity|]. cbn [agents_run].
      exists res, rs, d1, d2. rewrite Hfailed. splits; auto.
Qed.

Lemma executeStep_events step input w :
  (forall cfg id hs, In cfg (agents step) ->
                     steady (mkAgent id cfg (defaultModel (workflowConfig self)) hs)) ->
  post (executeStep fuel self step input) w
    (fun r w' =>
       exists sr d, r = Ok sr /\ events w' = events w ++ d /\ step_events step sr d).
Proof.
  intros Hsteady. unfold executeStep. exec. cbn [events calls nextId status].
  eapply post_conseq; [apply agents_loop_events, Hsteady|].
  intros r w1 (rs & d & -> & Hev & Hagents). cbn [app events] in Hev. exec. cbn [events].
  eexists. exists (stepStart (step_label step) :: d ++ [stepEnd (step_label step)]).
  split; [reflexivity|]. rewrite Hev, <- !app_assoc. split; [reflexivity|].
  exists d. split; [reflexivity | exact Hagents].
Qed.

Lemma step_error_failed rs :
  match step_error rs with Some _ => true | None => false end = existsb agent_failed rs.
Proof.
  unfold step_error. induction rs as [|r rs IH]; cbn [find existsb]; [reflexivity|].
  destruct (agent_failed r) eqn:Hr; cbn [orb]; [|exact IH].
  unfold agent_failed in Hr. destruct (ar_error r); [reflexivity | discriminate Hr].
Qed.

Lemma steps_loop_events input sts :
  forall s,
    (forall step cfg id hs, In step sts -> In cfg (agents step) ->
                            steady (mkAgent id cfg (defaultModel (workflowConfig self)) hs)) ->
    post (steps_loop fuel self input sts) s
      (fun r s' =>
         exists res srs d,
           r = Ok res /\ stepResults res = l_stepResults (fst s) ++ srs /\
           events (snd s') = events (snd s) ++ d /\ steps_run sts srs d).
Proof.
  induction sts as [|step sts IH]; intros s Hsteady; cbn [steps_loop].
  - exec. cbn [events stepResults]. eexists. exists [], [].
    rewrite !app_nil_r. splits; auto. now split.
  - exec. eapply post_conseq; [apply executeStep_events; intros; eapply Hsteady; eauto; now left|].
    intros r w1 (sr & d1 & -> & Hev1 & Hstep). exec. cbn [fst snd l_stepResults].
    pose proof (step_error_failed (agentResults sr)) as Hfailed.
    destruct (step_error (agentResults sr)) as [stepError|].
    + exec. cbn [events stepResults fst snd l_stepResults]. eexists. exists [sr], d1.
      split; [reflexivity|]. split; [reflexivity|]. split; [exact Hev1|].
      cbn [steps_run]. exists sr, [], d1, []. rewrite app_nil_r, <- Hfailed. splits; auto.
    + eapply post_conseq; [apply IH; intros; eapply Hsteady; eauto; now right|].
      cbn [fst snd l_stepResults].
      intros r s2 (res & srs & d2 & -> & Hres & Hev2 & Hrest).
      exists res, (sr :: srs), (d1 ++ d2). split; [reflexivity|].
      rewrite Hres, <- app_assoc. split; [reflexivity|].
      rewrite Hev2, Hev1, <- app_assoc. split; [reflexivity|].
      cbn [steps_run]. exists sr, srs, d1, d2. rewrite <- Hfailed. splits; auto.
Qed.

(** A workflow of steady agents returns a result, and its events are
    those of its steps in order, up to the first step that fails. *)
Lemma Workflow_run_events input w :
  steady_workflow self ->
  post (Workflow_run fuel self input) w
    (fun r w' =>
       exists res d,
         r = Ok res /\ events w' = events w ++ d /\
         steps_run (steps (workflowConfig self)) (stepResults res) d).
Proof.
  intros Hsteady. unfold Workflow_run. exec. cbn [events calls nextId status].
  eapply post_conseq; [apply steps_loop_events; intros; eapply Hsteady; eauto|].
  cbn [fst snd l_stepResults events app].
  intros r s1 (res & srs & d & -> & Hres & Hev & Hsteps). cbv beta match.
  exists res, d. rewrite Hres. splits; auto.
Qed.

End WorkflowEvents.

Lemma agents_run_single cfg rs evs :
  agents_run [cfg] rs evs -> exists r, rs = [r] /\ agent_events (ac_name cfg) r evs.
Proof.
  cbn [agents_run]. intros (r & rs' & d1 & d2 & -> & -> & Hagent & Hrest).
  assert (Hnil : rs' = [] /\ d2 = []) by (destruct (agent_failed r); exact Hrest).
  destruct Hnil as [-> ->]. rewrite app_nil_r. now exists r.
Qed.

Lemma step_events_single step cfg sr evs :
  agents step = [cfg] ->
  step_events step sr evs ->
  exists r d,
    agentResults sr = [r] /\ agent_events (ac_name cfg) r d /\
    evs = stepStart (step_label step) :: d ++ [stepEnd (step_label step)].
Proof.
  intros Hcfg (inner & -> & Hagents). rewrite Hcfg in Hagents.
  destruct (agents_run_single Hagents) as (r & Hr & Hagent). now exists r, inner.
Qed.

(** [C8] Events are published in execution order, and start and end
    events bracket what happens between them, provided every agent of the
    workflow is steady: its [beforeRun] and [onError] hooks do not throw, and
    if it reflects, its own or the workflow's configuration names a model.
    Then a workflow run publishes, after the events already there, the
    events of its steps in order up to the first step that holds a failed
    agent; each step is [stepStart, <agents>, stepEnd], each agent run
    [agentStart, ..., agentEnd] with only prompt, tool and reflection
    events in between; the whole sequence is well bracketed.  In
    particular, for two steps of one agent each the sequence is
    [stepStart1, agentStart, ..., agentEnd, stepEnd1] followed, when the
    first agent did not fail, by
    [stepStart2, agentStart, ..., agentEnd, stepEnd2], and by nothing
    when it failed. *)
Theorem events_follow_execution fuel self input w r w' :
  steady_workflow self ->
  Workflow_run fuel self input w = Some (r, w') ->
  exists res d,
    r = Ok res /\ events w' = events w ++ d /\
    steps_run (steps (workflowConfig self)) (stepResults res) d /\
    well_bracketed d /\
    (forall s1 s2 a1 a2,
        steps (workflowConfig self) = [s1; s2] -> agents s1 = [a1] -> agents s2 = [a2] ->
        exists r1 d1,
          agent_events (ac_name a1) r1 d1 /\
          if agent_failed r1
          then d = stepStart (step_label s1) :: d1 ++ [stepEnd (step_label s1)]
          else exists r2 d2,
              agent_events (ac_name a2) r2 d2 /\
              d = (stepStart (step_label s1) :: d1 ++ [stepEnd (step_label s1)])
                    ++ stepStart (step_label s2) :: d2 ++ [stepEnd (step_label s2)]).
Proof.
  intros Hsteady E.
  destruct (@Workflow_run_events fuel self input w Hsteady _ _ E)
    as (res & d & -> & Hev & Hsteps).
  exists res, d. splits; auto.
  - exact (nest_steps_run _ _ _ Hsteps).
  - intros s1 s2 a1 a2 Hs Ha1 Ha2. rewrite Hs in Hsteps. cbn [steps_run] in Hsteps.
    destruct Hsteps as (sr1 & srs1 & e1 & e2 & _ & -> & Hstep1 & Hrest).
    destruct (step_events_single Ha1 Hstep1) as (r1 & d1 & Hr1 & Hagent1 & ->).
    exists r1, d1. split; [exact Hagent1|].
    rewrite Hr1 in Hrest. cbn [existsb] in Hrest. rewrite orb_false_r in Hrest.
    destruct (agent_failed r1).
    + destruct Hrest as [_ ->]. now rewrite app_nil_r.
    + destruct Hrest as (sr2 & srs2 & e3 & e4 & _ & -> & Hstep2 & Hend).
      destruct (step_events_single Ha2 Hstep2) as (r2 & d2 & Hr2 & Hagent2 & ->).
      assert (Hnil : srs2 = [] /\ e4 = [])
        by (destruct (existsb agent_failed (agentResults sr2)); exact Hend).
      destruct Hnil as [_ ->]. rewrite app_nil_r. now exists r2, d2.
Qed.

(** Two steps of one plain agent each, against the mock client: the run
    completes and its events are well bracketed. *)
Lemma events_follow_execution_witness :
  exists res w',
    Workflow_run 0 (two_step_workflow mock_client sample_model
                                      (plain_agent "a1") (plain_agent "a2"))
                 (VObj []) initial_world = Some (Ok res, w') /\
    well_bracketed (events w').
Proof.
  assert (Hsteady : steady_workflow (two_step_workflow mock_client sample_model
                                       (plain_agent "a1") (plain_agent "a2"))).
  { intros step cfg id handlers Hstep Hcfg. cbn in Hstep.
    destruct Hstep as [<-|[<-|[]]]; cbn in Hcfg; destruct Hcfg as [<-|[]];
      (split; [reflexivity | split; [reflexivity | discriminate]]). }
  assert (Hrun : exists res w',
             Workflow_run 0 (two_step_workflow mock_client sample_model
                                               (plain_agent "a1") (plain_agent "a2"))
                          (VObj []) initial_world = Some (Ok res, w'))
    by (eexists _, _; vm_compute; reflexivity).
  destruct Hrun as (res & w' & E). exists res, w'. split; [exact E|].
  destruct (@events_follow_execution 0 _ (VObj []) initial_world _ _ Hsteady E)
    as (res' & d & _ & Hev & _ & Hwb & _).
  cbn [events initial_world app] in Hev. rewrite Hev. exact Hwb.
Defined.

(** The specification as worded fails on two counts in one run.  Two steps of one
    agent each; the agents reflect, and only their prompts name a model; the
    model rejects every call.  The first agent starts a reflection that
    cannot resolve a model, so the reflection is never closed and the agent
    ends inside it; and the first step having failed, the second never
    starts. *)
Lemma event_order_counterexample :
  exists res w',
    Workflow_run 0 (two_step_workflow error_client None
                                      (reflecting_config "a1") (reflecting_config "a2"))
                 (VObj []) initial_world = Some (Ok res, w') /\
    ~ well_bracketed (events w') /\
    ~ two_step_shape "step1" "step2" (events w').
Proof.
  assert (Hrun : exists res w',
             Workflow_run 0 (two_step_workflow error_client None
                                               (reflecting_config "a1") (reflecting_config "a2"))
                          (VObj []) initial_world = Some (Ok res, w') /\
             nest [] (events w') = None /\
             last (events w') (stepStart EmptyString) = stepEnd "step1")
    by (eexists _, _; split; [|split]; vm_compute; reflexivity).
  destruct Hrun as (res & w' & E & Hnest & Hlast). exists res, w'.
  split; [exact E|]. split.
  - unfold well_bracketed. rewrite Hnest. discriminate.
  - intros (id & name & input & inner & res' & usage & rest & Heq).
    rewrite Heq, !app_assoc, last_last in Hlast. discriminate Hlast.
Qed.

(* ================================================================== *)
(** * Part III. Further properties of the code *)
(* ================================================================== *)

(** ** The in-memory cache *)

Section Cache.

Lemma assoc_Store_set_same key entry store :
  assoc key (Store_set key entry store) = Some entry.
Proof.
  induction store as [|[k e] rest IH]; cbn [Store_set assoc].
  - now rewrite String.eqb_refl.
  - destruct (String.eqb k key) eqn:E; cbn [assoc]; rewrite E; [reflexivity | exact IH].
Qed.

Lemma assoc_Store_set_other k key entry store :
  k <> key -> assoc k (Store_set key entry store) = assoc k store.
Proof.
  intros Hne. induction store as [|[k0 e] rest IH]; cbn [Store_set assoc].
  - destruct (String.eqb key k) eqn:E; [apply String.eqb_eq in E; congruence | reflexivity].
  - destruct (String.eqb k0 key) eqn:E; cbn [assoc].
    + apply String.eqb_eq in E. subst k0.
      destruct (String.eqb key k) eqn:E'; [apply String.eqb_eq in E'; congruence | reflexivity].
    + destruct (String.eqb k0 k); [reflexivity | exact IH].
Qed.

Lemma assoc_Store_delete_other k key store :
  k <> key -> assoc k (Store_delete key store) = assoc k store.
Proof.
  intros Hne. induction store as [|[k0 e] rest IH]; cbn [Store_delete assoc]; [reflexivity|].
  destruct (String.eqb k0 key) eqn:E; cbn [assoc].
  - apply String.eqb_eq in E. subst k0.
    destruct (String.eqb key k) eqn:E'; [apply String.eqb_eq in E'; congruence | reflexivity].
  - destruct (String.eqb k0 k); [reflexivity | exact IH].
Qed.

Lemma assoc_none_keys {A} key (l : list (string * A)) :
  assoc key l = None <-> ~ In key (map fst l).
Proof.
  induction l as [|[k e] rest IH]; cbn [assoc map fst In].
  - split; [intros _ [] | reflexivity].
  - destruct (String.eqb k key) eqn:E.
    + apply String.eqb_eq in E. split; [discriminate | intros H; elim H; now left].
    + apply String.eqb_neq in E. rewrite IH. tauto.
Qed.

Lemma assoc_Store_delete_same key store :
  Store_ok store -> assoc key (Store_delete key store) = None.
Proof.
  unfold Store_ok. induction store as [|[k e] rest IH]; cbn [Store_delete assoc map fst];
    [reflexivity|].
  intros Hok. inversion Hok as [|? ? Hnotin Hrest]; subst.
  destruct (String.eqb k key) eqn:E; cbn [assoc].
  - apply String.eqb_eq in E. subst k. now apply assoc_none_keys.
  - rewrite E. now apply IH.
Qed.

Lemma Store_delete_set key entry store :
  Store_delete key (Store_set key entry store) = Store_delete key store.
Proof.
  induction store as [|[k e] rest IH]; cbn [Store_set Store_delete].
  - now rewrite String.eqb_refl.
  - destruct (String.eqb k key) eqn:E; cbn [Store_delete]; rewrite E; [reflexivity|].
    now rewrite IH.
Qed.

Lemma Store_delete_absent key store :
  assoc key store = None -> Store_delete key store = store.
Proof.
  induction store as [|[k e] rest IH]; cbn [assoc Store_delete]; [reflexivity|].
  destruct (String.eqb k key); [discriminate|]. intros H. now rewrite IH.
Qed.

Lemma keys_Store_set key entry store :
  map fst (Store_set key entry store) =
  match assoc key store with
  | Some _ => map fst store
  | None => map fst store ++ [key]
  end.
Proof.
  induction store as [|[k e] rest IH]; cbn [Store_set assoc map fst app]; [reflexivity|].
  destruct (String.eqb k key) eqn:E; cbn [map fst]; [reflexivity|].
  rewrite IH. now destruct (assoc key rest).
Qed.

Lemma keys_Store_delete key store :
  forall k, In k (map fst (Store_delete key store)) -> In k (map fst store).
Proof.
  induction store as [|[k0 e] rest IH]; cbn [Store_delete map fst In]; [tauto|].
  intros k. destruct (String.eqb k0 key); cbn [map fst In]; [tauto|].
  intros [H|H]; [now left | right; now apply IH].
Qed.

Lemma Store_ok_set key entry store : Store_ok store -> Store_ok (Store_set key entry store).
Proof.
  unfold Store_ok. intros Hok. rewrite keys_Store_set.
  destruct (assoc key store) eqn:E; [exact Hok|].
  apply assoc_none_keys in E. apply NoDup_app; [exact Hok | repeat constructor; intros [] |].
  intros k Hin [<-|[]]. contradiction.
Qed.

Lemma Store_ok_delete key store : Store_ok store -> Store_ok (Store_delete key store).
Proof.
  unfold Store_ok. induction store as [|[k e] rest IH]; cbn [Store_delete map fst];
    [trivial|].
  intros Hok. inversion Hok as [|? ? Hnotin Hrest]; subst.
  destruct (String.eqb k key); cbn [map fst]; [exact Hrest|].
  constructor; [|now apply IH]. intros Hin. apply Hnotin. eapply keys_Store_delete, Hin.
Qed.

Lemma length_Store_delete key store :
  List.length (Store_delete key store) =
  match assoc key store with
  | Some _ => List.length store - 1
  | None => List.length store
  end.
Proof.
  induction store as [|[k e] rest IH]; cbn [Store_delete assoc List.length]; [reflexivity|].
  destruct (String.eqb k key); cbn [List.length]; [lia|].
  rewrite IH. destruct (assoc key rest) eqn:E; [|reflexivity].
  destruct rest; [discriminate E | cbn [List.length]; lia].
Qed.

Lemma stale_entry_of v ttl now now' :
  stale (entry_of v ttl now) now' =
  match ttl with
  | Some t => negb (t =? 0)%Z && negb (now + t =? 0)%Z && (now' >? now + t)%Z
  | None => false
  end.
Proof.
  unfold stale, entry_of. cbn [expires]. destruct ttl as [t|]; [|reflexivity].
  destruct (t =? 0)%Z; reflexivity.
Qed.

Lemma get_fresh key entry now store :
  assoc key store = Some entry -> stale entry now = false ->
  MemoryCache_get key now store = (ce_value entry, store) /\
  MemoryCache_has key now store = (true, store).
Proof. intros E Hs. unfold MemoryCache_get, MemoryCache_has. now rewrite E, Hs. Qed.

Lemma get_stale key entry now store :
  assoc key store = Some entry -> stale entry now = true ->
  MemoryCache_get key now store = (VUndefined, Store_delete key store) /\
  MemoryCache_has key now store = (false, Store_delete key store).
Proof. intros E Hs. unfold MemoryCache_get, MemoryCache_has. now rewrite E, Hs. Qed.

Lemma get_absent key now store :
  assoc key store = None ->
  MemoryCache_get key now store = (VUndefined, store) /\
  MemoryCache_has key now store = (false, store).
Proof. intros E. unfold MemoryCache_get, MemoryCache_has. now rewrite E. Qed.

Lemma Store_set_set key e1 e2 store :
  Store_set key e2 (Store_set key e1 store) = Store_set key e2 store.
Proof.
  induction store as [|[k e] rest IH]; cbn [Store_set].
  - now rewrite String.eqb_refl.
  - destruct (String.eqb k key) eqn:E; cbn [Store_set]; rewrite E; [reflexivity|].
    now rewrite IH.
Qed.

Lemma length_Store_set key entry store :
  List.length (Store_set key entry store) =
  match assoc key store with
  | Some _ => List.length store
  | None => S (List.length store)
  end.
Proof.
  rewrite <- (length_map fst), keys_Store_set.
  destruct (assoc key store); rewrite ?length_app, length_map; cbn; lia.
Qed.

Lemma Store_ok_op store op : Store_ok store -> Store_ok (apply_op store op).
Proof.
  intros Hok. destruct op as [key now|key v ttl now|key| |key now]; cbn [apply_op].
  - unfold MemoryCache_get. destruct (assoc key store) as [entry|]; [|exact Hok].
    destruct (stale entry now); cbn [snd]; [now apply Store_ok_delete | exact Hok].
  - now apply Store_ok_set.
  - now apply Store_ok_delete.
  - constructor.
  - unfold MemoryCache_has. destruct (assoc key store) as [entry|]; [|exact Hok].
    destruct (stale entry now); cbn [snd]; [now apply Store_ok_delete | exact Hok].
Qed.

Lemma length_op store op :
  List.length (apply_op store op) <=
  List.length store + match op with OpSet _ _ _ _ => 1 | _ => 0 end.
Proof.
  destruct op as [key now|key v ttl now|key| |key now]; cbn [apply_op].
  - unfold MemoryCache_get. destruct (assoc key store) as [entry|] eqn:E; [|cbn; lia].
    destruct (stale entry now); cbn [snd]; [|lia]. rewrite length_Store_delete, E. lia.
  - unfold MemoryCache_set. rewrite length_Store_set. destruct (assoc key store); lia.
  - cbn [MemoryCache_delete snd]. rewrite length_Store_delete. destruct (assoc key store); lia.
  - cbn. lia.
  - unfold MemoryCache_has. destruct (assoc key store) as [entry|] eqn:E; [|cbn; lia].
    destruct (stale entry now); cbn [snd]; [|lia]. rewrite length_Store_delete, E. lia.
Qed.

End Cache.

(** [X1] A value written with [set] is read back by [get], and [has]
    answers [true], at any time up to the instant its time to live runs
    out; neither call changes the cache. *)
Theorem cache_get_after_set key v ttl now now' store :
  (forall t, ttl = Some t -> now' <= now + t)%Z ->
  MemoryCache_get key now' (MemoryCache_set key v ttl now store)
  = (v, MemoryCache_set key v ttl now store) /\
  MemoryCache_has key now' (MemoryCache_set key v ttl now store)
  = (true, MemoryCache_set key v ttl now store).
Proof.
  intros Hlive. unfold MemoryCache_set.
  apply (@get_fresh key (entry_of v ttl now)); [apply assoc_Store_set_same|].
  rewrite stale_entry_of. destruct ttl as [t|]; [|reflexivity].
  specialize (Hlive t eq_refl).
  destruct (now' >? now + t)%Z eqn:E; [apply Z.gtb_lt in E; lia | now rewrite andb_false_r].
Qed.

Lemma cache_get_after_set_witness :
  MemoryCache_get "key1" 1005 (MemoryCache_set "key1" (VStr "value1") (Some 10%Z) 1000 [])
  = (VStr "value1", MemoryCache_set "key1" (VStr "value1") (Some 10%Z) 1000 []).
Proof.
  apply (@cache_get_after_set "key1" (VStr "value1") (Some 10%Z) 1000 1005 []).
  intros t [= <-]. lia.
Defined.

(** [X2] A time to live of [0] is no time to live: the entry written is
    the one written without any, and it is read back at every later time. *)
Theorem cache_zero_ttl_never_expires key v now store :
  MemoryCache_set key v (Some 0%Z) now store = MemoryCache_set key v None now store /\
  forall now',
    MemoryCache_get key now' (MemoryCache_set key v (Some 0%Z) now store)
    = (v, MemoryCache_set key v (Some 0%Z) now store).
Proof.
  split; [reflexivity|]. intros now'. unfold MemoryCache_set.
  apply (@get_fresh key (entry_of v (Some 0%Z) now)); [apply assoc_Store_set_same|].
  reflexivity.
Qed.

(** [X3] Once its time to live has run out, an entry is gone: [get]
    answers [undefined] and [has] answers [false], and either call removes
    the entry, leaving the cache as if the key had been deleted.  (A time to
    live that makes the expiry instant [0] does not count: the code reads
    that instant as absent.) *)
Theorem cache_expired_entry_is_purged key v t now now' store :
  (t <> 0)%Z -> (now + t <> 0)%Z -> (now + t < now')%Z ->
  MemoryCache_get key now' (MemoryCache_set key v (Some t) now store)
  = (VUndefined, Store_delete key store) /\
  MemoryCache_has key now' (MemoryCache_set key v (Some t) now store)
  = (false, Store_delete key store).
Proof.
  intros Ht Hexp Hlate. unfold MemoryCache_set.
  rewrite <- (Store_delete_set key (entry_of v (Some t) now) store).
  apply (@get_stale key (entry_of v (Some t) now)); [apply assoc_Store_set_same|].
  rewrite stale_entry_of.
  apply Z.eqb_neq in Ht, Hexp. rewrite Ht, Hexp. cbn [negb andb].
  apply Z.gtb_lt. lia.
Qed.

Lemma cache_expired_entry_is_purged_witness :
  MemoryCache_get "key1" 1015 (MemoryCache_set "key1" (VStr "value1") (Some 10%Z) 1000 [])
  = (VUndefined, []).
Proof.
  apply (@cache_expired_entry_is_purged "key1" (VStr "value1") 10 1000 1015 []); lia.
Defined.

(** [X4] What is done to one key leaves the others alone: writing,
    deleting or reading (and thereby purging) [key] does not change what
    [get] answers for another key. *)
Theorem cache_other_keys_untouched k key store now' :
  k <> key ->
  (forall v ttl now,
      fst (MemoryCache_get k now' (MemoryCache_set key v ttl now store))
      = fst (MemoryCache_get k now' store)) /\
  fst (MemoryCache_get k now' (snd (MemoryCache_delete key store)))
  = fst (MemoryCache_get k now' store) /\
  (forall now,
      fst (MemoryCache_get k now' (snd (MemoryCache_get key now store)))
      = fst (MemoryCache_get k now' store)).
Proof.
  intros Hne.
  assert (Hdel : fst (MemoryCache_get k now' (Store_delete key store))
                 = fst (MemoryCache_get k now' store)).
  { unfold MemoryCache_get. rewrite assoc_Store_delete_other by exact Hne.
    destruct (assoc k store) as [entry|]; [|reflexivity]. now destruct (stale entry now'). }
  split; [|split].
  - intros v ttl now. unfold MemoryCache_set, MemoryCache_get.
    rewrite assoc_Store_set_other by exact Hne.
    destruct (assoc k store) as [entry|]; [|reflexivity]. now destruct (stale entry now').
  - exact Hdel.
  - intros now. unfold MemoryCache_get at 2.
    destruct (assoc key store) as [entry|]; [|reflexivity].
    destruct (stale entry now); [exact Hdel | reflexivity].
Qed.

Lemma cache_other_keys_untouched_witness :
  fst (MemoryCache_get "key1" 5 (snd (MemoryCache_delete "key2"
         (MemoryCache_set "key1" (VStr "value1") None 0 []))))
  = fst (MemoryCache_get "key1" 5 (MemoryCache_set "key1" (VStr "value1") None 0 [])).
Proof.
  apply (@cache_other_keys_untouched "key1" "key2" _ 5). discriminate.
Defined.

(** [X5] [delete] answers [true] exactly when the key is stored, whether
    or not its entry has expired; afterwards the key is gone ([get] answers
    [undefined] and changes nothing), and the cache is smaller by the one
    entry removed. *)
Theorem cache_delete key store now :
  Store_ok store ->
  (fst (MemoryCache_delete key store) = true <-> In key (map fst store)) /\
  MemoryCache_get key now (snd (MemoryCache_delete key store))
  = (VUndefined, snd (MemoryCache_delete key store)) /\
  MemoryCache_size (snd (MemoryCache_delete key store))
  = MemoryCache_size store - (if fst (MemoryCache_delete key store) then 1 else 0).
Proof.
  intros Hok. cbn [MemoryCache_delete fst snd]. split; [|split].
  - pose proof (assoc_none_keys key store) as H.
    destruct (assoc key store); split; intros H'; try reflexivity; try discriminate.
    + destruct (in_dec string_dec key (map fst store)) as [Hin|Hnot]; [exact Hin|].
      apply H in Hnot. discriminate Hnot.
    + exfalso. now apply (proj1 H).
  - apply get_absent. now apply assoc_Store_delete_same.
  - unfold MemoryCache_size. rewrite length_Store_delete. destruct (assoc key store); lia.
Qed.

Lemma cache_delete_witness :
  MemoryCache_size (snd (MemoryCache_delete "key1"
                           (MemoryCache_set "key1" (VStr "value1") None 0 [])))
  = MemoryCache_size (MemoryCache_set "key1" (VStr "value1") None 0 [])
    - (if fst (MemoryCache_delete "key1" (MemoryCache_set "key1" (VStr "value1") None 0 []))
       then 1 else 0).
Proof.
  apply (@cache_delete "key1" (MemoryCache_set "key1" (VStr "value1") None 0 []) 0).
  repeat constructor. intros [].
Defined.

(** [X6] A second [set] of a key replaces the first altogether: the
    earlier value and its expiry are forgotten, and the cache is the one
    the second [set] alone would have left. *)
Theorem cache_set_overwrites key v1 ttl1 now1 v2 ttl2 now2 store :
  MemoryCache_set key v2 ttl2 now2 (MemoryCache_set key v1 ttl1 now1 store)
  = MemoryCache_set key v2 ttl2 now2 store.
Proof. unfold MemoryCache_set. apply Store_set_set. Qed.

(** [X7] Whatever is done to a fresh cache, its keys stay distinct and it
    holds no more entries than [set] was called; [set] adds an entry only
    for a key that is not stored, and nothing but [set] adds one. *)
Theorem cache_size_bounded (ops : list CacheOp) :
  Store_ok (after_ops ops) /\
  MemoryCache_size (after_ops ops)
  <= List.length (filter (fun op => match op with OpSet _ _ _ _ => true | _ => false end) ops) /\
  (forall key v ttl now,
      MemoryCache_size (MemoryCache_set key v ttl now (after_ops ops))
      = if fst (MemoryCache_delete key (after_ops ops))
        then MemoryCache_size (after_ops ops)
        else S (MemoryCache_size (after_ops ops))).
Proof.
  unfold after_ops, MemoryCache_size.
  assert (H : forall store,
             Store_ok store ->
             Store_ok (fold_left apply_op ops store) /\
             List.length (fold_left apply_op ops store)
             <= List.length store
                + List.length (filter (fun op => match op with
                                                 | OpSet _ _ _ _ => true
                                                 | _ => false
                                                 end) ops)).
  { induction ops as [|op ops IH]; intros store Hok; cbn [fold_left filter].
    - split; [exact Hok | cbn; lia].
    - destruct (IH (apply_op store op) (Store_ok_op op Hok)) as [Hok' Hlen].
      split; [exact Hok'|]. pose proof (length_op store op) as Hop.
      destruct op; cbn [List.length] in *; lia. }
  destruct (H [] (NoDup_nil _)) as [Hok Hlen]. split; [exact Hok|]. split; [exact Hlen|].
  intros key v ttl now. unfold MemoryCache_set. rewrite length_Store_set.
  cbn [MemoryCache_delete fst]. now destruct (assoc key (fold_left apply_op ops [])).
Qed.

(** ** Token utilities *)

Section Tokens.

Lemma add_cache_none n : add_cache None n = if truthy_num n then n else None.
Proof.
  unfold add_cache. destruct n as [z|]; cbn; [|reflexivity].
  destruct (z =? 0)%Z; reflexivity.
Qed.

Lemma aggregate_one u :
  aggregateTokenUsage [u] =
  mkTokenUsage (inputTokens u) (outputTokens u)
               (if truthy_num (cacheCreationInputTokens u)
                then cacheCreationInputTokens u else None)
               (if truthy_num (cacheReadInputTokens u)
                then cacheReadInputTokens u else None).
Proof.
  unfold aggregateTokenUsage. cbn [fold_left]. unfold aggregate_step.
  cbn [inputTokens outputTokens cacheCreationInputTokens cacheReadInputTokens emptyTokenUsage].
  now rewrite !add_cache_none.
Qed.

Lemma truthy_num_idem n : truthy_num (if truthy_num n then n else None) = truthy_num n.
Proof. destruct (truthy_num n) eqn:E; [exact E | reflexivity]. Qed.

(** A cache counter summed over non-negative contributions is absent or
    positive. *)
Lemma cache_sum_positive (f : TokenUsage -> option Z) us :
  Forall (fun u => 0 <= count_or_zero (f u))%Z us ->
  existsb (fun u => truthy_num (f u)) us = true ->
  (0 < Zsum (map (fun u => count_or_zero (f u)) us))%Z.
Proof.
  induction 1 as [|u us Hu Hus IH]; cbn [existsb map Zsum fold_right]; [discriminate|].
  fold (Zsum (map (fun u0 => count_or_zero (f u0)) us)).
  assert (Hrest : (0 <= Zsum (map (fun u0 => count_or_zero (f u0)) us))%Z).
  { apply Zsum_nonneg, Forall_map. exact Hus. }
  destruct (truthy_num (f u)) eqn:E; cbn [orb].
  - intros _. destruct (f u) as [z|]; [|discriminate E]. cbn in *.
    destruct (Z.eqb_spec z 0); [discriminate E | lia].
  - intros H. specialize (IH H). lia.
Qed.

Lemma Zsum_app l l' : Zsum (l ++ l') = (Zsum l + Zsum l')%Z.
Proof. unfold Zsum. induction l as [|x l IH]; cbn [app fold_right]; lia. Qed.

Lemma cache_compose (f : TokenUsage -> option Z) us1 us2 :
  Forall (fun u => 0 <= count_or_zero (f u))%Z us1 ->
  Forall (fun u => 0 <= count_or_zero (f u))%Z us2 ->
  fold_left (fun a u => add_cache a (f u)) (us1 ++ us2) None =
  add_cache (add_cache None (fold_left (fun a u => add_cache a (f u)) us1 None))
            (fold_left (fun a u => add_cache a (f u)) us2 None).
Proof.
  intros H1 H2. rewrite !fold_add_cache, existsb_app, map_app, Zsum_app.
  cbn [count_or_zero].
  pose proof (cache_sum_positive f H1) as P1. pose proof (cache_sum_positive f H2) as P2.
  pose proof (@Zsum_silent f us1) as S1. pose proof (@Zsum_silent f us2) as S2.
  destruct (existsb _ us1) eqn:E1; destruct (existsb (fun u => truthy_num (f u)) us2) eqn:E2;
    cbn [orb]; try specialize (P1 eq_refl); try specialize (P2 eq_refl);
    try specialize (S1 eq_refl); try specialize (S2 eq_refl).
  all: rewrite ?add_cache_none; unfold add_cache, truthy_num; cbn [count_or_zero].
  all: repeat match goal with
         | |- context [(?z =? 0)%Z] => destruct (Z.eqb_spec z 0); try lia
         end; cbn [negb count_or_zero]; try reflexivity; f_equal; lia.
Qed.

End Tokens.
(** [X12] Aggregation composes: with no negative count among them, the
    aggregate of two lists of usages put together is the aggregate of their
    two aggregates, which is how [run] adds up a total step by step.  The
    empty usage changes nothing, in front or at the end. *)
Theorem aggregate_of_aggregates us1 us2 :
  Forall usage_nonneg us1 -> Forall usage_nonneg us2 ->
  aggregateTokenUsage (us1 ++ us2)
  = aggregateTokenUsage [aggregateTokenUsage us1; aggregateTokenUsage us2] /\
  aggregateTokenUsage (emptyTokenUsage :: us1) = aggregateTokenUsage us1 /\
  aggregateTokenUsage (us1 ++ [emptyTokenUsage]) = aggregateTokenUsage us1.
Proof.
  intros H1 H2. split; [|split].
  - unfold aggregateTokenUsage. rewrite !fold_aggregate_step.
    cbn [inputTokens outputTokens cacheCreationInputTokens cacheReadInputTokens
         emptyTokenUsage map Zsum fold_right fold_left].
    rewrite !map_app, !Zsum_app.
    rewrite (@cache_compose cacheCreationInputTokens us1 us2),
            (@cache_compose cacheReadInputTokens us1 us2).
    + fold (Zsum (map inputTokens us1)). fold (Zsum (map outputTokens us1)).
      fold (Zsum (map inputTokens us2)). fold (Zsum (map outputTokens us2)).
      f_equal; lia.
    + eapply Forall_impl; [|exact H1]. intros u Hu; apply Hu.
    + eapply Forall_impl; [|exact H2]. intros u Hu; apply Hu.
    + eapply Forall_impl; [|exact H1]. intros u Hu; apply Hu.
    + eapply Forall_impl; [|exact H2]. intros u Hu; apply Hu.
  - reflexivity.
  - unfold aggregateTokenUsage. rewrite fold_left_app. cbn [fold_left].
    destruct (fold_left aggregate_step us1 emptyTokenUsage) as [i o cc cr].
    unfold aggregate_step. cbn. f_equal; lia.
Qed.

Lemma aggregate_of_aggregates_witness :
  aggregateTokenUsage ([mkTokenUsage 100 50 None None] ++ [mkTokenUsage 200 100 None (Some 5%Z)])
  = aggregateTokenUsage [aggregateTokenUsage [mkTokenUsage 100 50 None None];
                         aggregateTokenUsage [mkTokenUsage 200 100 None (Some 5%Z)]].
Proof.
  apply (@aggregate_of_aggregates [mkTokenUsage 100 50 None None]
                                  [mkTokenUsage 200 100 None (Some 5%Z)]);
    repeat constructor; cbn; lia.
Defined.

(** [X13] A cache count of [0] is shown like an absent one, that is not
    at all; hence a usage and its aggregate alone are formatted alike.
    Without cache counts the text is ["in: <n>, out: <m>"]. *)
Theorem format_skips_zero_counts u :
  formatTokenUsage (aggregateTokenUsage [u]) = formatTokenUsage u /\
  (truthy_num (cacheCreationInputTokens u) = false ->
   truthy_num (cacheReadInputTokens u) = false ->
   formatTokenUsage u
   = ("in: " ++ string_of_Z (inputTokens u) ++ ", out: " ++ string_of_Z (outputTokens u))%string).
Proof.
  split.
  - rewrite aggregate_one. unfold formatTokenUsage.
    cbn [inputTokens outputTokens cacheCreationInputTokens cacheReadInputTokens].
    rewrite !truthy_num_idem.
    destruct (truthy_num (cacheCreationInputTokens u));
      destruct (truthy_num (cacheReadInputTokens u)); reflexivity.
  - intros Hc Hr. unfold formatTokenUsage. rewrite Hc, Hr. reflexivity.
Qed.

Lemma format_skips_zero_counts_witness :
  formatTokenUsage (mkTokenUsage 100 50 (Some 0%Z) None) = "in: 100, out: 50".
Proof.
  rewrite (proj2 (format_skips_zero_counts (mkTokenUsage 100 50 (Some 0%Z) None))
                 eq_refl eq_refl).
  reflexivity.
Defined.

(** ** The conversation of a prompt execution *)

Section Transcript.

Variable client : AnthropicClient.
Variable self : PromptInstance.

Lemma accumulated_app total us us' :
  accumulated total (us ++ us') = accumulated (accumulated total us) us'.
Proof. apply fold_left_app. Qed.

Lemma next_request_eq systemContent tools_ msgs r results :
  mkParams (resolvedModel self) 4096 systemContent
           ((msgs ++ [mkMessage assistant (BlocksContent (content r))])
            ++ [mkMessage user (ToolResultsContent ([] ++ results))])
           tools_
  = next_request (mkParams (resolvedModel self) 4096 systemContent msgs tools_) r results.
Proof. unfold next_request. cbn. now rewrite <- app_assoc. Qed.

(** The tool loop: the requests it makes follow from the answers, and the
    usage of every answer is added to the total. *)
Lemma tool_loop_transcript systemContent tools_ fuel :
  forall msgs response l w n,
    List.length (calls w) = S n ->
    createMessage client n (mkParams (resolvedModel self) 4096 systemContent msgs tools_)
    = Ok response ->
    post (tool_loop fuel client self systemContent tools_ msgs response) (l, w)
      (fun _ s' =>
         exists more,
           calls (snd s') = calls w ++ more /\
           follow_ups client self n (nextId w)
                      (mkParams (resolvedModel self) 4096 systemContent msgs tools_) more /\
           totalUsage (fst s')
           = accumulated (totalUsage l) (map usage (answers client (S n) more))).
Proof.
  induction fuel as [|fuel IH]; intros msgs response l w n Hlen Hans; cbn [tool_loop];
    destruct (is_tool_use response) eqn:Htool.
  - apply post_diverge.
  - exec. exists []. rewrite app_nil_r. splits; auto.
    intros r Hr Hr'. rewrite Hans in Hr. inversion Hr; subst r. congruence.
  - exec. eapply post_run; [apply process_blocks_run|]. case_results.
    2:{ cbn [fst snd calls totalUsage]. exists []. rewrite app_nil_r. splits; auto.
        intros r Hr _. rewrite Hans in Hr. inversion Hr; subst r. now exists e. }
    rewrite (@handled_results self _ _ _ Hresults).
    exec. cbn [events calls nextId status]. case_call.
    + unfold add_usage. exec.
      eapply post_conseq;
        [apply (IH _ response0 _ _ (S n));
         [cbn [calls]; rewrite length_app; cbn; lia
         | cbn [calls]; rewrite <- Hlen; exact Hcall]|].
      cbn [fst snd calls nextId totalUsage]. intros _ s' (more & Hcalls & Hmore & Husage).
      eexists (_ :: more). rewrite Hcalls, <- app_assoc. split; [reflexivity|].
      split.
      * cbn [follow_ups]. exists response, results.
        split; [exact Hans|]. split; [exact Htool|]. split; [exact Hresults|].
        split; [apply next_request_eq|]. exact Hmore.
      * rewrite Husage. cbn [answers]. rewrite <- Hlen, Hcall. reflexivity.
    + cbn [snd fst calls totalUsage]. eexists [_]. split; [reflexivity|]. split.
      * cbn [follow_ups]. exists response, results.
        split; [exact Hans|]. split; [exact Htool|]. split; [exact Hresults|].
        split; [apply next_request_eq|].
        intros r Hr. rewrite <- Hlen, Hcall in Hr. discriminate Hr.
      * cbn [answers]. rewrite <- Hlen, Hcall. reflexivity.
  - exec. exists []. rewrite app_nil_r. splits; auto.
    intros r Hr Hr'. rewrite Hans in Hr. inversion Hr; subst r. congruence.
Qed.

(** A prompt execution that gets past its [beforeCall] hook: its requests
    and the usage it has added up. *)
Lemma PromptInstance_run_transcript fuel w :
  post (PromptInstance_run fuel client self) w
    (fun r w' =>
       forall res, r = Ok res ->
         exists processedInput requests recorded,
           hooked (prompt_hook self beforeCall) (pi_input self) = Ok processedInput /\
           calls w' = calls w ++ requests /\
           conversation client self (List.length (calls w)) (nextId w) processedInput
                        requests /\
           pr_tokenUsage recorded
           = accumulated emptyTokenUsage
               (map usage (answers client (List.length (calls w)) requests)) /\
           reported self recorded res).
Proof.
  unfold PromptInstance_run. rewrite apply_hook_call. exec.
  destruct (hooked (prompt_hook self beforeCall) (pi_input self)) as [pin|e] eqn:Hbefore;
    cbv beta match; [|discriminate].
  exec. eapply post_run; [apply pi_emit_run|]. exec.
  assert (Hcatch : forall err l w1 requests,
             calls w1 = calls w ++ requests ->
             conversation client self (List.length (calls w)) (nextId w) pin requests ->
             totalUsage l
             = accumulated emptyTokenUsage
                 (map usage (answers client (List.length (calls w)) requests)) ->
             post (run_catch self err) (l, w1)
               (fun r s' =>
                  forall res, r = Ok res ->
                    exists processedInput requests recorded,
                      Ok pin = Ok processedInput /\
                      calls (snd s') = calls w ++ requests /\
                      conversation client self (List.length (calls w)) (nextId w)
                                   processedInput requests /\
                      pr_tokenUsage recorded
                      = accumulated emptyTokenUsage
                          (map usage (answers client (List.length (calls w)) requests)) /\
                      reported self recorded res)).
  { intros err l w1 requests Hcalls Hconv Husage.
    eapply post_run; [apply run_catch_run|]. cbv zeta. cbn [snd calls].
    intros res [= <-].
    exists pin, requests,
      (mkPromptResult EmptyString (totalUsage l) (toolCalls l) [] (Some err) None).
    splits; auto. right. splits; [reflexivity | reflexivity | discriminate]. }
  apply post_run_try; [intros userContent systemContent Htexts | intros e Htexts].
  2:{ cbv beta match.
      eapply post_conseq;
        [apply (Hcatch e (mkRunLocals emptyTokenUsage []) _ []);
         [cbn [calls]; now rewrite app_nil_r
         | unfold conversation; now rewrite Htexts
         | reflexivity]|].
      intros r s' H res Hres. destruct (H res Hres) as (p & m & rec & Hp & Hrest).
      exists p, m, rec. split; [exact Hp | exact Hrest]. }
  unfold run_calls. exec. cbn [events calls nextId status].
  fold (first_request self (userContent, systemContent)).
  assert (Hconv : forall more,
             follow_ups client self (List.length (calls w)) (nextId w)
                        (first_request self (userContent, systemContent)) more ->
             conversation client self (List.length (calls w)) (nextId w) pin
                          (first_request self (userContent, systemContent) :: more)).
  { intros more Hmore. unfold conversation. rewrite Htexts. now exists more. }
  case_call.
  - unfold add_usage. exec.
    eapply post_conseq;
      [apply (@tool_loop_transcript _ _ fuel _ response _ _ (List.length (calls w)));
       [cbn [calls]; rewrite length_app; cbn; lia | exact Hcall]|].
    cbn [fst snd calls nextId totalUsage].
    intros r [l1 w1] (more & Hcalls & Hmore & Husage); cbn [fst snd] in *.
    rewrite <- app_assoc in Hcalls. cbn [app] in Hcalls.
    assert (Htotal : totalUsage l1
                     = accumulated emptyTokenUsage
                         (map usage (answers client (List.length (calls w))
                                             (first_request self (userContent, systemContent)
                                                            :: more)))).
    { rewrite Husage. unfold first_request. cbn [fst snd answers]. rewrite Hcall.
      reflexivity. }
    destruct r as [response'|e]; cbv beta match.
    + exec. rewrite apply_hook_call. exec.
      destruct (hooked (prompt_hook self afterCall) _) as [result|e] eqn:Hafter;
        cbv beta match.
      * exec. eapply post_run; [apply pi_emit_run|]. exec. cbn [calls].
        intros res [= <-].
        match type of Hafter with
        | hooked _ ?rec = _ =>
            exists pin, (first_request self (userContent, systemContent) :: more), rec
        end.
        splits; [reflexivity | exact Hcalls | exact (Hconv _ Hmore) | exact Htotal |].
        left. exact Hafter.
      * eapply post_conseq; [apply (Hcatch e l1 w1 _ Hcalls (Hconv _ Hmore) Htotal)|].
        intros r s' H res Hres. destruct (H res Hres) as (p & m & rec & Hp & Hrest).
        exists p, m, rec. split; [exact Hp | exact Hrest].
    + eapply post_conseq; [apply (Hcatch e l1 w1 _ Hcalls (Hconv _ Hmore) Htotal)|].
      intros r s' H res Hres. destruct (H res Hres) as (p & m & rec & Hp & Hrest).
      exists p, m, rec. split; [exact Hp | exact Hrest].
  - eapply post_conseq;
      [apply (Hcatch e (mkRunLocals emptyTokenUsage []) _
                     [first_request self (userContent, systemContent)]);
       [reflexivity | |]|].
    + apply Hconv. cbn [follow_ups]. unfold first_request. cbn [fst snd].
      intros r Hr. rewrite Hcall in Hr. discriminate Hr.
    + unfold first_request. cbn [fst snd answers totalUsage]. rewrite Hcall. reflexivity.
    + intros r s' H res Hres. destruct (H res Hres) as (p & m & rec & Hp & Hrest).
      exists p, m, rec. split; [exact Hp | exact Hrest].
Qed.

End Transcript.

Section Conversation.

Lemma tool_results_ids self blocks :
  forall nid results,
    tool_results self nid blocks = Ok results ->
    map tool_use_id results = tool_use_ids blocks.
Proof.
  induction blocks as [|[t|bid name input|ty] blocks IH]; intros nid results H;
    cbn [tool_results tool_use_ids] in *;
    [now inversion H | exact (IH _ _ H) | | exact (IH _ _ H)].
  destruct (block_text self nid name input) as [text|e]; [|discriminate H].
  cbn [and_then] in H.
  destruct (tool_results self (S nid) blocks) as [more|e] eqn:Hmore; [|discriminate H].
  cbn [and_then] in H. inversion H; subst results. cbn [map tool_use_id]. f_equal.
  exact (IH _ _ Hmore).
Qed.

Lemma takes_turns_more roles :
  takes_turns roles = true -> takes_turns (roles ++ [assistant; user]) = true.
Proof.
  assert (H : forall n roles, List.length roles <= n -> takes_turns roles = true ->
                              takes_turns (roles ++ [assistant; user]) = true).
  { induction n as [|n IH]; intros rs Hlen Hturns.
    - destruct rs; [discriminate Hturns | cbn in Hlen; lia].
    - destruct rs as [|[|] [|[|] rest]]; try discriminate Hturns; [reflexivity|].
      cbn [takes_turns app] in *. destruct rest as [|r rest]; [discriminate Hturns|].
      apply IH; [cbn [List.length] in *; lia | exact Hturns]. }
  apply (H (List.length roles)). lia.
Qed.

Lemma follow_ups_well_formed client self system more :
  forall n nid p,
    well_formed_request self system p ->
    follow_ups client self n nid p more ->
    Forall (well_formed_request self system) more.
Proof.
  induction more as [|p' more IH]; intros n nid p Hp Hmore; [constructor|].
  cbn [follow_ups] in Hmore. destruct Hmore as (r & results & _ & _ & _ & -> & Hrest).
  assert (Hp' : well_formed_request self system (next_request p r results)).
  { destruct Hp as (Hm & Ht & Hs & Hturns). unfold well_formed_request, next_request.
    cbn [mp_model max_tokens mp_system messages]. splits; auto.
    rewrite map_app. cbn [map role]. now apply takes_turns_more. }
  constructor; [exact Hp' | exact (IH _ _ _ Hp' Hrest)].
Qed.

Lemma accumulated_inputTokens us :
  forall total,
    inputTokens (accumulated total us) = (inputTokens total + Zsum (map inputTokens us))%Z.
Proof.
  unfold accumulated.
  induction us as [|u us IH]; intros total; cbn [fold_left map Zsum fold_right]; [lia|].
  rewrite IH. fold (Zsum (map inputTokens us)). cbn. lia.
Qed.

Lemma accumulated_outputTokens us :
  forall total,
    outputTokens (accumulated total us) = (outputTokens total + Zsum (map outputTokens us))%Z.
Proof.
  unfold accumulated.
  induction us as [|u us IH]; intros total; cbn [fold_left map Zsum fold_right]; [lia|].
  rewrite IH. fold (Zsum (map outputTokens us)). cbn. lia.
Qed.

Lemma accumulated_no_cache us :
  Forall (fun u => cacheCreationInputTokens u = None /\ cacheReadInputTokens u = None) us ->
  forall total,
    cacheCreationInputTokens total = None -> cacheReadInputTokens total = None ->
    cacheCreationInputTokens (accumulated total us) = None /\
    cacheReadInputTokens (accumulated total us) = None.
Proof.
  unfold accumulated.
  induction 1 as [|u us [Hc Hr] _ IH]; intros total Htc Htr; cbn [fold_left]; [auto|].
  apply IH; cbn; rewrite ?Htc, ?Htr, ?Hc, ?Hr; reflexivity.
Qed.

Lemma answers_sdk sdk requests :
  forall n,
    Forall (fun r => cacheCreationInputTokens (usage r) = None /\
                     cacheReadInputTokens (usage r) = None)
           (answers (new_AnthropicClient sdk) n requests).
Proof.
  induction requests as [|p requests IH]; intros n; cbn [answers]; [constructor|].
  cbn [new_AnthropicClient createMessage]. unfold AnthropicClient_createMessage.
  destruct (messages_create sdk n p); [constructor; [now split | apply IH] | apply IH].
Qed.

Lemma reported_plain self recorded res :
  prompt_hook self afterCall = None ->
  reported self recorded res ->
  pr_tokenUsage res = pr_tokenUsage recorded /\ pr_toolCalls res = pr_toolCalls recorded.
Proof.
  intros Hhook [H|(Hu & Ht & _)]; [|now split].
  rewrite Hhook in H. cbn in H. now inversion H; subst res.
Qed.

End Conversation.

(** [X8] The requests of a prompt execution form one conversation.
    When a template cannot be interpolated there is no request.  Otherwise
    the first request carries the interpolated user text as its only
    message; every further request follows an answer that asked for tools
    and repeats the request before it with two messages appended: that
    answer, and one user message holding a tool result for each tool-use
    block of the answer, in order and under the block's id.  The last
    request is the one that was rejected, or answered without a request for
    tools, or answered with a request for tools whose results could not be
    put together (the output of a tool cannot be serialized). *)
Theorem requests_extend_the_conversation fuel client self w res w' :
  PromptInstance_run fuel client self w = Some (Ok res, w') ->
  exists processedInput requests,
    hooked (prompt_hook self beforeCall) (pi_input self) = Ok processedInput /\
    calls w' = calls w ++ requests /\
    match run_texts self processedInput with
    | Ok texts =>
        exists more,
          requests = first_request self texts :: more /\
          follow_ups client self (List.length (calls w)) (nextId w)
                     (first_request self texts) more
    | Err _ => requests = []
    end /\
    forall nid blocks results,
      tool_results self nid blocks = Ok results ->
      map tool_use_id results = tool_use_ids blocks.
Proof.
  intros E.
  destruct (@PromptInstance_run_transcript client self fuel w _ _ E res eq_refl)
    as (pin & requests & recorded & Hpin & Hcalls & Hconv & _).
  exists pin, requests. splits; auto. intros nid blocks results. apply tool_results_ids.
Qed.

(** The sample instance against the scripted client: three requests, the
    first with the interpolated text. *)
Lemma requests_extend_the_conversation_witness :
  exists res w' second third,
    PromptInstance_run 3 scripted_client sample_instance initial_world = Some (Ok res, w') /\
    calls w' = [first_request sample_instance ("Hello World!", None); second; third] /\
    follow_ups scripted_client sample_instance 0 0
               (first_request sample_instance ("Hello World!", None)) [second; third].
Proof.
  assert (Hrun : exists res w' second third,
             PromptInstance_run 3 scripted_client sample_instance initial_world
             = Some (Ok res, w') /\
             calls w' = [first_request sample_instance ("Hello World!", None);
                         second; third])
    by (eexists _, _, _, _; split; vm_compute; reflexivity).
  destruct Hrun as (res & w' & second & third & E & Hthree).
  destruct (@requests_extend_the_conversation 3 scripted_client sample_instance
              initial_world res w' E) as (pin & requests & Hpin & Hcalls & Hconv & _).
  exists res, w', second, third. split; [exact E|]. split; [exact Hthree|].
  cbn in Hpin. inversion Hpin; subst pin.
  assert (Htexts : run_texts sample_instance (VObj [("name", VStr "World")])
                   = Ok ("Hello World!", None)) by (vm_compute; reflexivity).
  rewrite Htexts in Hconv. destruct Hconv as (more & Hreq & Hmore).
  rewrite Hcalls, Hreq in Hthree. cbn [calls initial_world app] in Hthree.
  inversion Hthree; subst more. exact Hmore.
Defined.

(** [X9] Every request of a prompt execution names the resolved model,
    asks for at most 4096 tokens and carries the same system prompt, and
    its messages take turns: the user speaks first and last, and user and
    assistant alternate. *)
Theorem requests_take_turns fuel client self w res w' :
  PromptInstance_run fuel client self w = Some (Ok res, w') ->
  exists processedInput requests,
    hooked (prompt_hook self beforeCall) (pi_input self) = Ok processedInput /\
    calls w' = calls w ++ requests /\
    Forall (fun p =>
              mp_model p = resolvedModel self /\ max_tokens p = 4096%Z /\
              system_content self (build_context processedInput) = Ok (mp_system p) /\
              takes_turns (map role (messages p)) = true) requests.
Proof.
  intros E.
  destruct (@PromptInstance_run_transcript client self fuel w _ _ E res eq_refl)
    as (pin & requests & recorded & Hpin & Hcalls & Hconv & _).
  exists pin, requests. splits; auto.
  unfold conversation in Hconv.
  destruct (run_texts self pin) as [[userContent systemContent]|e] eqn:Htexts;
    [|subst requests; constructor].
  destruct Hconv as (more & -> & Hmore).
  assert (Hsys : system_content self (build_context pin) = Ok systemContent).
  { unfold run_texts in Htexts. destruct (interpolate _ _); [|discriminate Htexts].
    cbn [and_then] in Htexts. destruct (system_content _ _); [|discriminate Htexts].
    now inversion Htexts. }
  assert (Hfirst : well_formed_request self systemContent
                                       (first_request self (userContent, systemContent))).
  { unfold well_formed_request, first_request. cbn. auto. }
  eapply Forall_impl;
    [|exact (Forall_cons _ Hfirst (follow_ups_well_formed _ _ _ _ Hfirst Hmore))].
  intros p (Hm & Ht & Hs & Hturns). rewrite Hs. auto.
Qed.

Lemma requests_take_turns_witness :
  exists res w' processedInput requests,
    PromptInstance_run 3 scripted_client sample_instance initial_world = Some (Ok res, w') /\
    calls w' = calls initial_world ++ requests /\
    Forall (fun p =>
              mp_model p = resolvedModel sample_instance /\ max_tokens p = 4096%Z /\
              system_content sample_instance (build_context processedInput)
              = Ok (mp_system p) /\
              takes_turns (map role (messages p)) = true) requests.
Proof.
  assert (Hrun : exists res w',
             PromptInstance_run 3 scripted_client sample_instance initial_world
             = Some (Ok res, w'))
    by (eexists _, _; vm_compute; reflexivity).
  destruct Hrun as (res & w' & E).
  destruct (@requests_take_turns 3 scripted_client sample_instance initial_world res w' E)
    as (pin & requests & _ & Hcalls & Hall).
  exists res, w', pin, requests. split; [exact E|]. split; [exact Hcalls | exact Hall].
Defined.

(** [X10] Without an [afterCall] hook, the token usage of a prompt result
    counts every answer received in the execution and nothing else: its
    input and output counts are the sums over the answers to the requests
    made, also when the execution ended in an error. *)
Theorem prompt_usage_sums_the_answers fuel client self w res w' :
  prompt_hook self afterCall = None ->
  PromptInstance_run fuel client self w = Some (Ok res, w') ->
  exists requests,
    calls w' = calls w ++ requests /\
    inputTokens (pr_tokenUsage res)
    = Zsum (map (fun r => inputTokens (usage r))
                (answers client (List.length (calls w)) requests)) /\
    outputTokens (pr_tokenUsage res)
    = Zsum (map (fun r => outputTokens (usage r))
                (answers client (List.length (calls w)) requests)).
Proof.
  intros Hhook E.
  destruct (@PromptInstance_run_transcript client self fuel w _ _ E res eq_refl)
    as (pin & requests & recorded & _ & Hcalls & _ & Husage & Hrep).
  destruct (reported_plain Hhook Hrep) as [Hres _].
  exists requests. split; [exact Hcalls|].
  rewrite Hres, Husage, accumulated_inputTokens, accumulated_outputTokens, !map_map.
  cbn [inputTokens outputTokens emptyTokenUsage]. split; reflexivity.
Qed.

Lemma prompt_usage_sums_the_answers_witness :
  exists res w' requests,
    PromptInstance_run 3 scripted_client sample_instance initial_world = Some (Ok res, w') /\
    calls w' = calls initial_world ++ requests /\
    inputTokens (pr_tokenUsage res)
    = Zsum (map (fun r => inputTokens (usage r)) (answers scripted_client 0 requests)).
Proof.
  assert (Hrun : exists res w',
             PromptInstance_run 3 scripted_client sample_instance initial_world
             = Some (Ok res, w'))
    by (eexists _, _; vm_compute; reflexivity).
  destruct Hrun as (res & w' & E).
  destruct (@prompt_usage_sums_the_answers 3 scripted_client sample_instance initial_world
              res w' eq_refl E) as (requests & Hcalls & Hin & _).
  exists res, w', requests. split; [exact E|]. split; [exact Hcalls | exact Hin].
Defined.

(** [X11] The client class passes on the input and output counts of the
    SDK's answer and nothing more, so with this client (and no [afterCall]
    hook) no prompt result ever reports cache token counts. *)
Theorem sdk_client_reports_no_cache_tokens fuel sdk self w res w' :
  prompt_hook self afterCall = None ->
  PromptInstance_run fuel (new_AnthropicClient sdk) self w = Some (Ok res, w') ->
  cacheCreationInputTokens (pr_tokenUsage res) = None /\
  cacheReadInputTokens (pr_tokenUsage res) = None.
Proof.
  intros Hhook E.
  destruct (@PromptInstance_run_transcript _ self fuel w _ _ E res eq_refl)
    as (pin & more & recorded & _ & _ & _ & Husage & Hrep).
  destruct (reported_plain Hhook Hrep) as [Hres _]. rewrite Hres, Husage.
  apply accumulated_no_cache; [|reflexivity|reflexivity].
  apply Forall_map. eapply Forall_impl; [|apply answers_sdk]. auto.
Qed.

Lemma sdk_client_reports_no_cache_tokens_witness :
  exists res w',
    PromptInstance_run 0 (new_AnthropicClient sample_sdk) sample_instance initial_world
    = Some (Ok res, w') /\
    cacheCreationInputTokens (pr_tokenUsage res) = None /\
    cacheReadInputTokens (pr_tokenUsage res) = None.
Proof.
  assert (Hrun : exists res w',
             PromptInstance_run 0 (new_AnthropicClient sample_sdk) sample_instance
                                initial_world = Some (Ok res, w'))
    by (eexists _, _; vm_compute; reflexivity).
  destruct Hrun as (res & w' & E). exists res, w'. split; [exact E|].
  exact (@sdk_client_reports_no_cache_tokens 0 sample_sdk sample_instance initial_world
           res w' eq_refl E).
Defined.

(** ** Tool calls that fail *)

(** [X14] Working through the tool-use blocks of an answer never calls
    the model, and it throws in one case only: [JSON.stringify] rejects the
    output of a handler (a BigInt).  Otherwise, and always when the handlers return
    outputs that can be serialized, every block gets one tool result under
    its own id, in order, and one tool-call record.  A failing tool is
    answered, not thrown: for a tool without handler the result sent back
    is the text ["Error: Unknown tool: <name>"], and for a handler that
    throws it is the error as a string, that is its name and its message
    (["TypeError: bad input"]), or the name alone when it has no message
    (["Error"]); the record carries the error. *)
Theorem tool_failures_are_answered (self : PromptInstance) :
  (forall blocks toolResults l w,
      exists r s',
        process_blocks self blocks toolResults (l, w) = Some (r, s') /\
        calls (snd s') = calls w /\
        match r with
        | Ok all =>
            exists results,
              all = toolResults ++ results /\
              map tool_use_id results = tool_use_ids blocks /\
              List.length (toolCalls (fst s')) = List.length (toolCalls l) + tool_uses blocks
        | Err e => e = not_serializable_error
        end) /\
  (serializable_tools (pi_toolHandlers self) ->
   forall blocks toolResults l w,
     exists results s',
       process_blocks self blocks toolResults (l, w) = Some (Ok (toolResults ++ results), s')) /\
  (forall id name input l w,
      assoc name (pi_toolHandlers self) = None ->
      exists s',
        process_blocks self [ToolUseBlock id name input] [] (l, w)
        = Some (Ok [mkToolResult id (ErrorText ("Error: Unknown tool: " ++ name))], s') /\
        toolCalls (fst s')
        = toolCalls l ++ [mkToolCall (IdGen (nextId w)) name input VUndefined
                                     (Some (JsError ("Unknown tool: " ++ name)))
                                     (pi_id self)]) /\
  (forall id name input l w handler e,
      assoc name (pi_toolHandlers self) = Some handler ->
      prompt_hook self onTool = None ->
      handler input = Err e ->
      exists s',
        process_blocks self [ToolUseBlock id name input] [] (l, w)
        = Some (Ok [mkToolResult id (ErrorText (String_error e))], s') /\
        toolCalls (fst s')
        = toolCalls l ++ [mkToolCall (IdGen (nextId w)) name input VUndefined (Some e)
                                     (pi_id self)]) /\
  String_error (JsError "boom") = "Error: boom" /\
  String_error (JsTypeError "bad input") = "TypeError: bad input" /\
  String_error (JsError "") = "Error".
Proof.
  assert (Hthrown : forall blocks n e,
             tool_results self n blocks = Err e -> e = not_serializable_error).
  { induction blocks as [|[t|bid name input|ty] blocks IH]; intros n e H;
      cbn [tool_results] in H; [discriminate H | exact (IH _ _ H) | | exact (IH _ _ H)].
    destruct (block_text self n name input) as [text|e'] eqn:Htext; cbn [and_then] in H.
    - destruct (tool_results self (S n) blocks) as [more|e'] eqn:Hmore;
        cbn [and_then] in H; [discriminate H|].
      inversion H; subst e'. exact (IH _ _ Hmore).
    - inversion H; subst e'. unfold block_text, tool_result_text in Htext.
      destruct (snd (call_tool self (IdGen n) name input)); [discriminate Htext|].
      unfold JSON_stringify in Htext.
      destruct (serializable _); [discriminate Htext | now inversion Htext]. }
  split; [|split; [|split; [|split; [|split; [|split]]]]]; try reflexivity.
  - intros blocks toolResults l w. rewrite process_blocks_run.
    eexists _, _. split; [reflexivity|]. cbn [fst snd toolCalls calls].
    split; [reflexivity|].
    destruct (tool_results self (nextId w) blocks) as [results|e] eqn:Hresults;
      cbn [and_then]; [|exact (Hthrown _ _ _ Hresults)].
    exists results. split; [reflexivity|].
    split; [exact (tool_results_ids _ _ _ Hresults)|].
    rewrite (@handled_results self _ _ _ Hresults), length_app. f_equal.
    generalize (nextId w). clear Hresults.
    induction blocks as [|[t|bid name input|ty] blocks IH]; intros n;
      cbn [tool_records tool_uses List.length]; auto.
  - intros Hser blocks toolResults l w. rewrite process_blocks_run.
    destruct (@tool_results_ok self blocks Hser (nextId w)) as [results ->].
    cbn [and_then]. eexists _, _. reflexivity.
  - intros id name input l w Hnone. rewrite process_blocks_run.
    cbn [tool_results handled]. unfold block_text, call_tool. rewrite Hnone.
    cbn [fst snd tool_result_text and_then tool_records app].
    unfold call_tool. rewrite Hnone.
    eexists. split; reflexivity.
  - intros id name input l w handler e Hsome Hhook Hthrow. rewrite process_blocks_run.
    cbn [tool_results handled]. unfold block_text, call_tool. rewrite Hsome, Hhook, Hthrow.
    cbn [fst snd tool_result_text and_then tool_records app].
    unfold call_tool. rewrite Hsome, Hhook, Hthrow.
    eexists. split; reflexivity.
Qed.

Lemma tool_failures_are_answered_witness :
  exists s',
    process_blocks sample_instance [ToolUseBlock "toolu_1" "unknown" (VObj [])] []
                   (mkRunLocals emptyTokenUsage [], initial_world)
    = Some (Ok [mkToolResult "toolu_1" (ErrorText "Error: Unknown tool: unknown")], s').
Proof.
  destruct (proj1 (proj2 (proj2 (tool_failures_are_answered sample_instance)))
                  "toolu_1" "unknown" (VObj []) (mkRunLocals emptyTokenUsage [])
                  initial_world eq_refl) as (s' & E & _).
  exists s'. exact E.
Defined.

(** ** Events of a stream *)

Section StreamEvents.

Variable client : AnthropicClient.
Variable self : PromptInstance.

Lemma stream_body_events processedInput w :
  post (with_locals (mkStreamLocals emptyTokenUsage EmptyString [])
          (try_catch (stream_try client self processedInput) (stream_catch self) ;;;
           l <- locals ;;
           ret (yielded l))) w
    (fun r w' =>
       exists ys tokens res,
         r = Ok ys /\ ys = map YToken tokens ++ [YResult res] /\
         events w' = events w ++ published self
                       (map (promptTokenReceived (pi_id self)) tokens
                        ++ [promptInstanceEnd (pi_id self) (pc_name (pi_config self)) res
                              (pr_tokenUsage res)]) /\
         calls w' = calls w /\ nextId w' = nextId w).
Proof.
  assert (Hend : forall l w1 tokens res,
             yielded l = map YToken tokens ++ [YResult res] ->
             events w1 = events w ++ published self
                           (map (promptTokenReceived (pi_id self)) tokens
                            ++ [promptInstanceEnd (pi_id self) (pc_name (pi_config self)) res
                                  (pr_tokenUsage res)]) ->
             calls w1 = calls w -> nextId w1 = nextId w ->
             post (l0 <- locals ;; ret (yielded l0)) (l, w1)
               (fun r s' =>
                  exists ys tokens res,
                    r = Ok ys /\ ys = map YToken tokens ++ [YResult res] /\
                    events (snd s') = events w ++ published self
                       (map (promptTokenReceived (pi_id self)) tokens
                        ++ [promptInstanceEnd (pi_id self) (pc_name (pi_config self)) res
                              (pr_tokenUsage res)]) /\
                    calls (snd s') = calls w /\ nextId (snd s') = nextId w)).
  { intros l w1 tokens res Hy Hev Hcalls Hid. exec. cbn [fst snd].
    exists (yielded l), tokens, res. auto. }
  assert (Hcatch : forall err l w1 tokens,
             yielded l = map YToken tokens ->
             events w1 = events w ++ published self
                           (map (promptTokenReceived (pi_id self)) tokens) ->
             calls w1 = calls w -> nextId w1 = nextId w ->
             post (stream_catch self err) (l, w1)
               (fun r s1 =>
                  match r with
                  | Ok _ =>
                      post (l0 <- locals ;; ret (yielded l0)) s1
                        (fun r s' =>
                           exists ys tokens res,
                             r = Ok ys /\ ys = map YToken tokens ++ [YResult res] /\
                             events (snd s') = events w ++ published self
                               (map (promptTokenReceived (pi_id self)) tokens
                                ++ [promptInstanceEnd (pi_id self) (pc_name (pi_config self))
                                      res (pr_tokenUsage res)]) /\
                             calls (snd s') = calls w /\ nextId (snd s') = nextId w)
                  | Err _ => False
                  end)).
  { intros err l w1 tokens Hy Hev Hcalls Hid.
    eapply post_run; [apply stream_catch_run|]. cbv zeta.
    eapply Hend; cbn [yielded events calls nextId]; [now rewrite Hy | | auto | auto].
    now rewrite Hev, <- app_assoc, <- published_app. }
  assert (Hfail : forall err l w1 tokens Q,
             yielded l = map YToken tokens ->
             events w1 = events w ++ published self
                           (map (promptTokenReceived (pi_id self)) tokens) ->
             calls w1 = calls w -> nextId w1 = nextId w ->
             post (stream_catch self err) (l, w1)
               (fun r s1 =>
                  match r with
                  | Ok _ =>
                      post (l0 <- locals ;; ret (yielded l0)) s1
                        (fun r s' =>
                           exists ys tokens res,
                             r = Ok ys /\ ys = map YToken tokens ++ [YResult res] /\
                             events (snd s') = events w ++ published self
                               (map (promptTokenReceived (pi_id self)) tokens
                                ++ [promptInstanceEnd (pi_id self) (pc_name (pi_config self))
                                      res (pr_tokenUsage res)]) /\
                             calls (snd s') = calls w /\ nextId (snd s') = nextId w)
                  | Err e => Q e s1
                  end)).
  { intros err l w1 tokens Q Hy Hev Hcalls Hid.
    eapply post_conseq; [apply (Hcatch err l w1 tokens Hy Hev Hcalls Hid)|].
    intros [u|e] s' H; [exact H | contradiction]. }
  apply post_with_locals, post_bind, post_try_catch.
  apply post_stream_try; [intros userContent systemContent Htexts | intros e Htexts].
  2:{ apply (Hfail e _ _ []); cbn [yielded map]; try reflexivity.
      unfold published. destruct (pi_eventObservable self); now rewrite app_nil_r. }
  unfold stream_calls. exec.
  destruct (createMessageStream client _) as [stream|e] eqn:Hstream; cbv beta match.
  - exec. eapply post_run; [apply stream_loop_run|]. exec.
    cbn [s_totalUsage fullContent yielded app events calls nextId].
    destruct (stream_failure stream) as [err|].
    + exec. apply (Hfail err _ _ (text_deltas (stream_events stream)));
        cbn [yielded events calls nextId]; reflexivity.
    + exec. destruct (finalMessage stream) as [final|e]; cbv beta match.
      * exec. cbn [s_totalUsage fullContent yielded]. rewrite apply_hook_call. exec.
        destruct (hooked (prompt_hook self afterCall) _) as [finalResult|e];
          cbv beta match.
        -- exec. eapply post_run; [apply pi_emit_run|]. exec. unfold yield. exec.
           cbn [fst snd yielded events calls nextId app].
           eexists _, (text_deltas (stream_events stream)), finalResult.
           split; [reflexivity|]. split; [reflexivity|].
           split; [now rewrite <- app_assoc, <- published_app | auto].
        -- apply (Hfail e _ _ (text_deltas (stream_events stream)));
             cbn [yielded events calls nextId]; reflexivity.
      * apply (Hfail e _ _ (text_deltas (stream_events stream)));
          cbn [yielded events calls nextId]; reflexivity.
  - apply (Hfail e _ _ []); cbn [yielded map]; try reflexivity.
    unfold published. destruct (pi_eventObservable self); now rewrite app_nil_r.
Qed.

End StreamEvents.

(** [X15] A drained stream has published, between the start and the end
    event of the prompt, one token event for each token it yielded, in
    order, and its end event carries the result it yielded last.
    Streaming makes no non-streaming model call and generates no tool id:
    tools are neither offered nor run. *)
Theorem stream_events_mirror_yields client self w ys w' :
  PromptInstance_runStreaming client self w = Some (Ok ys, w') ->
  exists processedInput evs,
    hooked (prompt_hook self beforeCall) (pi_input self) = Ok processedInput /\
    events w' = events w ++ evs /\
    stream_published self processedInput ys evs /\
    calls w' = calls w /\ nextId w' = nextId w.
Proof.
  unfold PromptInstance_runStreaming. rewrite apply_hook_call. intros E.
  destruct (hooked (prompt_hook self beforeCall) (pi_input self)) as [pin|e] eqn:Hbefore.
  - unfold bind at 1 in E. cbn [call] in E. unfold bind at 1 in E.
    rewrite pi_emit_run in E.
    destruct (@stream_body_events client self pin _ _ _ E)
      as (ys' & tokens & res & Hys & -> & Hev & Hcalls & Hid).
    inversion Hys; subst ys. cbn [events calls nextId] in Hev, Hcalls, Hid.
    exists pin. eexists. split; [reflexivity|].
    rewrite Hev, <- app_assoc, <- published_app. split; [reflexivity|].
    split; [|auto]. exists tokens, res. split; reflexivity.
  - unfold bind at 1 in E. cbn [call] in E. discriminate E.
Qed.

Lemma stream_events_mirror_yields_witness :
  exists ys w' processedInput evs,
    PromptInstance_runStreaming broken_stream_client sample_instance initial_world
    = Some (Ok ys, w') /\
    events w' = events initial_world ++ evs /\
    stream_published sample_instance processedInput ys evs.
Proof.
  assert (Hrun : exists ys w',
             PromptInstance_runStreaming broken_stream_client sample_instance initial_world
             = Some (Ok ys, w'))
    by (eexists _, _; vm_compute; reflexivity).
  destruct Hrun as (ys & w' & E).
  destruct (@stream_events_mirror_yields broken_stream_client sample_instance initial_world
              ys w' E) as (pin & evs & _ & Hev & Hpub & _).
  exists ys, w', pin, evs. split; [exact E|]. split; [exact Hev | exact Hpub].
Defined.

(** ** What an agent result accounts for *)

Section AgentResults.

Variable fuel : nat.
Variable client : AnthropicClient.
Variable self : Agent.

Lemma post_all {S A} (m : M S A) s (Q : Res A -> S -> Prop) :
  (forall r s', Q r s') -> post m s Q.
Proof. intros H r s' _. apply H. Qed.

Lemma count_gt_exhausted attempts_ count x :
  count_le attempts_ x = true -> count_le (S attempts_) x = false ->
  attempts_ <= count -> count_gt (S count) x = true.
Proof.
  destruct x as [z| | |]; cbn [count_le count_gt]; try discriminate.
  intros _ H Hle. apply Z.leb_gt in H. apply Z.ltb_lt. lia.
Qed.

(** A retry loop leaves the results alone; what it returns with an error
    has used up the retries. *)
Lemma retry_loop_exhausted promptConfig promptInput budget :
  forall attempts_ result s,
    attempts_ <= l_retryCount (fst s) ->
    post (retry_loop budget fuel client self promptConfig promptInput attempts_ result) s
      (fun r s' =>
         l_promptResults (fst s') = l_promptResults (fst s) /\
         forall o, r = Ok o -> count_le attempts_ (max_retries self) = true ->
           exists res, o = Some res /\
                       (has_error res = true ->
                        count_gt (l_retryCount (fst s')) (max_retries self) = true)).
Proof.
  induction budget as [|budget IH]; intros attempts_ result s Hcount; cbn [retry_loop];
    destruct (count_le attempts_ (max_retries self)) eqn:Hle.
  - apply post_diverge.
  - exec. split; [reflexivity|]. intros o _ Hlt. discriminate Hlt.
  - exec. destruct (resolveModel self (pc_model promptConfig)) as [model|e];
      cbv beta match; [|split; [reflexivity | discriminate]].
    exec. apply post_all. intros [inst|e] w1; [|split; [reflexivity | discriminate]].
    exec. apply post_all. intros [res|e] w2; [|split; [reflexivity | discriminate]].
    cbv beta match. destruct (pr_error res) as [err|] eqn:Herr.
    + exec. rewrite notify_hook_call. exec.
      destruct (notified (agent_hook self onError) err) as [[]|e]; cbv beta match;
        [|cbn [fst l_promptResults]; split; [reflexivity | discriminate]].
      assert (Hnext : forall w3,
                 post (if count_le (S attempts_) (max_retries self)
                       then retry_loop budget fuel client self promptConfig promptInput
                                       (S attempts_) (Some res)
                       else ret (Some res))
                      (mkAgentLocals (l_promptResults (fst s)) (S (l_retryCount (fst s)))
                                     (l_reflectionMetadata (fst s)), w3)
                   (fun r s' =>
                      l_promptResults (fst s') = l_promptResults (fst s) /\
                      forall o, r = Ok o -> true = true ->
                        exists res0, o = Some res0 /\
                          (has_error res0 = true ->
                           count_gt (l_retryCount (fst s')) (max_retries self) = true))).
      { intros w3. destruct (count_le (S attempts_) (max_retries self)) eqn:Hle2.
        - eapply post_conseq; [apply IH; cbn [fst l_retryCount]; lia|].
          cbn [fst l_promptResults]. intros r s' [Hres Hret]. split; [exact Hres|].
          intros o Ho _. apply (Hret o Ho). rewrite Hle2. reflexivity.
        - exec. cbn [fst l_promptResults l_retryCount]. split; [reflexivity|].
          intros o [= <-] _. exists res. split; [reflexivity|]. intros _.
          exact (count_gt_exhausted _ Hle Hle2 Hcount). }
      exec. destruct (reflection_enabled self && count_le (S attempts_) (max_retries self)).
      * exec. apply post_all. intros [rres|e] w3; cbn [fst snd];
          [|split; [reflexivity | discriminate]].
        cbv beta match. destruct (pr_error rres) as [rerr|] eqn:Hrerr.
        -- exec. apply Hnext.
        -- exec. cbn [fst l_promptResults]. split; [reflexivity|].
           intros o [= <-] _. exists rres. split; [reflexivity|].
           unfold has_error. rewrite Hrerr. discriminate.
      * exec. apply Hnext.
    + exec. split; [reflexivity|]. intros o [= <-] _. exists res. split; [reflexivity|].
      unfold has_error. rewrite Herr. discriminate.
  - exec. split; [reflexivity|]. intros o _ Hlt. discriminate Hlt.
Qed.

(** A retry loop that is not entered returns no result. *)
Lemma retry_loop_not_entered promptConfig promptInput budget s :
  count_le 0 (max_retries self) = false ->
  retry_loop budget fuel client self promptConfig promptInput 0 None s = Some (Ok None, s).
Proof. intros H. destruct budget; cbn [retry_loop]; rewrite H; reflexivity. Qed.

Hypothesis Hafter : agent_hook self afterPrompt = None.

(** The loop over the prompts adds at most one result per prompt, and only
    the last one added can carry an error. *)
Lemma prompts_loop_results processedInput ps :
  forall s,
    post (prompts_loop fuel client self processedInput ps) s
      (fun r s' =>
         exists added,
           l_promptResults (fst s') = l_promptResults (fst s) ++ added /\
           List.length added <= List.length ps /\
           Forall (fun res => has_error res = false) (removelast added) /\
           (count_le 0 (max_retries self) = true ->
            r = Ok tt -> Forall (fun res => has_error res = false) added ->
            List.length added = List.length ps) /\
           (count_le 0 (max_retries self) = false -> added = [])).
Proof.
  induction ps as [|promptConfig ps IH]; intros s; cbn [prompts_loop].
  - exec. exists []. rewrite app_nil_r. splits; auto.
  - assert (Hnone : exists added,
               l_promptResults (fst s) = l_promptResults (fst s) ++ added /\
               List.length added <= List.length (promptConfig :: ps) /\
               Forall (fun res => has_error res = false) (removelast added)).
    { exists []. rewrite app_nil_r. cbn. splits; auto; lia. }
    rewrite Hafter.
    assert (Hloop : forall promptInput,
               post (result <- retry_loop (retry_turns fuel (max_retries self)) fuel client self promptConfig
                                          promptInput 0 None ;;
                     result <- match result with
                               | Some _ => ret result
                               | None => ret result
                               end ;;
                     match result with
                     | Some r => set_locals (fun l => mkAgentLocals (l_promptResults l ++ [r])
                                                        (l_retryCount l) (l_reflectionMetadata l))
                     | None => ret tt
                     end ;;;
                     l <- locals ;;
                     if match result with Some r => has_error r | None => false end
                        && count_gt (l_retryCount l) (max_retries self)
                     then ret tt
                     else prompts_loop fuel client self processedInput ps) s
                 (fun r s' =>
                    exists added,
                      l_promptResults (fst s') = l_promptResults (fst s) ++ added /\
                      List.length added <= List.length (promptConfig :: ps) /\
                      Forall (fun res => has_error res = false) (removelast added) /\
                      (count_le 0 (max_retries self) = true ->
                       r = Ok tt -> Forall (fun res => has_error res = false) added ->
                       List.length added = List.length (promptConfig :: ps)) /\
                      (count_le 0 (max_retries self) = false -> added = []))).
    { intros promptInput. exec.
      destruct (count_le 0 (max_retries self)) eqn:Hentered.
      2:{ eapply post_run; [apply retry_loop_not_entered; exact Hentered|].
          exec. cbn [andb]. eapply post_conseq; [apply IH|].
          intros r s2 (added & Hadd & Hlen & Hlast & _ & Hempty).
          exists added. splits; auto; [cbn [List.length]; lia | discriminate]. }
      eapply post_conseq; [apply retry_loop_exhausted; lia|].
      intros [o|e] s1 [Hres Hret]; cbv beta match.
      - destruct (Hret o eq_refl Hentered) as (res & -> & Hused).
        exec. cbn [fst snd l_promptResults l_retryCount].
        destruct (has_error res) eqn:Herr; cbn [andb].
        + rewrite Hused by reflexivity. exec.
          cbn [fst l_promptResults]. exists [res]. rewrite Hres. cbn.
          splits; auto; try lia; try discriminate.
          intros _ _ Hall. inversion Hall; subst. congruence.
        + eapply post_conseq; [apply IH|]. cbn [fst l_promptResults].
          intros r s2 (added & Hadd & Hlen & Hlast & Hfull & _).
          exists (res :: added). rewrite Hadd, Hres, <- app_assoc. split; [reflexivity|].
          split; [cbn; lia|]. split; [|split; [|discriminate]].
          * destruct added as [|a added]; [constructor|].
            change (removelast (res :: a :: added)) with (res :: removelast (a :: added)).
            constructor; [exact Herr | exact Hlast].
          * intros _ Hr Hall. inversion Hall; subst. cbn [List.length]. f_equal. auto.
      - destruct Hnone as (added & Ha & Hl & Hf). exists []. rewrite Hres, app_nil_r.
        cbn. splits; auto; try lia; discriminate. }
    apply post_bind. destruct (agent_hook self beforePrompt) as [hook|].
    + apply post_call. destruct (hook promptConfig processedInput) as [promptInput|e];
        [apply Hloop|].
      exists []. rewrite app_nil_r. cbn. splits; auto; try lia; discriminate.
    + apply post_ret, Hloop.
Qed.

Hypothesis HafterRun : agent_hook self afterRun = None.

Lemma first_error_none rs :
  first_error rs = None -> Forall (fun r => has_error r = false) rs.
Proof.
  unfold first_error. induction rs as [|r rs IH]; cbn [find]; [constructor|].
  destruct (has_error r) eqn:Hr.
  - intros H. unfold has_error in Hr. rewrite H in Hr. discriminate Hr.
  - intros H. constructor; [exact Hr | exact (IH H)].
Qed.

Lemma Agent_run_results input w :
  post (Agent_run fuel client self input) w
    (fun r _ =>
       forall res, r = Ok res ->
         List.length (promptResults res) <= List.length (prompts (config self)) /\
         Forall (fun r => has_error r = false) (removelast (promptResults res)) /\
         (ar_error res = None ->
          Forall (fun r => has_error r = false) (promptResults res) /\
          (count_le 0 (max_retries self) = true ->
           List.length (promptResults res) = List.length (prompts (config self)))) /\
         (count_le 0 (max_retries self) = false -> promptResults res = []) /\
         ar_tokenUsage res = aggregateTokenUsage (map pr_tokenUsage (promptResults res))).
Proof.
  unfold Agent_run. rewrite apply_hook_call. exec.
  destruct (hooked (agent_hook self beforeRun) input) as [processedInput|e];
    cbv beta match; [|discriminate].
  exec. unfold agent_try. exec.
  eapply post_conseq; [apply prompts_loop_results; exact Hafter|].
  cbn [fst l_promptResults app].
  intros r s1 (added & Hadd & Hlen & Hlast & Hfull & Hempty).
  assert (Hcatch : forall err,
             post (agent_catch self err) s1
               (fun r s' =>
                  forall res, r = Ok res ->
                    List.length (promptResults res) <= List.length (prompts (config self)) /\
                    Forall (fun r => has_error r = false) (removelast (promptResults res)) /\
                    (ar_error res = None ->
                     Forall (fun r => has_error r = false) (promptResults res) /\
                     (count_le 0 (max_retries self) = true ->
                      List.length (promptResults res)
                      = List.length (prompts (config self)))) /\
                    (count_le 0 (max_retries self) = false -> promptResults res = []) /\
                    ar_tokenUsage res
                    = aggregateTokenUsage (map pr_tokenUsage (promptResults res)))).
  { intros err. unfold agent_catch. rewrite notify_hook_call. exec.
    destruct (notified (agent_hook self onError) err) as [[]|e]; cbv beta match;
      [|discriminate].
    exec. intros res [= <-]. cbn [promptResults ar_error ar_tokenUsage]. rewrite Hadd.
    splits; auto. discriminate. }
  destruct r as [[]|e]; cbv beta match; [|apply Hcatch].
  exec. rewrite HafterRun. cbn [apply_hook]. exec.
  intros res [= <-]. cbn [promptResults ar_error ar_tokenUsage]. rewrite Hadd.
  splits; auto. intros Hnone. apply first_error_none in Hnone.
  split; [exact Hnone | intros Hentered; apply Hfull; auto].
Qed.

End AgentResults.

(** [X16] An agent adds up its prompts one result each (no [afterPrompt]
    or [afterRun] hook being configured): the result holds at most one
    prompt result per configured prompt, in order; only the last of them can
    carry an error, so the agent stops at the first prompt that fails for
    good; in a result without error no prompt result carries one, and,
    where [0 <= maxRetries] holds, so that the retry loop is entered, there
    is a result for every prompt; the token usage reported is the aggregate
    over the prompt results listed, in the result returned from the [catch]
    block as well.  Where [0 <= maxRetries] fails ([maxRetries] is negative
    or [NaN]), no prompt is executed and the result lists none. *)
Theorem agent_result_accounts_for_prompts fuel client self input w res w' :
  agent_hook self afterPrompt = None ->
  agent_hook self afterRun = None ->
  Agent_run fuel client self input w = Some (Ok res, w') ->
  List.length (promptResults res) <= List.length (prompts (config self)) /\
  Forall (fun r => has_error r = false) (removelast (promptResults res)) /\
  (ar_error res = None ->
   Forall (fun r => has_error r = false) (promptResults res) /\
   (count_le 0 (max_retries self) = true ->
    List.length (promptResults res) = List.length (prompts (config self)))) /\
  (count_le 0 (max_retries self) = false -> promptResults res = []) /\
  ar_tokenUsage res = aggregateTokenUsage (map pr_tokenUsage (promptResults res)).
Proof.
  intros Hafter HafterRun E.
  exact (@Agent_run_results fuel client self Hafter HafterRun input w _ _ E res eq_refl).
Qed.

(** Two prompts against the mock client: a result for each, the first
    without error. *)
Lemma agent_result_accounts_for_prompts_witness :
  exists res w' r1 r2,
    Agent_run 0 mock_client
              (sample_agent sample_model [plain_prompt "first" "Hello"; plain_prompt "second" "Hi"]
                            None)
              (VObj []) initial_world = Some (Ok res, w') /\
    promptResults res = [r1; r2] /\
    Forall (fun r => has_error r = false) [r1] /\
    List.length (promptResults res) = 2.
Proof.
  assert (Hrun : exists res w' r1 r2,
             Agent_run 0 mock_client
               (sample_agent sample_model
                             [plain_prompt "first" "Hello"; plain_prompt "second" "Hi"] None)
               (VObj []) initial_world = Some (Ok res, w') /\
             promptResults res = [r1; r2] /\ ar_error res = None)
    by (eexists _, _, _, _; split; [vm_compute; reflexivity | split; reflexivity]).
  destruct Hrun as (res & w' & r1 & r2 & E & Hres & Hnone).
  destruct (@agent_result_accounts_for_prompts 0 mock_client
              (sample_agent sample_model
                            [plain_prompt "first" "Hello"; plain_prompt "second" "Hi"] None)
              (VObj []) initial_world res w' eq_refl eq_refl E)
    as (_ & Hlast & Hfull & _).
  exists res, w', r1, r2. split; [exact E|]. split; [exact Hres|].
  rewrite Hres in Hlast. split; [exact Hlast|].
  exact (proj2 (Hfull Hnone) eq_refl).
Defined.

(** ** What a workflow result accounts for *)

Section WorkflowUsage.

Variable fuel : nat.
Variable self : AgentWorkflow.

Lemma fold_usage rs :
  forall total,
    fold_left (fun t a => aggregateTokenUsage [t; ar_tokenUsage a]) rs total
    = accumulated total (map ar_tokenUsage rs).
Proof.
  unfold accumulated. induction rs as [|a rs IH]; intros total; cbn [fold_left map];
    [reflexivity | apply IH].
Qed.

Lemma accounted_step srs u sr :
  accounted srs u ->
  accounted (srs ++ [sr])
            (fold_left (fun t a => aggregateTokenUsage [t; ar_tokenUsage a])
                       (agentResults sr) u).
Proof.
  intros [Hin Hout]. unfold accounted.
  rewrite fold_usage, accumulated_inputTokens, accumulated_outputTokens, Hin, Hout.
  rewrite flat_map_app. cbn [flat_map]. rewrite app_nil_r, !map_app, !Zsum_app, !map_map.
  split; reflexivity.
Qed.

Lemma steps_loop_usage input sts :
  forall s,
    accounted (l_stepResults (fst s)) (l_totalUsage (fst s)) ->
    post (steps_loop fuel self input sts) s
      (fun r s' =>
         accounted (l_stepResults (fst s')) (l_totalUsage (fst s')) /\
         forall res, r = Ok res -> accounted (stepResults res) (wr_tokenUsage res)).
Proof.
  induction sts as [|step sts IH]; intros s Hs; cbn [steps_loop].
  - exec. cbn [fst]. split; [exact Hs|]. intros res [= <-]. exact Hs.
  - exec. apply post_all. intros [sr|e] w1; cbn [fst snd]; [|split; [exact Hs | discriminate]].
    exec. cbn [fst snd l_stepResults l_totalUsage].
    pose proof (accounted_step sr Hs) as Hnext.
    destruct (step_error (agentResults sr)) as [stepError|].
    + exec. cbn [fst l_stepResults l_totalUsage]. split; [exact Hnext|].
      intros res [= <-]. exact Hnext.
    + apply IH. exact Hnext.
Qed.

Lemma Workflow_run_usage input w :
  post (Workflow_run fuel self input) w
    (fun r _ => exists res, r = Ok res /\ accounted (stepResults res) (wr_tokenUsage res)).
Proof.
  unfold Workflow_run. exec.
  eapply post_conseq; [apply steps_loop_usage; split; reflexivity|].
  intros [res|e] s1 [Hs Hres]; cbv beta match.
  - exists res. split; [reflexivity | now apply Hres].
  - exec. eexists. split; [reflexivity | exact Hs].
Qed.

End WorkflowUsage.

(** *** Termination of a workflow run *)

Section WorkflowReturns.

Variable fuel : nat.
Variable self : AgentWorkflow.

Hypothesis Hsettles : always_settles (wf_client self) fuel.

Lemma returns_new_Agent cfg parent handlers w (Q : Res Agent -> World -> Prop) :
  (forall id hs w', Q (Ok (mkAgent id cfg parent hs)) w') ->
  returns (new_Agent cfg parent handlers) w Q.
Proof.
  intros H. unfold new_Agent, id_or_fresh. destruct (ac_id cfg); exec; apply H.
Qed.

Lemma agents_loop_returns input cfgs :
  (forall cfg, In cfg cfgs -> maxRetries cfg <> Some PosInfinity) ->
  forall results w,
    returns (agents_loop fuel self input cfgs results) w (fun _ _ => True).
Proof.
  induction cfgs as [|cfg cfgs IH]; intros Hbounded results w; cbn [agents_loop];
    [now exec|].
  exec. apply returns_new_Agent. intros id hs w1. exec.
  eapply returns_conseq; [apply Agent_run_returns; [exact Hsettles|]|].
  - unfold max_retries. cbn [config].
    destruct (maxRetries cfg) as [x|] eqn:E; [|discriminate].
    intros ->. apply (Hbounded cfg); [now left | exact E].
  - intros [res|e] w2 _; [|exact I]. cbv beta match.
    destruct (agent_failed res); [now exec|].
    apply IH. intros cfg' Hin. apply Hbounded. now right.
Qed.

Lemma steps_loop_returns input sts :
  (forall step cfg, In step sts -> In cfg (agents step) ->
                    maxRetries cfg <> Some PosInfinity) ->
  forall s, returns (steps_loop fuel self input sts) s (fun _ _ => True).
Proof.
  induction sts as [|step sts IH]; intros Hbounded s; cbn [steps_loop]; [now exec|].
  exec. unfold executeStep. exec.
  apply returns_any;
    [apply agents_loop_returns; intros cfg Hin; apply (Hbounded step); [now left | exact Hin]|].
  intros [rs|e] w1; [|exact I]. exec. cbn [agentResults].
  destruct (step_error rs); [now exec|].
  apply IH. intros step' cfg Hin. apply Hbounded. now right.
Qed.

(** A workflow run ends with a result. *)
Lemma Workflow_run_returns input w :
  bounded_retries self ->
  returns (Workflow_run fuel self input) w (fun r _ => is_Ok r = true).
Proof.
  intros Hbounded. unfold Workflow_run. exec.
  eapply returns_conseq; [apply steps_loop_returns; exact Hbounded|].
  intros [res|e] s1 _; cbv beta match; [reflexivity|]. now exec.
Qed.

End WorkflowReturns.

(** [X17] A workflow run does not throw: what it returns is a result, and
    the token usage of that result adds up what its agents reported: its
    input and output counts are the sums of the counts of all agent results
    of all step results listed, however the run ended (completed, failed at
    a step, or caught an exception).  And the run does return: it ends with
    a result whenever the model stops asking for tools within the fuel of
    the tool loops and no agent is configured with [maxRetries: Infinity]. *)
Theorem workflow_usage_sums_the_agents fuel self input w :
  (forall r w',
      Workflow_run fuel self input w = Some (r, w') ->
      exists res,
        r = Ok res /\
        inputTokens (wr_tokenUsage res)
        = Zsum (map (fun a => inputTokens (ar_tokenUsage a))
                    (flat_map agentResults (stepResults res))) /\
        outputTokens (wr_tokenUsage res)
        = Zsum (map (fun a => outputTokens (ar_tokenUsage a))
                    (flat_map agentResults (stepResults res)))) /\
  (always_settles (wf_client self) fuel ->
   bounded_retries self ->
   exists res w', Workflow_run fuel self input w = Some (Ok res, w')).
Proof.
  split.
  - intros r w' E.
    destruct (@Workflow_run_usage fuel self input w _ _ E) as (res & -> & Hin & Hout).
    exists res. auto.
  - intros Hsettles Hbounded.
    destruct (@Workflow_run_returns fuel self Hsettles input w Hbounded)
      as ([res|e] & w' & E & Hok); [|discriminate Hok].
    now exists res, w'.
Qed.

(** Two steps against the mock client, which never asks for tools: the
    run returns, and the usage of its result is the sum over its agents. *)
Lemma workflow_usage_sums_the_agents_witness :
  exists res w',
    Workflow_run 0 (two_step_workflow mock_client sample_model
                                      (plain_agent "a1") (plain_agent "a2"))
                 (VObj []) initial_world = Some (Ok res, w') /\
    inputTokens (wr_tokenUsage res)
    = Zsum (map (fun a => inputTokens (ar_tokenUsage a))
                (flat_map agentResults (stepResults res))).
Proof.
  assert (Hsettles : always_settles mock_client 0).
  { intros n. exists 0. split; [lia|]. intros params response E.
    cbn in E. inversion E. reflexivity. }
  assert (Hbounded : bounded_retries (two_step_workflow mock_client sample_model
                                        (plain_agent "a1") (plain_agent "a2"))).
  { intros step cfg Hstep Hcfg. cbn in Hstep.
    destruct Hstep as [<-|[<-|[]]]; cbn in Hcfg; destruct Hcfg as [<-|[]]; discriminate. }
  destruct (proj2 (workflow_usage_sums_the_agents 0
                     (two_step_workflow mock_client sample_model
                                        (plain_agent "a1") (plain_agent "a2"))
                     (VObj []) initial_world) Hsettles Hbounded) as (res & w' & E).
  destruct (proj1 (workflow_usage_sums_the_agents 0
                     (two_step_workflow mock_client sample_model
                                        (plain_agent "a1") (plain_agent "a2"))
                     (VObj []) initial_world) _ _ E) as (res' & Hr & Hin & _).
  inversion Hr; subst res'. exists res, w'. split; [exact E | exact Hin].
Defined.

(** ** Registered tools *)

Section Handlers.

Lemma assoc_Map_set_same name h (m : HandlerMap) : assoc name (Map_set name h m) = Some h.
Proof.
  induction m as [|[k h'] rest IH]; cbn [Map_set assoc].
  - now rewrite String.eqb_refl.
  - destruct (String.eqb k name) eqn:E; cbn [assoc]; rewrite E; [reflexivity | exact IH].
Qed.

Lemma assoc_Map_set_other k name h (m : HandlerMap) :
  k <> name -> assoc k (Map_set name h m) = assoc k m.
Proof.
  intros Hne. induction m as [|[k0 h'] rest IH]; cbn [Map_set assoc].
  - destruct (String.eqb name k) eqn:E; [apply String.eqb_eq in E; congruence | reflexivity].
  - destruct (String.eqb k0 name) eqn:E; cbn [assoc].
    + apply String.eqb_eq in E. subst k0.
      destruct (String.eqb name k) eqn:E'; [apply String.eqb_eq in E'; congruence | reflexivity].
    + destruct (String.eqb k0 k); [reflexivity | exact IH].
Qed.

Lemma keys_Map_set name h (m : HandlerMap) :
  map fst (Map_set name h m) =
  match assoc name m with
  | Some _ => map fst m
  | None => map fst m ++ [name]
  end.
Proof.
  induction m as [|[k h'] rest IH]; cbn [Map_set assoc map fst app]; [reflexivity|].
  destruct (String.eqb k name) eqn:E; cbn [map fst]; [reflexivity|].
  rewrite IH. now destruct (assoc name rest).
Qed.

Lemma assoc_app {A} k (l l' : list (string * A)) :
  assoc k (l ++ l') = match assoc k l with Some v => Some v | None => assoc k l' end.
Proof.
  induction l as [|[k0 v] l IH]; cbn [app assoc]; [reflexivity|].
  destruct (String.eqb k0 k); [reflexivity | exact IH].
Qed.

Lemma assoc_Object_insert_same name i h entries :
  assoc name entries = None -> assoc name (Object_insert name i h entries) = Some h.
Proof.
  induction entries as [|[k h'] rest IH]; cbn [Object_insert assoc].
  - now rewrite String.eqb_refl.
  - destruct (String.eqb k name) eqn:E; [discriminate|]. intros Hnone.
    destruct (property_index k) as [j|]; [destruct (Nat.ltb i j)|]; cbn [assoc];
      rewrite ?String.eqb_refl, ?E; auto.
Qed.

Lemma assoc_Object_insert_other k name i h entries :
  k <> name -> assoc k (Object_insert name i h entries) = assoc k entries.
Proof.
  intros Hne.
  assert (E : String.eqb name k = false) by (apply String.eqb_neq; congruence).
  induction entries as [|[k0 h'] rest IH]; cbn [Object_insert assoc].
  - now rewrite E.
  - destruct (property_index k0) as [j|]; [destruct (Nat.ltb i j)|]; cbn [assoc];
      rewrite ?E; try reflexivity.
    destruct (String.eqb k0 k); [reflexivity | exact IH].
Qed.

Lemma keys_Object_insert name i h entries k :
  In k (map fst (Object_insert name i h entries)) <-> k = name \/ In k (map fst entries).
Proof.
  induction entries as [|[k0 h'] rest IH]; cbn [Object_insert map fst In].
  - intuition congruence.
  - destruct (property_index k0) as [j|]; [destruct (Nat.ltb i j)|]; cbn [map fst In];
      rewrite ?IH; intuition congruence.
Qed.

Lemma NoDup_Object_insert name i h entries :
  ~ In name (map fst entries) -> NoDup (map fst entries) ->
  NoDup (map fst (Object_insert name i h entries)).
Proof.
  induction entries as [|[k0 h'] rest IH]; cbn [Object_insert map fst In]; intros Hnot Hnd.
  - repeat constructor. intros [].
  - inversion Hnd as [|? ? Hk0 Hrest]; subst.
    destruct (property_index k0) as [j|]; [destruct (Nat.ltb i j)|]; cbn [map fst].
    + constructor; [cbn [In]; tauto | exact Hnd].
    + constructor; [|apply IH; tauto].
      rewrite keys_Object_insert. intros [->|Hin]; tauto.
    + constructor; [cbn [In]; tauto | exact Hnd].
Qed.

Lemma Object_define_spec name h entries :
  assoc name entries = None ->
  NoDup (map fst entries) ->
  assoc name (Object_define name h entries) = Some h /\
  (forall k, k <> name -> assoc k (Object_define name h entries) = assoc k entries) /\
  NoDup (map fst (Object_define name h entries)).
Proof.
  intros E Hnd. unfold Object_define.
  pose proof (proj1 (assoc_none_keys name entries) E) as Hnot.
  destruct (property_index name) as [i|].
  - split; [now apply assoc_Object_insert_same|].
    split; [intros; now apply assoc_Object_insert_other|].
    now apply NoDup_Object_insert.
  - split; [rewrite assoc_app, E; cbn; now rewrite String.eqb_refl|]. split.
    + intros k Hne. rewrite assoc_app. destruct (assoc k entries); [reflexivity|].
      cbn. destruct (String.eqb name k) eqn:E'; [|reflexivity].
      apply String.eqb_eq in E'. congruence.
    + rewrite map_app. cbn [map fst].
      apply NoDup_app; [exact Hnd | repeat constructor; intros [] |].
      intros k Hin [<-|[]]. contradiction.
Qed.

Lemma Object_set_spec name h record record' :
  NoDup (map fst (record_entries record)) ->
  Object_set name h record = Some record' ->
  NoDup (map fst (record_entries record')) /\
  (forall k, k <> name ->
             assoc k (record_entries record') = assoc k (record_entries record)) /\
  (name <> "__proto__" -> assoc name (record_entries record') = Some h) /\
  (name = "__proto__" -> assoc name (record_entries record) = None ->
   record_entries record' = record_entries record /\ prototype_replaced record' = true).
Proof.
  intros Hnd. unfold Object_set.
  destruct (assoc name (record_entries record)) as [h'|] eqn:E.
  - intros [= <-]. cbn [record_entries prototype_replaced].
    split; [now rewrite keys_Map_set, E|].
    split; [intros; now apply assoc_Map_set_other|].
    split; [intros _; apply assoc_Map_set_same | discriminate].
  - destruct (String.eqb name "__proto__") eqn:Eproto.
    + apply String.eqb_eq in Eproto. intros [= <-].
      cbn [record_entries prototype_replaced]. splits; auto. contradiction.
    + apply String.eqb_neq in Eproto.
      destruct (prototype_replaced record && listed name function_read_only);
        [discriminate|].
      intros [= <-]. cbn [record_entries prototype_replaced].
      destruct (@Object_define_spec name h _ E Hnd) as (Hsame & Hother & Hnd').
      splits; auto. contradiction.
Qed.

End Handlers.

(** [X18] A tool registered on a workflow reaches the agents it creates:
    after [registerTool(name, handler)] the handler map of an agent built
    from the workflow's handlers answers [name] with [handler] and every
    other name as before, and it lists each name once, so no tool is
    offered to the model twice.  The name [__proto__] is the exception: the
    assignment then replaces the prototype of the record and creates no
    property, so that the agents are given the handlers they were given
    before, none of them under this name.  Registration throws in one case
    only: the name is one that functions hold read-only ([length], [name],
    [arguments], [caller]) and a handler has replaced the prototype of the
    record before; on a record that still has its prototype it never
    throws.  (The keys of the workflow's record are distinct, as those of an
    object are.) *)
Theorem registered_tool_reaches_agents name handler self :
  NoDup (map fst (record_entries (wf_toolHandlers self))) ->
  (forall self' cfg parent w agent w',
      registerTool name handler self = Some self' ->
      new_Agent cfg parent (Some (record_entries (wf_toolHandlers self'))) w
      = Some (Ok agent, w') ->
      NoDup (map fst (toolHandlers agent)) /\
      (forall k, k <> name ->
                 assoc k (toolHandlers agent)
                 = assoc k (record_entries (wf_toolHandlers self))) /\
      (name <> "__proto__" -> assoc name (toolHandlers agent) = Some handler) /\
      (name = "__proto__" ->
       assoc name (record_entries (wf_toolHandlers self)) = None ->
       toolHandlers agent = record_entries (wf_toolHandlers self) /\
       assoc name (toolHandlers agent) = None)) /\
  (prototype_replaced (wf_toolHandlers self) = false ->
   exists self', registerTool name handler self = Some self') /\
  (registerTool name handler self = None ->
   prototype_replaced (wf_toolHandlers self) = true /\ In name function_read_only).
Proof.
  intros Hnd. split; [|split].
  - intros self' cfg parent w agent w' Hreg E. unfold registerTool in Hreg.
    destruct (Object_set name handler (wf_toolHandlers self)) as [record|] eqn:Hset;
      [|discriminate Hreg].
    inversion Hreg; subst self'; clear Hreg. cbn [wf_toolHandlers] in E.
    destruct (@Object_set_spec _ _ _ _ Hnd Hset) as (Hnd' & Hother & Hsame & Hproto).
    assert (Hmap : toolHandlers agent = record_entries record).
    { unfold new_Agent in E. rewrite fold_Map_set in E by exact Hnd'. cbn [app] in E.
      unfold bind in E. destruct (id_or_fresh (ac_id cfg) w) as [[[id|e] w1]|];
        inversion E; subst. reflexivity. }
    rewrite Hmap. splits; auto.
    intros Hname Hnone. destruct (Hproto Hname Hnone) as [Hsame' _].
    rewrite Hsame'. split; [reflexivity | exact Hnone].
  - intros Hflag. unfold registerTool, Object_set. rewrite Hflag. cbn [andb].
    destruct (assoc name _); [eexists; reflexivity|].
    destruct (String.eqb name "__proto__"); eexists; reflexivity.
  - unfold registerTool, Object_set.
    destruct (assoc name _); [discriminate|].
    destruct (String.eqb name "__proto__"); [discriminate|].
    destruct (prototype_replaced (wf_toolHandlers self)); [|discriminate].
    cbn [andb]. destruct (listed name function_read_only) eqn:Hl; [|discriminate].
    intros _. split; [reflexivity|].
    unfold listed in Hl. apply existsb_exists in Hl. destruct Hl as (x & Hin & Hx).
    apply String.eqb_eq in Hx. now subst x.
Qed.

(** A tool registered on a fresh workflow, and then [__proto__]: the
    agent holds the first and not the second. *)
Lemma registered_tool_reaches_agents_witness :
  exists self' self'' agent w',
    registerTool "lookup" (fun _ => Ok (VStr "found")) (sample_workflow mock_client [])
    = Some self' /\
    registerTool "__proto__" (fun _ => Ok VNull) self' = Some self'' /\
    new_Agent (plain_agent "a1") None (Some (record_entries (wf_toolHandlers self'')))
              initial_world = Some (Ok agent, w') /\
    map fst (toolHandlers agent) = ["lookup"] /\
    assoc "__proto__" (toolHandlers agent) = None.
Proof.
  assert (Hrun : exists self' self'' agent w',
             registerTool "lookup" (fun _ => Ok (VStr "found"))
                          (sample_workflow mock_client []) = Some self' /\
             registerTool "__proto__" (fun _ => Ok VNull) self' = Some self'' /\
             new_Agent (plain_agent "a1") None
                       (Some (record_entries (wf_toolHandlers self'')))
                       initial_world = Some (Ok agent, w') /\
             map fst (toolHandlers agent) = ["lookup"] /\
             NoDup (map fst (record_entries (wf_toolHandlers self'))) /\
             assoc "__proto__" (record_entries (wf_toolHandlers self')) = None)
    by (eexists _, _, _, _; split; [reflexivity|]; split; [reflexivity|];
        split; [vm_compute; reflexivity|]; split; [reflexivity|];
        split; [repeat constructor; cbn; tauto | reflexivity]).
  destruct Hrun as (self' & self'' & agent & w' & H1 & H2 & E & Hkeys & Hnd & Hnone).
  exists self', self'', agent, w'. splits; auto.
  destruct (proj1 (@registered_tool_reaches_agents "__proto__" (fun _ => Ok VNull) self' Hnd)
                  self'' (plain_agent "a1") None initial_world agent w' H2 E)
    as (_ & _ & _ & Hproto).
  exact (proj2 (Hproto eq_refl Hnone)).
Defined.

(** ** The interpolation context *)

(** [X19] An input that is not an object is bound to the name [input]:
    the template [{{input}}] gives its text.  A [null] or [undefined] input
    is bound too, but the placeholder then stays as it is.  An object or an
    array is the context itself. *)
Theorem primitive_input_is_bound_to_input (v : value) :
  (is_object (Data v) = false ->
   interpolate "{{input}}" (build_context v)
   = match v with
     | VNull | VUndefined => Ok "{{input}}"
     | _ => js_String v
     end) /\
  (is_object (Data v) = true -> build_context v = v).
Proof.
  split.
  - intros Hv. destruct v; try discriminate Hv; try reflexivity.
    + destruct b; reflexivity.
    + vm_compute. unfold string_of_Z. now rewrite app_string_empty.
    + vm_compute. unfold string_of_Z. now rewrite app_string_empty.
    + vm_compute. now rewrite app_string_empty.
  - intros Hv. destruct v; try discriminate Hv; reflexivity.
Qed.

Lemma primitive_input_is_bound_to_input_witness :
  interpolate "{{input}}" (build_context (VStr "World")) = Ok "World".
Proof.
  exact (proj1 (primitive_input_is_bound_to_input (VStr "World")) eq_refl).
Defined.

(** ** Step results *)

Section StepNames.

Variable fuel : nat.
Variable self : AgentWorkflow.

Lemma steps_loop_names input sts :
  forall s,
    post (steps_loop fuel self input sts) s
      (fun r s' =>
         exists added,
           l_stepResults (fst s') = l_stepResults (fst s) ++ added /\
           map stepName added = firstn (List.length added) (map step_label sts) /\
           forall res, r = Ok res -> stepResults res = l_stepResults (fst s')).
Proof.
  induction sts as [|step sts IH]; intros s; cbn [steps_loop].
  - exec. exists []. rewrite app_nil_r. cbn [fst]. splits; auto.
    intros res [= <-]. reflexivity.
  - exec. intros r w1 E. destruct r as [sr|e].
    + apply executeStep_fail_fast in E. destruct E as (_ & Hname & _).
      exec. cbn [fst snd l_stepResults].
      destruct (step_error (agentResults sr)) as [stepError|].
      * exec. cbn [fst l_stepResults]. exists [sr]. cbn. rewrite Hname.
        splits; auto. intros res [= <-]. reflexivity.
      * eapply post_conseq; [apply IH|]. cbn [fst l_stepResults].
        intros r s2 (added & Hadd & Hnames & Hres). exists (sr :: added).
        rewrite Hadd, <- app_assoc. cbn [map List.length firstn app].
        rewrite Hname, Hnames. splits; auto.
        intros res Hr. rewrite (Hres res Hr), Hadd, <- app_assoc. reflexivity.
    + exists []. rewrite app_nil_r. cbn [fst]. splits; auto. discriminate.
Qed.

End StepNames.

(** [X20] The step results of a workflow run are those of the first
    steps configured, in order, each under the label of its step (its name,
    or [step-<id>], or [step-unknown]); this holds for a run that failed or
    caught an exception as well. *)
Theorem step_results_follow_the_steps fuel self input w r w' :
  Workflow_run fuel self input w = Some (r, w') ->
  exists res,
    r = Ok res /\
    map stepName (stepResults res)
    = firstn (List.length (stepResults res)) (map step_label (steps (workflowConfig self))) /\
    forall step,
      step_label step
      = match step_name step, step_id step with
        | Some name, _ => name
        | None, Some id => ("step-" ++ id)%string
        | None, None => "step-unknown"
        end.
Proof.
  intros E.
  assert (H : post (Workflow_run fuel self input) w
                (fun r _ =>
                   exists res, r = Ok res /\
                     map stepName (stepResults res)
                     = firstn (List.length (stepResults res))
                              (map step_label (steps (workflowConfig self))))).
  { unfold Workflow_run. exec.
    eapply post_conseq; [apply steps_loop_names|]. cbn [fst l_stepResults app].
    intros [res|e] s1 (added & Hadd & Hnames & Hres); cbv beta match.
    - exists res. split; [reflexivity|]. rewrite (Hres res eq_refl), Hadd. exact Hnames.
    - exec. eexists. split; [reflexivity|]. cbn [stepResults]. rewrite Hadd. exact Hnames. }
  destruct (H _ _ E) as (res & -> & Hnames). exists res. splits; auto.
  intros step. unfold step_label. destruct (step_name step), (step_id step); reflexivity.
Qed.

Lemma step_results_follow_the_steps_witness :
  exists res w',
    Workflow_run 0 (two_step_workflow error_client sample_model
                                      (plain_agent "a1") (plain_agent "a2"))
                 (VObj []) initial_world = Some (Ok res, w') /\
    map stepName (stepResults res)
    = firstn (List.length (stepResults res)) ["step1"; "step2"].
Proof.
  assert (Hrun : exists r w',
             Workflow_run 0 (two_step_workflow error_client sample_model
                                               (plain_agent "a1") (plain_agent "a2"))
                          (VObj []) initial_world = Some (r, w'))
    by (eexists _, _; vm_compute; reflexivity).
  destruct Hrun as (r & w' & E).
  destruct (@step_results_follow_the_steps 0 _ (VObj []) initial_world r w' E)
    as (res & Hr & Hnames & _).
  subst r. exists res, w'. split; [exact E | exact Hnames].
Defined.

(** ** Prompts without observable *)

(** [X21] A prompt instance created without an event observable publishes
    nothing: neither [run] nor a drained [runStreaming] adds an event. *)
Theorem silent_without_observable fuel client self w :
  pi_eventObservable self = false ->
  (forall r w', PromptInstance_run fuel client self w = Some (r, w') ->
                events w' = events w) /\
  (forall r w', PromptInstance_runStreaming client self w = Some (r, w') ->
                events w' = events w).
Proof.
  intros Hsilent.
  assert (Hpub : forall evs, published self evs = []) by (intros; unfold published; now rewrite Hsilent).
  split.
  - intros r w' E. pose proof (@PromptInstance_run_events self fuel client w _ _ E) as H.
    destruct r as [res|e].
    + destruct H as (_ & evs & Hev & _). now rewrite Hev, Hpub, app_nil_r.
    + destruct H as [-> _]. reflexivity.
  - intros r w' E. unfold PromptInstance_runStreaming in E. rewrite apply_hook_call in E.
    unfold bind at 1 in E. cbn [call] in E.
    destruct (hooked (prompt_hook self beforeCall) (pi_input self)) as [pin|e].
    + unfold bind at 1 in E. rewrite pi_emit_run in E.
      destruct (@stream_body_events client self pin _ _ _ E)
        as (ys & tokens & res & _ & _ & Hev & _).
      cbn [events] in Hev. now rewrite Hev, !Hpub, !app_nil_r.
    + now inversion E.
Qed.

Lemma silent_without_observable_witness :
  exists r w',
    PromptInstance_run 0 mock_client
      (mkPromptInstance (IdGiven "p1") (plain_prompt "test" "Hello") "claude-sonnet-4-5-20250929"
                        (VObj []) false [])
      initial_world = Some (r, w') /\
    events w' = events initial_world.
Proof.
  assert (Hrun : exists r w',
             PromptInstance_run 0 mock_client
               (mkPromptInstance (IdGiven "p1") (plain_prompt "test" "Hello")
                                 "claude-sonnet-4-5-20250929" (VObj []) false [])
               initial_world = Some (r, w'))
    by (eexists _, _; vm_compute; reflexivity).
  destruct Hrun as (r & w' & E). exists r, w'. split; [exact E|].
  exact (proj1 (@silent_without_observable 0 mock_client
                  (mkPromptInstance (IdGiven "p1") (plain_prompt "test" "Hello")
                                    "claude-sonnet-4-5-20250929" (VObj []) false [])
                  initial_world eq_refl) r w' E).
Defined.

(** ** The request of a reflection *)

Section ReflectionRequest.

Local Open Scope string_scope.

Lemma reflection_template_text a b c :
  interpolate (pc_user DEFAULT_REFLECTION_PROMPT)
              (VObj [("originalPrompt", VStr a); ("originalResult", VStr b);
                     ("error", VStr c)])
  = Ok (reflection_text a b c).
Proof.
  vm_compute. reflexivity.
Qed.

Lemma reflect_request fuel client self promptConfig failedResult model w :
  resolveModel self None = Ok model ->
  post (reflect fuel client self promptConfig failedResult None) w
    (fun _ w' =>
       exists more,
         calls w' = (calls w ++ reflection_request model promptConfig failedResult :: more)%list).
Proof.
  intros Hmodel. unfold reflect. exec. cbn [events calls nextId status]. rewrite Hmodel.
  exec. apply new_PromptInstance_is. intros id w1 _ Hcalls. exec.
  intros r w2 E.
  pose proof (@PromptInstance_run_events _ fuel client w1 _ _ E) as Hev.
  pose proof (@PromptInstance_run_transcript client _ fuel w1 _ _ E) as Htr.
  destruct r as [res|e].
  - destruct (Htr res eq_refl) as (pin & requests & _ & Hpin & Hcalls2 & Hconv & _).
    cbn in Hpin. inversion Hpin; subst pin. clear Hpin.
    unfold conversation in Hconv.
    match type of Hconv with
    | match run_texts ?inst ?input with _ => _ end =>
        assert (Htexts : run_texts inst input
                         = Ok (reflection_text (pc_user promptConfig)
                                               (pr_content failedResult)
                                               (String_opt_error (pr_error failedResult)),
                               pc_system DEFAULT_REFLECTION_PROMPT))
    end.
    { unfold run_texts. cbn [pi_config pi_input build_context].
      rewrite reflection_template_text. cbn [and_then].
      rewrite reflection_system_text by reflexivity. reflexivity. }
    cbn [pi_input] in Hconv. rewrite Htexts in Hconv. destruct Hconv as (more & -> & _).
    rewrite Hcalls in Hcalls2.
    exec. cbn [calls].
    destruct (agent_hook self onReflection) as [hook|]; exec;
      [destruct (hook failedResult res); [exec|]|]; cbn [calls]; now exists more.
  - destruct Hev as (_ & hook & Hhook & _). discriminate Hhook.
Qed.

End ReflectionRequest.

(** [X22] A reflection opens with one request in the name of the model
    resolved for the agent: the fixed system prompt, no tools, and a single
    user message that quotes the user template of the failed prompt as
    written (not interpolated), the content of the failed result and the
    text of its error.  What is quoted is inserted as it is, braces
    included. *)
Theorem reflection_request_quotes_the_failure
        fuel client self promptConfig failedResult model w r w' :
  resolveModel self None = Ok model ->
  reflect fuel client self promptConfig failedResult None w = Some (r, w') ->
  exists more,
    calls w' = calls w ++ reflection_request model promptConfig failedResult :: more.
Proof.
  intros Hmodel E.
  exact (@reflect_request fuel client self promptConfig failedResult model w Hmodel _ _ E).
Qed.

Lemma reflection_request_quotes_the_failure_witness :
  exists r w' more,
    reflect 0 error_client (reflecting_agent [plain_prompt "prompt1" "Hello {{name}}"])
            (plain_prompt "prompt1" "Hello {{name}}")
            (mkPromptResult EmptyString emptyTokenUsage [] [] (Some (JsError "API Error")) None)
            None initial_world = Some (r, w') /\
    calls w'
    = calls initial_world
      ++ reflection_request "claude-sonnet-4-5-20250929" (plain_prompt "prompt1" "Hello {{name}}")
           (mkPromptResult EmptyString emptyTokenUsage [] [] (Some (JsError "API Error")) None)
         :: more.
Proof.
  assert (Hrun : exists r w',
             reflect 0 error_client (reflecting_agent [plain_prompt "prompt1" "Hello {{name}}"])
                     (plain_prompt "prompt1" "Hello {{name}}")
                     (mkPromptResult EmptyString emptyTokenUsage [] []
                                     (Some (JsError "API Error")) None)
                     None initial_world = Some (r, w'))
    by (eexists _, _; vm_compute; reflexivity).
  destruct Hrun as (r & w' & E).
  destruct (@reflection_request_quotes_the_failure 0 error_client
              (reflecting_agent [plain_prompt "prompt1" "Hello {{name}}"])
              (plain_prompt "prompt1" "Hello {{name}}")
              (mkPromptResult EmptyString emptyTokenUsage [] [] (Some (JsError "API Error")) None)
              "claude-sonnet-4-5-20250929" initial_world r w' eq_refl E) as (more & Hcalls).
  exists r, w', more. split; [exact E | exact Hcalls].
Defined.

(** ** Tool events and tool-call records *)

Section Records.

Variable client : AnthropicClient.
Variable self : PromptInstance.

Lemma tool_events_records blocks :
  forall n, tool_events self n blocks = flat_map tool_call_events (tool_records self n blocks).
Proof.
  induction blocks as [|[t|bid name input|ty] blocks IH]; intros n;
    cbn [tool_events tool_records flat_map]; [reflexivity | apply IH | | apply IH].
  unfold tool_call_events at 1. cbn [tc_id toolName tc_input tc_output tc_error parentPromptId app].
  now rewrite IH.
Qed.

Lemma tool_loop_records systemContent tools_ fuel :
  forall msgs response l w,
    post (tool_loop fuel client self systemContent tools_ msgs response) (l, w)
      (fun _ s' =>
         exists added,
           toolCalls (fst s') = toolCalls l ++ added /\
           events (snd s') = events w ++ published self (flat_map tool_call_events added)).
Proof.
  assert (Hnil : forall l w, exists added,
               toolCalls l = toolCalls l ++ added /\
               events w = events w ++ published self (flat_map tool_call_events added)).
  { intros l w. exists []. unfold published. cbn.
    destruct (pi_eventObservable self); now rewrite !app_nil_r. }
  induction fuel as [|fuel IH]; intros msgs response l w; cbn [tool_loop];
    destruct (is_tool_use response).
  - apply post_diverge.
  - exec. apply Hnil.
  - exec. eapply post_run; [apply process_blocks_run|]. case_results.
    2:{ cbn [fst snd events toolCalls].
        exists (tool_records self (nextId w) (handled self (nextId w) (content response))).
        now rewrite <- tool_events_records. }
    exec. cbn [events calls nextId status]. case_call.
    + unfold add_usage. exec. eapply post_conseq; [apply IH|].
      cbn [fst snd events toolCalls]. intros _ s' (added & Hcalls & Hev).
      exists (tool_records self (nextId w) (handled self (nextId w) (content response))
              ++ added).
      rewrite Hcalls, Hev, flat_map_app, published_app, <- tool_events_records, !app_assoc.
      split; reflexivity.
    + cbn [fst snd events toolCalls].
      exists (tool_records self (nextId w) (handled self (nextId w) (content response))).
      now rewrite <- tool_events_records.
  - exec. apply Hnil.
Qed.

Lemma PromptInstance_run_records fuel w :
  prompt_hook self afterCall = None ->
  post (PromptInstance_run fuel client self) w
    (fun r w' =>
       forall res, r = Ok res ->
         exists processedInput,
           events w'
           = events w ++ published self
               (promptInstanceStart (pi_id self) (pc_name (pi_config self)) processedInput
                :: flat_map tool_call_events (pr_toolCalls res)
                ++ [promptInstanceEnd (pi_id self) (pc_name (pi_config self)) res
                      (pr_tokenUsage res)])).
Proof.
  intros Hhook. unfold PromptInstance_run. rewrite apply_hook_call. exec.
  destruct (hooked (prompt_hook self beforeCall) (pi_input self)) as [pin|e];
    cbv beta match; [|discriminate].
  exec. eapply post_run; [apply pi_emit_run|]. exec.
  assert (Hcatch : forall err l w1,
             events w1
             = events w ++ published self
                 (promptInstanceStart (pi_id self) (pc_name (pi_config self)) pin
                  :: flat_map tool_call_events (toolCalls l)) ->
             post (run_catch self err) (l, w1)
               (fun r s' =>
                  forall res, r = Ok res ->
                    exists processedInput,
                      events (snd s')
                      = events w ++ published self
                          (promptInstanceStart (pi_id self) (pc_name (pi_config self))
                                               processedInput
                           :: flat_map tool_call_events (pr_toolCalls res)
                           ++ [promptInstanceEnd (pi_id self) (pc_name (pi_config self)) res
                                 (pr_tokenUsage res)]))).
  { intros err l w1 Hev. eapply post_run; [apply run_catch_run|]. cbv zeta.
    cbn [snd events]. intros res [= <-]. exists pin. cbn [pr_toolCalls pr_tokenUsage].
    rewrite Hev, <- app_assoc, <- published_app. reflexivity. }
  apply post_run_try; [intros userContent systemContent Htexts | intros e Htexts].
  2:{ cbv beta match. apply Hcatch. cbn [toolCalls flat_map events]. reflexivity. }
  unfold run_calls. exec. cbn [events calls nextId status].
  case_call.
  - unfold add_usage. exec. eapply post_conseq; [apply tool_loop_records|].
    cbn [fst snd events toolCalls app].
    intros r [l1 w1] (added & Hcalls & Hev); cbn [fst snd] in *.
    assert (Hev1 : events w1
                   = events w ++ published self
                       (promptInstanceStart (pi_id self) (pc_name (pi_config self)) pin
                        :: flat_map tool_call_events (toolCalls l1))).
    { rewrite Hev, Hcalls, <- app_assoc, <- published_app. reflexivity. }
    destruct r as [response'|e]; cbv beta match; [|now apply Hcatch].
    exec. rewrite Hhook. cbn [apply_hook]. exec.
    eapply post_run; [apply pi_emit_run|]. exec. cbn [events].
    intros res [= <-]. exists pin. cbn [pr_toolCalls pr_tokenUsage].
    rewrite Hev1, <- app_assoc, <- published_app. reflexivity.
  - apply Hcatch. cbn [toolCalls flat_map events]. reflexivity.
Qed.

End Records.

(** [X23] The events of a prompt execution say what its result says
    (no [afterCall] hook being configured): between the start and the end
    event of the prompt lie, for each tool call listed in the result and in
    the same order, its start event and its end event, with the same id,
    name, input, output and error, and nothing else; the end event of the
    prompt carries the result returned. *)
Theorem tool_events_match_the_records fuel client self w res w' :
  prompt_hook self afterCall = None ->
  PromptInstance_run fuel client self w = Some (Ok res, w') ->
  exists processedInput,
    events w'
    = events w ++ published self
        (promptInstanceStart (pi_id self) (pc_name (pi_config self)) processedInput
         :: flat_map tool_call_events (pr_toolCalls res)
         ++ [promptInstanceEnd (pi_id self) (pc_name (pi_config self)) res
               (pr_tokenUsage res)]).
Proof.
  intros Hhook E.
  exact (@PromptInstance_run_records client self fuel w Hhook _ _ E res eq_refl).
Qed.

Lemma tool_events_match_the_records_witness :
  exists res w' processedInput,
    PromptInstance_run 3 scripted_client sample_instance initial_world = Some (Ok res, w') /\
    events w'
    = events initial_world ++ published sample_instance
        (promptInstanceStart (pi_id sample_instance) (pc_name (pi_config sample_instance))
                             processedInput
         :: flat_map tool_call_events (pr_toolCalls res)
         ++ [promptInstanceEnd (pi_id sample_instance) (pc_name (pi_config sample_instance))
               res (pr_tokenUsage res)]).
Proof.
  assert (Hrun : exists res w',
             PromptInstance_run 3 scripted_client sample_instance initial_world
             = Some (Ok res, w'))
    by (eexists _, _; vm_compute; reflexivity).
  destruct Hrun as (res & w' & E).
  destruct (@tool_events_match_the_records 3 scripted_client sample_instance initial_world
              res w' eq_refl E) as (pin & Hev).
  exists res, w', pin. split; [exact E | exact Hev].
Defined.

(** ** The requests of a workflow run *)

Section Requests.

Variable fuel : nat.
Variable client : AnthropicClient.
Variable models : list (option string).

Lemma PromptInstance_run_ok inst w :
  In (Some (resolvedModel inst)) models -> resolvedModel inst <> EmptyString ->
  post (PromptInstance_run fuel client inst) w
       (fun _ w' => made_since (ok_request models) (calls w) w').
Proof.
  intros Hin Hne r w' E.
  pose proof (@PromptInstance_run_events inst fuel client w _ _ E) as Hev.
  pose proof (@PromptInstance_run_transcript client inst fuel w _ _ E) as Htr.
  destruct r as [res|e].
  - destruct (Htr res eq_refl) as (pin & requests & _ & _ & Hcalls & Hconv & _).
    exists requests. split; [exact Hcalls|].
    unfold conversation in Hconv.
    destruct (run_texts inst pin) as [texts|e]; [|subst requests; constructor].
    destruct Hconv as (more & -> & Hmore).
    assert (Hfirst : well_formed_request inst (snd texts) (first_request inst texts)).
    { unfold well_formed_request, first_request. cbn. auto. }
    pose proof (follow_ups_well_formed _ _ _ _ Hfirst Hmore) as Hall.
    assert (Hwf : forall p, well_formed_request inst (snd texts) p -> ok_request models p).
    { intros p (Hm & Ht & _ & Hturns). unfold ok_request. rewrite Hm. auto. }
    constructor; [now apply Hwf|]. eapply Forall_impl; [exact Hwf | exact Hall].
  - destruct Hev as [-> _]. exists []. now rewrite app_nil_r.
Qed.

Variable self : Agent.

Hypothesis Hmodels : incl (agent_models (parentModel self) (config self)) models.

Lemma resolveModel_configured promptModel model :
  resolveModel self promptModel = Ok model ->
  model <> EmptyString /\
  In (Some model) [promptModel; ac_model (config self); parentModel self].
Proof.
  unfold resolveModel, nullish.
  destruct promptModel as [m|]; [|destruct (ac_model (config self)) as [m|];
                                  [|destruct (parentModel self) as [m|]]];
    try discriminate; destruct m; try discriminate; intros [= <-];
    (split; [discriminate | cbn; auto]).
Qed.

Lemma Agent_run_ok base input w :
  made_since (ok_request models) base w ->
  post (Agent_run fuel client self input) w
       (fun _ w' => made_since (ok_request models) base w').
Proof.
  apply Agent_run_made.
  - intros promptConfig id model pin w1 Hprompt Hmodel.
    destruct (resolveModel_configured _ Hmodel) as [Hne Hin].
    apply PromptInstance_run_ok; cbn [resolvedModel]; [|exact Hne].
    apply Hmodels. unfold agent_models. cbn [In] in *.
    destruct Hin as [H|[H|[H|[]]]];
      [right; right; rewrite <- H; now apply in_map | right; left; exact H | left; exact H].
  - intros id model pin w1 Hmodel.
    destruct (resolveModel_configured _ Hmodel) as [Hne Hin].
    apply PromptInstance_run_ok; cbn [resolvedModel]; [|exact Hne].
    apply Hmodels. unfold agent_models. cbn [In] in *.
    destruct Hin as [H|[H|[H|[]]]]; [discriminate H | right; left; exact H | left; exact H].
Qed.

End Requests.

Section WorkflowRequests.

Variable fuel : nat.
Variable self : AgentWorkflow.
Variable base : list MessageParams.

Lemma new_Agent_calls cfg parent handlers w (Q : Res Agent -> World -> Prop) :
  (forall id hs w', calls w' = calls w -> Q (Ok (mkAgent id cfg parent hs)) w') ->
  post (new_Agent cfg parent handlers) w Q.
Proof.
  intros H. unfold new_Agent, id_or_fresh. destruct (ac_id cfg); exec; apply H; reflexivity.
Qed.

Lemma agent_models_configured step cfg :
  In step (steps (workflowConfig self)) -> In cfg (agents step) ->
  incl (agent_models (defaultModel (workflowConfig self)) cfg) (workflow_models self).
Proof.
  intros Hstep Hcfg m [<-|Hm]; [now left|]. right.
  apply in_flat_map. exists step. split; [exact Hstep|].
  apply in_flat_map. exists cfg. split; [exact Hcfg | exact Hm].
Qed.

Lemma agents_loop_ok input cfgs :
  (forall cfg, In cfg cfgs ->
               incl (agent_models (defaultModel (workflowConfig self)) cfg)
                    (workflow_models self)) ->
  forall results w,
    made_since (ok_request (workflow_models self)) base w ->
    post (agents_loop fuel self input cfgs results) w
         (fun _ w' => made_since (ok_request (workflow_models self)) base w').
Proof.
  induction cfgs as [|cfg cfgs IH]; intros Hincl results w Hok; cbn [agents_loop];
    [exec; exact Hok|].
  exec. apply new_Agent_calls. intros id hs w1 Hcalls. exec.
  eapply post_conseq; [apply Agent_run_ok|].
  - cbn [parentModel config]. apply Hincl. now left.
  - eapply made_since_same; [exact Hok | exact Hcalls].
  - intros [res|e] w2 Hok2; cbv beta match; [|exact Hok2].
    destruct (agent_failed res); [exec; exact Hok2|].
    apply IH; [intros; apply Hincl; now right | exact Hok2].
Qed.

Lemma executeStep_ok step input w :
  In step (steps (workflowConfig self)) ->
  made_since (ok_request (workflow_models self)) base w ->
  post (executeStep fuel self step input) w
       (fun _ w' => made_since (ok_request (workflow_models self)) base w').
Proof.
  intros Hstep Hok. unfold executeStep. exec.
  eapply post_conseq;
    [apply agents_loop_ok; [intros; now apply agent_models_configured with (step := step)
                           | exact Hok]|].
  intros [rs|e] w1 Hok1; cbv beta match; [exec; exact Hok1 | exact Hok1].
Qed.

Lemma steps_loop_ok input sts :
  incl sts (steps (workflowConfig self)) ->
  forall s,
    made_since (ok_request (workflow_models self)) base (snd s) ->
    post (steps_loop fuel self input sts) s
         (fun _ s' => made_since (ok_request (workflow_models self)) base (snd s')).
Proof.
  induction sts as [|step sts IH]; intros Hincl s Hok; cbn [steps_loop]; [exec; exact Hok|].
  exec. eapply post_conseq; [apply executeStep_ok; [apply Hincl; now left | exact Hok]|].
  intros [sr|e] w1 Hok1; cbv beta match; [|exact Hok1].
  exec. destruct (step_error (agentResults sr)); [exec; exact Hok1|].
  apply IH; [intros x Hx; apply Hincl; now right | exact Hok1].
Qed.

End WorkflowRequests.

Lemma Workflow_run_ok fuel self input w :
  post (Workflow_run fuel self input) w
       (fun _ w' => made_since (ok_request (workflow_models self)) (calls w) w').
Proof.
  unfold Workflow_run. exec.
  eapply post_conseq; [apply (@steps_loop_ok fuel self (calls w)); [apply incl_refl|]|].
  - exists []. cbn [snd calls]. rewrite app_nil_r. split; [reflexivity | constructor].
  - intros [res|e] s1 Hok1; cbv beta match; [exact Hok1 | exec; exact Hok1].
Qed.


(** [X24] Whatever a workflow run does (steps, agents, retries, reflection,
    tool rounds, failures), it only adds requests to those already made, and
    each request it adds names a model found in the configuration (the
    workflow default, an agent's or a prompt's), never the empty string,
    asks for at most 4096 tokens, and carries a conversation that starts
    with the user and takes turns. *)
Theorem workflow_requests_name_configured_models fuel self input w r w' :
  Workflow_run fuel self input w = Some (r, w') ->
  exists made,
    calls w' = calls w ++ made /\ Forall (ok_request (workflow_models self)) made.
Proof.
  intros E. exact (@Workflow_run_ok fuel self input w _ _ E).
Qed.

Lemma workflow_requests_name_configured_models_witness :
  exists r w' made,
    Workflow_run 0 (two_step_workflow mock_client sample_model
                                      (plain_agent "a1") (plain_agent "a2"))
                 (VObj []) initial_world = Some (r, w') /\
    calls w' = calls initial_world ++ made /\
    Forall (ok_request (workflow_models
                          (two_step_workflow mock_client sample_model
                                             (plain_agent "a1") (plain_agent "a2")))) made.
Proof.
  assert (Hrun : exists r w',
             Workflow_run 0 (two_step_workflow mock_client sample_model
                                               (plain_agent "a1") (plain_agent "a2"))
                          (VObj []) initial_world = Some (r, w'))
    by (eexists _, _; vm_compute; reflexivity).
  destruct Hrun as (r & w' & E).
  destruct (@workflow_requests_name_configured_models 0 _ (VObj []) initial_world r w' E)
    as (made & Hcalls & Hmade).
  exists r, w', made. split; [exact E | split; [exact Hcalls | exact Hmade]].
Defined.
